(** * yolov8_pose: training and evaluation utilities ([utils/util.py])

    A shallow embedding of the box geometry, the matching and suppression
    routines, the average-precision integration, the task-aligned assigner
    and the distribution focal loss, with the properties of the
    specification proved (or refuted) against them.

    Tensor entries are modelled as real numbers: every function below is
    the exact-arithmetic reading of the floating-point code. *)

From Stdlib Require Import Reals Lra Lia List Bool Arith ZArith Permutation Sorted.
From Stdlib Require String.
Import ListNotations.

Open Scope R_scope.

(** ** Partial computations

    Python raises on an index out of range or a shape mismatch; the
    embedding returns [None] there. *)

Definition bind {A B : Type} (m : option A) (k : A -> option B) : option B :=
  match m with
  | Some a => k a
  | None => None
  end.

Notation "x <- m ;; k" := (bind m (fun x => k))
  (at level 61, m at next level, right associativity).

Fixpoint mapM {A B : Type} (f : A -> option B) (l : list A) : option (list B) :=
  match l with
  | [] => Some []
  | a :: l' =>
      b <- f a ;;
      bs <- mapM f l' ;;
      Some (b :: bs)
  end.

(** ** Comparisons on reals as booleans *)

Definition Rltb (x y : R) : bool := if Rlt_dec x y then true else false.
Definition Rleb (x y : R) : bool := if Rle_dec x y then true else false.
Definition Reqb (x y : R) : bool := if Req_dec_T x y then true else false.

(** [t.clamp(0)] *)
Definition clamp0 (x : R) : R := Rmax 0 x.

(** ** Tensors of rank two and a store of tensor objects

    A rank-two tensor is a list of rows.  [xy2wh] and [wh2xy] clone their
    argument and assign the four box columns of the clone one after the
    other, reading the argument each time; the store makes the clone and
    the column assignments explicit. *)

Definition row := list R.
Definition tensor := list row.

Fixpoint set_nth {A : Type} (k : nat) (v : A) (l : list A) : option (list A) :=
  match l, k with
  | [], _ => None
  | _ :: l', O => Some (v :: l')
  | a :: l', S k' => l'' <- set_nth k' v l' ;; Some (a :: l'')
  end.

(** [t[:, k]] *)
Definition get_col (k : nat) (t : tensor) : option (list R) :=
  mapM (fun r => nth_error r k) t.

(** [t[:, k] = v] *)
Fixpoint set_col (k : nat) (v : list R) (t : tensor) : option tensor :=
  match t, v with
  | [], [] => Some []
  | r :: t', x :: v' =>
      r' <- set_nth k x r ;;
      t'' <- set_col k v' t' ;;
      Some (r' :: t'')
  | _, _ => None
  end.

Module Store.

Definition addr := nat.
Definition store := list tensor.

Definition load (a : addr) (s : store) : option tensor := nth_error s a.

(** [x.clone()]: a new object with the argument's contents. *)
Definition clone (a : addr) (s : store) : option (addr * store) :=
  t <- load a s ;; Some (length s, s ++ [t]).

Definition update (a : addr) (t : tensor) (s : store) : option store :=
  set_nth a t s.

(** [y[:, k] = f(x)] where [f] reads columns of [x]. *)
Definition assign_col (y : addr) (k : nat) (f : tensor -> option (list R))
      (x : addr) (s : store) : option store :=
  tx <- load x s ;;
  v <- f tx ;;
  ty <- load y s ;;
  ty' <- set_col k v ty ;;
  update y ty' s.

End Store.

Definition zipWith {A B C : Type} (f : A -> B -> C) : list A -> list B -> list C :=
  fix go l1 l2 :=
    match l1, l2 with
    | a :: l1', b :: l2' => f a b :: go l1' l2'
    | _, _ => []
    end.

(** ** [xy2wh] and [wh2xy] *)

(** The four right-hand sides of [xy2wh], each a column computed from [x]. *)
Definition xy2wh_rhs (k : nat) (x : tensor) : option (list R) :=
  match k with
  | 0%nat => a <- get_col 0 x ;; b <- get_col 2 x ;; Some (zipWith (fun u v => (u + v) / 2) a b)
  | 1%nat => a <- get_col 1 x ;; b <- get_col 3 x ;; Some (zipWith (fun u v => (u + v) / 2) a b)
  | 2%nat => a <- get_col 2 x ;; b <- get_col 0 x ;; Some (zipWith (fun u v => u - v) a b)
  | _ => a <- get_col 3 x ;; b <- get_col 1 x ;; Some (zipWith (fun u v => u - v) a b)
  end.

Definition wh2xy_rhs (k : nat) (x : tensor) : option (list R) :=
  match k with
  | 0%nat => a <- get_col 0 x ;; b <- get_col 2 x ;; Some (zipWith (fun u v => u - v / 2) a b)
  | 1%nat => a <- get_col 1 x ;; b <- get_col 3 x ;; Some (zipWith (fun u v => u - v / 2) a b)
  | 2%nat => a <- get_col 0 x ;; b <- get_col 2 x ;; Some (zipWith (fun u v => u + v / 2) a b)
  | _ => a <- get_col 1 x ;; b <- get_col 3 x ;; Some (zipWith (fun u v => u + v / 2) a b)
  end.

(** The statements of the two functions, on the store. *)
Definition convert_st (rhs : nat -> tensor -> option (list R))
    (x : Store.addr) (s : Store.store) : option (Store.addr * Store.store) :=
  ys <- Store.clone x s ;;
  let '(y, s0) := ys in
  s1 <- Store.assign_col y 0 (rhs 0%nat) x s0 ;;
  s2 <- Store.assign_col y 1 (rhs 1%nat) x s1 ;;
  s3 <- Store.assign_col y 2 (rhs 2%nat) x s2 ;;
  s4 <- Store.assign_col y 3 (rhs 3%nat) x s3 ;;
  Some (y, s4).

Definition xy2wh_st := convert_st xy2wh_rhs.
Definition wh2xy_st := convert_st wh2xy_rhs.

(** What the two functions compute on one row: the value read back from
    the clone (proved equal to the store version below). *)
Definition xy2wh_row (r : row) : option row :=
  match r with
  | x0 :: x1 :: x2 :: x3 :: rest =>
      Some ((x0 + x2) / 2 :: (x1 + x3) / 2 :: x2 - x0 :: x3 - x1 :: rest)
  | _ => None
  end.

Definition wh2xy_row (r : row) : option row :=
  match r with
  | x0 :: x1 :: x2 :: x3 :: rest =>
      Some (x0 - x2 / 2 :: x1 - x3 / 2 :: x0 + x2 / 2 :: x1 + x3 / 2 :: rest)
  | _ => None
  end.

Definition xy2wh (t : tensor) : option tensor := mapM xy2wh_row t.
Definition wh2xy (t : tensor) : option tensor := mapM wh2xy_row t.

(** Total counterparts of [set_nth] and the column operations, used to
    state what the partial ones return when they succeed. *)
Fixpoint upd {A : Type} (k : nat) (v : A) (l : list A) : list A :=
  match l, k with
  | [], _ => []
  | _ :: l', O => v :: l'
  | a :: l', S k' => a :: upd k' v l'
  end.

(** The tensor [u] with column [k] replaced by [v]. *)
Definition put_col (k : nat) (u : tensor) (v : list R) : tensor :=
  zipWith (fun r a => upd k a r) u v.

Definition col_of (k : nat) (t : tensor) : list R := map (fun r => nth k r 0) t.

Definition wide (n : nat) (t : tensor) : Prop := Forall (fun r : row => (n <= length r)%nat) t.

(** The clone after the four column assignments, given the four assigned
    columns [vals k t]. *)
Definition assigned (vals : nat -> tensor -> list R) (t : tensor) : tensor :=
  let put k u := put_col k u (vals k t) in
  put 3%nat (put 2%nat (put 1%nat (put 0%nat t))).

Definition xy2wh_vals (k : nat) (t : tensor) : list R :=
  match k with
  | 0%nat => zipWith (fun u v => (u + v) / 2) (col_of 0 t) (col_of 2 t)
  | 1%nat => zipWith (fun u v => (u + v) / 2) (col_of 1 t) (col_of 3 t)
  | 2%nat => zipWith (fun u v => u - v) (col_of 2 t) (col_of 0 t)
  | _ => zipWith (fun u v => u - v) (col_of 3 t) (col_of 1 t)
  end.

Definition wh2xy_vals (k : nat) (t : tensor) : list R :=
  match k with
  | 0%nat => zipWith (fun u v => u - v / 2) (col_of 0 t) (col_of 2 t)
  | 1%nat => zipWith (fun u v => u - v / 2) (col_of 1 t) (col_of 3 t)
  | 2%nat => zipWith (fun u v => u + v / 2) (col_of 0 t) (col_of 2 t)
  | _ => zipWith (fun u v => u + v / 2) (col_of 1 t) (col_of 3 t)
  end.

(** One conversion followed by the other, on the store: the last object
    holds the argument's contents again and every object of the initial
    store, the argument included, is unchanged. *)
Definition round_trip
    (f g : Store.addr -> Store.store -> option (Store.addr * Store.store))
    (x : Store.addr) (s : Store.store) (t : tensor) : Prop :=
  exists y s1 z s2,
    f x s = Some (y, s1) /\ g y s1 = Some (z, s2) /\
    Store.load z s2 = Some t /\
    (forall a u, Store.load a s = Some u ->
                 Store.load a s1 = Some u /\ Store.load a s2 = Some u).

(** ** [compute_iou]

    The function works elementwise on the last axis; the embedding is its
    action on one pair of boxes, each cut into its four coordinates
    ([chunk(4, -1)]). *)

Record box : Type := Box { bx1 : R; by1 : R; bx2 : R; by2 : R }.

Definition eps7 : R := 1 / 10000000.

Section ComputeIou.

Variables box1 box2 : box.

Let b1_x1 := bx1 box1.
Let b1_y1 := by1 box1.
Let b1_x2 := bx2 box1.
Let b1_y2 := by2 box1.
Let b2_x1 := bx1 box2.
Let b2_y1 := by1 box2.
Let b2_x2 := bx2 box2.
Let b2_y2 := by2 box2.

Definition iou_w1 : R := b1_x2 - b1_x1.
Definition iou_h1 : R := b1_y2 - b1_y1 + eps7.
Definition iou_w2 : R := b2_x2 - b2_x1.
Definition iou_h2 : R := b2_y2 - b2_y1 + eps7.

(** Intersection area *)
Definition iou_inter : R :=
  clamp0 (Rmin b1_x2 b2_x2 - Rmax b1_x1 b2_x1) *
  clamp0 (Rmin b1_y2 b2_y2 - Rmax b1_y1 b2_y1).

(** Union area *)
Definition iou_union : R :=
  iou_w1 * iou_h1 + iou_w2 * iou_h2 - iou_inter + eps7.

(** The plain ratio, [iou = inter / union] in the source. *)
Definition iou_plain : R := iou_inter / iou_union.

Definition iou_cw : R := Rmax b1_x2 b2_x2 - Rmin b1_x1 b2_x1.
Definition iou_ch : R := Rmax b1_y2 b2_y2 - Rmin b1_y1 b2_y1.
Definition iou_c2 : R := iou_cw ^ 2 + iou_ch ^ 2 + eps7.
Definition iou_rho2 : R :=
  ((b2_x1 + b2_x2 - b1_x1 - b1_x2) ^ 2 + (b2_y1 + b2_y2 - b1_y1 - b1_y2) ^ 2) / 4.
Definition iou_v : R :=
  (4 / PI ^ 2) * (atan (iou_w2 / iou_h2) - atan (iou_w1 / iou_h1)) ^ 2.
Definition iou_alpha : R := iou_v / (iou_v - iou_plain + (1 + eps7)).

(** [return iou - (rho2 / c2 + v * alpha)  # CIoU] *)
Definition compute_iou : R :=
  iou_plain - (iou_rho2 / iou_c2 + iou_v * iou_alpha).

End ComputeIou.

(** Corner form: the first corner is not beyond the second. *)
Definition corner_form (b : box) : Prop := bx1 b <= bx2 b /\ by1 b <= by2 b.

(** Two boxes with no common point. *)
Definition disjoint (a b : box) : Prop :=
  bx2 a < bx1 b \/ bx2 b < bx1 a \/ by2 a < by1 b \/ by2 b < by1 a.

(** Two squares used as concrete inputs. *)
Definition unit_box : box := Box 0 0 1 1.
Definition far_box : box := Box 2 2 3 3.

(** ** [BoxLoss.df_loss] *)

(** [t.long()]: conversion to an integer truncates towards zero. *)
Definition long (t : R) : Z := if Rle_dec 0 t then Zfloor t else Zceil t.

Definition Rsum (l : list R) : R := fold_right Rplus 0 l.

(** [t.mean()] over a list of entries. *)
Definition mean (l : list R) : R := Rsum l / INR (length l).

(** The logarithm of the softmax normaliser of one row of logits. *)
Definition logsumexp (logits : list R) : R := ln (Rsum (map exp logits)).

(** [cross_entropy(input, target, reduction='none')] on one row of logits:
    minus the log-softmax at the target class.  A target equal to the
    default [ignore_index] (-100) contributes 0; any other target outside
    the classes is refused. *)
Definition cross_entropy (logits : list R) (target : Z) : option R :=
  if (target =? -100)%Z then Some 0
  else if ((0 <=? target) && (target <? Z.of_nat (length logits)))%Z
       then Some (logsumexp logits - nth (Z.to_nat target) logits 0)
       else None.

(** [cross_entropy] over a batch: one target per row, the same number of
    both. *)
Fixpoint cross_entropy_batch (input : list (list R)) (target : list Z)
    : option (list R) :=
  match input, target with
  | [], [] => Some []
  | p :: input', t :: target' =>
      l <- cross_entropy p t ;;
      ls <- cross_entropy_batch input' target' ;;
      Some (l :: ls)
  | _, _ => None
  end.

(** [x.view(shape)] for a flat [x] and the row lengths of a rank-two
    tensor, stopping short when the elements run out. *)
Fixpoint view_rows {A : Type} (lens : list nat) (x : list A) : list (list A) :=
  match lens with
  | [] => []
  | n :: lens' => firstn n x :: view_rows lens' (skipn n x)
  end.

Definition shape_of {A : Type} (t : list (list A)) : list nat := map (@length A) t.

Definition map2d {A B : Type} (f : A -> B) (t : list (list A)) : list (list B) :=
  map (map f) t.

Definition zip2d {A B C : Type} (f : A -> B -> C)
    (t : list (list A)) (u : list (list B)) : list (list C) :=
  zipWith (zipWith f) t u.

Definition df_loss (pred_dist : list (list R)) (target : tensor) : option (list R) :=
  let tl := map2d long target in                           (* target left *)
  let tr := map2d (fun z => (z + 1)%Z) tl in                (* target right *)
  let wl := zip2d (fun r t => IZR r - t) tr target in       (* weight left *)
  let wr := map2d (fun w => 1 - w) wl in                    (* weight right *)
  ll <- cross_entropy_batch pred_dist (concat tl) ;;
  let left_loss := view_rows (shape_of tl) ll in
  rl <- cross_entropy_batch pred_dist (concat tr) ;;
  let right_loss := view_rows (shape_of tl) rl in
  Some (map mean
          (zip2d Rplus (zip2d Rmult left_loss wl) (zip2d Rmult right_loss wr))).

(** The loss of one edge as the specification words it: the two
    bracketing bins of [t], each weighted by its proximity. *)
Definition ce (logits : list R) (bin : Z) : R :=
  logsumexp logits - nth (Z.to_nat bin) logits 0.

Definition dfl_edge (logits : list R) (t : R) : R :=
  (IZR (Zfloor t) + 1 - t) * ce logits (Zfloor t)
  + (t - IZR (Zfloor t)) * ce logits (Zfloor t + 1).

(** A target in the bin range of its logits: both bracketing bins exist. *)
Definition in_bins (logits : list R) (t : R) : Prop :=
  0 <= t /\ (Zfloor t + 1 < Z.of_nat (length logits))%Z.

(** ** Sorting and indexing, as numpy and torch provide them *)

Fixpoint insert_by {A : Type} (le : A -> A -> bool) (a : A) (l : list A) : list A :=
  match l with
  | [] => [a]
  | b :: l' => if le a b then a :: l else b :: insert_by le a l'
  end.

(** A stable sort: of two elements that compare equal, the one that came
    first stays first. *)
Definition sort_by {A : Type} (le : A -> A -> bool) (l : list A) : list A :=
  fold_right (insert_by le) [] l.

(** [keys.argsort()]: the indices that sort [keys] in ascending order.
    The order among equal keys is the stable one. *)
Definition argsort (keys : list R) : list nat :=
  map fst (sort_by (fun p q => Rleb (snd p) (snd q))
                   (combine (seq 0 (length keys)) keys)).

(** [a[idx]] for an index array [idx]. *)
Definition take {A : Type} (a : list A) (idx : list nat) : option (list A) :=
  mapM (nth_error a) idx.

(** ** [compute_ap] *)

Definition b2r (b : bool) : R := if b then 1 else 0.

(** [a.cumsum(0)], with the running total carried along. *)
Fixpoint cumsum_from (acc : R) (l : list R) : list R :=
  match l with
  | [] => []
  | x :: l' => (acc + x) :: cumsum_from (acc + x) l'
  end.

Definition cumsum (l : list R) : list R := cumsum_from 0 l.

(** [numpy.maximum.accumulate] *)
Fixpoint maximum_accumulate_from (m : R) (l : list R) : list R :=
  match l with
  | [] => []
  | x :: l' => Rmax m x :: maximum_accumulate_from (Rmax m x) l'
  end.

Definition maximum_accumulate (l : list R) : list R :=
  match l with
  | [] => []
  | x :: l' => x :: maximum_accumulate_from x l'
  end.

(** [numpy.linspace(0, 1, n + 1)] *)
Definition linspace01 (n : nat) : list R := map (fun k => INR k / INR n) (seq 0 (S n)).

(** [numpy.trapz(y, x)] *)
Fixpoint trapz (y x : list R) : R :=
  match y, x with
  | y0 :: ((y1 :: _) as y'), x0 :: ((x1 :: _) as x') =>
      (x1 - x0) * (y1 + y0) / 2 + trapz y' x'
  | _, _ => 0
  end.

(** The search of [numpy.interp] in the increasing sample points [arr]:
    [len] when the key is beyond the last point, -1 when it is before the
    first, and otherwise the index before the first point (from index 1
    on) that exceeds the key. *)
Fixpoint scan (key : R) (arr : list R) (i : nat) : nat :=
  match arr with
  | [] => i
  | a :: arr' => if Rleb a key then scan key arr' (S i) else i
  end.

Definition binary_search (key : R) (arr : list R) : Z :=
  match arr with
  | [] => -1
  | a0 :: rest =>
      if Rltb (last arr 0) key then Z.of_nat (length arr)
      else if Rltb key a0 then -1
      else Z.of_nat (scan key rest 1) - 1
  end.

(** [numpy.interp(x, xp, fp, left=l)] at one point [x]; [right] is left
    at its default, the last value. *)
Definition interp1 (left : R) (xp fp : list R) (x : R) : R :=
  let j := binary_search x xp in
  let len := Z.of_nat (length xp) in
  if (j =? -1)%Z then left
  else if (j =? len)%Z then last fp 0
  else
    let k := Z.to_nat j in
    if (j =? len - 1)%Z then nth k fp 0
    else if Reqb (nth k xp 0) x then nth k fp 0
    else
      let slope := (nth (S k) fp 0 - nth k fp 0) / (nth (S k) xp 0 - nth k xp 0) in
      slope * (x - nth k xp 0) + nth k fp 0.

Definition interp (left : R) (x xp fp : list R) : list R := map (interp1 left xp fp) x.

Definition eps16 : R := 1 / 10000000000000000.

(** The body of the loop over the threshold columns: the area under the
    precision envelope, by the 101-point rule. *)
Definition average_precision (recall precision : list R) : R :=
  let m_rec := [0] ++ recall ++ [1] in
  let m_pre := [1] ++ precision ++ [0] in
  (* Compute the precision envelope *)
  let m_pre := rev (maximum_accumulate (rev m_pre)) in
  (* Integrate area under curve *)
  let x := linspace01 100 in
  trapz (interp (nth 0 m_pre 0) x m_rec m_pre) x.

(** [numpy.unique(a, return_counts=True)]: the sorted distinct values,
    each with its number of occurrences. *)
Fixpoint count_into (c : Z) (l : list (Z * nat)) : list (Z * nat) :=
  match l with
  | [] => [(c, 1%nat)]
  | (d, n) :: l' =>
      if (c <? d)%Z then (c, 1%nat) :: l
      else if (c =? d)%Z then (d, S n) :: l'
      else (d, n) :: count_into c l'
  end.

Definition unique_counts (l : list Z) : list (Z * nat) := fold_right count_into [] l.

(** One detection after the sort: its row of [tp], its confidence and its
    class. *)
Definition detection : Type := (list bool * R * Z)%type.

Definition det_tp (d : detection) : list bool := fst (fst d).
Definition det_cls (d : detection) : Z := snd d.

(** Column [j] of the rows of [tp]. *)
Definition tp_column (j : nat) (rows : list (list bool)) : option (list R) :=
  mapM (fun r => option_map b2r (nth_error r j)) rows.

(** One class of the loop: its row of [ap], over the [niou] threshold
    columns.  A class with no detection or no label keeps its zeros. *)
Definition ap_of_class (niou : nat) (dets : list detection) (c : Z) (nl : nat)
    : option (list R) :=
  let rows := map det_tp (filter (fun d => (det_cls d =? c)%Z) dets) in
  let no := length rows in
  if ((no =? 0) || (nl =? 0))%nat then Some (repeat 0 niou)
  else
    mapM (fun j =>
            col <- tp_column j rows ;;
            (* Accumulate FPs and TPs *)
            let fpc := cumsum (map (fun t => 1 - t) col) in
            let tpc := cumsum col in
            let recall := map (fun t => t / (INR nl + eps16)) tpc in
            let precision := zipWith (fun t f => t / (t + f)) tpc fpc in
            Some (average_precision recall precision))
         (seq 0 niou).

(** [compute_ap], as far as the [ap] matrix and the two means derived from
    it: [(ap, map50, mean_ap)].  [niou] is [tp.shape[1]].  The precision,
    recall and F1 curves at the 1000 confidence points feed the other
    returned values only and are left out. *)
Definition compute_ap (niou : nat) (tp : list (list bool)) (conf : list R)
    (pred_cls target_cls : list Z) : option (list (list R) * R * R) :=
  (* Sort by object-ness *)
  let i := argsort (map Ropp conf) in
  tp' <- take tp i ;;
  conf' <- take conf i ;;
  pred_cls' <- take pred_cls i ;;
  let dets := combine (combine tp' conf') pred_cls' in
  (* Find unique classes *)
  let classes := unique_counts target_cls in
  ap <- mapM (fun cn => ap_of_class niou dets (fst cn) (snd cn)) classes ;;
  ap50 <- mapM (fun r => nth_error r 0) ap ;;
  Some (ap, mean ap50, mean (map mean ap)).

(** The recall curve of [n] true positives against [n] labels. *)
Definition perfect_recall (n : nat) : list R :=
  map (fun k => (0 + INR k) / (INR n + eps16)) (seq 1 n).

(** The number of entries of [l] equal to [c], as [(l == c).sum()]. *)
Definition count_of (c : Z) (l : list Z) : nat :=
  length (filter (fun z => (z =? c)%Z) l).

(** The count recorded for [c] in the result of [unique_counts]. *)
Fixpoint lookup (c : Z) (L : list (Z * nat)) : nat :=
  match L with
  | [] => 0%nat
  | (d, n) :: L' => if (d =? c)%Z then n else lookup c L'
  end.

Definition key_lt (p q : Z * nat) : Prop := (fst p < fst q)%Z.

(** The detection read at index [d] of the three arrays. *)
Definition det_at (tp : list (list bool)) (conf : list R) (pred_cls : list Z)
    (d : nat) : detection :=
  (nth d tp [], nth d conf 0, nth d pred_cls 0%Z).

(** The rows of [tp] that the loop selects for class [c], in the sorted
    order. *)
Definition class_rows (tp : list (list bool)) (conf : list R) (pred_cls : list Z)
    (c : Z) : list (list bool) :=
  map det_tp
      (filter (fun d => (det_cls d =? c)%Z)
              (map (det_at tp conf pred_cls) (argsort (map Ropp conf)))).

(** ** [compute_metric] *)

Definition KPT_SIGMA : list R :=
  map (fun s => s / 10)
      [26 / 100; 25 / 100; 25 / 100; 35 / 100; 35 / 100; 79 / 100; 79 / 100;
       72 / 100; 72 / 100; 62 / 100; 62 / 100; 107 / 100; 107 / 100;
       87 / 100; 87 / 100; 89 / 100; 89 / 100].

(** The four entries of a row from column [k] on, as a box. *)
Definition row_box (k : nat) (r : row) : option box :=
  x1 <- nth_error r k ;;
  y1 <- nth_error r (k + 1) ;;
  x2 <- nth_error r (k + 2) ;;
  y2 <- nth_error r (k + 3) ;;
  Some (Box x1 y1 x2 y2).

(** The box branch: [intersection / (area1 + area2 - intersection + 1e-7)]
    for one label row and one detection row. *)
Definition box_iou (a b : box) : R :=
  let intersection :=
    clamp0 (Rmin (bx2 a) (bx2 b) - Rmax (bx1 a) (bx1 b)) *
    clamp0 (Rmin (by2 a) (by2 b) - Rmax (by1 a) (by1 b)) in
  intersection /
  ((bx2 a - bx1 a) * (by2 a - by1 a) + (bx2 b - bx1 b) * (by2 b - by1 b)
   - intersection + eps7).

(** A keypoint is [(x, y, visibility)]. *)
Definition keypoint : Type := (R * R * R)%type.

Definition kx (p : keypoint) : R := fst (fst p).
Definition ky (p : keypoint) : R := snd (fst p).
Definition kv (p : keypoint) : R := snd p.

Fixpoint zipWith3 {A B C D : Type} (f : A -> B -> C -> D)
    (l1 : list A) (l2 : list B) (l3 : list C) : list D :=
  match l1, l2, l3 with
  | a :: l1', b :: l2', c :: l3' => f a b c :: zipWith3 f l1' l2' l3'
  | _, _, _ => []
  end.

(** The keypoint branch: the object keypoint similarity of one label, of
    box [a] and keypoints [true_kpt], and one detection's keypoints, one
    keypoint for each of the 17 sigmas.  Another number of keypoints does
    not combine with the sigmas; the code then raises, or broadcasts a
    single keypoint, and no value is given here. *)
Definition oks (a : box) (true_kpt pred_kpt : list keypoint) : option R :=
  if ((length true_kpt =? length KPT_SIGMA)%nat
      && (length pred_kpt =? length KPT_SIGMA)%nat)
  then
    let area := (bx2 a - bx1 a) * (by2 a - by1 a) * (53 / 100) in
    let kpt_mask := map (fun p => if Reqb (kv p) 0 then 0 else 1) true_kpt in
    let e :=
      zipWith3 (fun t p sigma =>
                  ((kx t - kx p) ^ 2 + (ky t - ky p) ^ 2)
                  / (2 * sigma) ^ 2 / (area + eps7) / 2)
               true_kpt pred_kpt KPT_SIGMA in
    Some (Rsum (zipWith (fun ek m => exp (- ek) * m) e kpt_mask)
          / (Rsum kpt_mask + eps7))
  else None.

(** The keypoints of the caller: one set for each label and for each
    detection, of one keypoint for each sigma. *)
Definition keypoints_fit (output target : tensor)
    (pred_kpt true_kpt : list (list keypoint)) : bool :=
  (length true_kpt =? length target)%nat
  && (length pred_kpt =? length output)%nat
  && forallb (fun k => (length k =? length KPT_SIGMA)%nat) true_kpt
  && forallb (fun k => (length k =? length KPT_SIGMA)%nat) pred_kpt.

(** One row of [matches]: [label, detect, iou]. *)
Record match_row : Type := Match { m_label : nat; m_detect : nat; m_iou : R }.

(** [torch.where((iou >= thr) & (target[:, 0:1] == output[:, 5]))] with the
    similarity of each pair: the pairs in row-major order. *)
Definition candidates (iou : list (list R)) (target_cls output_cls : list R)
    (thr : R) : list match_row :=
  concat
    (map (fun l =>
            concat
              (map (fun d =>
                      let v := nth d (nth l iou []) 0 in
                      if Rleb thr v && Reqb (nth l target_cls 0) (nth d output_cls 0)
                      then [Match l d v] else [])
                   (seq 0 (length output_cls))))
         (seq 0 (length target_cls))).

(** [rows[numpy.unique(rows[:, k], return_index=True)[1]]]: for each
    distinct key, in increasing order of the keys, the first row that has
    it. *)
Fixpoint keep_first {A : Type} (key : A -> nat) (a : A) (L : list A) : list A :=
  match L with
  | [] => [a]
  | b :: L' =>
      if (key a <? key b)%nat then a :: L
      else if (key a =? key b)%nat then a :: L'
      else b :: keep_first key a L'
  end.

Definition unique_rows {A : Type} (key : A -> nat) (rows : list A) : list A :=
  fold_right (keep_first key) [] rows.

(** [matches[matches[:, 2].argsort()[::-1]]] *)
Definition by_iou_descending (matches : list match_row) : list match_row :=
  rev (sort_by (fun p q => Rleb (m_iou p) (m_iou q)) matches).

(** The matches after the first de-duplication, on the detection column. *)
Definition per_detection (matches : list match_row) : list match_row :=
  unique_rows m_detect (by_iou_descending matches).

(** The matches of one threshold whose detections are marked correct. *)
Definition accepted_matches (cands : list match_row) : list match_row :=
  if (1 <? length cands)%nat
  then unique_rows m_label (per_detection cands)
  else cands.

(** The similarity matrix, labels by detections.  In the keypoint
    branch the tensors are combined by broadcasting; the shapes covered
    are those of the caller, and any other is refused. *)
Definition similarity (output target : tensor)
    (kpt : option (list (list keypoint) * list (list keypoint)))
    : option (list (list R)) :=
  match kpt with
  | Some (pred_kpt, true_kpt) =>
      if keypoints_fit output target pred_kpt true_kpt
      then
        mapM (fun tk =>
                a <- row_box 1 (fst tk) ;;
                mapM (oks a (snd tk)) pred_kpt)
             (combine target true_kpt)
      else None
  | None =>
      mapM (fun t =>
              a <- row_box 1 t ;;
              mapM (fun o => b <- row_box 0 o ;; Some (box_iou a b)) output)
           target
  end.

(** [compute_metric]: the matrix [correct], detections by thresholds. *)
Definition compute_metric (output target : tensor) (iou_v : list R)
    (kpt : option (list (list keypoint) * list (list keypoint)))
    : option (list (list bool)) :=
  iou <- similarity output target kpt ;;
  target_cls <- get_col 0 target ;;
  output_cls <- get_col 5 output ;;
  let accepted :=
    map (fun thr => accepted_matches (candidates iou target_cls output_cls thr)) iou_v in
  Some (map (fun d =>
               map (fun ms => existsb (fun m => (m_detect m =? d)%nat) ms) accepted)
            (seq 0 (length output))).

(** A ground truth and two detections of its class that both overlap it,
    the second more than the first. *)
Definition metric_target : tensor := [[0; 0; 0; 10; 10]].
Definition metric_output : tensor :=
  [[0; 0; 10; 6; 9 / 10; 0]; [0; 0; 10; 9; 8 / 10; 0]].

(** ** [non_max_suppression] *)

(** A rank-two tensor together with its number of columns, which a tensor
    of zero rows still has. *)
Record table : Type := Table { t_cols : nat; t_rows : list row }.

Definition max_wh : R := 7680.
Definition max_det : nat := 300.
Definition max_nms : nat := 100 * 300.   (* 30000 *)


(** The overlap ratio of [torchvision.ops.nms]: no epsilon. *)
Definition nms_iou (a b : box) : R :=
  let inter :=
    clamp0 (Rmin (bx2 a) (bx2 b) - Rmax (bx1 a) (bx1 b)) *
    clamp0 (Rmin (by2 a) (by2 b) - Rmax (by1 a) (by1 b)) in
  inter /
  ((bx2 a - bx1 a) * (by2 a - by1 a) + (bx2 b - bx1 b) * (by2 b - by1 b) - inter).

(** One step of the greedy pass: box [i] is kept unless a box kept before
    it overlaps it by more than the threshold. *)
Definition nms_step (boxes : list box) (thr : R) (kept : list nat) (i : nat) : list nat :=
  if existsb (fun k => Rltb thr (nms_iou (nth k boxes (Box 0 0 0 0))
                                         (nth i boxes (Box 0 0 0 0)))) kept
  then kept else kept ++ [i].

(** [torchvision.ops.nms(boxes, scores, iou_threshold)]: the indices kept,
    in decreasing order of score. *)
Definition nms (boxes : list box) (scores : list R) (thr : R) : list nat :=
  fold_left (nms_step boxes thr) (argsort (map Ropp scores)) [].

(** [x.transpose(0, -1)] of a [ch] by [n] image: one row per anchor. *)
Definition transpose (n : nat) (img : list (list R)) : list row :=
  map (fun a => map (fun chan => nth a chan 0) img) (seq 0 n).

(** [t.amax()] of a non-empty list. *)
Definition amax (l : list R) : option R :=
  match l with
  | [] => None
  | x :: l' => Some (fold_left Rmax l' x)
  end.

(** [t.max()] with the index of the first maximal value. *)
Fixpoint max_with_index_from (best : R) (bi : nat) (i : nat) (l : list R) : R * nat :=
  match l with
  | [] => (best, bi)
  | x :: l' =>
      if Rltb best x then max_with_index_from x i (S i) l'
      else max_with_index_from best bi (S i) l'
  end.

Definition max_with_index (l : list R) : option (R * nat) :=
  match l with
  | [] => None
  | x :: l' => Some (max_with_index_from x 0 1 l')
  end.

Section NonMaxSuppression.

(** [ch] and [n] are [outputs.shape[1]] and [outputs.shape[2]]; the clock
    is read once before the loop ([t0]) and once at the end of the
    iteration of each image that reaches it ([clock index]). *)
Variables (ch n : nat) (conf_threshold iou_threshold : R) (nc_arg : nat).
Variables (t0 : R) (clock : nat -> R).

(** [nc = nc or (outputs.shape[1] - 4)] *)
Definition nms_nc : nat := if (nc_arg =? 0)%nat then (ch - 4)%nat else nc_arg.

(** [nm = outputs.shape[1] - nc - 4], which may be negative. *)
Definition nms_nm : Z := (Z.of_nat ch - Z.of_nat nms_nc - 4)%Z.

(** [mi = 4 + nc] *)
Definition nms_mi : nat := (4 + nms_nc)%nat.

(** [xc[index]]: per anchor, whether the largest class score exceeds the
    threshold.  The slice [4:mi] stops at the last channel. *)
Definition candidate_mask (img : list (list R)) : option (list bool) :=
  mapM (fun a =>
          m <- amax (map (fun chan => nth a chan 0)
                         (firstn (nms_mi - 4) (skipn 4 img))) ;;
          Some (Rltb conf_threshold m))
       (seq 0 n).

Fixpoint select {A : Type} (l : list A) (mask : list bool) : list A :=
  match l, mask with
  | a :: l', b :: mask' => if b then a :: select l' mask' else select l' mask'
  | _, _ => []
  end.

(** [x.split((4, nc, nm), 1)] on one row: the sizes must add up to the
    width. *)
Definition split_row (r : row) : option (row * row * row) :=
  if (0 <=? nms_nm)%Z && (length r =? 4 + nms_nc + Z.to_nat nms_nm)%nat
  then Some (firstn 4 r, firstn nms_nc (skipn 4 r), skipn (4 + nms_nc) r)
  else None.

(** The rows of the detections matrix of one candidate, once its box is in
    corner form. *)
Definition detection_rows (box cls mask : row) : option (list row) :=
  if (1 <? nms_nc)%nat
  then
    (* one row per class above the threshold *)
    Some (concat
            (map (fun j =>
                    let s := nth j cls 0 in
                    if Rltb conf_threshold s then [box ++ [s; INR j] ++ mask] else [])
                 (seq 0 (length cls))))
  else
    (* best class only *)
    cj <- max_with_index cls ;;
    let '(conf, j) := cj in
    Some (if Rltb conf_threshold conf then [box ++ [conf; INR j] ++ mask] else []).

(** The body of the loop for one image, up to the assignment to
    [output[index]]: [Some None] when the image is passed over by a
    [continue].  The detections matrix is the concatenation of the box (4
    columns), the confidence, the class and the mask ([nm] columns). *)
Definition nms_image (img : list (list R)) (xc : list bool) : option (option table) :=
  let x := select (transpose n img) xc in
  if (length x =? 0)%nat then Some None
  else
    parts <- mapM split_row x ;;
    x <- mapM (fun p =>
                 let '(box, cls, mask) := p in
                 box <- wh2xy_row box ;;
                 detection_rows box cls mask)
              parts ;;
    let x := concat x in
    if (length x =? 0)%nat then Some None
    else
      (* sort by confidence and remove excess boxes *)
      x <- take x (firstn max_nms (argsort (map (fun r => - nth 4 r 0) x))) ;;
      (* Batched NMS *)
      let c := map (fun r => nth 5 r 0 * max_wh) x in
      let boxes :=
        zipWith (fun r c => Box (nth 0 r 0 + c) (nth 1 r 0 + c)
                                (nth 2 r 0 + c) (nth 3 r 0 + c)) x c in
      let scores := map (fun r => nth 4 r 0) x in
      let i := nms boxes scores iou_threshold in
      let i := firstn max_det i in
      x <- take x i ;;
      Some (Some (Table (4 + 1 + 1 + Z.to_nat nms_nm) x)).

(** The loop over the images, with its [break]. *)
Fixpoint nms_loop (time_limit : R) (blank : table) (index : nat)
    (imgs : list (list (list R))) (xcs : list (list bool)) : option (list table) :=
  match imgs, xcs with
  | [], _ => Some []
  | img :: imgs', xc :: xcs' =>
      r <- nms_image img xc ;;
      match r with
      | None =>
          rest <- nms_loop time_limit blank (S index) imgs' xcs' ;;
          Some (blank :: rest)
      | Some out =>
          if Rltb time_limit (clock index - t0)
          then Some (out :: map (fun _ => blank) imgs')   (* time limit exceeded *)
          else
            rest <- nms_loop time_limit blank (S index) imgs' xcs' ;;
            Some (out :: rest)
      end
  | _ :: _, [] => None
  end.

(** [amax] over the class channels is refused when the slice [4:mi] is
    empty, that is when there are no more than four channels; [zeros] is
    refused for a negative width. *)
Definition non_max_suppression (outputs : list (list (list R))) : option (list table) :=
  let bs := length outputs in
  if (ch <=? 4)%nat then None
  else
    xc <- mapM candidate_mask outputs ;;
    (* Settings *)
    let time_limit := 5 / 10 + 5 / 100 * INR bs in
    if (6 + nms_nm <? 0)%Z then None
    else
      let blank := Table (Z.to_nat (6 + nms_nm)) [] in
      nms_loop time_limit blank 0 outputs xc.

End NonMaxSuppression.

(** An input of the stated shape: [bs] images of [ch] channels by [n]
    anchors. *)
Definition image_shape (ch n : nat) (img : list (list R)) : Prop :=
  length img = ch /\ Forall (fun chan => length chan = n) img.

(** A batch of one image with one anchor, a box of centre (5, 5) and size
    10 by 10, and two classes scored 0.9 and 0.8. *)
Definition nms_example_img : list (list R) :=
  [[5]; [5]; [10]; [10]; [9 / 10]; [8 / 10]].

Definition nms_example : list (list (list R)) := [nms_example_img].


(** The table the run assigns to the image of [nms_example]. *)
Definition nms_example_table : table :=
  Table 6 [[0; 0; 10; 10; 9 / 10; 0]; [0; 0; 10; 10; 8 / 10; 1]].

(** ** [Assigner.forward] *)

(** The values a Python tuple of tensors holds: tensors of reals, of
    booleans and of indices, of rank two or three. *)
Inductive value : Type :=
  | VReal2 (t : list (list R))
  | VReal3 (t : list (list (list R)))
  | VBool2 (t : list (list bool))
  | VLong2 (t : list (list nat)).

(** One image of the batch: class scores and boxes predicted at the
    anchors; labels, boxes and validity of the padded ground truths.
    Labels are class indices ([gt_labels.long()]); [mask_gt] holds 0.0 or
    1.0, read here as a boolean. *)
Record image : Type := Image {
  pd_scores : list (list R);
  pd_bboxes : list box;
  gt_labels : list nat;
  gt_bboxes : list box;
  mask_gt : list bool
}.

Definition eps9 : R := 1 / 1000000000.

(** [x.pow(a)] where it is a real number: a negative base with an
    exponent that is not an integer gives [nan], and base 0 with a
    negative exponent gives [inf]. *)
Definition torch_pow (x a : R) : option R :=
  if Rltb 0 x then Some (Rpower x a)
  else if Reqb x 0 then
    (if Reqb a 0 then Some 1 else if Rltb 0 a then Some 0 else None)
  else if Reqb a (IZR (Zfloor a)) then Some (powerRZ x (Zfloor a)) else None.

(** [[f g a for a in range(na)] for g in range(ng)] *)
Definition tabulate2 {A : Type} (ng na : nat) (f : nat -> nat -> A) : list (list A) :=
  map (fun g => map (fun a => f g a) (seq 0 na)) (seq 0 ng).

Definition at2 (m : list (list R)) (g a : nat) : R := nth a (nth g m []) 0.

(** [m.sum(-2)] and [m.argmax(-2)] at anchor [a]: over the ground truths. *)
Definition column (m : list (list R)) (a : nat) : list R :=
  map (fun r => nth a r 0) m.

(** [t.argmax()]: the index of the first maximal value. *)
Definition argmax (l : list R) : nat :=
  match max_with_index l with
  | Some (_, i) => i
  | None => 0%nat
  end.

(** The value of an [int8] counter after [n] increments from 0. *)
Definition wrap8 (n : nat) : Z := ((Z.of_nat n + 128) mod 256 - 128)%Z.

(** [torch.topk(v, k, largest=True)]: the indices of the [k] largest
    entries, largest first; refused when [k] exceeds the length. *)
Definition topk (k : nat) (v : list R) : option (list nat) :=
  if (k <=? length v)%nat then Some (firstn k (argsort (map Ropp v))) else None.

Section Assigner.

Variables (top_k num_classes : nat) (alpha beta : R).
Variable anc_points : list (R * R).
Variable max_boxes : nat.

Definition n_anchors : nat := length anc_points.

Section OneImage.

Variable img : image.

Definition gt_box (g : nat) : box := nth g (gt_bboxes img) (Box 0 0 0 0).
Definition pd_box (a : nat) : box := nth a (pd_bboxes img) (Box 0 0 0 0).
Definition valid_gt (g : nat) : bool := nth g (mask_gt img) false.

(** [mask_in_gts]: the anchor point lies inside the box, each distance to
    an edge above 1e-9. *)
Definition in_gts (g a : nat) : bool :=
  let p := nth a anc_points (0, 0) in
  let b := gt_box g in
  Rltb eps9 (Rmin (Rmin (fst p - bx1 b) (snd p - by1 b))
                  (Rmin (bx2 b - fst p) (by2 b - snd p))).

Definition true_mask (g a : nat) : bool := in_gts g a && valid_gt g.

(** [pd_scores[index[0], :, index[1]]]: for each ground truth, the scores
    of the anchors for its class. *)
Definition class_scores : option (list (list R)) :=
  mapM (fun l => mapM (fun s => nth_error s l) (pd_scores img)) (gt_labels img).

Definition bbox_scores (cs : list (list R)) : list (list R) :=
  tabulate2 max_boxes n_anchors
    (fun g a => if true_mask g a then at2 cs g a else 0).

Definition overlaps : list (list R) :=
  tabulate2 max_boxes n_anchors
    (fun g a => if true_mask g a then clamp0 (compute_iou (gt_box g) (pd_box a)) else 0).

Definition align_metric (cs : list (list R)) : option (list (list R)) :=
  mapM (fun g =>
          mapM (fun a =>
                  s <- torch_pow (at2 (bbox_scores cs) g a) alpha ;;
                  o <- torch_pow (at2 overlaps g a) beta ;;
                  Some (s * o))
               (seq 0 n_anchors))
       (seq 0 max_boxes).

(** [top_k_indices] after [masked_fill_(~top_k_mask, 0)]. *)
Definition top_k_indices (am : list (list R)) : option (list (list nat)) :=
  mapM (fun g =>
          idx <- topk top_k (nth g am []) ;;
          Some (if valid_gt g then idx else map (fun _ => 0%nat) idx))
       (seq 0 max_boxes).

(** [count] after the [scatter_add_] loop and [masked_fill_(count > 1, 0)],
    as [mask_top_k]. *)
Definition mask_top_k (idx : list (list nat)) : list (list R) :=
  tabulate2 max_boxes n_anchors
    (fun g a =>
       let count := wrap8 (count_occ Nat.eq_dec (nth g idx []) a) in
       IZR (if (1 <? count)%Z then 0 else count)).

(** [mask_pos = mask_top_k * mask_in_gts * mask_gt] *)
Definition mask_pos (idx : list (list nat)) : list (list R) :=
  tabulate2 max_boxes n_anchors
    (fun g a => at2 (mask_top_k idx) g a * b2r (in_gts g a) * b2r (valid_gt g)).

(** [fg_mask = mask_pos.sum(-2)] *)
Definition fg_mask_of (mp : list (list R)) : list R :=
  map (fun a => Rsum (column mp a)) (seq 0 n_anchors).

(** The branch taken when some anchor is assigned to several ground
    truths: those anchors go to the ground truth of largest overlap. *)
Definition resolve (mp : list (list R)) : list (list R) :=
  let fg := fg_mask_of mp in
  tabulate2 max_boxes n_anchors
    (fun g a =>
       if Rltb 1 (nth a fg 0)                         (* mask_multi_gts *)
       then (if (g =? argmax (column overlaps a))%nat then 1 else 0)  (* is_max_overlaps *)
       else at2 mp g a).

End OneImage.

(** What [forward] computes for one image once the positive mask is
    final. *)
Record assignment : Type := Assignment {
  a_mask_pos : list (list R);
  a_target_bboxes : list box;
  a_target_scores : list (list R);
  a_fg_mask : list bool;
  a_target_gt_idx : list nat
}.

(** The one-hot row of [scatter_(2, target_labels, 1)], refused for a label
    outside the classes. *)
Definition one_hot (label : nat) : option (list R) :=
  if (label <? num_classes)%nat
  then Some (map (fun c => if (c =? label)%nat then 1 else 0) (seq 0 num_classes))
  else None.

Definition targets (img : image) (align_metric : list (list R))
    (mp : list (list R)) : option assignment :=
  let fg := fg_mask_of mp in
  (* find each grid serve which gt(index) *)
  let target_gt_idx := map (fun a => argmax (column mp a)) (seq 0 n_anchors) in
  target_labels <- mapM (fun g => nth_error (gt_labels img) g) target_gt_idx ;;
  target_bboxes <- mapM (fun g => nth_error (gt_bboxes img) g) target_gt_idx ;;
  hot <- mapM one_hot target_labels ;;
  let target_scores :=
    zipWith (fun f row => map (fun v => if Rltb 0 f then v else 0) row) fg hot in
  (* normalize *)
  let am := tabulate2 max_boxes n_anchors
              (fun g a => at2 align_metric g a * at2 mp g a) in
  pos_align_metrics <- mapM amax am ;;
  (* a division by zero gives inf or nan, which no real number stands for *)
  if existsb (fun m => Reqb (m + eps9) 0) pos_align_metrics then None else
  pos_overlaps <-
    mapM amax (tabulate2 max_boxes n_anchors
                 (fun g a => at2 (overlaps img) g a * at2 mp g a)) ;;
  let norm_align_metric :=
    tabulate2 max_boxes n_anchors
      (fun g a => at2 am g a * nth g pos_overlaps 0
                  / (nth g pos_align_metrics 0 + eps9)) in
  scale <- mapM (fun a => amax (column norm_align_metric a)) (seq 0 n_anchors) ;;
  Some (Assignment mp target_bboxes
          (zipWith (fun row s => map (fun v => v * s) row) target_scores scale)
          (map (fun f => negb (Reqb f 0)) fg)
          target_gt_idx).

(** The tensors of the batch have the shapes their names imply. *)
Definition well_shaped (img : image) : bool :=
  (length (pd_scores img) =? n_anchors)%nat &&
  (length (pd_bboxes img) =? n_anchors)%nat &&
  (length (gt_labels img) =? max_boxes)%nat &&
  (length (gt_bboxes img) =? max_boxes)%nat &&
  (length (mask_gt img) =? max_boxes)%nat.

(** The normal path of [forward], image by image, with the final positive
    masks. *)
Definition assign (batch : list image) : option (list assignment) :=
  if negb (forallb well_shaped batch) then None
  else
    cs <- mapM class_scores batch ;;
    ams <- mapM (fun ic => align_metric (fst ic) (snd ic)) (combine batch cs) ;;
    idx <- mapM (fun ia => top_k_indices (fst ia) (snd ia)) (combine batch ams) ;;
    let mps := zipWith mask_pos batch idx in
    let fgs := map fg_mask_of mps in
    (* fg_mask.max() of a tensor without elements is refused *)
    m <- amax (concat fgs) ;;
    let mps := if Rltb 1 m then zipWith resolve batch mps else mps in
    mapM (fun x => targets (fst (fst x)) (snd (fst x)) (snd x))
         (combine (combine batch ams) mps).

Definition box_row (b : box) : list R := [bx1 b; by1 b; bx2 b; by2 b].

(** [pd_scores[..., 0]] is refused (IndexError) when the class axis is
    empty. *)
Definition no_class (batch : list image) : bool :=
  existsb (fun i => existsb (fun row => (length row =? 0)%nat) (pd_scores i)) batch.

(** [Assigner.forward]: the tuple returned. *)
Definition forward (batch : list image) : option (list value) :=
  if (max_boxes =? 0)%nat
  then
    if no_class batch then None else
    Some [ VReal2 (map (fun i => map (fun _ => INR num_classes) (pd_scores i)) batch);
           VReal3 (map (fun i => map (fun _ => [0; 0; 0; 0]) (pd_bboxes i)) batch);
           VReal3 (map (fun i => map (map (fun _ => 0)) (pd_scores i)) batch);
           VReal2 (map (fun i => map (fun _ => 0) (pd_scores i)) batch);
           VReal2 (map (fun i => map (fun _ => 0) (pd_scores i)) batch) ]
  else
    r <- assign batch ;;
    Some [ VReal3 (map (fun x => map box_row (a_target_bboxes x)) r);
           VReal3 (map a_target_scores r);
           VBool2 (map a_fg_mask r);
           VLong2 (map a_target_gt_idx r) ].

End Assigner.

(** The statement of [ComputeLoss.__call__] that takes the result apart:
    [target_bboxes, target_scores, fg_mask, target_gt_idx = assigned_targets].
    A tuple of another length is refused (ValueError). *)
Definition unpack_assigned_targets (t : list value)
    : option (value * value * value * value) :=
  match t with
  | [target_bboxes; target_scores; fg_mask; target_gt_idx] =>
      Some (target_bboxes, target_scores, fg_mask, target_gt_idx)
  | _ => None
  end.

(** An anchor at (2, 2) with predicted box (0, 0, 2, 2), inside two
    valid ground truths of class 0 that both overlap the predicted box
    only at a corner, the second more than the first. *)
Definition ex_pred : box := Box 0 0 2 2.
Definition ex_gt0 : box := Box (3 / 2) (3 / 2) (7 / 2) (7 / 2).
Definition ex_gt1 : box := Box (7 / 5) (7 / 5) (17 / 5) (17 / 5).
Definition ex_anchors : list (R * R) := [(2, 2)].
Definition ex_image : image :=
  Image [[1 / 2]] [ex_pred] [0%nat; 0%nat] [ex_gt0; ex_gt1] [true; true].

(** The assignment [forward] computes for it. *)
Definition ex_assignment : assignment :=
  Assignment [[1]; [0]] [ex_gt0] [[0]] [true] [0%nat].

(** The tuple [forward] returns for it. *)
Definition ex_forward : list value :=
  [VReal3 [[box_row ex_gt0]]; VReal3 [[[0]]]; VBool2 [[true]]; VLong2 [[0%nat]]].

(** Two anchors inside one ground truth of class 0, both predicting the
    box of the ground truth; the class score at the second anchor is
    negative. *)
Definition neg_box : box := Box 0 0 4 4.
Definition neg_anchors : list (R * R) := [(1, 1); (3, 3)].
Definition neg_image : image :=
  Image [[1 / 2]; [- (1 / 2)]] [neg_box; neg_box] [0%nat] [neg_box] [true].

(** One anchor inside one ground truth of class 0, predicting the box of
    the ground truth with class score 0.5. *)
Definition pos_anchors : list (R * R) := [(1, 1)].
Definition pos_image : image :=
  Image [[1 / 2]] [neg_box] [0%nat] [neg_box] [true].

(** An image without ground truths. *)
Definition empty_image : image := Image [[1 / 2]] [ex_pred] [] [] [].

(** ** [make_anchors]

    The feature maps [x] enter through their shapes only: [(h, w)] for each
    map.  The stride tensor, of shape [(n, 1)], is given as its column. *)

(** [torch.stack((sx, sy), -1).view(-1, 2)] after the [meshgrid]: the
    cells of an [h] by [w] map row by row, x first. *)
Definition level_anchors (offset : R) (h w : nat) : list (R * R) :=
  concat (map (fun i => map (fun j => (INR j + offset, INR i + offset)) (seq 0 w))
              (seq 0 h)).

(** [x[i]] is refused beyond the last map, and [torch.cat] for an empty
    list. *)
Definition make_anchors (x : list (nat * nat)) (strides : list R) (offset : R)
    : option (list (R * R) * list R) :=
  levels <- mapM (fun istride =>
                    hw <- nth_error x (fst istride) ;;
                    Some (level_anchors offset (fst hw) (snd hw),
                          repeat (snd istride) (fst hw * snd hw)))
                 (combine (seq 0 (length strides)) strides) ;;
  match levels with
  | [] => None
  | _ => Some (concat (map fst levels), concat (map snd levels))
  end.

(** The number of cells of the maps before map [i]. *)
Definition cells_before (x : list (nat * nat)) (i : nat) : nat :=
  fold_right Nat.add 0%nat (map (fun hw => (fst hw * snd hw)%nat) (firstn i x)).

(** ** [ComputeLoss.box_decode]

    The function works anchor by anchor; the embedding is its action on
    one anchor point and the logits predicted there. *)

(** [t.softmax(-1)] of one row. *)
Definition softmax (logits : list R) : list R :=
  map (fun v => exp v / Rsum (map exp logits)) logits.

(** [u.matmul(v)] of two vectors, refused when the lengths differ. *)
Definition matvec (u v : list R) : option R :=
  if (length u =? length v)%nat then Some (Rsum (zipWith Rmult u v)) else None.

(** [torch.arange(n)] as reals. *)
Definition arange (n : nat) : list R := map INR (seq 0 n).

(** The [view] into four rows of [c // 4] bins is refused when [c] is not
    a multiple of 4. *)
Definition box_decode (anchor_point : R * R) (pred_dist project : list R) : option box :=
  let c := length pred_dist in
  if negb (4 * (c / 4) =? c)%nat then None
  else
    let rows := view_rows (repeat (c / 4)%nat 4) pred_dist in
    d <- mapM (fun row => matvec (softmax row) project) rows ;;
    match d with
    | [d0; d1; d2; d3] =>
        Some (Box (fst anchor_point - d0) (snd anchor_point - d1)
                  (fst anchor_point + d2) (snd anchor_point + d3))
    | _ => None
    end.

(** ** [BoxLoss.forward]

    The masks select anchors across the whole batch, so the batch enters
    as the list of its anchors, image after image: for each one the
    logits of its four edges, the predicted box, the anchor point, the
    target box, its row of target scores and its foreground flag. *)
Record anchor_data : Type := AnchorData {
  ad_pred_dist : list R;
  ad_pred_bbox : box;
  ad_point : R * R;
  ad_target_bbox : box;
  ad_target_scores : list R;
  ad_fg : bool
}.

(** [t.clamp(lo, hi)] *)
Definition clamp (lo hi x : R) : R := Rmin (Rmax x lo) hi.

(** [t.view(-1, k)] of a flat tensor: refused when [k] is 0 and when
    the number of elements is not a multiple of [k]; a tensor of no
    element gives no row. *)
Definition chunk_rows (k : nat) (flat : list R) : option (list (list R)) :=
  if (k =? 0)%nat then None
  else if (length flat mod k =? 0)%nat
       then Some (view_rows (repeat k (length flat / k)) flat)
       else None.

(** The distances from the anchor point to the four edges of the target
    box, [torch.cat((anchor_points - a, b - anchor_points), -1)]. *)
Definition edge_distances (d : anchor_data) : list R :=
  [fst (ad_point d) - bx1 (ad_target_bbox d);
   snd (ad_point d) - by1 (ad_target_bbox d);
   bx2 (ad_target_bbox d) - fst (ad_point d);
   by2 (ad_target_bbox d) - snd (ad_point d)].

(** [(loss_iou, loss_dfl)].  A division by a zero [target_scores_sum]
    gives inf or nan, which no real number stands for. *)
Definition box_loss_forward (dfl_ch : nat) (anchors : list anchor_data)
    (target_scores_sum : R) : option (R * R) :=
  let fg := filter ad_fg anchors in
  (* IoU loss *)
  let weight := map (fun d => Rsum (ad_target_scores d)) fg in
  let iou := map (fun d => compute_iou (ad_pred_bbox d) (ad_target_bbox d)) fg in
  if Reqb target_scores_sum 0 then None
  else
    let loss_iou :=
      Rsum (zipWith (fun i w => (1 - i) * w) iou weight) / target_scores_sum in
    (* DFL loss *)
    let target :=
      map (fun d => map (clamp 0 (INR dfl_ch - 1 / 100)) (edge_distances d)) fg in
    pred_dist <- chunk_rows (dfl_ch + 1) (concat (map ad_pred_dist fg)) ;;
    loss_dfl <- df_loss pred_dist target ;;
    Some (loss_iou, Rsum (zipWith Rmult loss_dfl weight) / target_scores_sum).

(** A foreground anchor at (1, 1) with two bins for each edge, predicting
    its target box, and an anchor of the background. *)
Definition loss_example : list anchor_data :=
  [AnchorData [0; 0; 0; 0; 0; 0; 0; 0] (Box 0 0 2 2) (1, 1) (Box 0 0 2 2) [1] true;
   AnchorData [] (Box 0 0 0 0) (0, 0) (Box 0 0 0 0) [0] false].

(** ** [PointLoss.forward]

    One instance: its predicted and true keypoints (x and y), the mask of
    the visible ones and the area of its box. *)
Record kpt_instance : Type := KptInstance {
  ki_pred : list (R * R);
  ki_true : list (R * R);
  ki_mask : list bool;
  ki_area : R
}.

(** [e] for one keypoint. *)
Definition kpt_error (area sigma : R) (p t : R * R) : R :=
  ((fst p - fst t) ^ 2 + (snd p - snd t) ^ 2) / (2 * sigma) ^ 2 / (area + eps9) / 2.

(** [(1 - torch.exp(-e)) * kpt_mask] for one instance. *)
Definition point_loss_terms (sigmas : list R) (i : kpt_instance) : list R :=
  map (fun x =>
         let '(p, t, m, sigma) := x in
         (1 - exp (- kpt_error (ki_area i) sigma p t)) * b2r m)
      (combine (combine (combine (ki_pred i) (ki_true i)) (ki_mask i)) sigmas).

(** The tensors of an instance have one entry for each sigma. *)
Definition kpt_shaped (sigmas : list R) (i : kpt_instance) : bool :=
  (length (ki_pred i) =? length sigmas)%nat &&
  (length (ki_true i) =? length sigmas)%nat &&
  (length (ki_mask i) =? length sigmas)%nat.

(** The embedding covers [n] instances of [K] keypoints against [K]
    sigmas, the shapes of the caller.  A division by zero gives inf or nan,
    and so does the mean of no element: no real number then.  The sums
    are written as the source has them, over the reals; at the precision
    of the tensors the [1e-9] added to a count of one or more is lost. *)
Definition point_loss_forward (sigmas : list R) (insts : list kpt_instance) : option R :=
  if negb (forallb (kpt_shaped sigmas) insts) then None
  else if existsb (fun s => Reqb s 0) sigmas
          || existsb (fun i => Reqb (ki_area i + eps9) 0) insts
  then None
  else
    let kpt_mask := concat (map ki_mask insts) in
    let nonzero := Rsum (map b2r kpt_mask) in
    let zero := Rsum (map (fun m => b2r (negb m)) kpt_mask) in
    let kpt_loss_factor := (nonzero + zero) / (nonzero + eps9) in
    let terms := concat (map (point_loss_terms sigmas) insts) in
    match terms with
    | [] => None
    | _ => Some (kpt_loss_factor * mean terms)
    end.

(** An instance of two keypoints, the first visible and predicted off by
    one, under sigmas 1/2 and 1/2. *)
Definition kpt_example : list kpt_instance :=
  [KptInstance [(1, 0); (5, 5)] [(0, 0); (0, 0)] [true; false] 4].

(** ** [AverageMeter]

    The values fed to the meter are Python numbers: a real number or nan. *)
Inductive number : Type :=
  | NaN
  | Num (v : R).

Record meter : Type := Meter { m_num : R; m_sum : R; m_avg : R }.

(** [__init__] *)
Definition meter_init : meter := Meter 0 0 0.

(** [update(v, n)]: a nan is passed over; the division raises
    ZeroDivisionError when the count is zero. *)
Definition meter_update (m : meter) (v : number) (n : R) : option meter :=
  match v with
  | NaN => Some m
  | Num v =>
      let num := m_num m + n in
      let sum := m_sum m + v * n in
      if Reqb num 0 then None else Some (Meter num sum (sum / num))
  end.

(** A sequence of calls of [update]. *)
Fixpoint meter_updates (m : meter) (calls : list (number * R)) : option meter :=
  match calls with
  | [] => Some m
  | (v, n) :: calls' => m' <- meter_update m v n ;; meter_updates m' calls'
  end.

(** The counts and the weighted values of the calls that are not nan. *)
Definition counted (calls : list (number * R)) : list R :=
  concat (map (fun c => match fst c with NaN => [] | Num _ => [snd c] end) calls).

Definition weighted (calls : list (number * R)) : list R :=
  concat (map (fun c => match fst c with NaN => [] | Num v => [v * snd c] end) calls).

(** ** [EMA]

    An entry of a state dict, flattened: floating-point or integer data
    (such as the batch counters of the normalisation layers). *)
Inductive entry : Type :=
  | Floating (data : list R)
  | Integral (data : list Z).

(** A state dict: an ordered dictionary from names to entries. *)
Definition state_dict : Type := list (String.string * entry).

(** [sd[k]], a KeyError when the name is missing. *)
Fixpoint state_get (k : String.string) (sd : state_dict) : option entry :=
  match sd with
  | [] => None
  | (k', v) :: sd' => if String.eqb k k' then Some v else state_get k sd'
  end.

Record ema : Type :=
  EMA { ema_state : state_dict; ema_updates : Z; ema_decay : R; ema_tau : R }.

(** [self.decay(x)]: the division raises when [tau] is zero. *)
Definition decay_at (e : ema) (x : Z) : option R :=
  if Reqb (ema_tau e) 0 then None
  else Some (ema_decay e * (1 - exp (- IZR x / ema_tau e))).

(** The data of an entry as it enters a floating-point sum. *)
Definition to_float (t : entry) : list R :=
  match t with
  | Floating d => d
  | Integral d => map IZR d
  end.

(** The body of the loop: [v *= d; v += (1 - d) * msd[k]] for a
    floating-point entry.  The two entries have the same shape in a model
    and its copy; shapes that differ are refused. *)
Definition ema_entry (d : R) (msd : state_dict) (kv : String.string * entry)
    : option (String.string * entry) :=
  match snd kv with
  | Floating v =>
      m <- state_get (fst kv) msd ;;
      let w := to_float m in
      if (length w =? length v)%nat
      then Some (fst kv, Floating (zipWith (fun x y => x * d + (1 - d) * y) v w))
      else None
  | Integral _ => Some kv
  end.

(** [update(model)], on the state dict [msd] of the model. *)
Definition ema_update (e : ema) (msd : state_dict) : option ema :=
  let updates := (ema_updates e + 1)%Z in
  d <- decay_at e updates ;;
  st <- mapM (ema_entry d msd) (ema_state e) ;;
  Some (EMA st updates (ema_decay e) (ema_tau e)).

(** Every floating-point entry of the average has an entry of the model
    of its name and size. *)
Definition covered (msd : state_dict) (kv : String.string * entry) : Prop :=
  match snd kv with
  | Floating v => exists m, state_get (fst kv) msd = Some m /\ length (to_float m) = length v
  | Integral _ => True
  end.

(** What one entry becomes under the decay [d]. *)
Definition averaged (d : R) (msd : state_dict) (old new : String.string * entry) : Prop :=
  fst new = fst old /\
  match snd old with
  | Floating v =>
      exists m w,
        state_get (fst old) msd = Some m /\
        snd new = Floating w /\ length w = length v /\
        forall i, (i < length v)%nat ->
          nth i w 0 = d * nth i v 0 + (1 - d) * nth i (to_float m) 0 /\
          Rmin (nth i v 0) (nth i (to_float m) 0) <= nth i w 0
            <= Rmax (nth i v 0) (nth i (to_float m) 0)
  | Integral _ => snd new = snd old
  end.

(** Two names of entries. *)
Module Names.
Import String.
Definition weight : string := "w"%string.
Definition batches : string := "n"%string.
End Names.

Definition ema_example : ema :=
  EMA [(Names.weight, Floating [1; 3]);
       (Names.batches, Integral [7%Z])] 0 (9 / 10) 2000.

Definition msd_example : state_dict :=
  [(Names.batches, Integral [8%Z]);
   (Names.weight, Floating [2; 1])].

(** ** [smooth] *)

(** Python's [round] to an integer: to the nearest, a tie to the even
    one. *)
Definition py_round (x : R) : Z :=
  let f := Zfloor x in
  let r := x - IZR f in
  if Rltb r (1 / 2) then f
  else if Rltb (1 / 2) r then (f + 1)%Z
  else if Z.even f then f else (f + 1)%Z.

(** [numpy.convolve(a, v, mode='valid')]: the products of [v] reversed
    with each full window of [a]; the longer array is the one that is
    scanned, and an empty array is refused. *)
Definition windows (a v : list R) : list R :=
  let m := length v in
  map (fun i => Rsum (zipWith Rmult (firstn m (skipn i a)) (rev v)))
      (seq 0 (length a - m + 1)).

Definition convolve_valid (a v : list R) : option (list R) :=
  match a, v with
  | [], _ | _, [] => None
  | _, _ => Some (if (length a <? length v)%nat then windows v a else windows a v)
  end.

(** The number of filter elements, from the product [len(y) * f * 2]
    as Python has computed it. *)
Definition filter_size (x : R) : Z := (py_round x / 2 + 1)%Z.

(** [smooth(y, f)]: [numpy.ones] refuses a negative size, [y[0]] an
    empty [y].  [fmul] is the multiplication of two doubles, which rounds
    its result: [round] is applied to the rounded product, and at a tie
    the rounding of the product decides the filter size. *)
Definition smooth (fmul : R -> R -> R) (y : list R) (f : R) : option (list R) :=
  let nf := filter_size (fmul (fmul (INR (length y)) f) 2) in
  if (nf / 2 <? 0)%Z then None
  else
    match y with
    | [] => None
    | y0 :: _ =>
        let p := repeat 1 (Z.to_nat (nf / 2)) in
        let yp := map (fun o => o * y0) p ++ y ++ map (fun o => o * last y 0) p in
        convolve_valid yp (repeat (1 / IZR nf) (Z.to_nat nf))
    end.

(** The number of detections of class [c] that are true positives in
    threshold column [j]. *)
Definition true_positives (tp : list (list bool)) (conf : list R) (pred_cls : list Z)
    (c : Z) (j : nat) : nat :=
  length (filter (fun r => nth j r false) (class_rows tp conf pred_cls c)).

(** A value in the unit interval. *)
Definition unit_range (v : R) : Prop := 0 <= v <= 1.

(** The detections of class [c] that are marked in threshold column [i]
    of [correct], and the labels of class [c]. *)
Definition correct_of_class (correct : list (list bool)) (output_cls : list R)
    (c : R) (i : nat) : list nat :=
  filter (fun d => nth i (nth d correct []) false && Reqb (nth d output_cls 0) c)
         (seq 0 (length correct)).

Definition labels_of_class (target_cls : list R) (c : R) : list nat :=
  filter (fun l => Reqb (nth l target_cls 0) c) (seq 0 (length target_cls)).

(** Columns [k] to [k + 3] of a row hold a box in corner form. *)
Definition row_corner_form (k : nat) (r : row) : Prop :=
  nth k r 0 <= nth (k + 2) r 0 /\ nth (k + 1) r 0 <= nth (k + 3) r 0.

(** The keypoints, when there are any, have the shapes of the caller. *)
Definition regular_keypoints (output target : tensor)
    (kpt : option (list (list keypoint) * list (list keypoint))) : Prop :=
  match kpt with
  | Some (pred_kpt, true_kpt) => keypoints_fit output target pred_kpt true_kpt = true
  | None => True
  end.

(** One visible keypoint at the origin, and 17 of them. *)
Definition kpt_origin : list keypoint := repeat (0, 0, 1) 17.

Definition metric_keypoints : option (list (list keypoint) * list (list keypoint)) :=
  Some ([kpt_origin; kpt_origin], [kpt_origin]).

(** ** [ComputeLoss.__call__]: the ground truths of the batch

    One target of the batch: the index of its image, its class and its
    box [cx, cy, w, h] in units of the image size.  The three tensors
    [idx], [cls] and [box] have one row for each target. *)
Record target : Type :=
  Target { t_idx : R; t_cls : R; t_cx : R; t_cy : R; t_w : R; t_h : R }.

(** The number of entries equal to [v]. *)
Definition count_of_index (v : R) (idx : list R) : nat :=
  length (filter (fun x => Reqb x v) idx).

(** [counts.max()] for the counts of [i.unique(return_counts=True)]. *)
Definition max_count (idx : list R) : nat :=
  fold_right Nat.max 0%nat (map (fun v => count_of_index v idx) idx).

(** [gt[j]] after the loop: the targets of image [j], then rows of
    zeros. *)
Definition gt_raw (m : nat) (targets : list target) (j : nat) : list row :=
  let rows :=
    map (fun t => [t_cls t; t_cx t; t_cy t; t_w t; t_h t])
        (filter (fun t => Reqb (t_idx t) (INR j)) targets) in
  rows ++ repeat [0; 0; 0; 0; 0] (m - length rows).

(** Columns 1 to 4 multiplied by [size[[1, 0, 1, 0]]] and turned into
    corners. *)
Definition gt_scale (W H : R) (r : row) : row :=
  match r with
  | [c; a; b; w; h] =>
      let x0 := a * W in
      let x1 := b * H in
      let x2 := w * W in
      let x3 := h * H in
      [c; x0 - x2 / 2; x1 - x3 / 2; x0 + x2 / 2; x1 + x3 / 2]
  | _ => r
  end.

(** The tensor [gt] of an image size [(H, W)]. *)
Definition gt_of_batch (batch_size : nat) (W H : R) (targets : list target)
    : list (list row) :=
  match targets with
  | [] => repeat [] batch_size
  | _ =>
      let m := max_count (map t_idx targets) in
      map (fun j => map (gt_scale W H) (gt_raw m targets j)) (seq 0 batch_size)
  end.

(** [gt_bboxes.sum(2, keepdim=True).gt_(0)] *)
Definition mask_of_gt (gt : list (list row)) : list (list bool) :=
  map (map (fun r => Rltb 0 (Rsum (skipn 1 r)))) gt.

Definition targets_example : list target :=
  [Target 0 0 (1 / 2) (1 / 2) (1 / 4) (1 / 4);
   Target 1 0 (1 / 4) (1 / 4) (1 / 2) (1 / 2);
   Target 1 0 0 0 (1 / 2) (1 / 2)].

(** * Properties *)

(** ** Comparisons and clamping *)

Lemma Rltb_true x y : x < y -> Rltb x y = true.
Proof. intros H. unfold Rltb. destruct (Rlt_dec x y); [reflexivity | contradiction]. Qed.

Lemma Rltb_false x y : y <= x -> Rltb x y = false.
Proof. intros H. unfold Rltb. destruct (Rlt_dec x y); [lra | reflexivity]. Qed.

Lemma Rleb_true x y : x <= y -> Rleb x y = true.
Proof. intros H. unfold Rleb. destruct (Rle_dec x y); [reflexivity | contradiction]. Qed.

Lemma Rleb_false x y : y < x -> Rleb x y = false.
Proof. intros H. unfold Rleb. destruct (Rle_dec x y); [lra | reflexivity]. Qed.

Lemma Reqb_true x y : x = y -> Reqb x y = true.
Proof. intros H. unfold Reqb. destruct (Req_dec_T x y); [reflexivity | contradiction]. Qed.

Lemma Reqb_false x y : x <> y -> Reqb x y = false.
Proof. intros H. unfold Reqb. destruct (Req_dec_T x y); [contradiction | reflexivity]. Qed.

Lemma Rltb_spec x y : Rltb x y = true <-> x < y.
Proof. unfold Rltb. destruct (Rlt_dec x y); split; intros; try discriminate; auto; lra. Qed.

Lemma Rleb_spec x y : Rleb x y = true <-> x <= y.
Proof. unfold Rleb. destruct (Rle_dec x y); split; intros; try discriminate; auto; lra. Qed.

Lemma Reqb_spec x y : Reqb x y = true <-> x = y.
Proof. unfold Reqb. destruct (Req_dec_T x y); split; intros; try discriminate; auto; lra. Qed.

Lemma clamp0_nonneg x : 0 <= clamp0 x.
Proof. apply Rmax_l. Qed.

Lemma clamp0_pos x : 0 <= x -> clamp0 x = x.
Proof. intros H. unfold clamp0. apply Rmax_right. exact H. Qed.

Lemma clamp0_neg x : x <= 0 -> clamp0 x = 0.
Proof. intros H. unfold clamp0. apply Rmax_left. exact H. Qed.


(** ** The store operations *)

Lemma set_nth_upd {A : Type} (k : nat) (v : A) (l : list A) :
  (k < length l)%nat -> set_nth k v l = Some (upd k v l).
Proof.
  revert k; induction l as [|a l IH]; intros k Hk; simpl in *; [lia|].
  destruct k as [|k]; simpl; [reflexivity|].
  rewrite IH by lia. reflexivity.
Qed.

Lemma upd_length {A : Type} (k : nat) (v : A) (l : list A) :
  length (upd k v l) = length l.
Proof.
  revert k; induction l as [|a l IH]; intros [|k]; simpl; auto.
Qed.

Lemma get_col_wide (k n : nat) (t : tensor) :
  wide n t -> (k < n)%nat -> get_col k t = Some (col_of k t).
Proof.
  intros Hw Hk. unfold get_col, col_of.
  induction Hw as [|r t Hr Hw IH]; simpl; [reflexivity|].
  destruct (nth_error r k) as [x|] eqn:E.
  - simpl. rewrite IH. simpl.
    rewrite (nth_error_nth _ _ _ E). reflexivity.
  - apply nth_error_None in E. lia.
Qed.

Lemma set_col_wide (k n : nat) (v : list R) (t : tensor) :
  wide n t -> (k < n)%nat -> length v = length t ->
  set_col k v t = Some (put_col k t v).
Proof.
  intros Hw Hk. revert v. unfold put_col.
  induction Hw as [|r t Hr Hw IH]; intros [|x v] Hl; simpl in *; try discriminate; [reflexivity|].
  rewrite set_nth_upd by lia. simpl.
  rewrite IH by lia. reflexivity.
Qed.

Lemma zipWith_length {A B C : Type} (f : A -> B -> C) l1 l2 :
  length l1 = length l2 -> length (zipWith f l1 l2) = length l1.
Proof.
  revert l2; induction l1 as [|a l1 IH]; intros [|b l2] H; simpl in *; try discriminate; auto.
Qed.

Lemma col_of_length k t : length (col_of k t) = length t.
Proof. apply length_map. Qed.

Lemma wide_upd_col (k n : nat) (v : list R) (t : tensor) :
  wide n t -> wide n (put_col k t v).
Proof.
  intros Hw. revert v. unfold put_col.
  induction Hw as [|r t Hr Hw IH]; intros [|x v]; simpl; try (constructor; fail).
  constructor; [rewrite upd_length; exact Hr | apply IH].
Qed.

Lemma load_app_old (a : Store.addr) (s : Store.store) (u t : tensor) :
  Store.load a s = Some t -> Store.load a (s ++ [u]) = Some t.
Proof.
  unfold Store.load. intros H.
  rewrite nth_error_app1; [exact H|].
  apply nth_error_Some. rewrite H. discriminate.
Qed.

Lemma load_app_new (s : Store.store) (u : tensor) :
  Store.load (length s) (s ++ [u]) = Some u.
Proof.
  unfold Store.load. rewrite nth_error_app2 by lia.
  rewrite Nat.sub_diag. reflexivity.
Qed.

Lemma update_app_new (s : Store.store) (u u' : tensor) :
  Store.update (length s) u' (s ++ [u]) = Some (s ++ [u']).
Proof.
  unfold Store.update. induction s as [|a s IH]; simpl; [reflexivity|].
  rewrite IH. reflexivity.
Qed.

(** An assignment to a column of the clone leaves every older object as it
    was: only the last cell of the store changes. *)
Lemma assign_col_clone (k n : nat) (f : tensor -> option (list R)) (v : list R)
    (x : Store.addr) (s : Store.store) (t u : tensor) :
  Store.load x s = Some t -> f t = Some v ->
  wide n u -> (k < n)%nat -> length v = length u ->
  Store.assign_col (length s) k f x (s ++ [u])
  = Some (s ++ [put_col k u v]).
Proof.
  intros Hx Hf Hw Hk Hl. unfold Store.assign_col.
  rewrite (load_app_old _ _ _ _ Hx). simpl.
  rewrite Hf. simpl. rewrite load_app_new. simpl.
  rewrite (set_col_wide k n v u Hw Hk Hl). simpl.
  apply update_app_new.
Qed.

(** ** [xy2wh] and [wh2xy] on the store *)

Section Convert.

Variable rhs : nat -> tensor -> option (list R).
Variable vals : nat -> tensor -> list R.
Hypothesis rhs_vals :
  forall k t, wide 4 t -> (k < 4)%nat -> rhs k t = Some (vals k t).
Hypothesis vals_length : forall k t, length (vals k t) = length t.

Lemma put_length k (u : tensor) (v : list R) :
  length v = length u -> length (put_col k u v) = length u.
Proof. intros H. apply zipWith_length. symmetry. exact H. Qed.

Lemma convert_st_spec (x : Store.addr) (s : Store.store) (t : tensor) :
  Store.load x s = Some t -> wide 4 t ->
  convert_st rhs x s = Some (length s, s ++ [assigned vals t]).
Proof.
  intros Hx Hw. unfold convert_st, Store.clone. rewrite Hx. cbn [bind].
  pose proof (vals_length 0 t) as L0. pose proof (vals_length 1 t) as L1.
  pose proof (vals_length 2 t) as L2. pose proof (vals_length 3 t) as L3.
  rewrite (assign_col_clone 0 4 (rhs 0%nat) (vals 0 t) x s t t Hx
             (rhs_vals 0 t Hw ltac:(lia)) Hw ltac:(lia) L0).
  cbn [bind].
  set (u1 := put_col 0 t (vals 0 t)).
  assert (W1 : wide 4 u1) by (apply wide_upd_col; exact Hw).
  assert (E1 : length u1 = length t) by (apply put_length; exact L0).
  assert (F1 : length (vals 1 t) = length u1) by lia.
  rewrite (assign_col_clone 1 4 (rhs 1%nat) (vals 1 t) x s t u1 Hx
             (rhs_vals 1 t Hw ltac:(lia)) W1 ltac:(lia) F1).
  cbn [bind].
  set (u2 := put_col 1 u1 (vals 1 t)).
  assert (W2 : wide 4 u2) by (apply wide_upd_col; exact W1).
  assert (E2 : length u2 = length t) by (unfold u2; rewrite put_length; lia).
  assert (F2 : length (vals 2 t) = length u2) by lia.
  rewrite (assign_col_clone 2 4 (rhs 2%nat) (vals 2 t) x s t u2 Hx
             (rhs_vals 2 t Hw ltac:(lia)) W2 ltac:(lia) F2).
  cbn [bind].
  set (u3 := put_col 2 u2 (vals 2 t)).
  assert (W3 : wide 4 u3) by (apply wide_upd_col; exact W2).
  assert (E3 : length u3 = length t) by (unfold u3; rewrite put_length; lia).
  assert (F3 : length (vals 3 t) = length u3) by lia.
  rewrite (assign_col_clone 3 4 (rhs 3%nat) (vals 3 t) x s t u3 Hx
             (rhs_vals 3 t Hw ltac:(lia)) W3 ltac:(lia) F3).
  reflexivity.
Qed.

End Convert.

Lemma xy2wh_rhs_vals k t : wide 4 t -> (k < 4)%nat -> xy2wh_rhs k t = Some (xy2wh_vals k t).
Proof.
  intros Hw Hk. unfold xy2wh_rhs, xy2wh_vals.
  destruct k as [|[|[|k]]];
    rewrite !(get_col_wide _ 4 t Hw) by lia; reflexivity.
Qed.

Lemma wh2xy_rhs_vals k t : wide 4 t -> (k < 4)%nat -> wh2xy_rhs k t = Some (wh2xy_vals k t).
Proof.
  intros Hw Hk. unfold wh2xy_rhs, wh2xy_vals.
  destruct k as [|[|[|k]]];
    rewrite !(get_col_wide _ 4 t Hw) by lia; reflexivity.
Qed.

Lemma xy2wh_vals_length k t : length (xy2wh_vals k t) = length t.
Proof.
  unfold xy2wh_vals. destruct k as [|[|[|k]]];
    rewrite zipWith_length; rewrite ?col_of_length; reflexivity.
Qed.

Lemma wh2xy_vals_length k t : length (wh2xy_vals k t) = length t.
Proof.
  unfold wh2xy_vals. destruct k as [|[|[|k]]];
    rewrite zipWith_length; rewrite ?col_of_length; reflexivity.
Qed.

Lemma wide4_row (r : row) :
  (4 <= length r)%nat -> exists x0 x1 x2 x3 rest, r = x0 :: x1 :: x2 :: x3 :: rest.
Proof.
  destruct r as [|x0 [|x1 [|x2 [|x3 rest]]]]; simpl; intros H; try lia.
  now exists x0, x1, x2, x3, rest.
Qed.

(** The clone after the four assignments holds, row by row, the value of
    the row function. *)
Lemma assigned_xy2wh t : wide 4 t -> xy2wh t = Some (assigned xy2wh_vals t).
Proof.
  unfold xy2wh, assigned, put_col, xy2wh_vals, col_of.
  induction 1 as [|r t Hr Hw IH]; simpl; [reflexivity|].
  destruct (wide4_row r Hr) as (x0 & x1 & x2 & x3 & rest & ->). simpl.
  rewrite IH. reflexivity.
Qed.

Lemma assigned_wh2xy t : wide 4 t -> wh2xy t = Some (assigned wh2xy_vals t).
Proof.
  unfold wh2xy, assigned, put_col, wh2xy_vals, col_of.
  induction 1 as [|r t Hr Hw IH]; simpl; [reflexivity|].
  destruct (wide4_row r Hr) as (x0 & x1 & x2 & x3 & rest & ->). simpl.
  rewrite IH. reflexivity.
Qed.

Lemma xy2wh_st_spec x s t t' :
  Store.load x s = Some t -> xy2wh t = Some t' ->
  wide 4 t -> xy2wh_st x s = Some (length s, s ++ [t']).
Proof.
  intros Hx Ht Hw. unfold xy2wh_st.
  rewrite (convert_st_spec _ xy2wh_vals xy2wh_rhs_vals xy2wh_vals_length x s t Hx Hw).
  rewrite (assigned_xy2wh t Hw) in Ht. injection Ht as <-. reflexivity.
Qed.

Lemma wh2xy_st_spec x s t t' :
  Store.load x s = Some t -> wh2xy t = Some t' ->
  wide 4 t -> wh2xy_st x s = Some (length s, s ++ [t']).
Proof.
  intros Hx Ht Hw. unfold wh2xy_st.
  rewrite (convert_st_spec _ wh2xy_vals wh2xy_rhs_vals wh2xy_vals_length x s t Hx Hw).
  rewrite (assigned_wh2xy t Hw) in Ht. injection Ht as <-. reflexivity.
Qed.

(** Row level: the two conversions undo each other. *)
Lemma wh2xy_xy2wh_row r r' : xy2wh_row r = Some r' -> wh2xy_row r' = Some r.
Proof.
  destruct r as [|x0 [|x1 [|x2 [|x3 rest]]]]; simpl; try discriminate.
  intros H; injection H as <-. simpl. repeat f_equal; field.
Qed.

Lemma xy2wh_wh2xy_row r r' : wh2xy_row r = Some r' -> xy2wh_row r' = Some r.
Proof.
  destruct r as [|x0 [|x1 [|x2 [|x3 rest]]]]; simpl; try discriminate.
  intros H; injection H as <-. simpl. repeat f_equal; field.
Qed.

Lemma mapM_inverse {A B : Type} (f : A -> option B) (g : B -> option A) :
  (forall a b, f a = Some b -> g b = Some a) ->
  forall l l', mapM f l = Some l' -> mapM g l' = Some l.
Proof.
  intros Hfg. induction l as [|a l IH]; simpl; intros l' H.
  - injection H as <-. reflexivity.
  - destruct (f a) as [b|] eqn:E; simpl in H; [|discriminate].
    destruct (mapM f l) as [bs|] eqn:E'; simpl in H; [|discriminate].
    injection H as <-. simpl. rewrite (Hfg _ _ E). simpl.
    rewrite (IH _ eq_refl). reflexivity.
Qed.

Lemma mapM_total {A B : Type} (f : A -> option B) (P : A -> Prop) :
  (forall a, P a -> exists b, f a = Some b) ->
  forall l, Forall P l -> exists l', mapM f l = Some l'.
Proof.
  intros Hf. induction 1 as [|a l Ha Hl [l' IH]]; simpl.
  - now exists [].
  - destruct (Hf a Ha) as [b ->]. rewrite IH. simpl. now exists (b :: l').
Qed.

Lemma xy2wh_total t : wide 4 t -> exists t', xy2wh t = Some t'.
Proof.
  apply mapM_total. intros r Hr.
  destruct (wide4_row r Hr) as (x0 & x1 & x2 & x3 & rest & ->). simpl. eauto.
Qed.

Lemma wh2xy_total t : wide 4 t -> exists t', wh2xy t = Some t'.
Proof.
  apply mapM_total. intros r Hr.
  destruct (wide4_row r Hr) as (x0 & x1 & x2 & x3 & rest & ->). simpl. eauto.
Qed.

Lemma xy2wh_wide t t' : xy2wh t = Some t' -> wide 4 t'.
Proof.
  unfold xy2wh. revert t'. induction t as [|r t IH]; simpl; intros t' H.
  - injection H as <-. constructor.
  - destruct (xy2wh_row r) as [b|] eqn:E; simpl in H; [|discriminate].
    destruct (mapM xy2wh_row t) as [bs|] eqn:E'; simpl in H; [|discriminate].
    injection H as <-. constructor; [|apply IH; reflexivity].
    destruct r as [|x0 [|x1 [|x2 [|x3 rest]]]]; simpl in E; try discriminate.
    injection E as <-. simpl. lia.
Qed.

Lemma wh2xy_wide t t' : wh2xy t = Some t' -> wide 4 t'.
Proof.
  unfold wh2xy. revert t'. induction t as [|r t IH]; simpl; intros t' H.
  - injection H as <-. constructor.
  - destruct (wh2xy_row r) as [b|] eqn:E; simpl in H; [|discriminate].
    destruct (mapM wh2xy_row t) as [bs|] eqn:E'; simpl in H; [|discriminate].
    injection H as <-. constructor; [|apply IH; reflexivity].
    destruct r as [|x0 [|x1 [|x2 [|x3 rest]]]]; simpl in E; try discriminate.
    injection E as <-. simpl. lia.
Qed.

Lemma round_trip_via (f g : Store.addr -> Store.store -> option (Store.addr * Store.store))
    (x : Store.addr) (s : Store.store) (t t' : tensor) :
  f x s = Some (length s, s ++ [t']) ->
  g (length s) (s ++ [t']) = Some (length (s ++ [t']), (s ++ [t']) ++ [t]) ->
  round_trip f g x s t.
Proof.
  intros Hf Hg.
  exists (length s), (s ++ [t']), (length (s ++ [t'])), ((s ++ [t']) ++ [t]).
  repeat split; auto.
  - apply load_app_new.
  - apply load_app_old. assumption.
  - apply load_app_old. apply load_app_old. assumption.
Qed.

(** C8. For every tensor of boxes (rows of at least four columns),
    [wh2xy (xy2wh b) = b] and [xy2wh (wh2xy b) = b] in exact arithmetic,
    and neither conversion modifies its argument: each works on a clone,
    and every object that was in the store before the calls is unchanged
    after them. *)
Theorem box_conversions_inverse_and_pure (s : Store.store) (x : Store.addr) (t : tensor) :
  Store.load x s = Some t -> wide 4 t ->
  round_trip xy2wh_st wh2xy_st x s t /\ round_trip wh2xy_st xy2wh_st x s t.
Proof.
  intros Hx Hw. split.
  - destruct (xy2wh_total t Hw) as [t' Ht'].
    apply (round_trip_via _ _ x s t t').
    + apply (xy2wh_st_spec x s t t' Hx Ht' Hw).
    + apply (wh2xy_st_spec (length s) (s ++ [t']) t' t).
      * apply load_app_new.
      * apply (mapM_inverse xy2wh_row wh2xy_row wh2xy_xy2wh_row t t' Ht').
      * apply (xy2wh_wide t t' Ht').
  - destruct (wh2xy_total t Hw) as [t' Ht'].
    apply (round_trip_via _ _ x s t t').
    + apply (wh2xy_st_spec x s t t' Hx Ht' Hw).
    + apply (xy2wh_st_spec (length s) (s ++ [t']) t' t).
      * apply load_app_new.
      * apply (mapM_inverse wh2xy_row xy2wh_row xy2wh_wh2xy_row t t' Ht').
      * apply (wh2xy_wide t t' Ht').
Qed.

Lemma box_conversions_inverse_and_pure_witness :
  round_trip xy2wh_st wh2xy_st 0%nat [[[10; 10; 50; 50]]] [[10; 10; 50; 50]] /\
  round_trip wh2xy_st xy2wh_st 0%nat [[[10; 10; 50; 50]]] [[10; 10; 50; 50]].
Proof.
  apply (box_conversions_inverse_and_pure [[[10; 10; 50; 50]]] 0%nat [[10; 10; 50; 50]]).
  - reflexivity.
  - repeat constructor.
Defined.

(** ** [compute_iou] *)

Lemma eps7_pos : 0 < eps7.
Proof. unfold eps7. lra. Qed.

Lemma iou_inter_sym a b : iou_inter a b = iou_inter b a.
Proof.
  unfold iou_inter.
  rewrite (Rmin_comm (bx2 a)), (Rmax_comm (bx1 a)),
          (Rmin_comm (by2 a)), (Rmax_comm (by1 a)).
  reflexivity.
Qed.

Lemma iou_union_sym a b : iou_union a b = iou_union b a.
Proof.
  unfold iou_union. rewrite (iou_inter_sym a b).
  unfold iou_w1, iou_h1, iou_w2, iou_h2. ring.
Qed.

Lemma iou_plain_sym a b : iou_plain a b = iou_plain b a.
Proof. unfold iou_plain. rewrite iou_inter_sym, iou_union_sym. reflexivity. Qed.

Lemma iou_c2_sym a b : iou_c2 a b = iou_c2 b a.
Proof.
  unfold iou_c2, iou_cw, iou_ch.
  rewrite (Rmax_comm (bx2 a)), (Rmin_comm (bx1 a)),
          (Rmax_comm (by2 a)), (Rmin_comm (by1 a)).
  reflexivity.
Qed.

Lemma iou_rho2_sym a b : iou_rho2 a b = iou_rho2 b a.
Proof. unfold iou_rho2. field. Qed.

Lemma iou_v_sym a b : iou_v a b = iou_v b a.
Proof.
  unfold iou_v, iou_w1, iou_h1, iou_w2, iou_h2. cbv zeta.
  set (p := atan _). set (q := atan _).
  replace ((p - q) ^ 2) with ((q - p) ^ 2) by ring. reflexivity.
Qed.

Lemma iou_alpha_sym a b : iou_alpha a b = iou_alpha b a.
Proof. unfold iou_alpha. rewrite iou_v_sym, iou_plain_sym. reflexivity. Qed.

Lemma compute_iou_sym a b : compute_iou a b = compute_iou b a.
Proof.
  unfold compute_iou.
  rewrite iou_plain_sym, iou_rho2_sym, iou_c2_sym, iou_v_sym, iou_alpha_sym.
  reflexivity.
Qed.

(** The clamped extents of the intersection against the extents of each box. *)
Lemma inter_extent_bounds (l1 r1 l2 r2 : R) :
  l1 <= r1 -> l2 <= r2 ->
  0 <= clamp0 (Rmin r1 r2 - Rmax l1 l2) /\
  clamp0 (Rmin r1 r2 - Rmax l1 l2) <= r1 - l1 /\
  clamp0 (Rmin r1 r2 - Rmax l1 l2) <= r2 - l2.
Proof.
  intros H1 H2. unfold clamp0, Rmin, Rmax.
  repeat destruct Rle_dec; lra.
Qed.

Lemma inter_extent_disjoint (l1 r1 l2 r2 : R) :
  r1 < l2 \/ r2 < l1 -> clamp0 (Rmin r1 r2 - Rmax l1 l2) = 0.
Proof.
  intros H. unfold clamp0, Rmin, Rmax.
  repeat destruct Rle_dec; lra.
Qed.

Lemma inter_extent_same (l r : R) :
  l <= r -> clamp0 (Rmin r r - Rmax l l) = r - l.
Proof.
  intros H. unfold clamp0, Rmin, Rmax.
  repeat destruct Rle_dec; lra.
Qed.

Section IouBounds.

Variables a b : box.
Hypothesis Ha : corner_form a.
Hypothesis Hb : corner_form b.

Lemma iou_inter_nonneg : 0 <= iou_inter a b.
Proof.
  destruct Ha as [Hax Hay], Hb as [Hbx Hby]. unfold iou_inter.
  destruct (inter_extent_bounds _ _ _ _ Hax Hbx) as (? & _ & _).
  destruct (inter_extent_bounds _ _ _ _ Hay Hby) as (? & _ & _).
  apply Rmult_le_pos; assumption.
Qed.

Lemma iou_union_gt_inter : iou_inter a b + eps7 <= iou_union a b.
Proof.
  destruct Ha as [Hax Hay], Hb as [Hbx Hby].
  unfold iou_union, iou_inter, iou_w1, iou_h1, iou_w2, iou_h2. cbv zeta.
  destruct (inter_extent_bounds _ _ _ _ Hax Hbx) as (X0 & X1 & X2).
  destruct (inter_extent_bounds _ _ _ _ Hay Hby) as (Y0 & Y1 & Y2).
  set (iw := clamp0 (Rmin (bx2 a) (bx2 b) - Rmax (bx1 a) (bx1 b))) in *.
  set (ih := clamp0 (Rmin (by2 a) (by2 b) - Rmax (by1 a) (by1 b))) in *.
  pose proof eps7_pos as He.
  assert (iw * ih <= (bx2 a - bx1 a) * (by2 a - by1 a)) by (apply Rmult_le_compat; lra).
  assert (iw * ih <= (bx2 b - bx1 b) * (by2 b - by1 b)) by (apply Rmult_le_compat; lra).
  assert (0 <= (bx2 a - bx1 a) * eps7) by (apply Rmult_le_pos; lra).
  assert (0 <= (bx2 b - bx1 b) * eps7) by (apply Rmult_le_pos; lra).
  lra.
Qed.

Lemma iou_union_pos : 0 < iou_union a b.
Proof.
  pose proof iou_union_gt_inter. pose proof iou_inter_nonneg. pose proof eps7_pos. lra.
Qed.

Lemma iou_plain_range : 0 <= iou_plain a b < 1.
Proof.
  pose proof iou_union_gt_inter as Hu. pose proof iou_inter_nonneg as Hi.
  pose proof eps7_pos as He. pose proof iou_union_pos as Hp.
  unfold iou_plain. split.
  - apply Rmult_le_pos; [exact Hi | left; apply Rinv_0_lt_compat; exact Hp].
  - apply (Rmult_lt_reg_r (iou_union a b)); [exact Hp|].
    unfold Rdiv. rewrite Rmult_assoc, Rinv_l by lra. lra.
Qed.

Lemma iou_v_nonneg : 0 <= iou_v a b.
Proof.
  unfold iou_v. apply Rmult_le_pos.
  - left. apply Rdiv_lt_0_compat; [lra|]. apply pow_lt. apply PI_RGT_0.
  - apply pow2_ge_0.
Qed.

Lemma iou_alpha_nonneg : 0 <= iou_alpha a b.
Proof.
  pose proof iou_v_nonneg as Hv. pose proof iou_plain_range as Hr. pose proof eps7_pos.
  unfold iou_alpha. apply Rmult_le_pos; [exact Hv|].
  left. apply Rinv_0_lt_compat. lra.
Qed.

Lemma iou_c2_pos : 0 < iou_c2 a b.
Proof.
  unfold iou_c2. pose proof eps7_pos.
  pose proof (pow2_ge_0 (iou_cw a b)). pose proof (pow2_ge_0 (iou_ch a b)). lra.
Qed.

Lemma iou_rho2_nonneg : 0 <= iou_rho2 a b.
Proof.
  unfold iou_rho2. cbv zeta.
  set (p := _ - bx2 a). set (q := _ - by2 a).
  pose proof (pow2_ge_0 p). pose proof (pow2_ge_0 q). lra.
Qed.

(** The penalties are never negative: the value returned is at most the
    plain ratio. *)
Lemma compute_iou_le_plain : compute_iou a b <= iou_plain a b.
Proof.
  unfold compute_iou.
  assert (0 <= iou_rho2 a b / iou_c2 a b).
  { apply Rmult_le_pos; [apply iou_rho2_nonneg|].
    left. apply Rinv_0_lt_compat. apply iou_c2_pos. }
  assert (0 <= iou_v a b * iou_alpha a b)
    by (apply Rmult_le_pos; [apply iou_v_nonneg | apply iou_alpha_nonneg]).
  lra.
Qed.

Lemma iou_disjoint_inter : disjoint a b -> iou_inter a b = 0.
Proof.
  intros Hd. unfold iou_inter. cbv zeta.
  destruct Hd as [H|[H|[H|H]]].
  - rewrite (inter_extent_disjoint (bx1 a) (bx2 a) (bx1 b) (bx2 b)) by auto. ring.
  - rewrite (inter_extent_disjoint (bx1 a) (bx2 a) (bx1 b) (bx2 b)) by auto. ring.
  - rewrite (inter_extent_disjoint (by1 a) (by2 a) (by1 b) (by2 b)) by auto. ring.
  - rewrite (inter_extent_disjoint (by1 a) (by2 a) (by1 b) (by2 b)) by auto. ring.
Qed.

End IouBounds.

(** A box against itself: both penalties vanish and the plain ratio is the
    area over the area enlarged by the two epsilons. *)
Lemma compute_iou_same a :
  corner_form a ->
  compute_iou a a = iou_plain a a /\
  iou_plain a a =
    (bx2 a - bx1 a) * (by2 a - by1 a) /
    ((bx2 a - bx1 a) * (by2 a - by1 a) + (2 * (bx2 a - bx1 a) + 1) * eps7).
Proof.
  intros [Hx Hy]. split.
  - unfold compute_iou.
    assert (R0 : iou_rho2 a a = 0) by (unfold iou_rho2; field).
    assert (V0 : iou_v a a = 0).
    { unfold iou_v, iou_w1, iou_w2, iou_h1, iou_h2. cbv zeta.
      set (p := atan _). ring. }
    rewrite R0, V0. unfold Rdiv. ring.
  - unfold iou_plain, iou_union, iou_inter, iou_w1, iou_w2, iou_h1, iou_h2. cbv zeta.
    rewrite (inter_extent_same _ _ Hx), (inter_extent_same _ _ Hy).
    f_equal. ring.
Qed.

Lemma compute_iou_disjoint a b :
  corner_form a -> corner_form b -> disjoint a b ->
  iou_plain a b = 0 /\
  compute_iou a b = - (iou_rho2 a b / iou_c2 a b + iou_v a b * iou_alpha a b).
Proof.
  intros Ha Hb Hd.
  assert (P0 : iou_plain a b = 0).
  { unfold iou_plain. rewrite (iou_disjoint_inter a b Hd). unfold Rdiv. ring. }
  split; [exact P0|]. unfold compute_iou. rewrite P0. ring.
Qed.

(** C5, as the code has it.  For corner-form boxes [compute_iou] is
    symmetric in its arguments.  It returns the complete IoU: the plain
    ratio [inter / union], which lies between 0 and 1, minus two
    penalties that are never negative, so the value is at most the plain
    ratio.  For disjoint boxes the plain ratio is 0 and the value
    returned is minus the penalties (so at most 0).  For a box against
    itself both penalties vanish: the value is the plain ratio of the box
    with itself, which is at most 1 (and is not 1 for the unit square,
    because of the epsilons in the union). *)
Theorem compute_iou_properties (a b : box) :
  corner_form a -> corner_form b ->
  compute_iou a b = compute_iou b a /\
  compute_iou a b <= iou_plain a b /\
  0 <= iou_plain a b <= 1 /\
  (disjoint a b ->
     iou_plain a b = 0 /\
     compute_iou a b = - (iou_rho2 a b / iou_c2 a b + iou_v a b * iou_alpha a b) /\
     compute_iou a b <= 0) /\
  compute_iou a a = iou_plain a a /\
  compute_iou a a <= 1.
Proof.
  intros Ha Hb.
  pose proof (iou_plain_range a b Ha Hb) as Hab.
  pose proof (iou_plain_range a a Ha Ha) as Haa.
  destruct (compute_iou_same a Ha) as [E1 _].
  split; [apply compute_iou_sym|].
  split; [apply compute_iou_le_plain; assumption|].
  split; [lra|]. split.
  - intros Hd. destruct (compute_iou_disjoint a b Ha Hb Hd) as [P0 E].
    split; [exact P0|]. split; [exact E|].
    pose proof (compute_iou_le_plain a b Ha Hb). lra.
  - split; [exact E1 | rewrite E1; lra].
Qed.


Lemma unit_box_corner_form : corner_form unit_box.
Proof. unfold corner_form, unit_box; simpl; lra. Qed.

Lemma far_box_corner_form : corner_form far_box.
Proof. unfold corner_form, far_box; simpl; lra. Qed.

Lemma compute_iou_properties_witness :
  compute_iou unit_box far_box = compute_iou far_box unit_box /\
  compute_iou unit_box far_box <= iou_plain unit_box far_box /\
  0 <= iou_plain unit_box far_box <= 1 /\
  (disjoint unit_box far_box ->
     iou_plain unit_box far_box = 0 /\
     compute_iou unit_box far_box =
       - (iou_rho2 unit_box far_box / iou_c2 unit_box far_box
          + iou_v unit_box far_box * iou_alpha unit_box far_box) /\
     compute_iou unit_box far_box <= 0) /\
  compute_iou unit_box unit_box = iou_plain unit_box unit_box /\
  compute_iou unit_box unit_box <= 1.
Proof.
  apply (compute_iou_properties unit_box far_box).
  - unfold corner_form, unit_box; simpl; lra.
  - unfold corner_form, far_box; simpl; lra.
Defined.

(** C5 as stated fails: the unit square against itself does not give 1,
    and against a disjoint square the value is negative, neither 0 nor in
    [0, 1]. *)
Lemma compute_iou_not_one_not_zero :
  compute_iou unit_box unit_box <> 1 /\
  disjoint unit_box far_box /\
  compute_iou unit_box far_box < 0.
Proof.
  split; [|split].
  - destruct (compute_iou_same unit_box unit_box_corner_form) as [E1 _].
    rewrite E1.
    pose proof (iou_plain_range unit_box unit_box unit_box_corner_form unit_box_corner_form).
    lra.
  - left. simpl. lra.
  - assert (Hd : disjoint unit_box far_box) by (left; simpl; lra).
    destruct (compute_iou_disjoint _ _ unit_box_corner_form far_box_corner_form Hd) as [_ E].
    rewrite E.
    pose proof (iou_v_nonneg unit_box far_box) as Hv.
    pose proof (iou_alpha_nonneg _ _ unit_box_corner_form far_box_corner_form) as Hal.
    pose proof (iou_c2_pos unit_box far_box) as Hc.
    assert (Hr : iou_rho2 unit_box far_box = 8) by (unfold iou_rho2; simpl; field).
    assert (0 < iou_rho2 unit_box far_box / iou_c2 unit_box far_box).
    { rewrite Hr. apply Rdiv_lt_0_compat; lra. }
    assert (0 <= iou_v unit_box far_box * iou_alpha unit_box far_box)
      by (apply Rmult_le_pos; assumption).
    lra.
Qed.

(** ** [BoxLoss.df_loss] *)

Lemma long_nonneg t : 0 <= t -> long t = Zfloor t.
Proof. intros H. unfold long. destruct (Rle_dec 0 t); [reflexivity | contradiction]. Qed.

Lemma Zfloor_nonneg t : 0 <= t -> (0 <= Zfloor t)%Z.
Proof. intros H. apply Zfloor_lub. simpl. exact H. Qed.

Lemma cross_entropy_in_range logits z :
  (0 <= z < Z.of_nat (length logits))%Z -> cross_entropy logits z = Some (ce logits z).
Proof.
  intros H. unfold cross_entropy, ce.
  destruct (Z.eqb_spec z (-100)); [lia|].
  destruct (Z.leb_spec 0 z); [|lia].
  destruct (Z.ltb_spec z (Z.of_nat (length logits))); [|lia].
  reflexivity.
Qed.

Lemma cross_entropy_batch_in_range (g : R -> Z) (pd : list (list R)) (ts : list R) :
  Forall2 (fun p t => (0 <= g t < Z.of_nat (length p))%Z) pd ts ->
  cross_entropy_batch pd (map g ts) = Some (zipWith (fun p t => ce p (g t)) pd ts).
Proof.
  induction 1 as [|p t pd ts Hpt Hrest IH]; simpl; [reflexivity|].
  rewrite (cross_entropy_in_range p (g t) Hpt). simpl.
  rewrite IH. reflexivity.
Qed.

Lemma firstn_zipWith_app {A B C : Type} (f : A -> B -> C) (x : list A) (r rest : list B) :
  firstn (length r) (zipWith f x (r ++ rest)) = zipWith f (firstn (length r) x) r.
Proof.
  revert x; induction r as [|b r IH]; intros [|a x]; simpl; try reflexivity.
  rewrite IH. reflexivity.
Qed.

Lemma skipn_zipWith_app {A B C : Type} (f : A -> B -> C) (x : list A) (r rest : list B) :
  (length r <= length x)%nat ->
  skipn (length r) (zipWith f x (r ++ rest)) = zipWith f (skipn (length r) x) rest.
Proof.
  revert x; induction r as [|b r IH]; intros [|a x] H; simpl in *; try reflexivity; try lia.
  apply IH. lia.
Qed.

(** Cutting a flat zip into rows is zipping the rows. *)
Lemma view_rows_zipWith {A B C : Type} (f : A -> B -> C) (x : list A) (T : list (list B)) :
  (length (concat T) <= length x)%nat ->
  view_rows (shape_of T) (zipWith f x (concat T))
  = zip2d f (view_rows (shape_of T) x) T.
Proof.
  revert x; induction T as [|r T IH]; intros x H; simpl; [reflexivity|].
  simpl in H. rewrite length_app in H.
  rewrite firstn_zipWith_app. unfold zip2d at 1. simpl. f_equal.
  rewrite skipn_zipWith_app by lia.
  apply IH. rewrite length_skipn. lia.
Qed.

Lemma shape_of_map2d {A B : Type} (f : A -> B) (T : list (list A)) :
  shape_of (map2d f T) = shape_of T.
Proof.
  unfold shape_of, map2d. rewrite map_map.
  apply map_ext. intros r. apply length_map.
Qed.

Lemma concat_map2d {A B : Type} (f : A -> B) (T : list (list A)) :
  concat (map2d f T) = map f (concat T).
Proof. unfold map2d. symmetry. apply concat_map. Qed.

(** One row: the weighted sum of the two losses is [dfl_edge]. *)
Lemma dfl_row (P : list (list R)) (r : list R) :
  Forall (fun t => 0 <= t) r ->
  zipWith Rplus
    (zipWith Rmult (zipWith (fun p t => ce p (long t)) P r)
       (zipWith (fun z t => IZR z - t) (map (fun z => (z + 1)%Z) (map long r)) r))
    (zipWith Rmult (zipWith (fun p t => ce p (long t + 1)) P r)
       (map (fun w => 1 - w)
          (zipWith (fun z t => IZR z - t) (map (fun z => (z + 1)%Z) (map long r)) r)))
  = zipWith dfl_edge P r.
Proof.
  intros Hr. revert P. induction Hr as [|t r Ht Hr IH]; intros [|p P]; simpl; try reflexivity.
  rewrite IH. f_equal.
  rewrite (long_nonneg t Ht). unfold dfl_edge. rewrite plus_IZR. ring.
Qed.

Lemma dfl_rows (X : list (list (list R))) (T : tensor) :
  Forall (Forall (fun t => 0 <= t)) T ->
  zip2d Rplus
    (zip2d Rmult (zip2d (fun p t => ce p (long t)) X T)
       (zip2d (fun z t => IZR z - t) (map2d (fun z => (z + 1)%Z) (map2d long T)) T))
    (zip2d Rmult (zip2d (fun p t => ce p (long t + 1)) X T)
       (map2d (fun w => 1 - w)
          (zip2d (fun z t => IZR z - t) (map2d (fun z => (z + 1)%Z) (map2d long T)) T)))
  = zip2d dfl_edge X T.
Proof.
  intros HT. revert X. unfold zip2d, map2d.
  induction HT as [|r T Hr HT IH]; intros [|x X]; simpl; try reflexivity.
  rewrite IH. f_equal. apply dfl_row. exact Hr.
Qed.

Lemma in_bins_left (pd : list (list R)) (ts : list R) :
  Forall2 in_bins pd ts ->
  Forall2 (fun p t => (0 <= long t < Z.of_nat (length p))%Z) pd ts.
Proof.
  induction 1 as [|p t pd ts [H0 H1] _ IH]; constructor; auto.
  rewrite (long_nonneg t H0). pose proof (Zfloor_nonneg t H0). lia.
Qed.

Lemma in_bins_right (pd : list (list R)) (ts : list R) :
  Forall2 in_bins pd ts ->
  Forall2 (fun p t => (0 <= long t + 1 < Z.of_nat (length p))%Z) pd ts.
Proof.
  induction 1 as [|p t pd ts [H0 H1] _ IH]; constructor; auto.
  rewrite (long_nonneg t H0). pose proof (Zfloor_nonneg t H0). lia.
Qed.

Lemma in_bins_nonneg (pd : list (list R)) (T : tensor) :
  Forall2 in_bins pd (concat T) -> Forall (Forall (fun t => 0 <= t)) T.
Proof.
  revert pd. induction T as [|r T IH]; intros pd H; constructor.
  - simpl in H. clear IH. revert pd H. induction r as [|t r IHr]; intros pd H; constructor.
    + simpl in H. inversion H as [|p t' pd' ts [H0 _] Hrest]; subst. exact H0.
    + simpl in H. inversion H as [|p t' pd' ts _ Hrest]; subst. apply (IHr pd' Hrest).
  - simpl in H. apply Forall2_app_inv_r in H.
    destruct H as (l1 & l2 & _ & H2 & _). apply (IH l2 H2).
Qed.

Lemma dfl_edge_integer (logits : list R) (n : Z) : dfl_edge logits (IZR n) = ce logits n.
Proof.
  unfold dfl_edge.
  assert (E : Zfloor (IZR n) = n) by (apply Zfloor_eq; lra).
  rewrite E. ring.
Qed.

Lemma Zfloor_3_3 : Zfloor (33 / 10) = 3%Z.
Proof. apply Zfloor_eq. simpl. lra. Qed.

(** C7. For targets in the bin range of their logits, [df_loss] returns,
    for each anchor, the average over its edges of
    [wl * CE(pred, floor t) + wr * CE(pred, floor t + 1)] with
    [wl = floor t + 1 - t] and [wr = t - floor t].  A target of 3.3 weights
    bin 3 by 0.7 and bin 4 by 0.3; for an integer target the edge's loss is
    the cross-entropy against that single bin. *)
Theorem df_loss_weighted_bins (pred_dist : list (list R)) (target : tensor) :
  Forall2 in_bins pred_dist (concat target) ->
  df_loss pred_dist target
  = Some (map mean (zip2d dfl_edge (view_rows (shape_of target) pred_dist) target)) /\
  (forall logits,
      dfl_edge logits (33 / 10)
      = (7 / 10) * ce logits 3 + (3 / 10) * ce logits 4) /\
  (forall logits n,
      in_bins logits (IZR n) ->
      cross_entropy logits n = Some (dfl_edge logits (IZR n))).
Proof.
  intros Hb. split; [|split].
  - unfold df_loss. cbv zeta.
    rewrite !concat_map2d.
    rewrite (cross_entropy_batch_in_range long pred_dist (concat target) (in_bins_left _ _ Hb)).
    cbn [bind]. rewrite map_map.
    rewrite (cross_entropy_batch_in_range (fun t => (long t + 1)%Z) pred_dist (concat target)
               (in_bins_right _ _ Hb)).
    cbn [bind]. rewrite !shape_of_map2d.
    assert (Hl : (length (concat target) <= length pred_dist)%nat)
      by (rewrite (Forall2_length Hb); lia).
    rewrite !view_rows_zipWith by exact Hl.
    rewrite (dfl_rows _ target (in_bins_nonneg _ _ Hb)). reflexivity.
  - intros logits. unfold dfl_edge. rewrite Zfloor_3_3. simpl. field.
  - intros logits n [H0 H1]. rewrite dfl_edge_integer.
    assert (E : Zfloor (IZR n) = n) by (apply Zfloor_eq; lra).
    rewrite E in H1. apply cross_entropy_in_range.
    apply le_IZR in H0. lia.
Qed.

Lemma df_loss_weighted_bins_witness :
  df_loss [[0; 0; 0; 0; 0]] [[33 / 10]]
  = Some (map mean (zip2d dfl_edge (view_rows (shape_of [[33 / 10]]) [[0; 0; 0; 0; 0]])
                      [[33 / 10]])) /\
  (forall logits,
      dfl_edge logits (33 / 10)
      = (7 / 10) * ce logits 3 + (3 / 10) * ce logits 4) /\
  (forall logits n,
      in_bins logits (IZR n) ->
      cross_entropy logits n = Some (dfl_edge logits (IZR n))).
Proof.
  apply (df_loss_weighted_bins [[0; 0; 0; 0; 0]] [[33 / 10]]).
  simpl. constructor; [|constructor].
  unfold in_bins. rewrite Zfloor_3_3. simpl. split; [lra | lia].
Defined.

(** ** Sorting and indexing *)

Lemma insert_by_perm {A : Type} (le : A -> A -> bool) (a : A) (l : list A) :
  Permutation (insert_by le a l) (a :: l).
Proof.
  induction l as [|b l IH]; simpl; [reflexivity|].
  destruct (le a b); [reflexivity|].
  rewrite IH. apply perm_swap.
Qed.

Lemma sort_by_perm {A : Type} (le : A -> A -> bool) (l : list A) :
  Permutation (sort_by le l) l.
Proof.
  induction l as [|a l IH]; simpl; [reflexivity|].
  rewrite insert_by_perm. constructor. exact IH.
Qed.

Lemma map_fst_combine_seq {B : Type} (l : list B) (s : nat) :
  map fst (combine (seq s (length l)) l) = seq s (length l).
Proof.
  revert s; induction l as [|b l IH]; intros s; simpl; [reflexivity|].
  rewrite IH. reflexivity.
Qed.

Lemma argsort_perm (keys : list R) : Permutation (argsort keys) (seq 0 (length keys)).
Proof.
  unfold argsort. rewrite <- (map_fst_combine_seq keys 0) at 2.
  apply Permutation_map. apply sort_by_perm.
Qed.

Lemma take_in_range {A : Type} (a : list A) (d : A) (idx : list nat) :
  Forall (fun i => (i < length a)%nat) idx ->
  take a idx = Some (map (fun i => nth i a d) idx).
Proof.
  unfold take. induction 1 as [|i idx Hi Hidx IH]; simpl; [reflexivity|].
  destruct (nth_error a i) as [x|] eqn:E.
  - cbn [bind]. rewrite IH. cbn [bind]. rewrite (nth_error_nth _ _ _ E). reflexivity.
  - apply nth_error_None in E. lia.
Qed.

Lemma argsort_in_range (keys : list R) :
  Forall (fun i => (i < length keys)%nat) (argsort keys).
Proof.
  apply Forall_forall. intros i Hi.
  apply (Permutation_in _ (argsort_perm keys)) in Hi.
  apply in_seq in Hi. lia.
Qed.

Lemma map_nth_seq {A : Type} (a : list A) (d : A) :
  map (fun i => nth i a d) (seq 0 (length a)) = a.
Proof.
  apply (nth_ext _ _ d d).
  - rewrite length_map, length_seq. reflexivity.
  - intros n Hn. rewrite length_map, length_seq in Hn.
    rewrite (nth_indep _ d (nth 0 a d)) by (rewrite length_map, length_seq; exact Hn).
    rewrite (map_nth (fun i => nth i a d) (seq 0 (length a)) 0%nat n).
    rewrite seq_nth by exact Hn. reflexivity.
Qed.

Lemma combine_map {A B I : Type} (f : I -> A) (g : I -> B) (l : list I) :
  combine (map f l) (map g l) = map (fun i => (f i, g i)) l.
Proof. induction l as [|i l IH]; simpl; [reflexivity | rewrite IH; reflexivity]. Qed.

Lemma mapM_nth_error {A B : Type} (f : A -> option B) (l : list A) (l' : list B) :
  mapM f l = Some l' ->
  forall i a, nth_error l i = Some a ->
              exists b, nth_error l' i = Some b /\ f a = Some b.
Proof.
  revert l'. induction l as [|x l IH]; intros l' H i a Hi.
  - destruct i; discriminate.
  - simpl in H. destruct (f x) as [b|] eqn:E; cbn [bind] in H; [|discriminate].
    destruct (mapM f l) as [bs|] eqn:E'; cbn [bind] in H; [|discriminate].
    injection H as <-. destruct i as [|i]; simpl in *.
    + injection Hi as <-. exists b. auto.
    + apply (IH bs eq_refl i a Hi).
Qed.

Lemma mapM_all {A B : Type} (f : A -> option B) (l : list A) :
  (forall a, In a l -> exists b, f a = Some b) -> exists l', mapM f l = Some l'.
Proof.
  intros H. apply (mapM_total f (fun a => In a l)); [exact H|].
  apply Forall_forall. auto.
Qed.

(** ** [compute_ap]: the perfect prediction set *)

Lemma eps16_pos : 0 < eps16.
Proof. unfold eps16. lra. Qed.

Lemma cumsum_from_ones (a : R) (n : nat) :
  cumsum_from a (repeat 1 n) = map (fun k => a + INR k) (seq 1 n).
Proof.
  revert a; induction n as [|n IH]; intros a; [reflexivity|].
  cbn [repeat cumsum_from seq map]. f_equal.
  rewrite IH. rewrite <- (seq_shift n 1), map_map.
  apply map_ext. intros k. rewrite S_INR. simpl. ring.
Qed.

Lemma cumsum_from_zeros (n : nat) : cumsum_from 0 (repeat 0 n) = repeat 0 n.
Proof.
  induction n as [|n IH]; simpl; [reflexivity|].
  replace (0 + 0) with 0 by ring. rewrite IH. reflexivity.
Qed.

Lemma precision_all_tp (n : nat) :
  zipWith (fun t f => t / (t + f)) (cumsum (repeat 1 n)) (cumsum (repeat 0 n))
  = repeat 1 n.
Proof.
  unfold cumsum. rewrite cumsum_from_ones, cumsum_from_zeros.
  assert (H : forall s, (1 <= s)%nat ->
            zipWith (fun t f => t / (t + f)) (map (fun k => 0 + INR k) (seq s n)) (repeat 0 n)
            = repeat 1 n).
  { induction n as [|n IH]; intros s' Hs; [reflexivity|].
    cbn [seq map repeat zipWith].
    rewrite (IH (S s')) by lia. f_equal.
    assert (0 < INR s') by (apply lt_0_INR; lia). field. lra. }
  apply H. lia.
Qed.

Lemma rev_repeat {A : Type} (a : A) (n : nat) : rev (repeat a n) = repeat a n.
Proof.
  induction n as [|n IH]; simpl; [reflexivity|].
  rewrite IH. symmetry. apply repeat_cons.
Qed.

Lemma maximum_accumulate_from_ones (m : R) (n : nat) :
  m <= 1 -> maximum_accumulate_from m (repeat 1 n) = repeat 1 n.
Proof.
  revert m; induction n as [|n IH]; intros m Hm; simpl; [reflexivity|].
  rewrite (Rmax_right m 1 Hm). rewrite IH by lra. reflexivity.
Qed.

(** The envelope of a precision curve that is 1 throughout. *)
Lemma envelope_all_tp (n : nat) :
  rev (maximum_accumulate (rev ([1] ++ repeat 1 n ++ [0]))) = repeat 1 (S n) ++ [0].
Proof.
  change ([1] ++ repeat 1 n ++ [0]) with (repeat 1 (S n) ++ [0]).
  rewrite rev_app_distr, rev_repeat. cbn [rev app maximum_accumulate].
  rewrite maximum_accumulate_from_ones by lra.
  cbn [rev]. rewrite rev_repeat. reflexivity.
Qed.

Lemma trapz_snoc (ys xs : list R) (y x : R) :
  length ys = length xs -> (1 <= length xs)%nat ->
  trapz (ys ++ [y]) (xs ++ [x])
  = trapz ys xs + (x - last xs 0) * (y + last ys 0) / 2.
Proof.
  revert xs; induction ys as [|y0 ys IH]; intros [|x0 xs] Hl H1; simpl in Hl, H1; try lia.
  destruct ys as [|y1 ys]; destruct xs as [|x1 xs]; simpl in Hl; try lia.
  - simpl. ring.
  - change (trapz ((y0 :: y1 :: ys) ++ [y]) ((x0 :: x1 :: xs) ++ [x]))
      with ((x1 - x0) * (y1 + y0) / 2 + trapz ((y1 :: ys) ++ [y]) ((x1 :: xs) ++ [x])).
    rewrite (IH (x1 :: xs)) by (simpl; lia).
    change (trapz (y0 :: y1 :: ys) (x0 :: x1 :: xs))
      with ((x1 - x0) * (y1 + y0) / 2 + trapz (y1 :: ys) (x1 :: xs)).
    change (last (x0 :: x1 :: xs) 0) with (last (x1 :: xs) 0).
    change (last (y0 :: y1 :: ys) 0) with (last (y1 :: ys) 0).
    ring.
Qed.

Lemma trapz_ones (xs : list R) (x0 : R) :
  trapz (repeat 1 (S (length xs))) (x0 :: xs) = last (x0 :: xs) 0 - x0.
Proof.
  revert x0; induction xs as [|x1 xs IH]; intros x0.
  - simpl. ring.
  - change (trapz (repeat 1 (S (length (x1 :: xs)))) (x0 :: x1 :: xs))
      with ((x1 - x0) * (1 + 1) / 2 + trapz (repeat 1 (S (length xs))) (x1 :: xs)).
    rewrite IH.
    change (last (x0 :: x1 :: xs) 0) with (last (x1 :: xs) 0). field.
Qed.

Lemma scan_ge (key : R) (arr : list R) (i : nat) : (i <= scan key arr i)%nat.
Proof.
  revert i; induction arr as [|a arr IH]; intros i; simpl; [lia|].
  destruct (Rleb a key); [|lia]. specialize (IH (S i)). lia.
Qed.

Lemma scan_bound (key : R) (arr : list R) (i m : nat) :
  (m < length arr)%nat -> key < nth m arr 0 -> (scan key arr i <= i + m)%nat.
Proof.
  revert i m; induction arr as [|a arr IH]; intros i m Hm Hk; simpl in *; [lia|].
  destruct (Rleb a key) eqn:E; [|lia].
  destruct m as [|m].
  - apply Rleb_spec in E. lra.
  - specialize (IH (S i) m ltac:(lia) Hk). lia.
Qed.

Lemma scan_all (key : R) (arr : list R) (i : nat) :
  Forall (fun a => a <= key) arr -> scan key arr i = (i + length arr)%nat.
Proof.
  intros H. revert i. induction H as [|a arr Ha Harr IH]; intros i; simpl; [lia|].
  rewrite (Rleb_true a key Ha). rewrite IH. lia.
Qed.

(** Interpolation at a point [x] inside the sample range and below the
    sample point [rest[m]], when the values are constant up to index
    [m + 1]: the constant. *)
Lemma interp1_plateau (left a0 x c : R) (rest fp : list R) (m : nat) :
  x <= last (a0 :: rest) 0 -> a0 <= x ->
  (m + 1 < length rest)%nat -> x < nth m rest 0 ->
  (forall k, (k <= m + 1)%nat -> nth k fp 0 = c) ->
  interp1 left (a0 :: rest) fp x = c.
Proof.
  intros Hlast H0 Hm Hx Hfp. unfold interp1, binary_search.
  rewrite (Rltb_false _ _ Hlast), (Rltb_false _ _ H0).
  pose proof (scan_ge x rest 1) as G1.
  pose proof (scan_bound x rest 1 m ltac:(lia) Hx) as G2.
  set (i0 := scan x rest 1) in *.
  cbv zeta. cbn [length].
  destruct (Z.eqb_spec (Z.of_nat i0 - 1) (-1)); [lia|].
  destruct (Z.eqb_spec (Z.of_nat i0 - 1) (Z.of_nat (S (length rest)))); [lia|].
  destruct (Z.eqb_spec (Z.of_nat i0 - 1) (Z.of_nat (S (length rest)) - 1)); [lia|].
  replace (Z.to_nat (Z.of_nat i0 - 1)) with (i0 - 1)%nat by lia.
  replace (S (i0 - 1)) with i0 by lia.
  rewrite (Hfp (i0 - 1)%nat) by lia. rewrite (Hfp i0) by lia.
  destruct (Reqb _ x); [reflexivity|].
  unfold Rdiv. ring.
Qed.

(** Interpolation at the last sample point, every sample point being at
    most [x]: the last value. *)
Lemma interp1_last (left a0 x : R) (rest fp : list R) :
  x <= last (a0 :: rest) 0 -> a0 <= x ->
  Forall (fun a => a <= x) rest ->
  interp1 left (a0 :: rest) fp x = nth (length rest) fp 0.
Proof.
  intros Hlast H0 Hall. unfold interp1, binary_search.
  rewrite (Rltb_false _ _ Hlast), (Rltb_false _ _ H0).
  rewrite (scan_all x rest 1 Hall).
  cbv zeta. cbn [length].
  destruct (Z.eqb_spec (Z.of_nat (1 + length rest) - 1) (-1)); [lia|].
  destruct (Z.eqb_spec (Z.of_nat (1 + length rest) - 1) (Z.of_nat (S (length rest)))); [lia|].
  destruct (Z.eqb_spec (Z.of_nat (1 + length rest) - 1) (Z.of_nat (S (length rest)) - 1)); [|lia].
  f_equal. lia.
Qed.

Lemma map_const {A B : Type} (f : A -> B) (c : B) (l : list A) :
  (forall a, In a l -> f a = c) -> map f l = repeat c (length l).
Proof.
  induction l as [|a l IH]; intros H; simpl; [reflexivity|].
  rewrite (H a) by (left; reflexivity).
  rewrite IH by (intros; apply H; right; assumption). reflexivity.
Qed.

Lemma recall_all_tp (n : nat) :
  map (fun t => t / (INR n + eps16)) (cumsum (repeat 1 n)) = perfect_recall n.
Proof.
  unfold cumsum, perfect_recall. rewrite cumsum_from_ones, map_map. reflexivity.
Qed.

Lemma perfect_recall_length n : length (perfect_recall n) = n.
Proof. unfold perfect_recall. rewrite length_map, length_seq. reflexivity. Qed.

Lemma perfect_recall_nth (n k : nat) :
  (k < n)%nat -> nth k (perfect_recall n) 0 = INR (S k) / (INR n + eps16).
Proof.
  intros Hk. unfold perfect_recall.
  set (f := fun k : nat => (0 + INR k) / (INR n + eps16)).
  rewrite (nth_indep (map f (seq 1 n)) 0 (f 0%nat))
    by (rewrite length_map, length_seq; exact Hk).
  rewrite (map_nth f (seq 1 n) 0%nat k), seq_nth by exact Hk.
  unfold f. replace (1 + k)%nat with (S k) by lia. f_equal. ring.
Qed.

Lemma perfect_recall_le_1 (n : nat) : Forall (fun a => a <= 1) (perfect_recall n).
Proof.
  unfold perfect_recall. apply Forall_forall. intros a Ha.
  apply in_map_iff in Ha. destruct Ha as (k & <- & Hk). apply in_seq in Hk.
  pose proof eps16_pos. assert (INR k <= INR n) by (apply le_INR; lia).
  assert (0 <= INR k) by apply pos_INR.
  apply (Rmult_le_reg_r (INR n + eps16)); [lra|].
  unfold Rdiv. rewrite Rmult_assoc, Rinv_l by lra. lra.
Qed.

Lemma INR_100 : INR 100 = 100.
Proof. rewrite INR_IZR_INZ. reflexivity. Qed.

Lemma INR_99 : INR 99 = 99.
Proof. rewrite INR_IZR_INZ. reflexivity. Qed.

Lemma last_repeat_ones (n : nat) : last (repeat 1 (S n)) 0 = 1.
Proof.
  induction n as [|n IH]; [reflexivity|].
  change (repeat 1 (S (S n))) with (1 :: repeat 1 (S n)).
  change (last (1 :: repeat 1 (S n)) 0) with (last (repeat 1 (S n)) 0). exact IH.
Qed.

Lemma nth_ones_then_zero (n k : nat) :
  (k <= n)%nat -> nth k (repeat 1 (S n) ++ [0]) 0 = 1.
Proof.
  intros Hk. rewrite app_nth1 by (rewrite repeat_length; lia).
  apply nth_repeat_lt. lia.
Qed.

(** The 101 interpolated values of a perfect prediction set: 1 at the
    first hundred points, 0 at the last. *)
Lemma interp_all_tp (n : nat) :
  (1 <= n)%nat ->
  interp 1 (linspace01 100) ([0] ++ perfect_recall n ++ [1]) (repeat 1 (S n) ++ [0])
  = repeat 1 100 ++ [0].
Proof.
  intros Hn. unfold interp, linspace01.
  change (seq 0 101) with (seq 0 (S 100)). rewrite seq_S, !map_app. f_equal.
  - rewrite map_map. rewrite <- (length_seq 0 100) at 3.
    apply map_const. intros k Hk. apply in_seq in Hk.
    change ([0] ++ perfect_recall n ++ [1]) with (0 :: (perfect_recall n ++ [1])).
    assert (K0 : 0 <= INR k) by apply pos_INR.
    assert (K1 : INR k <= 99) by (rewrite <- INR_99; apply le_INR; lia).
    assert (N1 : 1 <= INR n) by (change 1 with (INR 1); apply le_INR; lia).
    pose proof eps16_pos as He.
    apply (interp1_plateau 1 0 _ 1 _ _ (n - 1)).
    + change (0 :: perfect_recall n ++ [1]) with ((0 :: perfect_recall n) ++ [1]).
      rewrite last_last. rewrite INR_100. lra.
    + rewrite INR_100. lra.
    + rewrite length_app, perfect_recall_length. simpl. lia.
    + rewrite app_nth1 by (rewrite perfect_recall_length; lia).
      rewrite perfect_recall_nth by lia.
      replace (S (n - 1)) with n by lia. rewrite INR_100.
      apply (Rmult_lt_reg_r (INR n + eps16)); [lra|].
      unfold Rdiv at 2. rewrite Rmult_assoc, Rinv_l by lra.
      assert (INR k / 100 * (INR n + eps16) <= 99 / 100 * (INR n + eps16))
        by (apply Rmult_le_compat_r; lra).
      unfold eps16 in *. lra.
    + intros j Hj. apply nth_ones_then_zero. lia.
  - cbn [map]. f_equal.
    change ([0] ++ perfect_recall n ++ [1]) with (0 :: (perfect_recall n ++ [1])).
    replace (INR (0 + 100) / INR 100) with 1
      by (change (0 + 100)%nat with 100%nat; rewrite INR_100; field).
    rewrite interp1_last.
    + rewrite length_app, perfect_recall_length. cbn [length].
      rewrite app_nth2 by (rewrite repeat_length; lia).
      rewrite repeat_length. replace (n + 1 - S n)%nat with 0%nat by lia. reflexivity.
    + change (0 :: perfect_recall n ++ [1]) with ((0 :: perfect_recall n) ++ [1]).
      rewrite last_last. lra.
    + lra.
    + apply Forall_app. split; [apply perfect_recall_le_1|]. constructor; [lra|constructor].
Qed.

(** The 101-point rule on those values. *)
Lemma trapz_all_tp : trapz (repeat 1 100 ++ [0]) (linspace01 100) = 199 / 200.
Proof.
  unfold linspace01. change (seq 0 101) with (seq 0 (S 100)). rewrite seq_S, map_app.
  cbn [map]. rewrite trapz_snoc.
  - change (seq 0 100) with (0%nat :: seq 1 99).
    cbn [map]. rewrite <- (length_seq 1 99) at 1.
    rewrite <- (length_map (fun k => INR k / INR 100) (seq 1 99)) at 1.
    rewrite trapz_ones.
    change (INR 0 / INR 100 :: map (fun k => INR k / INR 100) (seq 1 99))
      with (map (fun k => INR k / INR 100) (seq 0 (S 99))).
    rewrite seq_S, map_app. cbn [map]. rewrite last_last.
    change (repeat 1 100) with (repeat 1 (S 99)). rewrite last_repeat_ones.
    change (0 + 99)%nat with 99%nat. change (0 + 100)%nat with 100%nat.
    rewrite INR_100, INR_99. simpl. field.
  - rewrite repeat_length, length_map, length_seq. reflexivity.
  - rewrite length_map, length_seq. lia.
Qed.

(** A class whose [n] detections are all true positives, against [n]
    labels: the area under the envelope by the 101-point rule is 0.995. *)
Lemma average_precision_all_tp (n : nat) :
  (1 <= n)%nat ->
  average_precision (perfect_recall n) (repeat 1 n) = 199 / 200.
Proof.
  intros Hn. unfold average_precision. cbv zeta.
  rewrite envelope_all_tp.
  change (nth 0 (repeat 1 (S n) ++ [0]) 0) with 1.
  rewrite (interp_all_tp n Hn). apply trapz_all_tp.
Qed.

(** ** [numpy.unique] with counts *)

Lemma lookup_above (c : Z) (L : list (Z * nat)) :
  Forall (fun p => (c < fst p)%Z) L -> lookup c L = 0%nat.
Proof.
  induction 1 as [|[d n] L Hd HL IH]; simpl; [reflexivity|].
  simpl in Hd. destruct (Z.eqb_spec d c); [lia | exact IH].
Qed.

Lemma count_into_keys (c : Z) (L : list (Z * nat)) (P : Z -> Prop) :
  P c -> Forall (fun p => P (fst p)) L -> Forall (fun p => P (fst p)) (count_into c L).
Proof.
  intros Hc. induction 1 as [|[d n] L Hd HL IH]; simpl.
  - constructor; [exact Hc | constructor].
  - destruct (c <? d)%Z; [constructor; [exact Hc | constructor; assumption]|].
    destruct (c =? d)%Z; constructor; assumption.
Qed.

Lemma count_into_sorted (c : Z) (L : list (Z * nat)) :
  Sorted.StronglySorted key_lt L -> Sorted.StronglySorted key_lt (count_into c L).
Proof.
  induction 1 as [|[d n] L HL IH Hd]; simpl.
  - constructor; constructor.
  - destruct (Z.ltb_spec c d) as [Hlt|Hge].
    + constructor; [constructor; assumption|].
      constructor; [exact Hlt|].
      eapply Forall_impl; [|exact Hd]. intros [e m]. unfold key_lt. simpl. lia.
    + destruct (Z.eqb_spec c d) as [->|Hne].
      * constructor; [exact HL | exact Hd].
      * constructor; [exact IH|].
        apply (count_into_keys c L (fun k => (d < k)%Z)); [lia | exact Hd].
Qed.

Lemma count_into_lookup (c d : Z) (L : list (Z * nat)) :
  Sorted.StronglySorted key_lt L ->
  lookup d (count_into c L) = if (d =? c)%Z then S (lookup d L) else lookup d L.
Proof.
  induction 1 as [|[e n] L HL IH He].
  - simpl. rewrite (Z.eqb_sym c d). destruct (d =? c)%Z; reflexivity.
  - cbn [count_into]. destruct (Z.ltb_spec c e) as [Hlt|Hge].
    + cbn [lookup]. rewrite (Z.eqb_sym c d). destruct (Z.eqb_spec d c) as [->|Hne].
      * destruct (Z.eqb_spec e c); [lia|].
        rewrite lookup_above; [reflexivity|].
        eapply Forall_impl; [|exact He]. intros [k m]. unfold key_lt. simpl. lia.
      * reflexivity.
    + destruct (Z.eqb_spec c e) as [->|Hne].
      * cbn [lookup]. destruct (Z.eqb_spec e d) as [->|Hed].
        -- rewrite Z.eqb_refl. reflexivity.
        -- destruct (Z.eqb_spec d e); [congruence | reflexivity].
      * cbn [lookup]. destruct (Z.eqb_spec e d) as [->|Hed].
        -- destruct (Z.eqb_spec d c); [congruence | reflexivity].
        -- exact IH.
Qed.

Lemma unique_counts_sorted (l : list Z) : Sorted.StronglySorted key_lt (unique_counts l).
Proof.
  induction l as [|a l IH]; simpl; [constructor|].
  apply count_into_sorted. exact IH.
Qed.

(** The counts of [numpy.unique] are the numbers of occurrences. *)
Lemma lookup_unique_counts (c : Z) (l : list Z) :
  lookup c (unique_counts l) = count_of c l.
Proof.
  unfold count_of. induction l as [|a l IH]; [reflexivity|].
  cbn [unique_counts fold_right filter].
  change (fold_right count_into [] l) with (unique_counts l).
  rewrite (count_into_lookup a c _ (unique_counts_sorted l)).
  rewrite (Z.eqb_sym c a). destruct (a =? c)%Z; simpl; rewrite IH; reflexivity.
Qed.

Lemma lookup_pos_nth (c : Z) (L : list (Z * nat)) :
  (0 < lookup c L)%nat -> exists ci, nth_error L ci = Some (c, lookup c L).
Proof.
  induction L as [|[d n] L IH]; simpl; [lia|].
  destruct (Z.eqb_spec d c) as [->|Hne]; intros H.
  - exists 0%nat. reflexivity.
  - destruct (IH H) as [ci Hci]. exists (S ci). exact Hci.
Qed.

(** ** [compute_ap]: from the arrays to the rows of one class *)

Lemma Permutation_filter_length {A : Type} (p : A -> bool) (l l' : list A) :
  Permutation l l' -> length (filter p l) = length (filter p l').
Proof.
  induction 1 as [|a l l' H IH|a b l|l l' l'' H1 IH1 H2 IH2]; simpl.
  - reflexivity.
  - destruct (p a); simpl; rewrite IH; reflexivity.
  - destruct (p a), (p b); reflexivity.
  - rewrite IH1. exact IH2.
Qed.

Lemma mapM_length {A B : Type} (f : A -> option B) (l : list A) (l' : list B) :
  mapM f l = Some l' -> length l' = length l.
Proof.
  revert l'. induction l as [|a l IH]; simpl; intros l' H.
  - injection H as <-. reflexivity.
  - destruct (f a); cbn [bind] in H; [|discriminate].
    destruct (mapM f l) as [bs|] eqn:E; cbn [bind] in H; [|discriminate].
    injection H as <-. simpl. rewrite (IH bs eq_refl). reflexivity.
Qed.

Lemma tp_column_total (niou j : nat) (rows : list (list bool)) :
  Forall (fun r => length r = niou) rows -> (j < niou)%nat ->
  exists col, tp_column j rows = Some col.
Proof.
  intros Hrows Hj. unfold tp_column.
  apply (mapM_total _ (fun r => length r = niou)); [|exact Hrows].
  intros r Hr. destruct (nth_error r j) as [b|] eqn:E.
  - exists (b2r b). reflexivity.
  - apply nth_error_None in E. lia.
Qed.

Lemma tp_column_all_true (j : nat) (rows : list (list bool)) :
  Forall (fun r => nth_error r j = Some true) rows ->
  tp_column j rows = Some (repeat 1 (length rows)).
Proof.
  unfold tp_column. induction 1 as [|r rows Hr Hrows IH]; simpl; [reflexivity|].
  rewrite Hr. cbn [option_map bind b2r]. rewrite IH. reflexivity.
Qed.

Section ComputeApRows.

Variables (niou : nat) (tp : list (list bool)) (conf : list R) (pred_cls : list Z).
Hypothesis Hconf : length conf = length tp.
Hypothesis Hcls : length pred_cls = length tp.
Hypothesis Hrows : Forall (fun r => length r = niou) tp.

Let idx := argsort (map Ropp conf).

Lemma idx_perm : Permutation idx (seq 0 (length tp)).
Proof.
  unfold idx. rewrite <- Hconf, <- (length_map Ropp conf). apply argsort_perm.
Qed.

Lemma idx_in_range : Forall (fun i => (i < length tp)%nat) idx.
Proof.
  apply Forall_forall. intros i Hi.
  apply (Permutation_in _ idx_perm) in Hi. apply in_seq in Hi. lia.
Qed.

(** The sorted detections are the detections of the arrays, in the order
    of the index array. *)
Lemma sorted_dets :
  exists tp' conf' pred_cls',
    take tp idx = Some tp' /\ take conf idx = Some conf' /\
    take pred_cls idx = Some pred_cls' /\
    combine (combine tp' conf') pred_cls' = map (det_at tp conf pred_cls) idx.
Proof.
  exists (map (fun i => nth i tp []) idx), (map (fun i => nth i conf 0) idx),
         (map (fun i => nth i pred_cls 0%Z) idx).
  pose proof idx_in_range as Hr.
  repeat split.
  - apply take_in_range. exact Hr.
  - apply take_in_range. rewrite Hconf. exact Hr.
  - apply take_in_range. rewrite Hcls. exact Hr.
  - rewrite combine_map.
    rewrite (combine_map (fun i => (nth i tp [], nth i conf 0))
                         (fun i => nth i pred_cls 0%Z)).
    reflexivity.
Qed.

Lemma class_rows_in (c : Z) (r : list bool) :
  In r (class_rows tp conf pred_cls c) ->
  exists d, (d < length tp)%nat /\ nth d pred_cls 0%Z = c /\ r = nth d tp [].
Proof.
  unfold class_rows. fold idx. intros H.
  apply in_map_iff in H. destruct H as (x & <- & Hx).
  apply filter_In in Hx. destruct Hx as [Hx Hc].
  apply in_map_iff in Hx. destruct Hx as (d & <- & Hd).
  exists d. repeat split.
  - pose proof idx_in_range as Hr. rewrite Forall_forall in Hr. apply Hr. exact Hd.
  - unfold det_cls, det_at in Hc. simpl in Hc. apply Z.eqb_eq. exact Hc.
Qed.

Lemma class_rows_length (c : Z) :
  length (class_rows tp conf pred_cls c) = count_of c pred_cls.
Proof.
  unfold class_rows, count_of. fold idx. rewrite length_map.
  rewrite (Permutation_filter_length _ _ _ (Permutation_map _ idx_perm)).
  rewrite filter_map_swap, length_map.
  replace (filter (fun z => (z =? c)%Z) pred_cls)
    with (filter (fun z => (z =? c)%Z)
                 (map (fun i => nth i pred_cls 0%Z) (seq 0 (length pred_cls))))
    by (rewrite map_nth_seq; reflexivity).
  rewrite filter_map_swap, length_map. rewrite Hcls. reflexivity.
Qed.

Lemma class_rows_wide (c : Z) :
  Forall (fun r => length r = niou) (class_rows tp conf pred_cls c).
Proof.
  apply Forall_forall. intros r Hr.
  destruct (class_rows_in c r Hr) as (d & Hd & _ & ->).
  rewrite Forall_forall in Hrows. apply Hrows. apply nth_In. exact Hd.
Qed.

(** Every class gets a row of [ap], of [niou] entries. *)
Lemma ap_of_class_total (c : Z) (nl : nat) :
  exists row, ap_of_class niou (map (det_at tp conf pred_cls) idx) c nl = Some row /\
              length row = niou.
Proof.
  unfold ap_of_class. cbv zeta. unfold idx. fold (class_rows tp conf pred_cls c).
  destruct ((length (class_rows tp conf pred_cls c) =? 0)%nat || (nl =? 0)%nat).
  - exists (repeat 0 niou). split; [reflexivity | apply repeat_length].
  - match goal with |- exists row, mapM ?F _ = _ /\ _ => set (f := F) end.
    destruct (mapM_all f (seq 0 niou)) as [row Hrow].
    + intros j Hj. apply in_seq in Hj. unfold f.
      destruct (tp_column_total niou j _ (class_rows_wide c) ltac:(lia)) as [col ->].
      cbn [bind]. eauto.
    + exists row. split; [exact Hrow|].
      rewrite (mapM_length _ _ _ Hrow). apply length_seq.
Qed.

(** The class whose detections are all true positives in column [j], as
    many as its [nl] labels: entry [j] of its row is 0.995. *)
Lemma ap_of_class_all_tp (c : Z) (nl j : nat) (row : list R) :
  (j < niou)%nat -> (1 <= nl)%nat -> count_of c pred_cls = nl ->
  (forall d, (d < length tp)%nat -> nth d pred_cls 0%Z = c ->
             nth j (nth d tp []) false = true) ->
  ap_of_class niou (map (det_at tp conf pred_cls) idx) c nl = Some row ->
  nth_error row j = Some (199 / 200).
Proof.
  intros Hj Hnl Hcount Htp. unfold ap_of_class. cbv zeta.
  unfold idx. fold (class_rows tp conf pred_cls c). rewrite class_rows_length, Hcount.
  destruct (Nat.eqb_spec nl 0); [lia|]. cbn [orb].
  intros Hrow.
  destruct (mapM_nth_error _ _ _ Hrow j j) as (b & Hb & Hf).
  { rewrite nth_error_seq. destruct (Nat.ltb_spec j niou); [reflexivity | lia]. }
  rewrite Hb. f_equal.
  rewrite tp_column_all_true in Hf.
  - cbn [bind] in Hf. injection Hf as <-.
    rewrite class_rows_length, Hcount.
    rewrite recall_all_tp.
    replace (map (fun t => 1 - t) (repeat 1 nl)) with (repeat 0 nl)
      by (rewrite map_repeat; f_equal; ring).
    rewrite precision_all_tp. apply average_precision_all_tp. exact Hnl.
  - apply Forall_forall. intros r Hr.
    destruct (class_rows_in c r Hr) as (d & Hd & Hc & ->).
    specialize (Htp d Hd Hc).
    assert (Hlen : length (nth d tp []) = niou).
    { rewrite Forall_forall in Hrows. apply Hrows. apply nth_In. exact Hd. }
    destruct (nth_error (nth d tp []) j) as [b'|] eqn:E.
    + rewrite (nth_error_nth _ _ false E) in Htp. rewrite Htp. reflexivity.
    + apply nth_error_None in E. lia.
Qed.

End ComputeApRows.

Lemma mapM_out {A B : Type} (f : A -> option B) (l : list A) (l' : list B) :
  mapM f l = Some l' -> Forall (fun b => exists a, In a l /\ f a = Some b) l'.
Proof.
  revert l'. induction l as [|a l IH]; simpl; intros l' H.
  - injection H as <-. constructor.
  - destruct (f a) as [b|] eqn:E; cbn [bind] in H; [|discriminate].
    destruct (mapM f l) as [bs|] eqn:E'; cbn [bind] in H; [|discriminate].
    injection H as <-. constructor.
    + exists a. auto.
    + eapply Forall_impl; [|apply (IH bs eq_refl)].
      intros b' (a' & Ha' & Hf). exists a'. auto.
Qed.

(** [compute_ap] on arrays of matching lengths returns, and the class of a
    perfect prediction set has 0.995 in its row of [ap]. *)
Lemma compute_ap_all_tp (niou : nat) (tp : list (list bool)) (conf : list R)
    (pred_cls target_cls : list Z) (c : Z) (j : nat) :
  length conf = length tp -> length pred_cls = length tp ->
  Forall (fun r => length r = niou) tp ->
  (j < niou)%nat ->
  (1 <= count_of c target_cls)%nat ->
  count_of c pred_cls = count_of c target_cls ->
  (forall d, (d < length tp)%nat -> nth d pred_cls 0%Z = c ->
             nth j (nth d tp []) false = true) ->
  exists ap ap50 ci row,
    compute_ap niou tp conf pred_cls target_cls
    = Some (ap, mean ap50, mean (map mean ap)) /\
    mapM (fun r => nth_error r 0) ap = Some ap50 /\
    length ap = length (unique_counts target_cls) /\
    Forall (fun r => length r = niou) ap /\
    nth_error (unique_counts target_cls) ci = Some (c, count_of c target_cls) /\
    nth_error ap ci = Some row /\
    nth_error row j = Some (199 / 200).
Proof.
  intros Hconf Hcls Hrows Hj Hn Hcount Htp.
  destruct (sorted_dets tp conf pred_cls Hconf Hcls)
    as (tp' & conf' & cls' & E1 & E2 & E3 & E4).
  set (dets := map (det_at tp conf pred_cls) (argsort (map Ropp conf))) in *.
  destruct (mapM_all (fun cn => ap_of_class niou dets (fst cn) (snd cn))
                     (unique_counts target_cls)) as [ap Hap].
  { intros [c' n'] _. simpl.
    destruct (ap_of_class_total niou tp conf pred_cls Hconf Hcls Hrows c' n')
      as (row & Hrow & _).
    exists row. exact Hrow. }
  assert (Hwide : Forall (fun r => length r = niou) ap).
  { eapply Forall_impl; [|apply (mapM_out _ _ _ Hap)].
    intros r ([c' n'] & _ & Hr). simpl in Hr.
    destruct (ap_of_class_total niou tp conf pred_cls Hconf Hcls Hrows c' n')
      as (row & Hrow & Hlen).
    unfold dets in Hr. rewrite Hrow in Hr. injection Hr as <-. exact Hlen. }
  destruct (mapM_total (fun r : list R => nth_error r 0) (fun r => length r = niou))
    with (l := ap) as [ap50 Hap50].
  { intros r Hr. destruct r as [|x r]; simpl in *; [lia | eauto]. }
  { exact Hwide. }
  assert (Hpos : (0 < lookup c (unique_counts target_cls))%nat)
    by (rewrite lookup_unique_counts; lia).
  destruct (lookup_pos_nth c _ Hpos) as [ci Hci].
  rewrite lookup_unique_counts in Hci.
  destruct (mapM_nth_error _ _ _ Hap ci _ Hci) as (row & Hrow & Hf).
  simpl in Hf.
  exists ap, ap50, ci, row. repeat split; auto.
  - unfold compute_ap. cbv zeta. rewrite E1, E2, E3. cbn [bind].
    rewrite E4. fold dets. rewrite Hap. cbn [bind]. rewrite Hap50. reflexivity.
  - apply (mapM_length _ _ _ Hap).
  - apply (ap_of_class_all_tp niou tp conf pred_cls Hconf Hcls Hrows c
             (count_of c target_cls) j row Hj Hn Hcount Htp Hf).
Qed.

(** The scenario of the specification: one image, one ground truth of
    class 0, one detection of class 0 at confidence 0.9 that is a true
    positive at the single threshold. *)
Lemma compute_ap_scenario :
  compute_ap 1 [[true]] [9 / 10] [0%Z] [0%Z]
  = Some ([[199 / 200]], 199 / 200, 199 / 200).
Proof.
  destruct (compute_ap_all_tp 1 [[true]] [9 / 10] [0%Z] [0%Z] 0%Z 0)
    as (ap & ap50 & ci & row & E & H50 & Hlen & Hwide & Hci & Hrow & Hj);
    try reflexivity; try (simpl; lia).
  - repeat constructor.
  - intros [|d] Hd Hc; [reflexivity | simpl in Hd; lia].
  - simpl in Hlen, Hci.
    destruct ci as [|ci]; [|destruct ci; discriminate].
    destruct ap as [|r ap]; [discriminate|]. destruct ap; [|discriminate].
    simpl in Hrow. injection Hrow as ->.
    inversion Hwide as [|? ? Hr _]; subst.
    destruct row as [|v row]; [discriminate|]. destruct row; [|discriminate].
    simpl in Hj. injection Hj as ->.
    simpl in H50. injection H50 as <-.
    rewrite E. unfold mean. simpl.
    replace ((199 / 200 + 0) / 1) with (199 / 200) by field.
    replace ((199 / 200 + 0) / 1) with (199 / 200) by field.
    reflexivity.
Qed.

(** C3, as the code has it.  For a class [c] with as many detections as
    labels (at least one), every detection of the class a true positive in
    threshold column [j], the entry of [ap] for that class and threshold is
    0.995: the envelope is 1 up to the last recall point, the closing
    sentinel is 0, and the 101-point rule loses half of the last interval.
    In the scenario of one ground truth and one identical prediction at
    confidence 0.9, [ap] is [[0.995]] and AP50 is 0.995. *)
Theorem compute_ap_perfect_set (niou : nat) (tp : list (list bool)) (conf : list R)
    (pred_cls target_cls : list Z) (c : Z) (j : nat) :
  length conf = length tp -> length pred_cls = length tp ->
  Forall (fun r => length r = niou) tp ->
  (j < niou)%nat ->
  (1 <= count_of c target_cls)%nat ->
  count_of c pred_cls = count_of c target_cls ->
  (forall d, (d < length tp)%nat -> nth d pred_cls 0%Z = c ->
             nth j (nth d tp []) false = true) ->
  (exists ap map50 mean_ap ci row,
      compute_ap niou tp conf pred_cls target_cls = Some (ap, map50, mean_ap) /\
      nth_error (map fst (unique_counts target_cls)) ci = Some c /\
      nth_error ap ci = Some row /\
      nth_error row j = Some (199 / 200)) /\
  compute_ap 1 [[true]] [9 / 10] [0%Z] [0%Z]
  = Some ([[199 / 200]], 199 / 200, 199 / 200).
Proof.
  intros Hconf Hcls Hrows Hj Hn Hcount Htp. split; [|apply compute_ap_scenario].
  destruct (compute_ap_all_tp niou tp conf pred_cls target_cls c j
              Hconf Hcls Hrows Hj Hn Hcount Htp)
    as (ap & ap50 & ci & row & E & _ & _ & _ & Hci & Hrow & Hv).
  exists ap, (mean ap50), (mean (map mean ap)), ci, row. repeat split; auto.
  rewrite nth_error_map, Hci. reflexivity.
Qed.

Lemma compute_ap_perfect_set_witness :
  (exists ap map50 mean_ap ci row,
      compute_ap 1 [[true]] [9 / 10] [0%Z] [0%Z] = Some (ap, map50, mean_ap) /\
      nth_error (map fst (unique_counts [0%Z])) ci = Some 0%Z /\
      nth_error ap ci = Some row /\
      nth_error row 0 = Some (199 / 200)) /\
  compute_ap 1 [[true]] [9 / 10] [0%Z] [0%Z]
  = Some ([[199 / 200]], 199 / 200, 199 / 200).
Proof.
  apply (compute_ap_perfect_set 1 [[true]] [9 / 10] [0%Z] [0%Z] 0%Z 0).
  - reflexivity.
  - reflexivity.
  - repeat constructor.
  - lia.
  - unfold count_of. simpl. lia.
  - reflexivity.
  - intros [|d] Hd Hc; [reflexivity | simpl in Hd; lia].
Defined.

(** C3 as stated fails: in the scenario AP50 is 0.995, not 1. *)
Lemma compute_ap_perfect_not_one :
  exists ap map50 mean_ap,
    compute_ap 1 [[true]] [9 / 10] [0%Z] [0%Z] = Some (ap, map50, mean_ap) /\
    nth_error ap 0 = Some [199 / 200] /\ map50 = 199 / 200 /\ map50 <> 1.
Proof.
  exists [[199 / 200]], (199 / 200), (199 / 200).
  repeat split; [apply compute_ap_scenario | lra].
Qed.

(** ** De-duplication by first occurrence *)

Section UniqueRows.

Context {A : Type}.
Variable key : A -> nat.

Let key_is (k : nat) (a : A) : bool := (key a =? k)%nat.
Let key_before (a b : A) : Prop := (key a < key b)%nat.

Lemma keep_first_find (k : nat) (a : A) (L : list A) :
  find (key_is k) (keep_first key a L)
  = if key_is k a then Some a else find (key_is k) L.
Proof.
  unfold key_is. induction L as [|b L IH]; simpl; [reflexivity|].
  destruct (Nat.ltb_spec (key a) (key b)) as [Hlt|Hge]; [reflexivity|].
  destruct (Nat.eqb_spec (key a) (key b)) as [Heq|Hne].
  - simpl. rewrite <- Heq. destruct (key a =? k)%nat; reflexivity.
  - simpl. destruct (Nat.eqb_spec (key b) k) as [Hb|Hb].
    + destruct (Nat.eqb_spec (key a) k); [lia | reflexivity].
    + exact IH.
Qed.

(** The row kept for a key is the first row with that key. *)
Lemma unique_rows_find (k : nat) (rows : list A) :
  find (key_is k) (unique_rows key rows) = find (key_is k) rows.
Proof.
  induction rows as [|a rows IH]; [reflexivity|].
  cbn [unique_rows fold_right]. fold (unique_rows key rows).
  rewrite keep_first_find, IH. reflexivity.
Qed.

Lemma keep_first_keys (P : nat -> Prop) (a : A) (L : list A) :
  P (key a) -> Forall (fun b => P (key b)) L ->
  Forall (fun b => P (key b)) (keep_first key a L).
Proof.
  intros Ha. induction 1 as [|b L Hb HL IH]; simpl.
  - constructor; [exact Ha | constructor].
  - destruct (key a <? key b)%nat; [constructor; [exact Ha | constructor; assumption]|].
    destruct (key a =? key b)%nat; constructor; assumption.
Qed.

Lemma keep_first_sorted (a : A) (L : list A) :
  StronglySorted key_before L -> StronglySorted key_before (keep_first key a L).
Proof.
  unfold key_before. induction 1 as [|b L HL IH Hb]; simpl.
  - constructor; constructor.
  - destruct (Nat.ltb_spec (key a) (key b)) as [Hlt|Hge].
    + constructor; [constructor; assumption|].
      constructor; [exact Hlt|].
      eapply Forall_impl; [|exact Hb]. intros c Hc. simpl in Hc. lia.
    + destruct (Nat.eqb_spec (key a) (key b)) as [Heq|Hne].
      * constructor; [exact HL|]. rewrite Heq. exact Hb.
      * constructor; [exact IH|].
        apply (keep_first_keys (fun k => (key b < k)%nat)); [lia | exact Hb].
Qed.

(** The rows kept come in strictly increasing order of their keys. *)
Lemma unique_rows_sorted (rows : list A) :
  StronglySorted key_before (unique_rows key rows).
Proof.
  induction rows as [|a rows IH]; simpl; [constructor|].
  apply keep_first_sorted. exact IH.
Qed.

Lemma sorted_find (L : list A) (u : A) :
  StronglySorted key_before L -> In u L -> find (key_is (key u)) L = Some u.
Proof.
  unfold key_is, key_before. induction 1 as [|b L HL IH Hb]; intros Hu; [destruct Hu|].
  simpl. destruct Hu as [->|Hu].
  - rewrite Nat.eqb_refl. reflexivity.
  - rewrite Forall_forall in Hb. specialize (Hb u Hu).
    destruct (Nat.eqb_spec (key b) (key u)); [lia|]. apply IH. exact Hu.
Qed.

Lemma sorted_keys_nodup (L : list A) :
  StronglySorted key_before L -> NoDup (map key L).
Proof.
  unfold key_before. induction 1 as [|b L HL IH Hb]; simpl; constructor; [|exact IH].
  intros Hin. apply in_map_iff in Hin. destruct Hin as (c & Hc & Hin).
  rewrite Forall_forall in Hb. specialize (Hb c Hin). lia.
Qed.

Lemma find_first (k : nat) (rows : list A) (u : A) :
  find (key_is k) rows = Some u ->
  key u = k /\
  exists pre post, rows = pre ++ u :: post /\ Forall (fun a => key a <> k) pre.
Proof.
  unfold key_is. induction rows as [|a rows IH]; simpl; [discriminate|].
  destruct (Nat.eqb_spec (key a) k) as [Ha|Ha]; intros H.
  - injection H as <-. split; [exact Ha|]. exists [], rows. split; [reflexivity | constructor].
  - destruct (IH H) as (Hk & pre & post & -> & Hpre). split; [exact Hk|].
    exists (a :: pre), post. split; [reflexivity | constructor; assumption].
Qed.

(** A row kept by [unique_rows] is the first row of the input with its
    key, and every row of the input has its key among those kept. *)
Lemma unique_rows_first (rows : list A) (u : A) :
  In u (unique_rows key rows) ->
  exists pre post, rows = pre ++ u :: post /\ Forall (fun a => key a <> key u) pre.
Proof.
  intros Hu.
  pose proof (sorted_find _ u (unique_rows_sorted rows) Hu) as Hf.
  rewrite unique_rows_find in Hf.
  destruct (find_first _ _ _ Hf) as (_ & pre & post & E & Hpre).
  exists pre, post. auto.
Qed.

Lemma unique_rows_incl (rows : list A) (u : A) :
  In u (unique_rows key rows) -> In u rows.
Proof.
  intros Hu. destruct (unique_rows_first rows u Hu) as (pre & post & -> & _).
  apply in_or_app. right. left. reflexivity.
Qed.

Lemma unique_rows_nodup (rows : list A) : NoDup (map key (unique_rows key rows)).
Proof. apply sorted_keys_nodup. apply unique_rows_sorted. Qed.

End UniqueRows.

(** ** The stable sort sorts *)

Section SortBy.

Context {A : Type}.
Variable le : A -> A -> bool.
Hypothesis le_total : forall a b, le a b = false -> le b a = true.
Hypothesis le_trans : forall a b c, le a b = true -> le b c = true -> le a c = true.

Let leP (a b : A) : Prop := le a b = true.

Lemma insert_by_sorted (a : A) (l : list A) :
  StronglySorted leP l -> StronglySorted leP (insert_by le a l).
Proof.
  unfold leP. induction 1 as [|b l Hl IH Hb]; simpl.
  - constructor; constructor.
  - destruct (le a b) eqn:E.
    + constructor; [constructor; assumption|].
      constructor; [exact E|].
      eapply Forall_impl; [|exact Hb]. intros c Hc. simpl in Hc.
      apply (le_trans a b c E Hc).
    + constructor; [exact IH|].
      apply (Permutation_Forall (Permutation_sym (insert_by_perm le a l))).
      constructor; [apply le_total; exact E | exact Hb].
Qed.

Lemma sort_by_sorted (l : list A) : StronglySorted leP (sort_by le l).
Proof.
  induction l as [|a l IH]; simpl; [constructor|].
  apply insert_by_sorted. exact IH.
Qed.

End SortBy.

Lemma StronglySorted_app_inv {A : Type} (R : A -> A -> Prop) (l1 l2 : list A) :
  StronglySorted R (l1 ++ l2) ->
  StronglySorted R l1 /\ StronglySorted R l2 /\
  (forall a b, In a l1 -> In b l2 -> R a b).
Proof.
  induction l1 as [|x l1 IH]; simpl; intros H.
  - repeat split; [constructor | exact H | intros a b []].
  - inversion H as [|? ? Hs Hf]; subst.
    destruct (IH Hs) as (S1 & S2 & S12).
    rewrite Forall_app in Hf. destruct Hf as [F1 F2].
    repeat split; [constructor; assumption | exact S2 |].
    intros a b [<-|Ha] Hb; [|apply S12; assumption].
    rewrite Forall_forall in F2. apply F2. exact Hb.
Qed.

Lemma StronglySorted_weaken {A : Type} (R S : A -> A -> Prop) (l : list A) :
  (forall a b, R a b -> S a b) -> StronglySorted R l -> StronglySorted S l.
Proof.
  intros H. induction 1 as [|a l Hl IH Ha]; constructor; [exact IH|].
  eapply Forall_impl; [|exact Ha]. intros b. apply H.
Qed.

Lemma StronglySorted_rev {A : Type} (R : A -> A -> Prop) (l : list A) :
  StronglySorted R l -> StronglySorted (fun a b => R b a) (rev l).
Proof.
  induction 1 as [|a l Hl IH Ha]; simpl; [constructor|].
  induction (rev l) as [|b r IHr] eqn:E in IH, Ha, Hl |- *.
  - simpl. constructor; constructor.
  - assert (Hin : forall c, In c (b :: r) -> R a c).
    { intros c Hc. rewrite Forall_forall in Ha. apply Ha.
      apply in_rev. rewrite E. exact Hc. }
    clear E Ha Hl IHr.
    revert Hin. induction IH as [|c r' Hr' IHr' Hc]; intros Hin.
    + simpl. constructor; constructor.
    + simpl. constructor.
      * apply IHr'. intros d Hd. apply Hin. right. exact Hd.
      * apply Forall_app. split; [exact Hc|].
        constructor; [apply Hin; left; reflexivity | constructor].
Qed.

(** ** [compute_metric]: the accepted matches *)

Lemma Rleb_total (x y : R) : Rleb x y = false -> Rleb y x = true.
Proof.
  intros H. apply Rleb_true. unfold Rleb in H.
  destruct (Rle_dec x y); [discriminate | lra].
Qed.

Lemma Rleb_trans (x y z : R) : Rleb x y = true -> Rleb y z = true -> Rleb x z = true.
Proof. rewrite !Rleb_spec. lra. Qed.

Lemma by_iou_descending_perm (ms : list match_row) :
  Permutation (by_iou_descending ms) ms.
Proof.
  unfold by_iou_descending. rewrite <- Permutation_rev. apply sort_by_perm.
Qed.

Lemma by_iou_descending_sorted (ms : list match_row) :
  StronglySorted (fun p q => m_iou q <= m_iou p) (by_iou_descending ms).
Proof.
  unfold by_iou_descending.
  apply (StronglySorted_rev (fun p q => m_iou p <= m_iou q)).
  eapply StronglySorted_weaken;
    [|apply (sort_by_sorted (fun p q => Rleb (m_iou p) (m_iou q)))].
  - intros p q H. apply Rleb_spec. exact H.
  - intros a b. apply Rleb_total.
  - intros a b c. apply Rleb_trans.
Qed.

(** After the first de-duplication each detection keeps one match, a
    candidate of highest similarity among the candidates of that
    detection. *)
Lemma per_detection_best (cands : list match_row) (m : match_row) :
  In m (per_detection cands) ->
  In m cands /\
  forall c, In c cands -> m_detect c = m_detect m -> m_iou c <= m_iou m.
Proof.
  unfold per_detection. intros Hm.
  destruct (unique_rows_first m_detect _ m Hm) as (pre & post & E & Hpre).
  pose proof (by_iou_descending_perm cands) as Hperm.
  pose proof (by_iou_descending_sorted cands) as Hsorted.
  rewrite E in Hperm, Hsorted. split.
  - apply (Permutation_in _ Hperm). apply in_or_app. right. left. reflexivity.
  - intros c Hc Hd.
    apply (Permutation_in _ (Permutation_sym Hperm)) in Hc.
    apply in_app_or in Hc. destruct Hc as [Hc|[<-|Hc]].
    + rewrite Forall_forall in Hpre. elim (Hpre c Hc Hd).
    + lra.
    + apply StronglySorted_app_inv in Hsorted. destruct Hsorted as (_ & S2 & _).
      inversion S2 as [|? ? _ Hf]; subst.
      rewrite Forall_forall in Hf. apply (Hf c Hc).
Qed.

Lemma per_detection_nodup (cands : list match_row) :
  NoDup (map m_detect (per_detection cands)).
Proof. apply unique_rows_nodup. Qed.

Lemma per_detection_short (cands : list match_row) :
  (length cands <= 1)%nat -> per_detection cands = cands.
Proof.
  destruct cands as [|a [|b l]]; simpl; intros H; try reflexivity. lia.
Qed.

Lemma NoDup_map_inj {A B : Type} (f : A -> B) (l : list A) :
  NoDup l -> (forall x y, In x l -> In y l -> f x = f y -> x = y) -> NoDup (map f l).
Proof.
  induction 1 as [|a l Ha Hl IH]; intros Hinj; simpl; constructor.
  - intros Hin. apply in_map_iff in Hin. destruct Hin as (b & Hb & Hin).
    assert (b = a) by (apply Hinj; [right; exact Hin | left; reflexivity | exact Hb]).
    subst b. contradiction.
  - apply IH. intros x y Hx Hy. apply Hinj; right; assumption.
Qed.

Lemma NoDup_map_In_inj {A B : Type} (f : A -> B) (l : list A) (x y : A) :
  NoDup (map f l) -> In x l -> In y l -> f x = f y -> x = y.
Proof.
  induction l as [|a l IH]; simpl; intros Hn Hx Hy Hf; [destruct Hx|].
  inversion Hn as [|? ? Ha Hl]; subst.
  destruct Hx as [->|Hx], Hy as [->|Hy]; auto.
  - elim Ha. rewrite Hf. apply in_map. exact Hy.
  - elim Ha. rewrite <- Hf. apply in_map. exact Hx.
Qed.

(** The matches accepted at one threshold, whatever the candidates. *)
Lemma accepted_matches_spec (cands : list match_row) :
  NoDup (map m_label (accepted_matches cands)) /\
  NoDup (map m_detect (accepted_matches cands)) /\
  (forall m, In m (accepted_matches cands) -> In m (per_detection cands)) /\
  (forall m c, In m (accepted_matches cands) -> In c (per_detection cands) ->
               m_label c = m_label m -> (m_detect m <= m_detect c)%nat).
Proof.
  unfold accepted_matches. destruct (Nat.ltb_spec 1 (length cands)) as [Hlen|Hlen].
  - assert (Hincl : forall m, In m (unique_rows m_label (per_detection cands)) ->
                              In m (per_detection cands))
      by (intros m; apply unique_rows_incl).
    repeat split.
    + apply unique_rows_nodup.
    + apply NoDup_map_inj.
      * apply (NoDup_map_inv m_label). apply unique_rows_nodup.
      * intros x y Hx Hy Hxy.
        apply (NoDup_map_In_inj m_detect (per_detection cands));
          auto using per_detection_nodup.
    + exact Hincl.
    + intros m c Hm Hc Hl.
      destruct (unique_rows_first m_label _ m Hm) as (pre & post & E & Hpre).
      pose proof (unique_rows_sorted m_detect (by_iou_descending cands)) as Hs.
      fold (per_detection cands) in Hs. rewrite E in Hs, Hc.
      apply in_app_or in Hc. destruct Hc as [Hc|[<-|Hc]].
      * rewrite Forall_forall in Hpre. elim (Hpre c Hc Hl).
      * lia.
      * apply StronglySorted_app_inv in Hs. destruct Hs as (_ & S2 & _).
        inversion S2 as [|? ? _ Hf]; subst.
        rewrite Forall_forall in Hf. specialize (Hf c Hc). simpl in Hf. lia.
  - rewrite (per_detection_short cands Hlen).
    destruct cands as [|a [|b l]]; simpl in Hlen; try lia.
    + split; [constructor|]. split; [constructor|].
      split; [intros m [] | intros m c []].
    + split; [constructor; [intros [] | constructor]|].
      split; [constructor; [intros [] | constructor]|].
      split; [intros m Hm; exact Hm|].
      intros m c [<-|[]] [<-|[]] _. lia.
Qed.

(** C4, as the code has it.  At every threshold, each ground truth and
    each prediction takes part in at most one accepted match.  An accepted
    match is, for its prediction, a candidate of highest similarity among
    that prediction's candidates; among the predictions left by that first
    selection that share a ground truth, the one accepted is the one of
    lowest prediction index, whatever its similarity. *)
Theorem compute_metric_matching (iou : list (list R)) (target_cls output_cls : list R)
    (thr : R) :
  let cands := candidates iou target_cls output_cls thr in
  let ms := accepted_matches cands in
  NoDup (map m_label ms) /\
  NoDup (map m_detect ms) /\
  (forall m, In m ms ->
     In m cands /\
     forall c, In c cands -> m_detect c = m_detect m -> m_iou c <= m_iou m) /\
  (forall m c, In m ms -> In c (per_detection cands) ->
     m_label c = m_label m -> (m_detect m <= m_detect c)%nat).
Proof.
  intros cands ms.
  destruct (accepted_matches_spec cands) as (H1 & H2 & H3 & H4).
  repeat split; auto.
  - apply (per_detection_best cands m). apply H3. assumption.
  - apply (per_detection_best cands m). apply H3. assumption.
Qed.

(** Resolving the comparisons of a concrete run. *)
Ltac eval_cmp :=
  repeat match goal with
    | |- context [Rleb ?a ?b] =>
        first [ rewrite (Rleb_true a b) by lra | rewrite (Rleb_false a b) by lra ]
    | |- context [Rltb ?a ?b] =>
        first [ rewrite (Rltb_true a b) by lra | rewrite (Rltb_false a b) by lra ]
    | |- context [Reqb ?a ?b] =>
        first [ rewrite (Reqb_true a b) by lra | rewrite (Reqb_false a b) by lra ]
    | |- context [Rmin ?a ?b] =>
        first [ rewrite (Rmin_left a b) by lra | rewrite (Rmin_right a b) by lra ]
    | |- context [Rmax ?a ?b] =>
        first [ rewrite (Rmax_left a b) by lra | rewrite (Rmax_right a b) by lra ]
    end.

Lemma metric_example_matching (v0 v1 : R) :
  1 / 2 <= v0 -> v0 < v1 ->
  candidates [[v0; v1]] [0] [0; 0] (1 / 2) = [Match 0 0 v0; Match 0 1 v1] /\
  accepted_matches (candidates [[v0; v1]] [0] [0; 0] (1 / 2)) = [Match 0 0 v0].
Proof.
  intros H0 H1.
  assert (E : candidates [[v0; v1]] [0] [0; 0] (1 / 2) = [Match 0 0 v0; Match 0 1 v1]).
  { unfold candidates. simpl. eval_cmp. reflexivity. }
  split; [exact E|]. rewrite E.
  unfold accepted_matches, per_detection, by_iou_descending, unique_rows, sort_by.
  simpl. eval_cmp. reflexivity.
Qed.

Lemma metric_example_similarity :
  similarity metric_output metric_target None
  = Some [[60 / (100 + eps7); 90 / (100 + eps7)]].
Proof.
  unfold similarity, metric_output, metric_target, row_box. simpl.
  unfold box_iou, clamp0. simpl. eval_cmp.
  repeat f_equal; unfold eps7; field.
Qed.

(** C4 as stated fails: the ground truth overlaps detection 1 more than
    detection 0, both pass the threshold 0.5, and the accepted match is the
    one to detection 0. *)
Lemma compute_metric_keeps_lower_similarity :
  compute_metric metric_output metric_target [1 / 2] None = Some [[true]; [false]] /\
  exists v0 v1,
    similarity metric_output metric_target None = Some [[v0; v1]] /\
    1 / 2 <= v0 /\ v0 < v1 /\
    In (Match 0 1 v1) (candidates [[v0; v1]] [0] [0; 0] (1 / 2)) /\
    accepted_matches (candidates [[v0; v1]] [0] [0; 0] (1 / 2)) = [Match 0 0 v0].
Proof.
  assert (H0 : 1 / 2 <= 60 / (100 + eps7)) by (unfold eps7; lra).
  assert (H1 : 60 / (100 + eps7) < 90 / (100 + eps7)) by (unfold eps7; lra).
  destruct (metric_example_matching _ _ H0 H1) as [Ec Ea].
  split.
  - unfold compute_metric. rewrite metric_example_similarity. cbn [bind].
    change (get_col 0 metric_target) with (Some [0]).
    change (get_col 5 metric_output) with (Some [0; 0]).
    cbn [bind map]. rewrite Ea. reflexivity.
  - exists (60 / (100 + eps7)), (90 / (100 + eps7)).
    split; [apply metric_example_similarity|].
    split; [exact H0|]. split; [exact H1|]. split; [|exact Ea].
    rewrite Ec. right. left. reflexivity.
Qed.

(** ** [non_max_suppression]: shapes *)

Lemma take_In {A : Type} (a : list A) (idx : list nat) (l : list A) :
  take a idx = Some l -> Forall (fun e => In e a) l.
Proof.
  unfold take. intros H.
  eapply Forall_impl; [|apply (mapM_out _ _ _ H)].
  intros e (i & _ & Hi). apply (nth_error_In _ _ Hi).
Qed.

Lemma take_total {A : Type} (a : list A) (idx : list nat) :
  Forall (fun i => (i < length a)%nat) idx -> exists l, take a idx = Some l.
Proof.
  intros H. destruct a as [|d a].
  - destruct idx as [|i idx]; [exists []; reflexivity|].
    inversion H; subst. simpl in *. lia.
  - exists (map (fun i => nth i (d :: a) d) idx). apply take_in_range. exact H.
Qed.

Lemma select_In {A : Type} (l : list A) (mask : list bool) (a : A) :
  In a (select l mask) -> In a l.
Proof.
  revert mask. induction l as [|b l IH]; intros [|m mask]; simpl; try tauto.
  destruct m; simpl; intros H.
  - destruct H as [->|H]; [left; reflexivity | right; apply (IH mask H)].
  - right. apply (IH mask H).
Qed.

Lemma transpose_row_length (n : nat) (img : list (list R)) (r : row) :
  In r (transpose n img) -> length r = length img.
Proof.
  unfold transpose. intros H. apply in_map_iff in H.
  destruct H as (a & <- & _). apply length_map.
Qed.

Lemma nms_step_incl (boxes : list box) (thr : R) (order : list nat) (kept : list nat) :
  forall i, In i (fold_left (nms_step boxes thr) order kept) -> In i kept \/ In i order.
Proof.
  revert kept. induction order as [|o order IH]; simpl; intros kept i H; [left; exact H|].
  destruct (IH _ i H) as [Hk|Ho]; [|right; right; exact Ho].
  unfold nms_step in Hk. destruct (existsb _ kept); [left; exact Hk|].
  apply in_app_or in Hk. destruct Hk as [Hk|[<-|[]]]; [left; exact Hk | right; left; reflexivity].
Qed.

Lemma nms_in_range (boxes : list box) (scores : list R) (thr : R) :
  Forall (fun i => (i < length scores)%nat) (nms boxes scores thr).
Proof.
  apply Forall_forall. intros i Hi. unfold nms in Hi.
  apply nms_step_incl in Hi. destruct Hi as [[]|Hi].
  pose proof (argsort_in_range (map Ropp scores)) as Hr.
  rewrite Forall_forall in Hr. specialize (Hr i Hi).
  rewrite length_map in Hr. exact Hr.
Qed.

Lemma Forall_firstn {A : Type} (P : A -> Prop) (k : nat) (l : list A) :
  Forall P l -> Forall P (firstn k l).
Proof.
  intros H. revert k. induction H as [|a l Ha Hl IH]; intros [|k]; simpl;
    constructor; auto.
Qed.

Lemma wh2xy_row_length (r r' : row) :
  wh2xy_row r = Some r' -> length r' = length r.
Proof.
  destruct r as [|x0 [|x1 [|x2 [|x3 rest]]]]; simpl; try discriminate.
  intros H; injection H as <-. reflexivity.
Qed.

Lemma wh2xy_row_total (r : row) :
  (4 <= length r)%nat -> exists r', wh2xy_row r = Some r'.
Proof.
  intros H. destruct (wide4_row r H) as (x0 & x1 & x2 & x3 & rest & ->).
  simpl. eauto.
Qed.

Section NmsShape.

Variables (ch n : nat) (conf_threshold iou_threshold : R) (nc_arg : nat).

Local Abbreviation nc := (nms_nc ch nc_arg).
Local Abbreviation nm := (nms_nm ch nc_arg).
Local Abbreviation width := (4 + 1 + 1 + Z.to_nat nm)%nat.

Lemma split_row_spec (r box cls mask : row) :
  split_row ch nc_arg r = Some (box, cls, mask) ->
  length box = 4%nat /\ length cls = nc /\ length mask = Z.to_nat nm /\ (0 <= nm)%Z.
Proof.
  unfold split_row.
  set (b := firstn 4 r). set (c := firstn nc (skipn 4 r)). set (m := skipn (4 + nc) r).
  destruct (Z.leb_spec 0 nm) as [Hnm|]; [|discriminate].
  destruct (Nat.eqb_spec (length r) (4 + nc + Z.to_nat nm)) as [Hr|]; [|discriminate].
  change (true && true) with true. cbv iota. intros H. injection H as <- <- <-.
  unfold b, c, m.
  repeat split; rewrite ?length_firstn, ?length_skipn; lia.
Qed.

Lemma split_row_total (r : row) :
  length r = ch -> (4 + nc <= ch)%nat -> exists p, split_row ch nc_arg r = Some p.
Proof.
  intros Hr Hc. unfold split_row.
  set (b := firstn 4 r). set (c := firstn nc (skipn 4 r)). set (m := skipn (4 + nc) r).
  assert (Hnm : (0 <= nm)%Z) by (unfold nms_nm; lia).
  destruct (Z.leb_spec 0 nm); [|lia].
  destruct (Nat.eqb_spec (length r) (4 + nc + Z.to_nat nm)) as [|Hne].
  - change (true && true) with true. cbv iota. eauto.
  - elim Hne. unfold nms_nm in *. lia.
Qed.

Lemma detection_rows_width (box cls mask : row) (rows : list row) :
  length box = 4%nat -> length mask = Z.to_nat nm ->
  detection_rows ch conf_threshold nc_arg box cls mask = Some rows ->
  Forall (fun r => length r = width) rows.
Proof.
  intros Hb Hm. unfold detection_rows.
  assert (W : forall s j, length (box ++ [s; INR j] ++ mask) = width)
    by (intros; rewrite !length_app; simpl; lia).
  destruct (1 <? nc)%nat.
  - intros H. injection H as <-. apply Forall_concat.
    apply Forall_forall. intros l Hl. apply in_map_iff in Hl.
    destruct Hl as (j & <- & _).
    destruct (Rltb conf_threshold (nth j cls 0)); repeat constructor. apply W.
  - destruct (max_with_index cls) as [[c j]|]; cbn [bind]; [|discriminate].
    intros H. injection H as <-.
    destruct (Rltb conf_threshold c); repeat constructor. apply W.
Qed.

Lemma detection_rows_total (box cls mask : row) :
  length cls = nc -> (1 <= nc)%nat ->
  exists rows, detection_rows ch conf_threshold nc_arg box cls mask = Some rows.
Proof.
  intros Hc Hn. unfold detection_rows. destruct (1 <? nc)%nat; [eauto|].
  destruct cls as [|x cls]; [simpl in Hc; lia|]. simpl.
  destruct (max_with_index_from x 0 1 cls) as [c j]. eauto.
Qed.

(** An image that reaches the assignment yields a table of [6 + nm]
    columns, each row of that length. *)
Lemma nms_image_shape (img : list (list R)) (xc : list bool) (t : table) :
  nms_image ch n conf_threshold iou_threshold nc_arg img xc = Some (Some t) ->
  (0 <= nm)%Z /\ t_cols t = width /\ Forall (fun r => length r = width) (t_rows t).
Proof.
  unfold nms_image. cbv zeta.
  set (x := select (transpose n img) xc).
  destruct (length x =? 0)%nat eqn:Ex; [discriminate|].
  destruct (mapM (split_row ch nc_arg) x) as [parts|] eqn:Ep; cbn [bind]; [|discriminate].
  match goal with |- context [mapM ?F parts] => set (f := F) end.
  destruct (mapM f parts) as [xs|] eqn:Exs; cbn [bind]; [|discriminate].
  destruct (length (concat xs) =? 0)%nat eqn:Exl; [discriminate|].
  match goal with |- context [take (concat xs) ?I] => set (order := I) end.
  destruct (take (concat xs) order) as [x1|] eqn:E1; cbn [bind]; [|discriminate].
  match goal with |- context [take x1 ?I] => set (keep := I) end.
  destruct (take x1 keep) as [x2|] eqn:E2; cbn [bind]; [|discriminate].
  intros H. injection H as <-. cbn [t_cols t_rows].
  assert (Hparts : Forall (fun p => exists r, split_row ch nc_arg r = Some p) parts).
  { eapply Forall_impl; [|apply (mapM_out _ _ _ Ep)]. intros p (r & _ & Hr). eauto. }
  assert (Hnm : (0 <= nm)%Z).
  { destruct parts as [|[[b c] m] parts].
    - apply mapM_length in Ep. simpl in Ep. rewrite <- Ep in Ex. discriminate.
    - inversion Hparts as [|? ? (r & Hr) _]; subst.
      apply split_row_spec in Hr. tauto. }
  assert (Hxs : Forall (fun r => length r = width) (concat xs)).
  { apply Forall_concat. eapply Forall_impl; [|apply (mapM_out _ _ _ Exs)].
    intros rows ([[b c] m] & Hin & Hrows). unfold f in Hrows.
    rewrite Forall_forall in Hparts. destruct (Hparts _ Hin) as (r & Hr).
    apply split_row_spec in Hr. destruct Hr as (Hb & _ & Hm & _).
    destruct (wh2xy_row b) as [b'|] eqn:Eb; cbn [bind] in Hrows; [|discriminate].
    apply (detection_rows_width b' c m rows); auto.
    rewrite (wh2xy_row_length _ _ Eb). exact Hb. }
  split; [exact Hnm|]. split; [reflexivity|].
  rewrite Forall_forall in Hxs.
  apply Forall_forall. intros r Hr. apply Hxs.
  pose proof (take_In _ _ _ E2) as H2. rewrite Forall_forall in H2.
  pose proof (take_In _ _ _ E1) as H1. rewrite Forall_forall in H1.
  apply H1. apply H2. exact Hr.
Qed.

Lemma nms_image_total (img : list (list R)) (xc : list bool) :
  length img = ch -> (4 + nc <= ch)%nat -> (1 <= nc)%nat ->
  exists r, nms_image ch n conf_threshold iou_threshold nc_arg img xc = Some r.
Proof.
  intros Himg Hc Hn. unfold nms_image. cbv zeta.
  set (x := select (transpose n img) xc).
  destruct (length x =? 0)%nat; [eauto|].
  assert (Hx : Forall (fun r : row => length r = ch) x).
  { apply Forall_forall. intros r Hr. apply select_In in Hr.
    rewrite (transpose_row_length _ _ _ Hr). exact Himg. }
  destruct (mapM_total (split_row ch nc_arg) (fun r : row => length r = ch)) with (l := x)
    as [parts Ep]; [intros r Hr; apply split_row_total; assumption | exact Hx |].
  rewrite Ep. cbn [bind].
  match goal with |- context [mapM ?F parts] => set (f := F) end.
  destruct (mapM_all f parts) as [xs Exs].
  { intros [[b c] m] Hin.
    pose proof (mapM_out _ _ _ Ep) as Ho. rewrite Forall_forall in Ho.
    destruct (Ho _ Hin) as (r & _ & Hr). apply split_row_spec in Hr.
    destruct Hr as (Hb & Hcl & Hm & _). unfold f.
    destruct (wh2xy_row_total b ltac:(lia)) as [b' ->]. cbn [bind].
    apply detection_rows_total; assumption. }
  rewrite Exs. cbn [bind].
  destruct (length (concat xs) =? 0)%nat; [eauto|].
  match goal with |- context [take (concat xs) ?I] => set (order := I) end.
  destruct (take_total (concat xs) order) as [x1 E1].
  { unfold order. apply Forall_firstn.
    pose proof (argsort_in_range (map (fun r : row => - nth 4 r 0) (concat xs))) as Hr.
    rewrite length_map in Hr. exact Hr. }
  rewrite E1. cbn [bind].
  match goal with |- context [take x1 ?I] => set (keep := I) end.
  destruct (take_total x1 keep) as [x2 E2].
  { unfold keep. apply Forall_firstn.
    match goal with |- context [nms ?B ?S ?T] => pose proof (nms_in_range B S T) as Hr end.
    rewrite length_map in Hr. exact Hr. }
  rewrite E2. cbn [bind]. eauto.
Qed.

End NmsShape.

Section NmsLoop.

Variables (ch n : nat) (conf_threshold iou_threshold : R) (nc_arg : nat).
Variables (t0 : R) (clock : nat -> R).

Local Abbreviation nc := (nms_nc ch nc_arg).
Local Abbreviation nm := (nms_nm ch nc_arg).
Local Abbreviation width := (4 + 1 + 1 + Z.to_nat nm)%nat.
Local Abbreviation image := (nms_image ch n conf_threshold iou_threshold nc_arg).
Local Abbreviation loop := (nms_loop ch n conf_threshold iou_threshold nc_arg t0 clock).

Lemma nth_error_map_const {A B : Type} (b : B) (l : list A) (k : nat) :
  (k < length l)%nat -> nth_error (map (fun _ => b) l) k = Some b.
Proof.
  revert k. induction l as [|a l IH]; intros [|k] H; simpl in *; try lia; [reflexivity|].
  apply IH. lia.
Qed.

(** Every entry of the list returned is the blank table or a table built
    by the loop body. *)
Lemma nms_loop_entries (limit : R) (blank : table) (imgs : list (list (list R))) :
  forall (index : nat) (xcs : list (list bool)) (out : list table),
    loop limit blank index imgs xcs = Some out ->
    length out = length imgs /\
    Forall (fun e => e = blank \/
                     exists img xc, image img xc = Some (Some e)) out.
Proof.
  induction imgs as [|img imgs IH]; intros index xcs out H.
  - simpl in H. injection H as <-. split; [reflexivity | constructor].
  - destruct xcs as [|xc xcs]; [discriminate|]. cbn [nms_loop] in H.
    destruct (image img xc) as [[t|]|] eqn:E; cbn [bind] in H; [| |discriminate].
    + destruct (Rltb limit (clock index - t0)).
      * injection H as <-. split; [simpl; rewrite length_map; reflexivity|].
        constructor; [right; eauto|].
        apply Forall_forall. intros e He. apply in_map_iff in He.
        destruct He as (? & <- & _). left. reflexivity.
      * destruct (loop limit blank (S index) imgs xcs) as [rest|] eqn:Er;
          cbn [bind] in H; [|discriminate].
        injection H as <-. destruct (IH _ _ _ Er) as [Hl Hf].
        split; [simpl; rewrite Hl; reflexivity|].
        constructor; [right; eauto | exact Hf].
    + destruct (loop limit blank (S index) imgs xcs) as [rest|] eqn:Er;
        cbn [bind] in H; [|discriminate].
      injection H as <-. destruct (IH _ _ _ Er) as [Hl Hf].
      split; [simpl; rewrite Hl; reflexivity|].
      constructor; [left; reflexivity | exact Hf].
Qed.

(** An image without candidates keeps the blank table. *)
Lemma nms_loop_no_candidates (limit : R) (blank : table) (imgs : list (list (list R))) :
  forall (index : nat) (xcs : list (list bool)) (out : list table) (k : nat) img xc,
    loop limit blank index imgs xcs = Some out ->
    nth_error imgs k = Some img -> nth_error xcs k = Some xc ->
    image img xc = Some None ->
    nth_error out k = Some blank.
Proof.
  induction imgs as [|img0 imgs IH]; intros index xcs out k img xc H Hi Hx Hn.
  - destruct k; discriminate.
  - destruct xcs as [|xc0 xcs]; [discriminate|]. cbn [nms_loop] in H.
    destruct k as [|k]; simpl in Hi, Hx.
    + injection Hi as ->. injection Hx as ->. rewrite Hn in H. cbn [bind] in H.
      destruct (loop limit blank (S index) imgs xcs); cbn [bind] in H; [|discriminate].
      injection H as <-. reflexivity.
    + destruct (image img0 xc0) as [[t|]|]; cbn [bind] in H; [| |discriminate].
      * destruct (Rltb limit (clock index - t0)).
        -- injection H as <-. simpl. apply nth_error_map_const.
           apply nth_error_Some. rewrite Hi. discriminate.
        -- destruct (loop limit blank (S index) imgs xcs) as [rest|] eqn:Er;
             cbn [bind] in H; [|discriminate].
           injection H as <-. simpl. apply (IH _ _ _ _ _ _ Er Hi Hx Hn).
      * destruct (loop limit blank (S index) imgs xcs) as [rest|] eqn:Er;
          cbn [bind] in H; [|discriminate].
        injection H as <-. simpl. apply (IH _ _ _ _ _ _ Er Hi Hx Hn).
Qed.

(** Once the budget is found exceeded after an image, the later images
    keep the blank table. *)
Lemma nms_loop_break (limit : R) (blank : table) (imgs : list (list (list R))) :
  forall (index : nat) (xcs : list (list bool)) (out : list table) (i k : nat) img xc t,
    loop limit blank index imgs xcs = Some out ->
    nth_error imgs i = Some img -> nth_error xcs i = Some xc ->
    image img xc = Some (Some t) ->
    Rltb limit (clock (index + i)%nat - t0) = true ->
    (i < k)%nat -> (k < length imgs)%nat ->
    nth_error out k = Some blank.
Proof.
  induction imgs as [|img0 imgs IH]; intros index xcs out i k img xc t H Hi Hx Ht Hc Hik Hk.
  - destruct i; discriminate.
  - destruct xcs as [|xc0 xcs]; [discriminate|]. cbn [nms_loop] in H.
    destruct k as [|k]; [lia|]. simpl in Hk.
    destruct i as [|i]; simpl in Hi, Hx.
    + injection Hi as ->. injection Hx as ->. rewrite Ht in H. cbn [bind] in H.
      rewrite Nat.add_0_r in Hc. rewrite Hc in H. injection H as <-.
      simpl. apply nth_error_map_const. lia.
    + replace (index + S i)%nat with (S index + i)%nat in Hc by lia.
      destruct (image img0 xc0) as [[t'|]|]; cbn [bind] in H; [| |discriminate].
      * destruct (Rltb limit (clock index - t0)).
        -- injection H as <-. simpl. apply nth_error_map_const. lia.
        -- destruct (loop limit blank (S index) imgs xcs) as [rest|] eqn:Er;
             cbn [bind] in H; [|discriminate].
           injection H as <-. simpl.
           apply (IH _ _ _ i k _ _ _ Er Hi Hx Ht Hc); lia.
      * destruct (loop limit blank (S index) imgs xcs) as [rest|] eqn:Er;
          cbn [bind] in H; [|discriminate].
        injection H as <-. simpl.
        apply (IH _ _ _ i k _ _ _ Er Hi Hx Ht Hc); lia.
Qed.

Lemma nms_loop_total (limit : R) (blank : table) (imgs : list (list (list R))) :
  Forall (fun img => length img = ch) imgs -> (4 + nc <= ch)%nat -> (1 <= nc)%nat ->
  forall (index : nat) (xcs : list (list bool)),
    length xcs = length imgs ->
    exists out, loop limit blank index imgs xcs = Some out.
Proof.
  intros Himgs Hc Hn. induction Himgs as [|img imgs Himg _ IH]; intros index xcs Hl.
  - exists []. reflexivity.
  - destruct xcs as [|xc xcs]; [discriminate|]. cbn [nms_loop].
    destruct (nms_image_total ch n conf_threshold iou_threshold nc_arg img xc Himg Hc Hn)
      as [r ->].
    cbn [bind]. simpl in Hl.
    destruct (IH (S index) xcs ltac:(lia)) as [rest ->]. cbn [bind].
    destruct r as [t|]; [|eauto].
    destruct (Rltb limit (clock index - t0)); eauto.
Qed.

Lemma candidate_mask_total (img : list (list R)) :
  length img = ch -> (4 < ch)%nat -> (1 <= nc)%nat ->
  exists xc, candidate_mask ch n conf_threshold nc_arg img = Some xc.
Proof.
  intros Himg Hch Hn. unfold candidate_mask. apply mapM_all. intros a _.
  set (sl := firstn (nms_mi ch nc_arg - 4) (skipn 4 img)).
  assert (Hs : (1 <= length sl)%nat).
  { unfold sl, nms_mi. rewrite length_firstn, length_skipn. lia. }
  destruct sl as [|c sl']; [simpl in Hs; lia|]. simpl. eauto.
Qed.

End NmsLoop.

(** C10. On a batch of images of [ch] channels by [n] anchors, with more
    than four channels and [4 + nc] of them at most, [non_max_suppression]
    returns a list with one table per image; every table has [6 + nm]
    columns, [nm = ch - nc - 4], and rows of that length.  An image with no
    anchor above the confidence threshold, and an image that comes after
    the one at which the time budget was found exceeded, has the table of
    zero rows and that width. *)
Theorem non_max_suppression_output_shape
    (ch n : nat) (conf_threshold iou_threshold : R) (nc_arg : nat)
    (t0 : R) (clock : nat -> R) (outputs : list (list (list R))) :
  Forall (image_shape ch n) outputs ->
  (4 < ch)%nat -> (4 + nms_nc ch nc_arg <= ch)%nat ->
  exists out,
    non_max_suppression ch n conf_threshold iou_threshold nc_arg t0 clock outputs
    = Some out /\
    length out = length outputs /\
    Forall (fun e =>
              Z.of_nat (t_cols e) = (6 + nms_nm ch nc_arg)%Z /\
              Forall (fun r => length r = t_cols e) (t_rows e)) out /\
    (forall k img xc,
        nth_error outputs k = Some img ->
        candidate_mask ch n conf_threshold nc_arg img = Some xc ->
        select (transpose n img) xc = [] ->
        nth_error out k = Some (Table (Z.to_nat (6 + nms_nm ch nc_arg)) [])) /\
    (forall i k img xc t,
        nth_error outputs i = Some img ->
        candidate_mask ch n conf_threshold nc_arg img = Some xc ->
        nms_image ch n conf_threshold iou_threshold nc_arg img xc = Some (Some t) ->
        5 / 10 + 5 / 100 * INR (length outputs) < clock i - t0 ->
        (i < k < length outputs)%nat ->
        nth_error out k = Some (Table (Z.to_nat (6 + nms_nm ch nc_arg)) [])).
Proof.
  intros Hshape Hch Hnc.
  assert (Hn1 : (1 <= nms_nc ch nc_arg)%nat)
    by (unfold nms_nc; destruct (nc_arg =? 0)%nat eqn:E;
        [lia | apply Nat.eqb_neq in E; lia]).
  assert (Hlen : Forall (fun img : list (list R) => length img = ch) outputs)
    by (eapply Forall_impl; [|exact Hshape]; intros img [H _]; exact H).
  assert (Hnm : (0 <= nms_nm ch nc_arg)%Z) by (unfold nms_nm; lia).
  destruct (mapM_total (candidate_mask ch n conf_threshold nc_arg)
              (fun img : list (list R) => length img = ch)) with (l := outputs)
    as [xcs Exc]; [|exact Hlen|].
  { intros img Himg. apply candidate_mask_total; assumption. }
  set (blank := Table (Z.to_nat (6 + nms_nm ch nc_arg)) []).
  set (limit := 5 / 10 + 5 / 100 * INR (length outputs)).
  destruct (nms_loop_total ch n conf_threshold iou_threshold nc_arg t0 clock
              limit blank outputs Hlen Hnc Hn1 0%nat xcs (mapM_length _ _ _ Exc))
    as [out Eout].
  assert (Erun : non_max_suppression ch n conf_threshold iou_threshold nc_arg
                   t0 clock outputs = Some out).
  { unfold non_max_suppression. cbv zeta.
    destruct (Nat.leb_spec ch 4); [lia|]. rewrite Exc. cbn [bind].
    destruct (Z.ltb_spec (6 + nms_nm ch nc_arg) 0); [lia|]. exact Eout. }
  destruct (nms_loop_entries ch n conf_threshold iou_threshold nc_arg t0 clock
              limit blank outputs 0%nat xcs out Eout) as [Hl Hentries].
  exists out. split; [exact Erun|]. split; [exact Hl|]. split; [|split].
  - eapply Forall_impl; [|exact Hentries].
    intros e [->|(img & xc & He)].
    + unfold blank. cbn [t_cols t_rows]. split; [lia | constructor].
    + destruct (nms_image_shape ch n conf_threshold iou_threshold nc_arg img xc e He)
        as (_ & Hc & Hr).
      rewrite Hc. split; [lia | exact Hr].
  - intros k img xc Hk Hxc Hsel.
    destruct (mapM_nth_error _ _ _ Exc k img Hk) as (xc' & Hxc' & Hm).
    rewrite Hxc in Hm. injection Hm as <-.
    apply (nms_loop_no_candidates ch n conf_threshold iou_threshold nc_arg t0 clock
             limit blank outputs 0%nat xcs out k img xc Eout Hk Hxc').
    unfold nms_image. cbv zeta. rewrite Hsel. reflexivity.
  - intros i k img xc t Hi Hxc Ht Hclock Hik.
    destruct (mapM_nth_error _ _ _ Exc i img Hi) as (xc' & Hxc' & Hm).
    rewrite Hxc in Hm. injection Hm as <-.
    apply (nms_loop_break ch n conf_threshold iou_threshold nc_arg t0 clock
             limit blank outputs 0%nat xcs out i k img xc t Eout Hi Hxc' Ht);
      [|lia|lia].
    apply Rltb_true. exact Hclock.
Qed.

Lemma non_max_suppression_output_shape_witness :
  exists out,
    non_max_suppression 6 1 (1 / 2) (1 / 2) 2 0 (fun _ => 0) nms_example = Some out /\
    length out = length nms_example /\
    Forall (fun e =>
              Z.of_nat (t_cols e) = (6 + nms_nm 6 2)%Z /\
              Forall (fun r => length r = t_cols e) (t_rows e)) out /\
    (forall k img xc,
        nth_error nms_example k = Some img ->
        candidate_mask 6 1 (1 / 2) 2 img = Some xc ->
        select (transpose 1 img) xc = [] ->
        nth_error out k = Some (Table (Z.to_nat (6 + nms_nm 6 2)) [])) /\
    (forall i k img xc t,
        nth_error nms_example i = Some img ->
        candidate_mask 6 1 (1 / 2) 2 img = Some xc ->
        nms_image 6 1 (1 / 2) (1 / 2) 2 img xc = Some (Some t) ->
        5 / 10 + 5 / 100 * INR (length nms_example) < (fun _ : nat => 0) i - 0 ->
        (i < k < length nms_example)%nat ->
        nth_error out k = Some (Table (Z.to_nat (6 + nms_nm 6 2)) [])).
Proof.
  apply (non_max_suppression_output_shape 6 1 (1 / 2) (1 / 2) 2 0 (fun _ => 0) nms_example).
  - repeat constructor.
  - lia.
  - unfold nms_nc. simpl. lia.
Defined.

(** ** [non_max_suppression]: what is kept *)












Section NmsKept.

Variables (ch n : nat) (conf_threshold iou_threshold : R) (nc_arg : nat).

Local Abbreviation nc := (nms_nc ch nc_arg).



End NmsKept.

(** The table at an index is the blank one or the one built from the
    image at that index. *)
Lemma nms_loop_entry_at (ch n : nat) (conf_threshold iou_threshold : R) (nc_arg : nat)
    (t0 : R) (clock : nat -> R) (limit : R) (blank : table)
    (imgs : list (list (list R))) :
  forall (index : nat) (xcs : list (list bool)) (out : list table) (k : nat) img xc e,
    nms_loop ch n conf_threshold iou_threshold nc_arg t0 clock limit blank index imgs xcs
    = Some out ->
    nth_error imgs k = Some img -> nth_error xcs k = Some xc ->
    nth_error out k = Some e ->
    e = blank \/
    nms_image ch n conf_threshold iou_threshold nc_arg img xc = Some (Some e).
Proof.
  induction imgs as [|img0 imgs IH]; intros index xcs out k img xc e H Hi Hx He.
  - destruct k; discriminate.
  - destruct xcs as [|xc0 xcs]; [discriminate|]. cbn [nms_loop] in H.
    destruct (nms_image ch n conf_threshold iou_threshold nc_arg img0 xc0)
      as [[t|]|] eqn:E; cbn [bind] in H; [| |discriminate].
    + destruct (Rltb limit (clock index - t0)).
      * injection H as <-. destruct k as [|k]; simpl in Hi, Hx, He.
        -- injection Hi as <-. injection Hx as <-. injection He as <-. right. exact E.
        -- left. rewrite nth_error_map_const in He.
           ++ injection He as <-. reflexivity.
           ++ apply nth_error_Some. rewrite Hi. discriminate.
      * destruct (nms_loop ch n conf_threshold iou_threshold nc_arg t0 clock limit blank
                    (S index) imgs xcs) as [rest|] eqn:Er; cbn [bind] in H; [|discriminate].
        injection H as <-. destruct k as [|k]; simpl in Hi, Hx, He.
        -- injection Hi as <-. injection Hx as <-. injection He as <-. right. exact E.
        -- apply (IH _ _ _ _ _ _ _ Er Hi Hx He).
    + destruct (nms_loop ch n conf_threshold iou_threshold nc_arg t0 clock limit blank
                  (S index) imgs xcs) as [rest|] eqn:Er; cbn [bind] in H; [|discriminate].
      injection H as <-. destruct k as [|k]; simpl in Hi, Hx, He.
      * injection He as <-. left. reflexivity.
      * apply (IH _ _ _ _ _ _ _ Er Hi Hx He).
Qed.


(** ** [non_max_suppression]: a run with two classes *)

Lemma max_nms_ge_2 : (2 <= max_nms)%nat.
Proof. unfold max_nms. lia. Qed.

Lemma max_det_ge_2 : (2 <= max_det)%nat.
Proof. unfold max_det. lia. Qed.

Lemma nms_example_mask :
  candidate_mask 6 1 (1 / 2) 2 nms_example_img = Some [true].
Proof.
  unfold candidate_mask, nms_mi, nms_nc, nms_example_img. simpl. eval_cmp. reflexivity.
Qed.

Lemma nms_example_image :
  nms_image 6 1 (1 / 2) (1 / 2) 2 nms_example_img [true] = Some (Some nms_example_table).
Proof.
  unfold nms_image, transpose, split_row, detection_rows, nms_nm, nms_nc, nms_example_img.
  cbn -[max_nms max_det Rltb Rleb nms argsort].
  eval_cmp. cbn -[max_nms max_det Rltb Rleb nms argsort].
  unfold argsort, sort_by. cbn -[max_nms max_det Rltb Rleb nms].
  eval_cmp. cbn -[max_nms max_det Rltb Rleb nms].
  rewrite firstn_all2 by (simpl; apply max_nms_ge_2).
  cbn -[max_nms max_det Rltb Rleb nms].
  unfold nms, argsort, sort_by. cbn -[max_nms max_det Rltb Rleb nms_iou].
  eval_cmp. cbn -[max_nms max_det Rltb Rleb nms_iou].
  unfold nms_step. cbn -[max_nms max_det Rltb Rleb nms_iou].
  unfold nms_iou, clamp0, max_wh. cbn [bx1 by1 bx2 by2].
  eval_cmp. cbn -[max_nms max_det Rltb Rleb].
  rewrite firstn_all2 by (simpl; apply max_det_ge_2).
  cbn -[max_nms max_det Rltb Rleb].
  unfold nms_example_table.
  replace (5 - 10 / 2) with 0 by field. replace (5 + 10 / 2) with 10 by field.
  reflexivity.
Qed.

(** One anchor, two class scores above the threshold: two detections, one
    per class, are kept for a single candidate. *)
Lemma nms_example_run :
  non_max_suppression 6 1 (1 / 2) (1 / 2) 2 0 (fun _ => 0) nms_example
  = Some [nms_example_table].
Proof.
  unfold non_max_suppression, nms_example. cbv zeta.
  change (6 <=? 4)%nat with false. cbn [mapM].
  rewrite nms_example_mask. cbn [bind].
  change (6 + nms_nm 6 2 <? 0)%Z with false.
  cbn [nms_loop]. rewrite nms_example_image. cbn [bind map].
  destruct (Rltb _ _); reflexivity.
Qed.




(** ** [Assigner.forward]: tensors as tables *)

Lemma nth_map_seq {A : Type} (f : nat -> A) (n k : nat) (d : A) :
  (k < n)%nat -> nth k (map f (seq 0 n)) d = f k.
Proof.
  intros H. rewrite (nth_indep _ d (f 0%nat)) by (rewrite length_map, length_seq; exact H).
  rewrite (map_nth f (seq 0 n) 0%nat k), seq_nth by exact H. reflexivity.
Qed.

Lemma at2_tabulate2 (ng na : nat) (f : nat -> nat -> R) (g a : nat) :
  (g < ng)%nat -> (a < na)%nat -> at2 (tabulate2 ng na f) g a = f g a.
Proof.
  intros Hg Ha. unfold at2, tabulate2.
  rewrite (nth_map_seq (fun g => map (fun a => f g a) (seq 0 na)) ng g [] Hg).
  apply nth_map_seq. exact Ha.
Qed.

Lemma column_tabulate2 (ng na : nat) (f : nat -> nat -> R) (a : nat) :
  (a < na)%nat -> column (tabulate2 ng na f) a = map (fun g => f g a) (seq 0 ng).
Proof.
  intros Ha. unfold column, tabulate2. rewrite map_map.
  apply map_ext. intros g. apply nth_map_seq. exact Ha.
Qed.

Lemma column_nth (m : list (list R)) (g a : nat) :
  nth g (column m a) 0 = at2 m g a.
Proof.
  unfold column, at2. destruct (Nat.lt_ge_cases g (length m)) as [H|H].
  - rewrite (nth_indep _ 0 ((fun r => nth a r 0) [])) by (rewrite length_map; exact H).
    rewrite (map_nth (fun r => nth a r 0) m [] g). reflexivity.
  - rewrite (nth_overflow (map (fun r => nth a r 0) m)) by (rewrite length_map; exact H).
    rewrite (nth_overflow m) by exact H. destruct a; reflexivity.
Qed.

Lemma column_length (m : list (list R)) (a : nat) : length (column m a) = length m.
Proof. apply length_map. Qed.

Lemma tabulate2_length {A : Type} (ng na : nat) (f : nat -> nat -> A) :
  length (tabulate2 ng na f) = ng.
Proof. unfold tabulate2. rewrite length_map, length_seq. reflexivity. Qed.

(** ** Maxima *)

Lemma fold_left_Rmax_ge (l : list R) (x : R) : x <= fold_left Rmax l x.
Proof.
  revert x. induction l as [|y l IH]; intros x; simpl; [lra|].
  apply Rle_trans with (Rmax x y); [apply Rmax_l | apply IH].
Qed.

Lemma fold_left_Rmax_upper (l : list R) (x y : R) :
  In y l -> y <= fold_left Rmax l x.
Proof.
  revert x. induction l as [|z l IH]; intros x H; [destruct H|].
  simpl. destruct H as [->|H].
  - apply Rle_trans with (Rmax x y); [apply Rmax_r | apply fold_left_Rmax_ge].
  - apply IH. exact H.
Qed.

Lemma amax_upper (l : list R) (m y : R) : amax l = Some m -> In y l -> y <= m.
Proof.
  destruct l as [|x l]; [discriminate|]. simpl. intros H. injection H as <-.
  intros [->|H]; [apply fold_left_Rmax_ge | apply fold_left_Rmax_upper; exact H].
Qed.

Lemma amax_nonneg (l : list R) (m : R) :
  amax l = Some m -> Forall (fun y => 0 <= y) l -> 0 <= m.
Proof.
  destruct l as [|x l]; [discriminate|]. simpl. intros H Hl. injection H as <-.
  inversion Hl; subst. apply Rle_trans with x; [assumption | apply fold_left_Rmax_ge].
Qed.

Lemma amax_total (l : list R) : (1 <= length l)%nat -> exists m, amax l = Some m.
Proof. destruct l as [|x l]; simpl; [lia | eauto]. Qed.

(** [max_with_index_from]: the index returned is in range and holds the
    value returned, which bounds every entry. *)
Lemma max_with_index_from_spec (l : list R) :
  forall (best : R) (bi i : nat) (full : list R),
    (bi < i)%nat -> nth bi full 0 = best ->
    (forall k, (k < length l)%nat -> nth (i + k) full 0 = nth k l 0) ->
    (forall k, (k < i)%nat -> nth k full 0 <= best) ->
    let r := max_with_index_from best bi i l in
    (snd r < i + length l)%nat /\ nth (snd r) full 0 = fst r /\
    (forall k, (k < i + length l)%nat -> nth k full 0 <= fst r).
Proof.
  induction l as [|x l IH]; intros best bi i full Hbi Hbest Hl Hle; simpl.
  - split; [lia|]. split; [exact Hbest|]. intros k Hk. apply Hle. lia.
  - assert (Hx : nth i full 0 = x) by (rewrite <- (Nat.add_0_r i); apply (Hl 0%nat); simpl; lia).
    assert (Hl' : forall k, (k < length l)%nat -> nth (S i + k) full 0 = nth k l 0).
    { intros k Hk. replace (S i + k)%nat with (i + S k)%nat by lia.
      apply (Hl (S k)). simpl. lia. }
    unfold Rltb. destruct (Rlt_dec best x) as [Hlt|Hge].
    + destruct (IH x i (S i) full ltac:(lia) Hx Hl') as (H1 & H2 & H3).
      { intros k Hk. destruct (Nat.eq_dec k i) as [->|Hne]; [lra|].
        specialize (Hle k ltac:(lia)). lra. }
      split; [lia|]. split; [exact H2|]. intros k Hk. apply H3. lia.
    + destruct (IH best bi (S i) full ltac:(lia) Hbest Hl') as (H1 & H2 & H3).
      { intros k Hk. destruct (Nat.eq_dec k i) as [->|Hne]; [lra|].
        apply Hle. lia. }
      split; [lia|]. split; [exact H2|]. intros k Hk. apply H3. lia.
Qed.

Lemma argmax_spec (l : list R) :
  (1 <= length l)%nat ->
  (argmax l < length l)%nat /\
  forall k, (k < length l)%nat -> nth k l 0 <= nth (argmax l) l 0.
Proof.
  destruct l as [|x l]; simpl; [lia|]. intros _.
  unfold argmax. simpl.
  pose proof (max_with_index_from_spec l x 0 1 (x :: l)) as H.
  destruct (max_with_index_from x 0 1 l) as [v i] eqn:E. simpl in H.
  destruct H as (H1 & H2 & H3); try reflexivity; try lia.
  - intros k Hk. replace k with 0%nat by lia. simpl. lra.
  - split; [lia|]. intros k Hk. rewrite H2. apply H3. lia.
Qed.

Lemma Rsum_indicator (gs : nat) (n s : nat) :
  Rsum (map (fun g => if (g =? gs)%nat then 1 else 0) (seq s n))
  = if ((s <=? gs) && (gs <? s + n))%nat then 1 else 0.
Proof.
  revert s. induction n as [|n IH]; intros s; simpl.
  - destruct (Nat.leb_spec s gs), (Nat.ltb_spec gs (s + 0)); simpl; try reflexivity; lia.
  - rewrite IH.
    destruct (Nat.eqb_spec s gs), (Nat.leb_spec s gs), (Nat.leb_spec (S s) gs),
             (Nat.ltb_spec gs (S s + n)), (Nat.ltb_spec gs (s + S n));
      simpl; try lia; lra.
Qed.

Lemma argmax_indicator (gs n : nat) :
  (gs < n)%nat ->
  argmax (map (fun g => if (g =? gs)%nat then 1 else 0) (seq 0 n)) = gs.
Proof.
  intros H.
  set (l := map (fun g => if (g =? gs)%nat then 1 else 0) (seq 0 n)).
  assert (Hl : length l = n) by (unfold l; rewrite length_map, length_seq; reflexivity).
  destruct (argmax_spec l ltac:(lia)) as [Hi Hmax].
  specialize (Hmax gs ltac:(lia)). rewrite Hl in Hi.
  unfold l in Hmax at 1 3.
  rewrite (nth_map_seq (fun g => if (g =? gs)%nat then 1 else 0) n gs 0 H) in Hmax.
  rewrite (nth_map_seq (fun g => if (g =? gs)%nat then 1 else 0) n _ 0 Hi) in Hmax.
  rewrite Nat.eqb_refl in Hmax.
  destruct (Nat.eqb_spec (argmax l) gs); [assumption | lra].
Qed.

Lemma NoDup_firstn {A : Type} (k : nat) (l : list A) : NoDup l -> NoDup (firstn k l).
Proof.
  intros H. revert k. induction H as [|a l Ha Hl IH]; intros [|k]; simpl; try constructor.
  - intros Hin. apply Ha. revert Hin. clear. revert k.
    induction l as [|b l IH]; intros [|k]; simpl; try tauto.
    intros [->|H]; [left; reflexivity | right; apply (IH k H)].
  - apply IH.
Qed.

Lemma topk_nodup (k : nat) (v : list R) (idx : list nat) :
  topk k v = Some idx -> NoDup idx /\ length idx = k.
Proof.
  unfold topk. destruct (Nat.leb_spec k (length v)) as [Hk|]; [|discriminate].
  intros H. injection H as <-. split.
  - apply NoDup_firstn.
    apply (Permutation_NoDup (Permutation_sym (argsort_perm (map Ropp v)))).
    apply seq_NoDup.
  - rewrite length_firstn, (Permutation_length (argsort_perm _)), length_seq, length_map.
    lia.
Qed.

Lemma wrap8_small (n : nat) : (n <= 1)%nat -> wrap8 n = Z.of_nat n.
Proof.
  intros H. unfold wrap8. destruct n as [|[|n]]; try lia; reflexivity.
Qed.

Lemma b2r_01 (b : bool) : b2r b = 0 \/ b2r b = 1.
Proof. destruct b; simpl; auto. Qed.

(** ** Indexing into zipped and mapped lists *)

Lemma nth_error_combine {A B : Type} (l1 : list A) (l2 : list B) (i : nat) (a : A) (b : B) :
  nth_error (combine l1 l2) i = Some (a, b) ->
  nth_error l1 i = Some a /\ nth_error l2 i = Some b.
Proof.
  revert l2 i. induction l1 as [|x l1 IH]; intros [|y l2] [|i]; simpl; try discriminate.
  - intros H. injection H as -> ->. auto.
  - apply IH.
Qed.

Lemma nth_error_zipWith {A B C : Type} (f : A -> B -> C) (l1 : list A) (l2 : list B)
    (i : nat) (z : C) :
  nth_error (zipWith f l1 l2) i = Some z ->
  exists a b, nth_error l1 i = Some a /\ nth_error l2 i = Some b /\ z = f a b.
Proof.
  revert l2 i. induction l1 as [|x l1 IH]; intros [|y l2] [|i]; simpl; try discriminate.
  - intros H. injection H as <-. eauto.
  - apply IH.
Qed.

Lemma mapM_nth_error_inv {A B : Type} (f : A -> option B) (l : list A) (l' : list B) :
  mapM f l = Some l' ->
  forall i b, nth_error l' i = Some b ->
              exists a, nth_error l i = Some a /\ f a = Some b.
Proof.
  revert l'. induction l as [|x l IH]; intros l' H i b Hi.
  - simpl in H. injection H as <-. destruct i; discriminate.
  - simpl in H. destruct (f x) as [y|] eqn:E; cbn [bind] in H; [|discriminate].
    destruct (mapM f l) as [ys|] eqn:E'; cbn [bind] in H; [|discriminate].
    injection H as <-. destruct i as [|i]; simpl in *.
    + injection Hi as <-. exists x. auto.
    + apply (IH ys eq_refl i b Hi).
Qed.

Lemma nth_error_In_concat {A : Type} (ls : list (list A)) (i : nat) (l : list A) (x : A) :
  nth_error ls i = Some l -> In x l -> In x (concat ls).
Proof.
  intros H Hx. apply in_concat. exists l. split; [|exact Hx].
  apply (nth_error_In _ _ H).
Qed.

(** ** [Assigner.forward]: the positive mask *)

Section AssignerMask.

Variables (top_k num_classes : nat) (alpha beta : R).
Variable anc_points : list (R * R).
Variable max_boxes : nat.

Local Abbreviation na := (n_anchors anc_points).

(** Before the conflicts are resolved every entry of the positive mask is
    0 or 1. *)
Lemma mask_pos_01 (img : image) (am : list (list R)) (idx : list (list nat)) (g a : nat) :
  top_k_indices top_k max_boxes img am = Some idx ->
  (g < max_boxes)%nat -> (a < na)%nat ->
  at2 (mask_pos anc_points max_boxes img idx) g a = 0 \/
  at2 (mask_pos anc_points max_boxes img idx) g a = 1.
Proof.
  intros Hidx Hg Ha. unfold mask_pos, mask_top_k.
  rewrite !at2_tabulate2 by assumption. cbv zeta.
  destruct (valid_gt img g) eqn:Ev; [|left; simpl; ring].
  unfold top_k_indices in Hidx.
  destruct (mapM_nth_error _ _ _ Hidx g g) as (ig & Hig & Hf).
  { rewrite nth_error_seq. destruct (Nat.ltb_spec g max_boxes); [reflexivity | lia]. }
  destruct (topk top_k (nth g am [])) as [tk|] eqn:Et; cbn [bind] in Hf; [|discriminate].
  rewrite Ev in Hf. injection Hf as <-.
  rewrite (nth_error_nth _ _ [] Hig).
  destruct (topk_nodup _ _ _ Et) as [Hnd _].
  pose proof (proj1 (NoDup_count_occ Nat.eq_dec tk) Hnd a) as Hc.
  rewrite (wrap8_small _ Hc).
  destruct (count_occ Nat.eq_dec tk a) as [|[|c]]; [| |lia].
  - left. simpl. ring.
  - destruct (in_gts anc_points img g a); simpl; [right | left]; ring.
Qed.

Lemma fg_mask_of_nth (mp : list (list R)) (a : nat) :
  (a < na)%nat -> nth a (fg_mask_of anc_points mp) 0 = Rsum (column mp a).
Proof.
  intros Ha. unfold fg_mask_of.
  apply (nth_map_seq (fun a => Rsum (column mp a)) na a 0 Ha).
Qed.

Lemma fg_mask_of_length (mp : list (list R)) :
  length (fg_mask_of anc_points mp) = na.
Proof. unfold fg_mask_of. rewrite length_map, length_seq. reflexivity. Qed.

Lemma overlaps_column_length (img : image) (a : nat) :
  length (column (overlaps anc_points max_boxes img) a) = max_boxes.
Proof. rewrite column_length. apply tabulate2_length. Qed.

(** An anchor claimed by several ground truths is, after the resolution,
    assigned to the ground truth of largest overlap and to no other. *)
Lemma resolve_multi (img : image) (mp : list (list R)) (a : nat) :
  (1 <= max_boxes)%nat -> (a < na)%nat ->
  1 < Rsum (column mp a) ->
  let gs := argmax (column (overlaps anc_points max_boxes img) a) in
  (gs < max_boxes)%nat /\
  column (resolve anc_points max_boxes img mp) a
  = map (fun g => if (g =? gs)%nat then 1 else 0) (seq 0 max_boxes) /\
  (forall g, (g < max_boxes)%nat ->
     at2 (overlaps anc_points max_boxes img) g a
     <= at2 (overlaps anc_points max_boxes img) gs a).
Proof.
  intros Hmb Ha Hfg gs.
  destruct (argmax_spec (column (overlaps anc_points max_boxes img) a)) as [Hi Hmax];
    [rewrite overlaps_column_length; exact Hmb|].
  rewrite overlaps_column_length in Hi, Hmax. fold gs in Hi, Hmax.
  split; [exact Hi|]. split.
  - unfold resolve. cbv zeta. rewrite column_tabulate2 by exact Ha.
    apply map_ext. intros g.
    rewrite (fg_mask_of_nth mp a Ha), (Rltb_true _ _ Hfg). reflexivity.
  - intros g Hg. specialize (Hmax g Hg). rewrite !column_nth in Hmax. exact Hmax.
Qed.

(** The other anchors keep their column. *)
Lemma resolve_single (img : image) (mp : list (list R)) (a : nat) :
  length mp = max_boxes -> (a < na)%nat ->
  Rsum (column mp a) <= 1 ->
  column (resolve anc_points max_boxes img mp) a = column mp a.
Proof.
  intros Hlen Ha Hfg. unfold resolve. cbv zeta.
  rewrite column_tabulate2 by exact Ha.
  rewrite (fg_mask_of_nth mp a Ha), (Rltb_false _ _ Hfg).
  apply (nth_ext _ _ 0 0).
  - rewrite length_map, length_seq, column_length. symmetry. exact Hlen.
  - intros g Hg. rewrite length_map, length_seq in Hg.
    rewrite (nth_map_seq (fun g => at2 mp g a) max_boxes g 0 Hg).
    symmetry. apply column_nth.
Qed.

End AssignerMask.

Section AssignerTargets.

Variables (top_k num_classes : nat) (alpha beta : R).
Variable anc_points : list (R * R).
Variable max_boxes : nat.

Local Abbreviation na := (n_anchors anc_points).

Lemma one_hot_01 (label : nat) (row : list R) :
  one_hot num_classes label = Some row -> Forall (fun v => v = 0 \/ v = 1) row.
Proof.
  unfold one_hot. destruct (label <? num_classes)%nat; [|discriminate].
  intros H. injection H as <-. apply Forall_forall. intros v Hv.
  apply in_map_iff in Hv. destruct Hv as (c & <- & _).
  destruct (c =? label)%nat; auto.
Qed.

Lemma torch_pow_nonneg (x a v : R) : 0 <= x -> torch_pow x a = Some v -> 0 <= v.
Proof.
  intros Hx. unfold torch_pow. destruct (Rltb 0 x) eqn:E0.
  - intros H. injection H as <-. left. unfold Rpower. apply exp_pos.
  - destruct (Reqb x 0) eqn:E1.
    + destruct (Reqb a 0); [intros H; injection H as <-; lra|].
      destruct (Rltb 0 a); [intros H; injection H as <-; lra | discriminate].
    + unfold Rltb in E0. unfold Reqb in E1.
      destruct (Rlt_dec 0 x); [discriminate|].
      destruct (Req_dec_T x 0); [discriminate | lra].
Qed.

Lemma overlaps_nonneg (img : image) (g a : nat) :
  0 <= at2 (overlaps anc_points max_boxes img) g a.
Proof.
  destruct (Nat.lt_ge_cases g max_boxes) as [Hg|Hg];
    [destruct (Nat.lt_ge_cases a na) as [Ha|Ha]|].
  - unfold overlaps. rewrite at2_tabulate2 by assumption.
    destruct (true_mask anc_points img g a); [apply clamp0_nonneg | lra].
  - unfold at2. rewrite (nth_overflow (nth g _ [])); [lra|].
    unfold overlaps, tabulate2.
    rewrite (nth_map_seq (fun g => map _ (seq 0 na)) max_boxes g [] Hg).
    rewrite length_map, length_seq. exact Ha.
  - unfold at2. rewrite (nth_overflow (overlaps _ _ _)).
    + destruct a; simpl; lra.
    + unfold overlaps. rewrite tabulate2_length. exact Hg.
Qed.

(** What [targets] returns, when it returns. *)
Lemma targets_inv (img : image) (am mp : list (list R)) (x : assignment) :
  targets num_classes anc_points max_boxes img am mp = Some x ->
  a_mask_pos x = mp /\
  a_target_gt_idx x = map (fun a => argmax (column mp a)) (seq 0 na) /\
  a_fg_mask x = map (fun f => negb (Reqb f 0)) (fg_mask_of anc_points mp) /\
  exists hot pos_align pos_ov scale,
    Forall (Forall (fun v => v = 0 \/ v = 1)) hot /\
    length hot = na /\
    mapM amax (tabulate2 max_boxes na
                 (fun g a => at2 am g a * at2 mp g a)) = Some pos_align /\
    mapM amax (tabulate2 max_boxes na
                 (fun g a => at2 (overlaps anc_points max_boxes img) g a * at2 mp g a))
    = Some pos_ov /\
    mapM (fun a =>
            amax (column
                    (tabulate2 max_boxes na
                       (fun g a =>
                          at2 (tabulate2 max_boxes na
                                 (fun g a => at2 am g a * at2 mp g a)) g a
                          * nth g pos_ov 0 / (nth g pos_align 0 + eps9))) a))
         (seq 0 na) = Some scale /\
    a_target_scores x
    = zipWith (fun row s => map (fun v => v * s) row)
        (zipWith (fun f row => map (fun v => if Rltb 0 f then v else 0) row)
                 (fg_mask_of anc_points mp) hot)
        scale.
Proof.
  unfold targets. cbv zeta.
  destruct (mapM (fun g => nth_error (gt_labels img) g) _) as [labels|] eqn:Elab;
    cbn [bind]; [|discriminate].
  destruct (mapM (fun g => nth_error (gt_bboxes img) g) _) as [boxes|];
    cbn [bind]; [|discriminate].
  destruct (mapM (one_hot num_classes) labels) as [hot|] eqn:Ehot;
    cbn [bind]; [|discriminate].
  destruct (mapM amax (tabulate2 max_boxes na
              (fun g a => at2 am g a * at2 mp g a))) as [pa|] eqn:Epa;
    cbn [bind]; [|discriminate].
  destruct (existsb _ pa); [discriminate|].
  destruct (mapM amax (tabulate2 max_boxes na
              (fun g a => at2 (overlaps anc_points max_boxes img) g a * at2 mp g a)))
    as [po|] eqn:Epo; cbn [bind]; [|discriminate].
  match goal with |- context [mapM ?F (seq 0 na)] => destruct (mapM F (seq 0 na)) as [scale|] eqn:Esc end;
    cbn [bind]; [|discriminate].
  intros H. injection H as <-. cbn [a_mask_pos a_target_gt_idx a_fg_mask a_target_scores].
  repeat split.
  exists hot, pa, po, scale. repeat split; auto.
  - eapply Forall_impl; [|apply (mapM_out _ _ _ Ehot)].
    intros row (l & _ & Hl). apply (one_hot_01 l row Hl).
  - apply mapM_length in Ehot, Elab.
    rewrite Ehot, Elab, length_map, length_seq. reflexivity.
Qed.

End AssignerTargets.

Lemma nth_error_zipWith_fwd {A B C : Type} (f : A -> B -> C) (l1 : list A) (l2 : list B)
    (i : nat) (a : A) (b : B) :
  nth_error l1 i = Some a -> nth_error l2 i = Some b ->
  nth_error (zipWith f l1 l2) i = Some (f a b).
Proof.
  revert l2 i. induction l1 as [|x l1 IH]; intros [|y l2] [|i]; simpl; try discriminate.
  - intros H1 H2. injection H1 as ->. injection H2 as ->. reflexivity.
  - apply IH.
Qed.

Section AssignInv.

Variables (top_k num_classes : nat) (alpha beta : R).
Variable anc_points : list (R * R).
Variable max_boxes : nat.

Local Abbreviation na := (n_anchors anc_points).

(** Each assignment returned comes from the image at its index: its
    positive mask is the initial one when no anchor of the batch is claimed
    twice, and the resolved one otherwise. *)
Lemma assign_inv (batch : list image) (r : list assignment) (i : nat) (x : assignment) :
  assign top_k num_classes alpha beta anc_points max_boxes batch = Some r ->
  nth_error r i = Some x ->
  exists img cs am idx mp,
    nth_error batch i = Some img /\
    well_shaped anc_points max_boxes img = true /\
    class_scores img = Some cs /\
    align_metric alpha beta anc_points max_boxes img cs = Some am /\
    top_k_indices top_k max_boxes img am = Some idx /\
    targets num_classes anc_points max_boxes img am mp = Some x /\
    ((mp = mask_pos anc_points max_boxes img idx /\
      forall a, (a < na)%nat -> Rsum (column mp a) <= 1) \/
     mp = resolve anc_points max_boxes img (mask_pos anc_points max_boxes img idx)).
Proof.
  unfold assign. destruct (forallb _ batch) eqn:Ews; cbn [negb]; [|discriminate].
  destruct (mapM class_scores batch) as [css|] eqn:Ecs; cbn [bind]; [|discriminate].
  match goal with |- context [mapM ?F (combine batch css)] =>
    destruct (mapM F (combine batch css)) as [ams|] eqn:Eam end;
    cbn [bind]; [|discriminate].
  match goal with |- context [mapM ?F (combine batch ams)] =>
    destruct (mapM F (combine batch ams)) as [idxs|] eqn:Eidx end;
    cbn [bind]; [|discriminate].
  cbv zeta.
  set (mps0 := zipWith (mask_pos anc_points max_boxes) batch idxs).
  destruct (amax (concat (map (fg_mask_of anc_points) mps0))) as [m|] eqn:Em;
    cbn [bind]; [|discriminate].
  intros Hr Hx.
  destruct (mapM_nth_error_inv _ _ _ Hr i x Hx) as ([[img am] mp] & Hel & Ht).
  cbn [fst snd] in Ht.
  apply nth_error_combine in Hel. destruct Hel as [Hia Hmp].
  pose proof Hia as Hia'.
  apply nth_error_combine in Hia. destruct Hia as [Himg Ham].
  destruct (mapM_nth_error_inv _ _ _ Eam i am Ham) as ([img' cs] & Hic & Ealign).
  cbn [fst snd] in Ealign.
  apply nth_error_combine in Hic. destruct Hic as [Himg' Hcs].
  rewrite Himg in Himg'. injection Himg' as <-.
  destruct (mapM_nth_error_inv _ _ _ Ecs i cs Hcs) as (img' & Himg' & Eclass).
  rewrite Himg in Himg'. injection Himg' as <-.
  destruct (mapM_nth_error _ _ _ Eidx i _ Hia') as (idx & Hidx & Htk).
  cbn [fst snd] in Htk.
  assert (H0 : nth_error mps0 i = Some (mask_pos anc_points max_boxes img idx))
    by (apply nth_error_zipWith_fwd; assumption).
  exists img, cs, am, idx, mp. split; [exact Himg|].
  split.
  { rewrite forallb_forall in Ews. apply Ews. apply (nth_error_In _ _ Himg). }
  split; [exact Eclass|]. split; [exact Ealign|].
  split; [exact Htk|]. split; [exact Ht|].
  destruct (Rltb 1 m) eqn:Eflag.
  - right. apply nth_error_zipWith in Hmp.
    destruct Hmp as (img' & mp0 & Hi' & Hm' & ->).
    rewrite Himg in Hi'. injection Hi' as <-.
    rewrite H0 in Hm'. injection Hm' as <-. reflexivity.
  - left. rewrite H0 in Hmp. injection Hmp as <-. split; [reflexivity|].
    intros a Ha.
    assert (Hm : m <= 1).
    { unfold Rltb in Eflag. destruct (Rlt_dec 1 m); [discriminate | lra]. }
    apply Rle_trans with m; [|exact Hm].
    apply (amax_upper _ _ _ Em).
    apply (nth_error_In_concat _ i (fg_mask_of anc_points (mask_pos anc_points max_boxes img idx))).
    + rewrite nth_error_map, H0. reflexivity.
    + rewrite <- (fg_mask_of_nth anc_points _ a Ha).
      apply nth_In. rewrite fg_mask_of_length. exact Ha.
Qed.

End AssignInv.

Section AssignerConflicts.

Variables (top_k num_classes : nat) (alpha beta : R).
Variable anc_points : list (R * R).
Variable max_boxes : nat.

Local Abbreviation na := (n_anchors anc_points).

(** The final positive mask of every image: each anchor is assigned to at
    most one ground truth, and an anchor that several ground truths had
    claimed goes to the ground truth of largest overlap value, the first
    one among equals. *)
Lemma assign_positive_mask (batch : list image) (r : list assignment)
    (i : nat) (x : assignment) :
  (1 <= max_boxes)%nat ->
  assign top_k num_classes alpha beta anc_points max_boxes batch = Some r ->
  nth_error r i = Some x ->
  exists img cs am idx,
    nth_error batch i = Some img /\
    class_scores img = Some cs /\
    align_metric alpha beta anc_points max_boxes img cs = Some am /\
    top_k_indices top_k max_boxes img am = Some idx /\
    (forall a, (a < na)%nat ->
       Rsum (column (a_mask_pos x) a) <= 1 /\
       forall g, (g < max_boxes)%nat ->
                 at2 (a_mask_pos x) g a = 0 \/ at2 (a_mask_pos x) g a = 1) /\
    (forall a, (a < na)%nat ->
       1 < Rsum (column (mask_pos anc_points max_boxes img idx) a) ->
       let gs := argmax (column (overlaps anc_points max_boxes img) a) in
       (gs < max_boxes)%nat /\
       (forall g, (g < max_boxes)%nat ->
          at2 (a_mask_pos x) g a = if (g =? gs)%nat then 1 else 0) /\
       nth a (a_target_gt_idx x) 0%nat = gs /\
       nth a (a_fg_mask x) false = true /\
       (forall g, (g < max_boxes)%nat ->
          at2 (overlaps anc_points max_boxes img) g a
          <= at2 (overlaps anc_points max_boxes img) gs a)).
Proof.
  intros Hmb Hr Hx.
  destruct (assign_inv _ _ _ _ _ _ _ _ _ _ Hr Hx)
    as (img & cs & am & idx & mp & Himg & _ & Ecs & Eam & Hidx & Ht & Hmp).
  destruct (targets_inv _ _ _ _ _ _ _ Ht) as (Emp & Eidx & Efg & _).
  exists img, cs, am, idx. split; [exact Himg|]. split; [exact Ecs|].
  split; [exact Eam|]. split; [exact Hidx|].
  set (mp0 := mask_pos anc_points max_boxes img idx) in *.
  assert (H01 : forall g a, (g < max_boxes)%nat -> (a < na)%nat ->
                            at2 mp0 g a = 0 \/ at2 mp0 g a = 1)
    by (intros g a Hg Ha; apply (mask_pos_01 top_k anc_points max_boxes img _ idx g a Hidx Hg Ha)).
  assert (Hlen0 : length mp0 = max_boxes) by apply tabulate2_length.
  rewrite Emp, Eidx, Efg. split.
  - intros a Ha. destruct Hmp as [[-> Hle] | ->].
    + split; [apply Hle; exact Ha | intros g Hg; apply H01; assumption].
    + destruct (Rle_lt_dec (Rsum (column mp0 a)) 1) as [Hs|Hs].
      * rewrite (resolve_single anc_points max_boxes img mp0 a Hlen0 Ha Hs).
        split; [exact Hs|]. intros g Hg.
        rewrite <- !column_nth.
        rewrite (resolve_single anc_points max_boxes img mp0 a Hlen0 Ha Hs).
        rewrite column_nth. apply H01; assumption.
      * destruct (resolve_multi anc_points max_boxes img mp0 a Hmb Ha Hs) as (Hgs & Ecol & _).
        rewrite Ecol. split.
        -- rewrite Rsum_indicator.
           destruct (Nat.leb_spec 0 (argmax (column (overlaps anc_points max_boxes img) a)));
             [|lia].
           destruct (Nat.ltb_spec (argmax (column (overlaps anc_points max_boxes img) a))
                                  (0 + max_boxes)); [simpl; lra | lia].
        -- intros g Hg. rewrite <- !column_nth, Ecol.
           rewrite (nth_map_seq _ max_boxes g 0 Hg).
           destruct (g =? _)%nat; auto.
  - intros a Ha Hs gs.
    assert (Emp' : mp = resolve anc_points max_boxes img mp0).
    { destruct Hmp as [[E0 Hle]|E]; [|exact E]. specialize (Hle a Ha).
      rewrite E0 in Hle. lra. }
    rewrite Emp'.
    destruct (resolve_multi anc_points max_boxes img mp0 a Hmb Ha Hs) as (Hgs & Ecol & Hmax).
    fold gs in Hgs, Ecol, Hmax.
    split; [exact Hgs|]. split; [|split; [|split]].
    + intros g Hg. rewrite <- column_nth, Ecol.
      apply (nth_map_seq (fun g => if (g =? gs)%nat then 1 else 0) max_boxes g 0 Hg).
    + rewrite (nth_map_seq _ na a 0%nat Ha). rewrite Ecol.
      apply argmax_indicator. exact Hgs.
    + rewrite (nth_indep _ false (negb (Reqb 0 0)))
        by (rewrite length_map, fg_mask_of_length; exact Ha).
      rewrite (map_nth (fun f => negb (Reqb f 0))).
      rewrite (fg_mask_of_nth anc_points _ a Ha), Ecol, Rsum_indicator.
      destruct (Nat.leb_spec 0 gs); [|lia].
      destruct (Nat.ltb_spec gs (0 + max_boxes)); [|lia]. simpl.
      rewrite Reqb_false by lra. reflexivity.
    + exact Hmax.
Qed.

End AssignerConflicts.

Lemma Forall_zipWith {A B C : Type} (P : C -> Prop) (f : A -> B -> C)
    (l1 : list A) (l2 : list B) :
  (forall a b, In a l1 -> In b l2 -> P (f a b)) -> Forall P (zipWith f l1 l2).
Proof.
  revert l2. induction l1 as [|a l1 IH]; intros [|b l2] H; simpl; constructor.
  - apply H; left; reflexivity.
  - apply IH. intros x y Hx Hy. apply H; right; assumption.
Qed.

Lemma Rsum_zeros (l : list R) : Forall (fun v => v = 0) l -> Rsum l = 0.
Proof.
  induction 1 as [|x l Hx Hl IH]; simpl; [reflexivity|]. rewrite Hx, IH. ring.
Qed.

Section AssignerScores.

Variables (top_k num_classes : nat) (alpha beta : R).
Variable anc_points : list (R * R).
Variable max_boxes : nat.

Local Abbreviation na := (n_anchors anc_points).

(** The scores gathered for the classes of the ground truths are entries
    of [pd_scores]. *)
Lemma class_scores_nonneg (img : image) (cs : list (list R)) (g a : nat) :
  Forall (Forall (fun s => 0 <= s)) (pd_scores img) ->
  class_scores img = Some cs ->
  0 <= at2 cs g a.
Proof.
  intros Hpd Hcs. unfold at2.
  destruct (nth_error cs g) as [row|] eqn:Eg.
  - rewrite (nth_error_nth _ _ [] Eg).
    destruct (mapM_nth_error_inv _ _ _ Hcs g row Eg) as (l & _ & Hrow).
    destruct (nth_error row a) as [v|] eqn:Ea.
    + rewrite (nth_error_nth _ _ 0 Ea).
      destruct (mapM_nth_error_inv _ _ _ Hrow a v Ea) as (s & Hs & Hv).
      rewrite Forall_forall in Hpd. specialize (Hpd s (nth_error_In _ _ Hs)).
      rewrite Forall_forall in Hpd. apply Hpd. apply (nth_error_In _ _ Hv).
    + apply nth_error_None in Ea. rewrite nth_overflow by exact Ea. lra.
  - apply nth_error_None in Eg. rewrite (nth_overflow cs) by exact Eg.
    destruct a; simpl; lra.
Qed.

(** An entry of the alignment metric is the product of the two powers. *)
Lemma align_metric_at (img : image) (cs am : list (list R)) (g a : nat) :
  align_metric alpha beta anc_points max_boxes img cs = Some am ->
  (g < max_boxes)%nat -> (a < na)%nat ->
  exists s o,
    torch_pow (at2 (bbox_scores anc_points max_boxes img cs) g a) alpha = Some s /\
    torch_pow (at2 (overlaps anc_points max_boxes img) g a) beta = Some o /\
    at2 am g a = s * o.
Proof.
  intros Ham Hg Ha. unfold align_metric in Ham.
  assert (Eg : nth_error (seq 0 max_boxes) g = Some g).
  { rewrite nth_error_nth' with (d := 0%nat) by (rewrite length_seq; exact Hg).
    rewrite seq_nth by exact Hg. reflexivity. }
  assert (Ea : nth_error (seq 0 na) a = Some a).
  { rewrite nth_error_nth' with (d := 0%nat) by (rewrite length_seq; exact Ha).
    rewrite seq_nth by exact Ha. reflexivity. }
  destruct (mapM_nth_error _ _ _ Ham g g Eg) as (row & Hrow & Hf).
  destruct (mapM_nth_error _ _ _ Hf a a Ea) as (v & Hv & Hp).
  destruct (torch_pow (at2 (bbox_scores anc_points max_boxes img cs) g a) alpha)
    as [s|]; cbn [bind] in Hp; [|discriminate].
  destruct (torch_pow (at2 (overlaps anc_points max_boxes img) g a) beta)
    as [o|]; cbn [bind] in Hp; [|discriminate].
  injection Hp as <-. exists s, o. repeat split.
  unfold at2. rewrite (nth_error_nth _ _ [] Hrow). apply (nth_error_nth _ _ 0 Hv).
Qed.

Lemma align_metric_nonneg (img : image) (cs am : list (list R)) (g a : nat) :
  Forall (Forall (fun s => 0 <= s)) (pd_scores img) ->
  class_scores img = Some cs ->
  align_metric alpha beta anc_points max_boxes img cs = Some am ->
  (g < max_boxes)%nat -> (a < na)%nat ->
  0 <= at2 am g a.
Proof.
  intros Hpd Hcs Ham Hg Ha.
  destruct (align_metric_at img cs am g a Ham Hg Ha) as (s & o & Hs & Ho & ->).
  apply Rmult_le_pos.
  - apply (torch_pow_nonneg _ _ _) in Hs; [exact Hs|].
    unfold bbox_scores. rewrite at2_tabulate2 by assumption.
    destruct (true_mask anc_points img g a); [|lra].
    apply (class_scores_nonneg img cs g a Hpd Hcs).
  - apply (torch_pow_nonneg _ _ _) in Ho; [exact Ho|]. apply overlaps_nonneg.
Qed.

(** The row maxima of a table of entries that are not negative. *)
Lemma row_amax_nonneg (f : nat -> nat -> R) (ms : list R) (g : nat) :
  (forall g a, (g < max_boxes)%nat -> (a < na)%nat -> 0 <= f g a) ->
  mapM amax (tabulate2 max_boxes na f) = Some ms ->
  0 <= nth g ms 0.
Proof.
  intros Hf Hms.
  destruct (nth_error ms g) as [m|] eqn:E.
  - rewrite (nth_error_nth _ _ 0 E).
    destruct (mapM_nth_error_inv _ _ _ Hms g m E) as (row & Hrow & Hm).
    apply (amax_nonneg _ _ Hm).
    unfold tabulate2 in Hrow. rewrite nth_error_map in Hrow.
    destruct (nth_error (seq 0 max_boxes) g) as [g'|] eqn:Eg; [|discriminate].
    simpl in Hrow. injection Hrow as <-.
    assert (Hg' : (g' < max_boxes)%nat).
    { apply nth_error_In in Eg. apply in_seq in Eg. lia. }
    apply Forall_forall. intros v Hv. apply in_map_iff in Hv.
    destruct Hv as (a & <- & Ha). apply in_seq in Ha. apply Hf; lia.
  - apply nth_error_None in E. rewrite nth_overflow by exact E. lra.
Qed.

(** The target scores of every image are not negative, and the row of an
    anchor outside the foreground is zero. *)
Lemma assign_target_scores (batch : list image) (r : list assignment)
    (i : nat) (x : assignment) :
  (1 <= max_boxes)%nat ->
  assign top_k num_classes alpha beta anc_points max_boxes batch = Some r ->
  nth_error r i = Some x ->
  (Forall (fun img => Forall (Forall (fun s => 0 <= s)) (pd_scores img)) batch ->
   Forall (Forall (fun v => 0 <= v)) (a_target_scores x)) /\
  (forall a row, nth_error (a_target_scores x) a = Some row ->
                 nth a (a_fg_mask x) false = false ->
                 Forall (fun v => v = 0) row).
Proof.
  intros Hmb Hr Hx.
  destruct (assign_positive_mask _ _ _ _ _ _ _ _ _ _ Hmb Hr Hx)
    as (img0 & cs0 & am0 & idx0 & _ & _ & _ & _ & H01 & _).
  destruct (assign_inv _ _ _ _ _ _ _ _ _ _ Hr Hx)
    as (img & cs & am & idx & mp & Himg & _ & Hcs & Ham & _ & Ht & _).
  destruct (targets_inv _ _ _ _ _ _ _ Ht)
    as (Emp & _ & Efg & hot & pa & po & scale & Hhot & _ & Hpa & Hpo & Hsc & Ets).
  rewrite Emp in H01.
  assert (Hmp : forall g a, (g < max_boxes)%nat -> (a < na)%nat -> 0 <= at2 mp g a).
  { intros g a Hg Ha. destruct (H01 a Ha) as [_ H]. destruct (H g Hg) as [E|E]; rewrite E; lra. }
  rewrite Ets, Efg. split.
  - intros Hpd.
    rewrite Forall_forall in Hpd. specialize (Hpd img (nth_error_In _ _ Himg)).
    assert (Ham0 : forall g a, (g < max_boxes)%nat -> (a < na)%nat -> 0 <= at2 am g a)
      by (intros g a Hg Ha; apply (align_metric_nonneg img cs am g a Hpd Hcs Ham Hg Ha)).
    assert (Hscale : Forall (fun s => 0 <= s) scale).
    { eapply Forall_impl; [|apply (mapM_out _ _ _ Hsc)].
      intros s (a & Ha & Hs). apply in_seq in Ha.
      apply (amax_nonneg _ _ Hs).
      rewrite column_tabulate2 by lia.
      apply Forall_forall. intros v Hv. apply in_map_iff in Hv.
      destruct Hv as (g & <- & Hg). apply in_seq in Hg.
      rewrite at2_tabulate2 by lia.
      pose proof (row_amax_nonneg _ pa g
                    (fun g a Hg Ha => Rmult_le_pos _ _ (Ham0 g a Hg Ha)
                                                       (Hmp g a Hg Ha)) Hpa) as Hpa0.
      pose proof (row_amax_nonneg _ po g
                    (fun g a Hg Ha => Rmult_le_pos _ _ (overlaps_nonneg anc_points max_boxes img g a)
                                                       (Hmp g a Hg Ha)) Hpo) as Hpo0.
      assert (0 <= at2 am g a * at2 mp g a)
        by (apply Rmult_le_pos; [apply Ham0 | apply Hmp]; lia).
      assert (0 < nth g pa 0 + eps9) by (unfold eps9; lra).
      apply Rmult_le_pos; [apply Rmult_le_pos; assumption|].
      left. apply Rinv_0_lt_compat. assumption. }
    apply Forall_zipWith. intros row s Hrow Hs.
    rewrite Forall_forall in Hscale. specialize (Hscale s Hs).
    apply Forall_forall. intros v Hv. apply in_map_iff in Hv.
    destruct Hv as (w & <- & Hw).
    assert (0 <= w); [|apply Rmult_le_pos; assumption].
    clear -Hrow Hw Hhot. revert Hrow.
    generalize (fg_mask_of anc_points mp) as fg. intros fg. revert hot Hhot.
    induction fg as [|f fg IH]; intros [|h hot] Hhot; simpl; try tauto.
    inversion Hhot as [|? ? Hh Hrest]; subst.
    intros [<-|Hin]; [|apply (IH hot Hrest Hin)].
    apply in_map_iff in Hw. destruct Hw as (v & <- & Hv).
    destruct (Rltb 0 f); [|lra].
    rewrite Forall_forall in Hh. destruct (Hh v Hv) as [->| ->]; lra.
  - intros a row Ha Hfg.
    apply nth_error_zipWith in Ha. destruct Ha as (row1 & s & H1 & _ & ->).
    apply nth_error_zipWith in H1. destruct H1 as (f & h & Hf & _ & ->).
    assert (E : nth a (map (fun f => negb (Reqb f 0)) (fg_mask_of anc_points mp)) false
                = negb (Reqb f 0)).
    { apply nth_error_nth. rewrite nth_error_map, Hf. reflexivity. }
    rewrite E in Hfg. apply negb_false_iff in Hfg. apply Reqb_spec in Hfg. subst f.
    rewrite (Rltb_false 0 0) by lra.
    apply Forall_forall. intros v Hv. apply in_map_iff in Hv.
    destruct Hv as (w & <- & Hw). apply in_map_iff in Hw. destruct Hw as (u & <- & _). ring.
Qed.

End AssignerScores.

(** ** [Assigner.forward]: an anchor claimed twice *)

(** For corner-form boxes the value returned is at most the plain ratio
    minus the centre-distance penalty. *)
Lemma compute_iou_le_distance (a b : box) :
  corner_form a -> corner_form b ->
  compute_iou a b <= iou_plain a b - iou_rho2 a b / iou_c2 a b.
Proof.
  intros Ha Hb. unfold compute_iou.
  assert (0 <= iou_v a b * iou_alpha a b)
    by (apply Rmult_le_pos; [apply iou_v_nonneg | apply iou_alpha_nonneg; assumption]).
  lra.
Qed.

(** Boxes of the same width and height have no aspect-ratio penalty. *)
Lemma compute_iou_same_shape (a b : box) :
  bx2 a - bx1 a = bx2 b - bx1 b -> by2 a - by1 a = by2 b - by1 b ->
  compute_iou a b = iou_plain a b - iou_rho2 a b / iou_c2 a b.
Proof.
  intros Hw Hh. unfold compute_iou.
  assert (V0 : iou_v a b = 0).
  { unfold iou_v, iou_w1, iou_w2, iou_h1, iou_h2. cbv zeta. rewrite Hw, Hh.
    set (p := atan _). ring. }
  rewrite V0. ring.
Qed.

Lemma ex_corner_forms : corner_form ex_pred /\ corner_form ex_gt0 /\ corner_form ex_gt1.
Proof. unfold corner_form, ex_pred, ex_gt0, ex_gt1. simpl. lra. Qed.

Lemma ex_plain0 :
  iou_plain ex_gt0 ex_pred = (1 / 4) / (31 / 4 + 5 * eps7) /\
  iou_rho2 ex_gt0 ex_pred / iou_c2 ex_gt0 ex_pred = (9 / 2) / (49 / 2 + eps7).
Proof.
  unfold iou_plain, iou_union, iou_inter, iou_w1, iou_h1, iou_w2, iou_h2,
         iou_rho2, iou_c2, iou_cw, iou_ch, clamp0, ex_gt0, ex_pred.
  cbn [bx1 by1 bx2 by2]. eval_cmp. split; f_equal; unfold eps7; field.
Qed.

Lemma ex_plain1 :
  iou_plain ex_gt1 ex_pred = (9 / 25) / (191 / 25 + 5 * eps7) /\
  iou_rho2 ex_gt1 ex_pred / iou_c2 ex_gt1 ex_pred = (98 / 25) / (578 / 25 + eps7).
Proof.
  unfold iou_plain, iou_union, iou_inter, iou_w1, iou_h1, iou_w2, iou_h2,
         iou_rho2, iou_c2, iou_cw, iou_ch, clamp0, ex_gt1, ex_pred.
  cbn [bx1 by1 bx2 by2]. eval_cmp. split; f_equal; unfold eps7; field.
Qed.

Lemma ex_overlaps_clamped :
  clamp0 (compute_iou ex_gt0 ex_pred) = 0 /\ clamp0 (compute_iou ex_gt1 ex_pred) = 0.
Proof.
  destruct ex_corner_forms as (Hp & H0 & H1).
  destruct ex_plain0 as [P0 D0]. destruct ex_plain1 as [P1 D1].
  split; apply clamp0_neg.
  - apply Rle_trans with (1 := compute_iou_le_distance _ _ H0 Hp).
    rewrite P0, D0. unfold eps7. lra.
  - apply Rle_trans with (1 := compute_iou_le_distance _ _ H1 Hp).
    rewrite P1, D1. unfold eps7. lra.
Qed.

(** The second ground truth overlaps the predicted box more than the
    first, by the plain ratio and by the value of [compute_iou]. *)
Lemma ex_iou_order :
  0 < iou_plain ex_gt0 ex_pred < iou_plain ex_gt1 ex_pred /\
  compute_iou ex_gt0 ex_pred < compute_iou ex_gt1 ex_pred.
Proof.
  destruct ex_plain0 as [P0 D0]. destruct ex_plain1 as [P1 D1].
  split.
  - rewrite P0, P1. unfold eps7. lra.
  - rewrite (compute_iou_same_shape ex_gt0 ex_pred), (compute_iou_same_shape ex_gt1 ex_pred);
      try (unfold ex_gt0, ex_gt1, ex_pred; simpl; lra).
    rewrite P0, D0, P1, D1. unfold eps7. lra.
Qed.

Lemma ex_overlaps : overlaps ex_anchors 2 ex_image = [[0]; [0]].
Proof.
  destruct ex_overlaps_clamped as [C0 C1].
  unfold overlaps, tabulate2, n_anchors, ex_anchors, true_mask, in_gts, valid_gt, gt_box,
         pd_box, ex_image.
  cbn -[compute_iou clamp0 Rltb Rmin ex_gt0 ex_gt1 ex_pred].
  unfold ex_gt0 at 1 2 3 4, ex_gt1 at 1 2 3 4. cbn [bx1 by1 bx2 by2].
  unfold eps9. eval_cmp.
  cbn -[compute_iou clamp0 ex_gt0 ex_gt1 ex_pred].
  rewrite C0, C1. reflexivity.
Qed.

Lemma ex_in_gts : in_gts ex_anchors ex_image 0 0 = true /\ in_gts ex_anchors ex_image 1 0 = true.
Proof.
  unfold in_gts, gt_box, ex_anchors, ex_image, ex_gt0, ex_gt1, eps9.
  cbn [nth gt_bboxes fst snd bx1 by1 bx2 by2]. eval_cmp. auto.
Qed.

Lemma ex_align_metric :
  align_metric 1 6 ex_anchors 2 ex_image [[1 / 2]; [1 / 2]] = Some [[0]; [0]].
Proof.
  destruct ex_in_gts as [I0 I1].
  assert (E : torch_pow 0 6 = Some 0).
  { unfold torch_pow. rewrite Rltb_false by lra. rewrite Reqb_true by reflexivity.
    rewrite Reqb_false by lra. rewrite Rltb_true by lra. reflexivity. }
  assert (F : torch_pow (1 / 2) 1 = Some (1 / 2)).
  { unfold torch_pow. rewrite Rltb_true by lra. rewrite Rpower_1 by lra. reflexivity. }
  unfold align_metric. rewrite ex_overlaps.
  unfold bbox_scores, tabulate2, true_mask, valid_gt, n_anchors.
  cbn [ex_anchors length seq map mapM]. rewrite I0, I1.
  unfold at2. cbn [ex_image mask_gt nth andb]. rewrite E, F.
  cbn [bind]. rewrite !Rmult_0_r. reflexivity.
Qed.

Lemma ex_top_k : top_k_indices 1 2 ex_image [[0]; [0]] = Some [[0%nat]; [0%nat]].
Proof. reflexivity. Qed.

Lemma ex_mask_pos : mask_pos ex_anchors 2 ex_image [[0%nat]; [0%nat]] = [[1]; [1]].
Proof.
  destruct ex_in_gts as [I0 I1].
  unfold mask_pos, tabulate2, n_anchors. cbn [ex_anchors length seq map].
  rewrite I0, I1. unfold mask_top_k, tabulate2, n_anchors, at2.
  cbn [ex_anchors length seq map nth]. unfold valid_gt. 
  cbn. rewrite !Rmult_1_r. reflexivity.
Qed.

Lemma ex_class_scores : class_scores ex_image = Some [[1 / 2]; [1 / 2]].
Proof. reflexivity. Qed.

Lemma ex_fg_mask : fg_mask_of ex_anchors [[1]; [1]] = [2].
Proof.
  unfold fg_mask_of, n_anchors, column, Rsum. cbn [ex_anchors length seq map nth fold_right].
  f_equal. ring.
Qed.

Lemma ex_resolve : resolve ex_anchors 2 ex_image [[1]; [1]] = [[1]; [0]].
Proof.
  unfold resolve. rewrite ex_overlaps, ex_fg_mask.
  unfold tabulate2, n_anchors. cbn [ex_anchors length seq map nth].
  rewrite Rltb_true by lra.
  assert (E : argmax (column [[0]; [0]] 0) = 0%nat).
  { unfold argmax, column, max_with_index. cbn [map nth max_with_index_from].
    rewrite Rltb_false by lra. reflexivity. }
  rewrite E. reflexivity.
Qed.

Lemma ex_targets :
  targets 1 ex_anchors 2 ex_image [[0]; [0]] [[1]; [0]] = Some ex_assignment.
Proof.
  unfold targets. rewrite ex_overlaps.
  assert (E : argmax (column [[1]; [0]] 0) = 0%nat).
  { unfold argmax, column, max_with_index. cbn [map nth max_with_index_from].
    eval_cmp. reflexivity. }
  assert (F : fg_mask_of ex_anchors [[1]; [0]] = [1]).
  { unfold fg_mask_of, n_anchors, column, Rsum.
    cbn [ex_anchors length seq map nth fold_right]. f_equal. ring. }
  rewrite F. unfold n_anchors. cbn [ex_anchors length seq map]. rewrite E.
  unfold tabulate2, at2, column.
  cbn [mapM bind nth_error gt_labels gt_bboxes ex_image one_hot Nat.ltb Nat.leb
       seq map Nat.eqb amax fold_left nth zipWith existsb].
  rewrite (Reqb_false (0 * 1 + eps9) 0) by (unfold eps9; lra).
  rewrite (Reqb_false (0 * 0 + eps9) 0) by (unfold eps9; lra).
  cbn [orb mapM bind amax fold_left nth zipWith seq map].
  rewrite Rltb_true by lra. rewrite Reqb_false by lra.
  replace (0 * 1 * (0 * 1) / (0 * 1 + eps9)) with 0 by (unfold eps9; field).
  replace (0 * 0 * (0 * 0) / (0 * 0 + eps9)) with 0 by (unfold eps9; field).
  rewrite Rmax_left by lra. rewrite Rmult_0_r. reflexivity.
Qed.

Lemma ex_assign : assign 1 1 1 6 ex_anchors 2 [ex_image] = Some [ex_assignment].
Proof.
  unfold assign.
  change (forallb (well_shaped ex_anchors 2) [ex_image]) with true.
  cbn [negb mapM bind combine fst snd]. rewrite ex_class_scores.
  cbn [bind combine mapM fst snd]. rewrite ex_align_metric.
  cbn [bind combine mapM fst snd]. rewrite ex_top_k.
  cbn [bind zipWith map]. rewrite ex_mask_pos, ex_fg_mask.
  cbn [concat app amax fold_left bind]. rewrite Rltb_true by lra.
  cbn [zipWith]. rewrite ex_resolve.
  cbn [combine mapM fst snd]. rewrite ex_targets. reflexivity.
Qed.

(** ** [Assigner.forward]: the tuple returned *)

(** [argmax] returns the first index of the maximum: every entry before
    it is strictly smaller. *)
Lemma max_with_index_from_first (l : list R) :
  forall (best : R) (bi i : nat) (full : list R),
    (bi < i)%nat -> nth bi full 0 = best ->
    (forall k, (k < length l)%nat -> nth (i + k) full 0 = nth k l 0) ->
    (forall k, (k < bi)%nat -> nth k full 0 < best) ->
    (forall k, (k < i)%nat -> nth k full 0 <= best) ->
    let r := max_with_index_from best bi i l in
    forall k, (k < snd r)%nat -> nth k full 0 < fst r.
Proof.
  induction l as [|x l IH]; intros best bi i full Hbi Hbest Hl Hlt Hle; simpl.
  - exact Hlt.
  - assert (Hx : nth i full 0 = x)
      by (rewrite <- (Nat.add_0_r i); apply (Hl 0%nat); simpl; lia).
    assert (Hl' : forall k, (k < length l)%nat -> nth (S i + k) full 0 = nth k l 0).
    { intros k Hk. replace (S i + k)%nat with (i + S k)%nat by lia.
      apply (Hl (S k)). simpl. lia. }
    unfold Rltb. destruct (Rlt_dec best x) as [Hbx|Hge].
    + apply (IH x i (S i) full); [lia | exact Hx | exact Hl' | |].
      * intros k Hk. specialize (Hle k Hk). lra.
      * intros k Hk. destruct (Nat.eq_dec k i) as [->|Hne]; [lra|].
        specialize (Hle k ltac:(lia)). lra.
    + apply (IH best bi (S i) full); [lia | exact Hbest | exact Hl' | exact Hlt |].
      intros k Hk. destruct (Nat.eq_dec k i) as [->|Hne]; [lra|]. apply Hle. lia.
Qed.

Lemma argmax_first (l : list R) (k : nat) :
  (k < argmax l)%nat -> nth k l 0 < nth (argmax l) l 0.
Proof.
  destruct l as [|x l]; [unfold argmax; simpl; lia|].
  unfold argmax. simpl max_with_index.
  pose proof (max_with_index_from_spec l x 0 1 (x :: l)) as H.
  pose proof (max_with_index_from_first l x 0 1 (x :: l)) as F.
  destruct (max_with_index_from x 0 1 l) as [v i] eqn:E. cbn [fst snd] in H, F.
  destruct H as (_ & H2 & _); try reflexivity; try lia.
  { intros j Hj. replace j with 0%nat by lia. simpl. lra. }
  intros Hk. rewrite H2. apply F; try reflexivity; try lia.
  intros j Hj. replace j with 0%nat by lia. simpl. lra.
Qed.

(** With at least one ground truth, [forward] returns the four tensors of
    the assignments. *)
Lemma forward_inv (top_k num_classes : nat) (alpha beta : R)
    (anc_points : list (R * R)) (max_boxes : nat) (batch : list image)
    (t : list value) :
  (1 <= max_boxes)%nat ->
  forward top_k num_classes alpha beta anc_points max_boxes batch = Some t ->
  exists r,
    assign top_k num_classes alpha beta anc_points max_boxes batch = Some r /\
    t = [ VReal3 (map (fun x => map box_row (a_target_bboxes x)) r);
          VReal3 (map a_target_scores r);
          VBool2 (map a_fg_mask r);
          VLong2 (map a_target_gt_idx r) ].
Proof.
  intros Hmb. unfold forward.
  destruct (Nat.eqb_spec max_boxes 0) as [E|_]; [lia|].
  destruct (assign _ _ _ _ _ _ batch) as [r|]; cbn [bind]; [|discriminate].
  intros H. injection H as <-. exists r. split; reflexivity.
Qed.

Lemma ex_forward_run : forward 1 1 1 6 ex_anchors 2 [ex_image] = Some ex_forward.
Proof.
  unfold forward. cbn [Nat.eqb]. rewrite ex_assign. reflexivity.
Qed.

(** C2. With at least one ground truth, whenever [forward] returns, every
    anchor of the final positive mask is assigned to at most one ground
    truth: the entries are 0 or 1 and their sum over the ground truths is
    at most 1.  An anchor that more than one ground truth had claimed is
    kept by the ground truth [gs] that [overlaps.argmax] selects: the
    first index holding the largest overlap value of that anchor, where
    the overlap value is [compute_iou] of the ground-truth box and the
    predicted box (the complete IoU), raised to 0 when negative, for the
    valid ground truths that contain the anchor point, and 0 for the
    others.  [gs] is what [target_gt_idx] holds for the anchor, and the
    anchor is in the foreground. *)
Theorem assigner_one_ground_truth_per_anchor
    (top_k num_classes : nat) (alpha beta : R) (anc_points : list (R * R))
    (max_boxes : nat) (batch : list image) (t : list value) :
  (1 <= max_boxes)%nat ->
  forward top_k num_classes alpha beta anc_points max_boxes batch = Some t ->
  exists r,
    assign top_k num_classes alpha beta anc_points max_boxes batch = Some r /\
    t = [ VReal3 (map (fun x => map box_row (a_target_bboxes x)) r);
          VReal3 (map a_target_scores r);
          VBool2 (map a_fg_mask r);
          VLong2 (map a_target_gt_idx r) ] /\
    forall i x, nth_error r i = Some x ->
      exists img cs am idx,
        nth_error batch i = Some img /\
        class_scores img = Some cs /\
        align_metric alpha beta anc_points max_boxes img cs = Some am /\
        top_k_indices top_k max_boxes img am = Some idx /\
        (forall a, (a < n_anchors anc_points)%nat ->
           Rsum (column (a_mask_pos x) a) <= 1 /\
           forall g, (g < max_boxes)%nat ->
                     at2 (a_mask_pos x) g a = 0 \/ at2 (a_mask_pos x) g a = 1) /\
        (forall a, (a < n_anchors anc_points)%nat ->
           1 < Rsum (column (mask_pos anc_points max_boxes img idx) a) ->
           let ov := overlaps anc_points max_boxes img in
           let gs := argmax (column ov a) in
           (gs < max_boxes)%nat /\
           (forall g, (g < max_boxes)%nat ->
              at2 (a_mask_pos x) g a = if (g =? gs)%nat then 1 else 0) /\
           nth a (a_target_gt_idx x) 0%nat = gs /\
           nth a (a_fg_mask x) false = true /\
           (forall g, (g < max_boxes)%nat -> at2 ov g a <= at2 ov gs a) /\
           (forall g, (g < gs)%nat -> at2 ov g a < at2 ov gs a) /\
           (forall g, (g < max_boxes)%nat ->
              at2 ov g a =
              if true_mask anc_points img g a
              then clamp0 (compute_iou (gt_box img g) (pd_box img a))
              else 0)).
Proof.
  intros Hmb Hf.
  destruct (forward_inv _ _ _ _ _ _ _ _ Hmb Hf) as (r & Hr & Et).
  exists r. split; [exact Hr|]. split; [exact Et|].
  intros i x Hx.
  destruct (assign_positive_mask _ _ _ _ _ _ _ _ _ _ Hmb Hr Hx)
    as (img & cs & am & idx & Himg & Hcs & Ham & Hidx & Hone & Hmulti).
  exists img, cs, am, idx. repeat (split; [assumption|]).
  intros a Ha Hs ov gs.
  destruct (Hmulti a Ha Hs) as (Hgs & Hmask & Hidx' & Hfg & Hmax).
  fold ov in Hgs, Hmask, Hidx', Hfg, Hmax. fold gs in Hgs, Hmask, Hidx', Hfg, Hmax.
  repeat (split; [assumption|]). split.
  - intros g Hg. rewrite <- !column_nth. apply argmax_first. exact Hg.
  - intros g Hg. unfold ov, overlaps. apply at2_tabulate2; assumption.
Qed.

Lemma assigner_one_ground_truth_per_anchor_witness :
  exists r,
    assign 1 1 1 6 ex_anchors 2 [ex_image] = Some r /\
    ex_forward = [ VReal3 (map (fun x => map box_row (a_target_bboxes x)) r);
                   VReal3 (map a_target_scores r);
                   VBool2 (map a_fg_mask r);
                   VLong2 (map a_target_gt_idx r) ] /\
    forall i x, nth_error r i = Some x ->
      exists img cs am idx,
        nth_error [ex_image] i = Some img /\
        class_scores img = Some cs /\
        align_metric 1 6 ex_anchors 2 img cs = Some am /\
        top_k_indices 1 2 img am = Some idx /\
        (forall a, (a < n_anchors ex_anchors)%nat ->
           Rsum (column (a_mask_pos x) a) <= 1 /\
           forall g, (g < 2)%nat ->
                     at2 (a_mask_pos x) g a = 0 \/ at2 (a_mask_pos x) g a = 1) /\
        (forall a, (a < n_anchors ex_anchors)%nat ->
           1 < Rsum (column (mask_pos ex_anchors 2 img idx) a) ->
           let ov := overlaps ex_anchors 2 img in
           let gs := argmax (column ov a) in
           (gs < 2)%nat /\
           (forall g, (g < 2)%nat ->
              at2 (a_mask_pos x) g a = if (g =? gs)%nat then 1 else 0) /\
           nth a (a_target_gt_idx x) 0%nat = gs /\
           nth a (a_fg_mask x) false = true /\
           (forall g, (g < 2)%nat -> at2 ov g a <= at2 ov gs a) /\
           (forall g, (g < gs)%nat -> at2 ov g a < at2 ov gs a) /\
           (forall g, (g < 2)%nat ->
              at2 ov g a =
              if true_mask ex_anchors img g a
              then clamp0 (compute_iou (gt_box img g) (pd_box img a))
              else 0)).
Proof.
  apply (assigner_one_ground_truth_per_anchor 1 1 1 6 ex_anchors 2 [ex_image] ex_forward).
  - lia.
  - exact ex_forward_run.
Defined.

(** The anchor of [ex_image] is claimed by both ground truths.  The plain
    ratio and the value of [compute_iou] are larger for the second one,
    yet both overlap values are 0 and the anchor is kept by the first. *)
Lemma assigner_keeps_lower_iou :
  forward 1 1 1 6 ex_anchors 2 [ex_image] = Some ex_forward /\
  assign 1 1 1 6 ex_anchors 2 [ex_image] = Some [ex_assignment] /\
  class_scores ex_image = Some [[1 / 2]; [1 / 2]] /\
  align_metric 1 6 ex_anchors 2 ex_image [[1 / 2]; [1 / 2]] = Some [[0]; [0]] /\
  top_k_indices 1 2 ex_image [[0]; [0]] = Some [[0%nat]; [0%nat]] /\
  mask_pos ex_anchors 2 ex_image [[0%nat]; [0%nat]] = [[1]; [1]] /\
  a_mask_pos ex_assignment = [[1]; [0]] /\
  a_target_gt_idx ex_assignment = [0%nat] /\
  gt_box ex_image 0 = ex_gt0 /\ gt_box ex_image 1 = ex_gt1 /\
  pd_box ex_image 0 = ex_pred /\
  iou_plain ex_gt0 ex_pred < iou_plain ex_gt1 ex_pred /\
  compute_iou ex_gt0 ex_pred < compute_iou ex_gt1 ex_pred.
Proof.
  destruct ex_iou_order as [[_ H1] H2].
  repeat split; try assumption.
  - exact ex_forward_run.
  - exact ex_assign.
  - exact ex_align_metric.
  - exact ex_mask_pos.
Qed.

Lemma neg_in_gts : in_gts neg_anchors neg_image 0 0 = true /\ in_gts neg_anchors neg_image 0 1 = true.
Proof.
  unfold in_gts, gt_box, neg_anchors, neg_image, neg_box, eps9.
  cbn [nth gt_bboxes fst snd bx1 by1 bx2 by2]. eval_cmp. auto.
Qed.

Lemma neg_iou :
  compute_iou neg_box neg_box = 16 / (16 + 9 * eps7) /\ 0 < 16 / (16 + 9 * eps7) < 1.
Proof.
  assert (C : corner_form neg_box) by (unfold corner_form, neg_box; simpl; lra).
  destruct (compute_iou_same neg_box C) as [E1 E2]. split.
  - rewrite E1, E2. unfold neg_box. cbn [bx1 by1 bx2 by2]. f_equal; ring.
  - unfold eps7. lra.
Qed.

Lemma neg_overlaps :
  overlaps neg_anchors 1 neg_image = [[16 / (16 + 9 * eps7); 16 / (16 + 9 * eps7)]].
Proof.
  destruct neg_in_gts as [I0 I1]. destruct neg_iou as [E [Q0 Q1]].
  unfold overlaps, tabulate2, true_mask, valid_gt, gt_box, pd_box, n_anchors.
  cbn [neg_anchors length seq map]. rewrite I0, I1.
  cbn [neg_image mask_gt gt_bboxes pd_bboxes nth andb].
  rewrite E. unfold clamp0. rewrite Rmax_right by lra. reflexivity.
Qed.

Lemma neg_class_scores : class_scores neg_image = Some [[1 / 2; - (1 / 2)]].
Proof. reflexivity. Qed.

Lemma neg_align_metric :
  align_metric 1 6 neg_anchors 1 neg_image [[1 / 2; - (1 / 2)]]
  = Some [[1 / 2 * Rpower (16 / (16 + 9 * eps7)) 6;
           - (1 / 2) * Rpower (16 / (16 + 9 * eps7)) 6]].
Proof.
  destruct neg_in_gts as [I0 I1]. destruct neg_iou as [_ [Q0 Q1]].
  assert (F : torch_pow (1 / 2) 1 = Some (1 / 2)).
  { unfold torch_pow. rewrite Rltb_true by lra. rewrite Rpower_1 by lra. reflexivity. }
  assert (Z1 : Zfloor 1 = 1%Z) by (apply Zfloor_eq; simpl; lra).
  assert (G : torch_pow (- (1 / 2)) 1 = Some (- (1 / 2))).
  { unfold torch_pow. rewrite Rltb_false by lra. rewrite Reqb_false by lra.
    rewrite Z1. rewrite Reqb_true by reflexivity. f_equal. simpl. lra. }
  assert (P : torch_pow (16 / (16 + 9 * eps7)) 6 = Some (Rpower (16 / (16 + 9 * eps7)) 6)).
  { unfold torch_pow. rewrite Rltb_true by lra. reflexivity. }
  unfold align_metric. rewrite neg_overlaps.
  unfold bbox_scores, tabulate2, true_mask, valid_gt, n_anchors.
  cbn [neg_anchors length seq map mapM]. rewrite I0, I1.
  unfold at2. cbn [neg_image mask_gt nth andb]. rewrite F, G, P.
  reflexivity.
Qed.

Lemma neg_top_k (p : R) :
  0 < p ->
  top_k_indices 2 1 neg_image [[1 / 2 * p; - (1 / 2) * p]] = Some [[0%nat; 1%nat]].
Proof.
  intros Hp. unfold top_k_indices, topk, valid_gt, argsort, sort_by.
  cbn [seq mapM nth length Nat.leb map neg_image mask_gt bind combine fold_right
       insert_by snd].
  rewrite Rleb_true by lra. reflexivity.
Qed.

Lemma neg_mask_pos : mask_pos neg_anchors 1 neg_image [[0%nat; 1%nat]] = [[1; 1]].
Proof.
  destruct neg_in_gts as [I0 I1].
  unfold mask_pos, tabulate2, n_anchors. cbn [neg_anchors length seq map].
  rewrite I0, I1. unfold mask_top_k, tabulate2, n_anchors, at2.
  cbn [neg_anchors length seq map nth]. unfold valid_gt.
  cbn. rewrite !Rmult_1_r. reflexivity.
Qed.

Lemma neg_fg_mask : fg_mask_of neg_anchors [[1; 1]] = [1; 1].
Proof.
  unfold fg_mask_of, n_anchors, column, Rsum. cbn [neg_anchors length seq map nth fold_right].
  f_equal; [ring|]. f_equal. ring.
Qed.

Lemma neg_targets (p q : R) :
  0 < p -> 0 < q ->
  overlaps neg_anchors 1 neg_image = [[q; q]] ->
  exists u,
    targets 1 neg_anchors 1 neg_image [[1 / 2 * p; - (1 / 2) * p]] [[1; 1]]
    = Some (Assignment [[1; 1]] [neg_box; neg_box] [[u]; [- u]] [true; true]
              [0%nat; 0%nat]) /\ 0 < u.
Proof.
  intros Hp Hq Eov. unfold targets. rewrite Eov, neg_fg_mask.
  assert (E0 : argmax (column [[1; 1]] 0) = 0%nat) by reflexivity.
  assert (E1 : argmax (column [[1; 1]] 1) = 0%nat) by reflexivity.
  unfold n_anchors. cbn [neg_anchors length seq map]. rewrite E0, E1.
  unfold tabulate2, at2, column.
  cbn [mapM bind nth_error gt_labels gt_bboxes neg_image one_hot Nat.ltb Nat.leb
       seq map Nat.eqb amax fold_left nth zipWith existsb].
  rewrite (Rmax_left (1 / 2 * p * 1) (- (1 / 2) * p * 1)) by lra.
  rewrite (Rmax_left (q * 1) (q * 1)) by lra.
  rewrite (Reqb_false (1 / 2 * p * 1 + eps9) 0) by (unfold eps9; lra).
  rewrite (Rltb_true 0 1) by lra. rewrite (Reqb_false 1 0) by lra.
  cbn [orb negb].
  assert (Hd : 0 < 1 / 2 * p * 1 + eps9) by (unfold eps9; lra).
  exists (1 * (1 / 2 * p * 1 * (q * 1) / (1 / 2 * p * 1 + eps9))). split.
  - do 3 f_equal. f_equal. f_equal. field. lra.
  - rewrite Rmult_1_l. apply Rdiv_lt_0_compat; [|exact Hd]. nra.
Qed.

Lemma neg_assign :
  exists u,
    assign 2 1 1 6 neg_anchors 1 [neg_image]
    = Some [Assignment [[1; 1]] [neg_box; neg_box] [[u]; [- u]] [true; true]
              [0%nat; 0%nat]] /\ 0 < u.
Proof.
  destruct neg_iou as [_ [Q0 Q1]].
  set (q := 16 / (16 + 9 * eps7)) in *.
  assert (Hp : 0 < Rpower q 6) by (unfold Rpower; apply exp_pos).
  destruct (neg_targets (Rpower q 6) q Hp Q0 neg_overlaps) as (u & Hu & Hu0).
  exists u. split; [|exact Hu0].
  unfold assign.
  change (forallb (well_shaped neg_anchors 1) [neg_image]) with true.
  cbn [negb mapM bind combine fst snd]. rewrite neg_class_scores.
  cbn [bind combine mapM fst snd]. rewrite neg_align_metric. fold q.
  cbn [bind combine mapM fst snd]. rewrite (neg_top_k _ Hp).
  cbn [bind zipWith map]. rewrite neg_mask_pos, neg_fg_mask.
  cbn [concat app amax fold_left bind]. rewrite Rmax_left by lra.
  rewrite Rltb_false by lra.
  cbn [combine mapM fst snd]. rewrite Hu. reflexivity.
Qed.

(** [assign] returns one assignment for each image. *)
Lemma assign_length (top_k num_classes : nat) (alpha beta : R)
    (anc_points : list (R * R)) (max_boxes : nat) (batch : list image)
    (r : list assignment) :
  assign top_k num_classes alpha beta anc_points max_boxes batch = Some r ->
  length r = length batch.
Proof.
  unfold assign. destruct (forallb _ batch); cbn [negb]; [|discriminate].
  destruct (mapM class_scores batch) as [css|] eqn:Ecs; cbn [bind]; [|discriminate].
  match goal with |- context [mapM ?F (combine batch css)] =>
    destruct (mapM F (combine batch css)) as [ams|] eqn:Eam end;
    cbn [bind]; [|discriminate].
  match goal with |- context [mapM ?F (combine batch ams)] =>
    destruct (mapM F (combine batch ams)) as [idxs|] eqn:Eidx end;
    cbn [bind]; [|discriminate].
  cbv zeta.
  destruct (amax _) as [m|]; cbn [bind]; [|discriminate].
  intros Hr.
  apply mapM_length in Ecs, Eam, Eidx, Hr.
  rewrite length_combine in Eam, Eidx. rewrite Hr, !length_combine.
  assert (L0 : length (zipWith (mask_pos anc_points max_boxes) batch idxs) = length batch)
    by (apply zipWith_length; lia).
  destruct (Rltb 1 m).
  - rewrite zipWith_length by lia. lia.
  - lia.
Qed.

(** The tensors of an assignment have one entry for each anchor. *)
Lemma assign_shapes (top_k num_classes : nat) (alpha beta : R)
    (anc_points : list (R * R)) (max_boxes : nat) (batch : list image)
    (r : list assignment) (i : nat) (x : assignment) :
  assign top_k num_classes alpha beta anc_points max_boxes batch = Some r ->
  nth_error r i = Some x ->
  length (a_target_scores x) = n_anchors anc_points /\
  length (a_fg_mask x) = n_anchors anc_points /\
  length (a_target_gt_idx x) = n_anchors anc_points.
Proof.
  intros Hr Hx.
  destruct (assign_inv _ _ _ _ _ _ _ _ _ _ Hr Hx)
    as (img & cs & am & idx & mp & _ & _ & _ & _ & _ & Ht & _).
  destruct (targets_inv _ _ _ _ _ _ _ Ht)
    as (_ & Eidx & Efg & hot & pa & po & scale & _ & Hhot & _ & _ & Hsc & Ets).
  apply mapM_length in Hsc. rewrite length_seq in Hsc.
  rewrite Ets, Efg, Eidx, !length_map, length_seq, fg_mask_of_length.
  repeat split.
  rewrite zipWith_length; rewrite zipWith_length; try reflexivity;
    rewrite ?fg_mask_of_length; lia.
Qed.

Lemma forward_neg_run :
  exists u,
    forward 2 1 1 6 neg_anchors 1 [neg_image]
    = Some [ VReal3 [[box_row neg_box; box_row neg_box]];
             VReal3 [[[u]; [- u]]];
             VBool2 [[true; true]];
             VLong2 [[0%nat; 0%nat]] ] /\ 0 < u.
Proof.
  destruct neg_assign as (u & Hu & Hu0). exists u. split; [|exact Hu0].
  unfold forward. cbn [Nat.eqb]. rewrite Hu. reflexivity.
Qed.

(** C9. With at least one ground truth, whenever [forward] returns, it
    returns the scores and the foreground mask of every image with one row
    for each anchor; the row of [target_scores] of an anchor whose
    foreground mask is false holds zeros only, so its sum over the classes
    is zero; and when no predicted class score of the batch is negative,
    every entry of [target_scores] is nonnegative. *)
Theorem assigner_target_scores_nonnegative
    (top_k num_classes : nat) (alpha beta : R) (anc_points : list (R * R))
    (max_boxes : nat) (batch : list image) (t : list value) :
  (1 <= max_boxes)%nat ->
  forward top_k num_classes alpha beta anc_points max_boxes batch = Some t ->
  exists target_bboxes target_scores fg_mask target_gt_idx,
    t = [VReal3 target_bboxes; VReal3 target_scores; VBool2 fg_mask;
         VLong2 target_gt_idx] /\
    length target_scores = length batch /\
    length fg_mask = length batch /\
    (forall i scores fg,
        nth_error target_scores i = Some scores ->
        nth_error fg_mask i = Some fg ->
        length scores = n_anchors anc_points /\
        length fg = n_anchors anc_points /\
        forall a row,
          nth_error scores a = Some row ->
          nth a fg false = false ->
          Forall (fun v => v = 0) row /\ Rsum row = 0) /\
    (Forall (fun img => Forall (Forall (fun s => 0 <= s)) (pd_scores img)) batch ->
     Forall (Forall (Forall (fun v => 0 <= v))) target_scores).
Proof.
  intros Hmb Hf.
  destruct (forward_inv _ _ _ _ _ _ _ _ Hmb Hf) as (r & Hr & ->).
  eexists _, _, _, _. split; [reflexivity|].
  pose proof (assign_length _ _ _ _ _ _ _ _ Hr) as Hlen.
  rewrite !length_map. repeat (split; [exact Hlen|]). split.
  - intros i scores fg Hs Hfg.
    rewrite nth_error_map in Hs, Hfg.
    destruct (nth_error r i) as [x|] eqn:Hx; [|discriminate].
    cbn [option_map] in Hs, Hfg. injection Hs as <-. injection Hfg as <-.
    destruct (assign_shapes _ _ _ _ _ _ _ _ _ _ Hr Hx) as (L1 & L2 & _).
    split; [exact L1|]. split; [exact L2|].
    intros a row Hrow Hfalse.
    destruct (assign_target_scores _ _ _ _ _ _ _ _ _ _ Hmb Hr Hx) as [_ Hz].
    specialize (Hz a row Hrow Hfalse). split; [exact Hz|].
    apply Rsum_zeros. exact Hz.
  - intros Hpd. apply Forall_forall. intros scores Hin.
    apply in_map_iff in Hin. destruct Hin as (x & <- & Hin).
    apply In_nth_error in Hin. destruct Hin as [i Hx].
    destruct (assign_target_scores _ _ _ _ _ _ _ _ _ _ Hmb Hr Hx) as [Hnn _].
    apply Hnn. exact Hpd.
Qed.

Lemma assigner_target_scores_nonnegative_witness :
  exists target_bboxes target_scores fg_mask target_gt_idx,
    ex_forward = [VReal3 target_bboxes; VReal3 target_scores; VBool2 fg_mask;
                  VLong2 target_gt_idx] /\
    length target_scores = length [ex_image] /\
    length fg_mask = length [ex_image] /\
    (forall i scores fg,
        nth_error target_scores i = Some scores ->
        nth_error fg_mask i = Some fg ->
        length scores = n_anchors ex_anchors /\
        length fg = n_anchors ex_anchors /\
        forall a row,
          nth_error scores a = Some row ->
          nth a fg false = false ->
          Forall (fun v => v = 0) row /\ Rsum row = 0) /\
    Forall (Forall (Forall (fun v => 0 <= v))) target_scores.
Proof.
  destruct (assigner_target_scores_nonnegative 1 1 1 6 ex_anchors 2 [ex_image] ex_forward)
    as (tb & ts & fg & gi & E & L1 & L2 & Hz & Hnn).
  - lia.
  - exact ex_forward_run.
  - exists tb, ts, fg, gi. repeat (split; [assumption|]).
    apply Hnn. repeat constructor. lra.
Defined.

(** With the class scores 1/2 and -1/2 at two anchors that one ground
    truth claims, the target score at the second anchor is negative. *)
Lemma assigner_negative_target_score :
  pd_scores neg_image = [[1 / 2]; [- (1 / 2)]] /\
  exists u,
    forward 2 1 1 6 neg_anchors 1 [neg_image]
    = Some [ VReal3 [[box_row neg_box; box_row neg_box]];
             VReal3 [[[u]; [- u]]];
             VBool2 [[true; true]];
             VLong2 [[0%nat; 0%nat]] ] /\
    0 < u /\
    ~ Forall (Forall (Forall (fun v => 0 <= v))) [[[u]; [- u]]].
Proof.
  split; [reflexivity|].
  destruct forward_neg_run as (u & Hu & Hu0). exists u.
  split; [exact Hu|]. split; [exact Hu0|].
  intros H. inversion H as [|? ? H1 _]; subst.
  inversion H1 as [|? ? _ H2]; subst.
  inversion H2 as [|? ? H3 _]; subst.
  inversion H3 as [|? ? H4 _]; subst. lra.
Qed.

(** C1. Without ground truths ([max_boxes = 0]) [forward] returns at once
    a tuple of five tensors: the background index for every anchor, zero
    boxes, zero scores, and two tensors of zeros of the shape of the
    anchors (it is refused only when the class axis is empty).  With at
    least one ground truth it returns four tensors.  The statement of
    [ComputeLoss.__call__] that takes the result apart expects four and
    refuses the tuple of the fast path. *)
Theorem forward_zero_ground_truths
    (top_k num_classes : nat) (alpha beta : R) (anc_points : list (R * R))
    (batch : list image) :
  let background :=
    [ VReal2 (map (fun i => map (fun _ => INR num_classes) (pd_scores i)) batch);
      VReal3 (map (fun i => map (fun _ => [0; 0; 0; 0]) (pd_bboxes i)) batch);
      VReal3 (map (fun i => map (map (fun _ => 0)) (pd_scores i)) batch);
      VReal2 (map (fun i => map (fun _ => 0) (pd_scores i)) batch);
      VReal2 (map (fun i => map (fun _ => 0) (pd_scores i)) batch) ] in
  forward top_k num_classes alpha beta anc_points 0 batch
  = (if no_class batch then None else Some background) /\
  length background = 5%nat /\
  unpack_assigned_targets background = None /\
  (forall max_boxes batch' t,
      forward top_k num_classes alpha beta anc_points (S max_boxes) batch' = Some t ->
      length t = 4%nat /\ exists x, unpack_assigned_targets t = Some x) /\
  forward 1 1 1 6 ex_anchors 0 [empty_image]
  = Some [VReal2 [[1]]; VReal3 [[[0; 0; 0; 0]]]; VReal3 [[[0]]];
          VReal2 [[0]]; VReal2 [[0]]] /\
  forward 1 1 1 6 ex_anchors 2 [ex_image] = Some ex_forward /\
  length ex_forward = 4%nat.
Proof.
  cbv zeta. split; [reflexivity|]. split; [reflexivity|]. split; [reflexivity|].
  split; [|split; [|split; [exact ex_forward_run | reflexivity]]].
  - intros max_boxes batch' t Hf.
    destruct (forward_inv _ _ _ _ _ _ _ _ (le_n_S _ _ (Nat.le_0_l max_boxes)) Hf)
      as (r & _ & ->).
    split; [reflexivity|]. eexists. reflexivity.
  - unfold forward, no_class. cbn [Nat.eqb existsb empty_image pd_scores pd_bboxes
                                   length orb map].
    reflexivity.
Qed.

(** * Further properties of the code *)

(** ** [non_max_suppression]: where the rows kept come from *)

Lemma argsort_sorted (keys : list R) :
  StronglySorted (fun i j => nth i keys 0 <= nth j keys 0) (argsort keys).
Proof.
  unfold argsort.
  set (le := fun p q : nat * R => Rleb (snd p) (snd q)).
  set (pairs := combine (seq 0 (length keys)) keys).
  assert (Hs : StronglySorted (fun p q => le p q = true) (sort_by le pairs)).
  { apply sort_by_sorted.
    - intros a b. apply Rleb_total.
    - intros a b c. apply Rleb_trans. }
  assert (Hp : Forall (fun p => snd p = nth (fst p) keys 0) (sort_by le pairs)).
  { apply (Permutation_Forall (Permutation_sym (sort_by_perm le pairs))).
    apply Forall_forall. intros [i v] Hin. unfold pairs in Hin.
    apply In_nth_error in Hin. destruct Hin as [k Hk].
    pose proof Hk as Hk'. apply nth_error_combine in Hk'. destruct Hk' as [H1 H2].
    assert (Hlt : (k < length keys)%nat) by (apply nth_error_Some; rewrite H2; discriminate).
    rewrite nth_error_nth' with (d := 0%nat) in H1 by (rewrite length_seq; exact Hlt).
    rewrite seq_nth in H1 by exact Hlt. injection H1 as <-. simpl.
    symmetry. apply (nth_error_nth _ _ 0 H2). }
  induction Hs as [|p l Hl IH Hpl]; simpl; [constructor|].
  inversion Hp as [|? ? Hp0 Hp1]; subst.
  constructor; [apply IH; exact Hp1|].
  apply Forall_map. rewrite Forall_forall in *. intros q Hq.
  specialize (Hpl q Hq). unfold le in Hpl. apply Rleb_spec in Hpl.
  rewrite <- Hp0, <- (Hp1 q Hq). exact Hpl.
Qed.

Lemma StronglySorted_remove {A : Type} (R : A -> A -> Prop) (l1 l2 : list A) (a : A) :
  StronglySorted R (l1 ++ a :: l2) -> StronglySorted R (l1 ++ l2).
Proof.
  induction l1 as [|x l1 IH]; simpl; intros H.
  - inversion H; assumption.
  - inversion H as [|? ? Hs Hf]; subst. constructor; [apply IH; exact Hs|].
    rewrite Forall_app in *. destruct Hf as [F1 F2]. split; [exact F1|].
    inversion F2; assumption.
Qed.

Lemma StronglySorted_firstn {A : Type} (R : A -> A -> Prop) (k : nat) (l : list A) :
  StronglySorted R l -> StronglySorted R (firstn k l).
Proof.
  intros H. revert k. induction H as [|a l Hl IH Ha]; intros [|k]; simpl;
    try constructor.
  - apply IH.
  - apply Forall_firstn. exact Ha.
Qed.

Lemma StronglySorted_map {A B : Type} (R : B -> B -> Prop) (f : A -> B) (l : list A) :
  StronglySorted (fun a b => R (f a) (f b)) l -> StronglySorted R (map f l).
Proof.
  induction 1 as [|a l Hl IH Ha]; simpl; constructor; [exact IH|].
  apply Forall_map. exact Ha.
Qed.

(** The greedy pass keeps a subsequence of the order it visits. *)
Lemma nms_step_sorted (rel : nat -> nat -> Prop) (boxes : list box) (thr : R)
    (order kept : list nat) :
  StronglySorted rel (kept ++ order) ->
  StronglySorted rel (fold_left (nms_step boxes thr) order kept).
Proof.
  revert kept. induction order as [|i order IH]; simpl; intros kept H.
  - rewrite app_nil_r in H. exact H.
  - apply IH. unfold nms_step. destruct (existsb _ kept).
    + apply (StronglySorted_remove _ _ _ _ H).
    + rewrite <- app_assoc. exact H.
Qed.

Lemma max_with_index_spec (l : list R) (c : R) (j : nat) :
  max_with_index l = Some (c, j) -> (j < length l)%nat /\ c = nth j l 0.
Proof.
  destruct l as [|x l]; [discriminate|]. simpl. intros H. injection H as H.
  pose proof (max_with_index_from_spec l x 0 1 (x :: l)) as S.
  rewrite H in S. cbn [fst snd] in S.
  destruct S as (S1 & S2 & _); try reflexivity; try lia.
  - intros k Hk. replace k with 0%nat by lia. simpl. lra.
  - split; [exact S1 | symmetry; exact S2].
Qed.

Lemma nth_map_opp (l : list R) (i : nat) : nth i (map Ropp l) 0 = - nth i l 0.
Proof.
  transitivity (nth i (map Ropp l) (- 0)); [f_equal; ring | apply map_nth].
Qed.

Section NmsRows.

Variables (ch n : nat) (conf_threshold iou_threshold : R) (nc_arg : nat).

Local Abbreviation nc := (nms_nc ch nc_arg).

(** The rows built for one candidate: its box, one of its class scores
    above the threshold with the index of the class, and its mask. *)
Lemma detection_rows_from (box cls mask : row) (rows : list row) :
  detection_rows ch conf_threshold nc_arg box cls mask = Some rows ->
  Forall (fun r => exists j, (j < length cls)%nat /\
                             conf_threshold < nth j cls 0 /\
                             r = box ++ [nth j cls 0; INR j] ++ mask) rows.
Proof.
  unfold detection_rows. destruct (1 <? nc)%nat.
  - intros H. injection H as <-. apply Forall_concat.
    apply Forall_forall. intros l Hl. apply in_map_iff in Hl.
    destruct Hl as (j & <- & Hj). apply in_seq in Hj.
    destruct (Rltb conf_threshold (nth j cls 0)) eqn:E; constructor; [|constructor].
    exists j. split; [lia|]. split; [apply Rltb_spec; exact E | reflexivity].
  - destruct (max_with_index cls) as [[c j]|] eqn:Em; cbn [bind]; [|discriminate].
    intros H. injection H as <-.
    destruct (max_with_index_spec _ _ _ Em) as [Hj ->].
    destruct (Rltb conf_threshold (nth j cls 0)) eqn:E; constructor; [|constructor].
    exists j. split; [exact Hj|]. split; [apply Rltb_spec; exact E | reflexivity].
Qed.

(** The rows assigned for one image come from its candidates and are in
    decreasing order of confidence. *)
Lemma nms_image_rows (img : list (list R)) (xc : list bool) (t : table) :
  nms_image ch n conf_threshold iou_threshold nc_arg img xc = Some (Some t) ->
  Forall (fun r =>
            exists c b j,
              In c (select (transpose n img) xc) /\
              wh2xy_row (firstn 4 c) = Some b /\
              (j < nc)%nat /\
              conf_threshold < nth (4 + j) c 0 /\
              r = b ++ [nth (4 + j) c 0; INR j] ++ skipn (4 + nc) c)
         (t_rows t) /\
  StronglySorted (fun r1 r2 => nth 4 r2 0 <= nth 4 r1 0) (t_rows t).
Proof.
  unfold nms_image. cbv zeta.
  set (x := select (transpose n img) xc).
  destruct (length x =? 0)%nat eqn:Ex; [discriminate|].
  destruct (mapM (split_row ch nc_arg) x) as [parts|] eqn:Ep; cbn [bind]; [|discriminate].
  match goal with |- context [mapM ?F parts] => set (f := F) end.
  destruct (mapM f parts) as [xs|] eqn:Exs; cbn [bind]; [|discriminate].
  destruct (length (concat xs) =? 0)%nat eqn:Exl; [discriminate|].
  match goal with |- context [take (concat xs) ?I] => set (order := I) end.
  destruct (take (concat xs) order) as [x1|] eqn:E1; cbn [bind]; [|discriminate].
  match goal with |- context [nms ?B ?S iou_threshold] =>
    set (boxes := B); set (scores := S) end.
  set (keep := firstn max_det (nms boxes scores iou_threshold)).
  destruct (take x1 keep) as [x2|] eqn:E2; cbn [bind]; [|discriminate].
  intros H. injection H as <-. cbn [t_rows]. split.
  - pose proof (take_In _ _ _ E2) as H2. pose proof (take_In _ _ _ E1) as H1.
    rewrite Forall_forall in *. intros r Hr.
    specialize (H1 r (H2 r Hr)). apply in_concat in H1.
    destruct H1 as (rows & Hrows & Hin).
    pose proof (mapM_out _ _ _ Exs) as Ho. rewrite Forall_forall in Ho.
    destruct (Ho rows Hrows) as ([[bx cls] mask] & Hp & Hf). unfold f in Hf.
    pose proof (mapM_out _ _ _ Ep) as Hq. rewrite Forall_forall in Hq.
    destruct (Hq _ Hp) as (c & Hc & Hsplit).
    destruct (wh2xy_row bx) as [b|] eqn:Eb; cbn [bind] in Hf; [|discriminate].
    pose proof (detection_rows_from b cls mask rows Hf) as Hd.
    rewrite Forall_forall in Hd. destruct (Hd r Hin) as (j & Hj & Hconf & ->).
    destruct (split_row_spec ch nc_arg _ _ _ _ Hsplit) as (Lb & Lc & _ & _).
    assert (Hparts : bx = firstn 4 c /\ cls = firstn nc (skipn 4 c) /\
                     mask = skipn (4 + nc) c).
    { revert Hsplit. unfold split_row.
      set (p1 := firstn 4 c). set (p2 := firstn nc (skipn 4 c)).
      set (p3 := skipn (4 + nc) c).
      destruct (_ && _); [|discriminate]. intros H. injection H as <- <- <-.
      repeat split. }
    destruct Hparts as (-> & -> & ->).
    assert (Ecls : nth j (firstn nc (skipn 4 c)) 0 = nth (4 + j) c 0).
    { rewrite Lc in Hj. rewrite nth_firstn.
      destruct (Nat.ltb_spec j nc) as [_|]; [|lia]. apply nth_skipn. }
    rewrite Ecls in *. rewrite Lc in Hj.
    exists c, b, j. repeat split; assumption.
  - assert (Hkeep : Forall (fun i => (i < length x1)%nat) keep).
    { unfold keep. apply Forall_firstn.
      pose proof (nms_in_range boxes scores iou_threshold) as Hr.
      assert (Hs : length scores = length x1) by apply length_map.
      rewrite Hs in Hr. exact Hr. }
    rewrite (take_in_range x1 [] keep Hkeep) in E2. injection E2 as <-.
    apply StronglySorted_map. unfold keep. apply StronglySorted_firstn.
    unfold nms. apply nms_step_sorted. simpl.
    eapply StronglySorted_weaken; [|apply argsort_sorted].
    intros i j Hij. cbv beta in Hij.
    rewrite !nth_map_opp in Hij. unfold scores in Hij.
    assert (Ei : forall k, nth k (map (fun r : row => nth 4 r 0) x1) 0
                           = nth 4 (nth k x1 []) 0)
      by (intros k; apply (map_nth (fun r : row => nth 4 r 0) x1 [] k)).
    rewrite !Ei in Hij. lra.
Qed.

End NmsRows.

(** X1. [non_max_suppression] invents no detection: every row it returns
    for an image is built from a candidate anchor of that image, with the
    anchor's box turned from centre form into corner form, one of the
    anchor's class scores that exceeds the confidence threshold, the index
    of that class, and the anchor's mask coefficients unchanged. *)
Theorem non_max_suppression_rows_from_candidates
    (ch n : nat) (conf_threshold iou_threshold : R) (nc_arg : nat)
    (t0 : R) (clock : nat -> R) (outputs : list (list (list R))) (out : list table) :
  non_max_suppression ch n conf_threshold iou_threshold nc_arg t0 clock outputs
  = Some out ->
  forall k img xc e,
    nth_error outputs k = Some img ->
    candidate_mask ch n conf_threshold nc_arg img = Some xc ->
    nth_error out k = Some e ->
    Forall (fun r =>
              exists c b j,
                In c (select (transpose n img) xc) /\
                wh2xy_row (firstn 4 c) = Some b /\
                (j < nms_nc ch nc_arg)%nat /\
                conf_threshold < nth (4 + j) c 0 /\
                r = b ++ [nth (4 + j) c 0; INR j] ++ skipn (4 + nms_nc ch nc_arg) c /\
                nth 4 r 0 = nth (4 + j) c 0 /\
                nth 5 r 0 = INR j)
           (t_rows e).
Proof.
  unfold non_max_suppression. cbv zeta.
  destruct (ch <=? 4)%nat; [discriminate|].
  destruct (mapM (candidate_mask ch n conf_threshold nc_arg) outputs) as [xcs|] eqn:Exc;
    cbn [bind]; [|discriminate].
  destruct (6 + nms_nm ch nc_arg <? 0)%Z; [discriminate|].
  intros Hrun k img xc e Hk Hxc He.
  destruct (mapM_nth_error _ _ _ Exc k img Hk) as (xc' & Hxc' & Hm).
  rewrite Hxc in Hm. injection Hm as <-.
  destruct (nms_loop_entry_at _ _ _ _ _ _ _ _ _ _ _ _ _ _ _ _ _ Hrun Hk Hxc' He)
    as [->|Himg].
  - constructor.
  - destruct (nms_image_rows ch n conf_threshold iou_threshold nc_arg img xc e Himg)
      as [Hrows _].
    eapply Forall_impl; [|exact Hrows].
    intros r (c & b & j & Hc & Hb & Hj & Hconf & ->).
    exists c, b, j. repeat (split; [assumption|]). split; [reflexivity|].
    pose proof (wh2xy_row_length _ _ Hb) as Lb.
    assert (L4 : length b = 4%nat).
    { destruct (firstn 4 c) as [|x0 [|x1 [|x2 [|x3 rest]]]] eqn:E; try discriminate.
      assert (Hl : (length (firstn 4 c) <= 4)%nat) by apply firstn_le_length.
      rewrite E in Hl. rewrite Lb. destruct rest; simpl in *; lia. }
    destruct b as [|b0 [|b1 [|b2 [|b3 [|b4 b]]]]]; try discriminate.
    split; reflexivity.
Qed.

Lemma non_max_suppression_rows_from_candidates_witness :
  Forall (fun r =>
            exists c b j,
              In c (select (transpose 1 nms_example_img) [true]) /\
              wh2xy_row (firstn 4 c) = Some b /\
              (j < nms_nc 6 2)%nat /\
              1 / 2 < nth (4 + j) c 0 /\
              r = b ++ [nth (4 + j) c 0; INR j] ++ skipn (4 + nms_nc 6 2) c /\
              nth 4 r 0 = nth (4 + j) c 0 /\
              nth 5 r 0 = INR j)
         (t_rows nms_example_table).
Proof.
  apply (non_max_suppression_rows_from_candidates 6 1 (1 / 2) (1 / 2) 2 0 (fun _ => 0)
           nms_example [nms_example_table] nms_example_run 0%nat
           nms_example_img [true] nms_example_table).
  - reflexivity.
  - apply nms_example_mask.
  - reflexivity.
Defined.

(** X2. The rows [non_max_suppression] returns for an image are in
    decreasing order of confidence (column 4). *)
Theorem non_max_suppression_rows_by_confidence
    (ch n : nat) (conf_threshold iou_threshold : R) (nc_arg : nat)
    (t0 : R) (clock : nat -> R) (outputs : list (list (list R))) (out : list table) :
  non_max_suppression ch n conf_threshold iou_threshold nc_arg t0 clock outputs
  = Some out ->
  forall k img xc e,
    nth_error outputs k = Some img ->
    candidate_mask ch n conf_threshold nc_arg img = Some xc ->
    nth_error out k = Some e ->
    StronglySorted (fun r1 r2 => nth 4 r2 0 <= nth 4 r1 0) (t_rows e).
Proof.
  unfold non_max_suppression. cbv zeta.
  destruct (ch <=? 4)%nat; [discriminate|].
  destruct (mapM (candidate_mask ch n conf_threshold nc_arg) outputs) as [xcs|] eqn:Exc;
    cbn [bind]; [|discriminate].
  destruct (6 + nms_nm ch nc_arg <? 0)%Z; [discriminate|].
  intros Hrun k img xc e Hk Hxc He.
  destruct (mapM_nth_error _ _ _ Exc k img Hk) as (xc' & Hxc' & Hm).
  rewrite Hxc in Hm. injection Hm as <-.
  destruct (nms_loop_entry_at _ _ _ _ _ _ _ _ _ _ _ _ _ _ _ _ _ Hrun Hk Hxc' He)
    as [->|Himg].
  - constructor.
  - apply (nms_image_rows ch n conf_threshold iou_threshold nc_arg img xc e Himg).
Qed.

Lemma non_max_suppression_rows_by_confidence_witness :
  StronglySorted (fun r1 r2 => nth 4 r2 0 <= nth 4 r1 0) (t_rows nms_example_table).
Proof.
  apply (non_max_suppression_rows_by_confidence 6 1 (1 / 2) (1 / 2) 2 0 (fun _ => 0)
           nms_example [nms_example_table] nms_example_run 0%nat
           nms_example_img [true] nms_example_table).
  - reflexivity.
  - apply nms_example_mask.
  - reflexivity.
Defined.

(** ** [Assigner.forward]: the ground truth of every anchor *)

Lemma Rsum_ge_entry (l : list R) (v : R) :
  Forall (fun u => 0 <= u) l -> In v l -> v <= Rsum l.
Proof.
  induction 1 as [|u l Hu Hl IH]; simpl; [tauto|].
  assert (0 <= Rsum l).
  { clear -Hl. induction Hl as [|w l Hw Hl IH]; simpl; lra. }
  intros [->|Hin]; [lra|]. specialize (IH Hin). lra.
Qed.

Lemma Rsum_zero_entries (l : list R) :
  Forall (fun u => 0 <= u) l -> Rsum l = 0 -> Forall (fun u => u = 0) l.
Proof.
  intros Hl Hs. apply Forall_forall. intros v Hv.
  pose proof (Rsum_ge_entry l v Hl Hv) as H1.
  rewrite Forall_forall in Hl. specialize (Hl v Hv). lra.
Qed.

Lemma argmax_zeros (l : list R) :
  Forall (fun u => u = 0) l -> argmax l = 0%nat.
Proof.
  intros Hl. destruct l as [|x l]; [reflexivity|].
  destruct (argmax (x :: l)) as [|k] eqn:E; [reflexivity|]. exfalso.
  pose proof (argmax_first (x :: l) 0) as F. rewrite E in F.
  specialize (F (Nat.lt_0_succ k)).
  destruct (argmax_spec (x :: l)) as [Hk _]; [simpl; lia|]. rewrite E in Hk.
  rewrite Forall_forall in Hl.
  rewrite (Hl (nth 0 (x :: l) 0)) in F by (apply nth_In; simpl; lia).
  rewrite (Hl (nth (S k) (x :: l) 0)) in F by (apply nth_In; exact Hk).
  lra.
Qed.

Section AssignerBoxes.

Variables (top_k num_classes : nat) (alpha beta : R).
Variable anc_points : list (R * R).
Variable max_boxes : nat.

Local Abbreviation na := (n_anchors anc_points).

(** The target boxes are the ground-truth boxes at the target indices. *)
Lemma targets_boxes (img : image) (am mp : list (list R)) (x : assignment) :
  targets num_classes anc_points max_boxes img am mp = Some x ->
  mapM (fun g => nth_error (gt_bboxes img) g) (a_target_gt_idx x)
  = Some (a_target_bboxes x).
Proof.
  unfold targets. cbv zeta.
  destruct (mapM (fun g => nth_error (gt_labels img) g) _) as [labels|];
    cbn [bind]; [|discriminate].
  destruct (mapM (fun g => nth_error (gt_bboxes img) g) _) as [boxes|] eqn:Eb;
    cbn [bind]; [|discriminate].
  destruct (mapM (one_hot num_classes) labels) as [hot|]; cbn [bind]; [|discriminate].
  destruct (mapM amax _) as [pa|]; cbn [bind]; [|discriminate].
  destruct (existsb _ pa); [discriminate|].
  destruct (mapM amax _) as [po|]; cbn [bind]; [|discriminate].
  match goal with |- context [mapM ?F (seq 0 na)] =>
    destruct (mapM F (seq 0 na)) as [scale|] end; cbn [bind]; [|discriminate].
  intros H. injection H as <-. cbn [a_target_gt_idx a_target_bboxes]. exact Eb.
Qed.

Lemma assign_mask_length (batch : list image) (r : list assignment)
    (i : nat) (x : assignment) :
  assign top_k num_classes alpha beta anc_points max_boxes batch = Some r ->
  nth_error r i = Some x ->
  length (a_mask_pos x) = max_boxes.
Proof.
  intros Hr Hx.
  destruct (assign_inv _ _ _ _ _ _ _ _ _ _ Hr Hx)
    as (img & cs & am & idx & mp & _ & _ & _ & _ & _ & Ht & Hmp).
  destruct (targets_inv _ _ _ _ _ _ _ Ht) as (-> & _).
  destruct Hmp as [[-> _] | ->]; apply tabulate2_length.
Qed.

(** What [forward] assigns to each anchor. *)
Lemma assign_anchor (batch : list image) (r : list assignment)
    (i : nat) (x : assignment) (img : image) (a : nat) :
  (1 <= max_boxes)%nat ->
  assign top_k num_classes alpha beta anc_points max_boxes batch = Some r ->
  nth_error r i = Some x ->
  nth_error batch i = Some img ->
  (a < na)%nat ->
  let g := nth a (a_target_gt_idx x) 0%nat in
  (g < max_boxes)%nat /\
  nth_error (a_target_gt_idx x) a = Some g /\
  nth_error (a_target_bboxes x) a = Some (gt_box img g) /\
  (nth a (a_fg_mask x) false = true -> at2 (a_mask_pos x) g a = 1) /\
  (nth a (a_fg_mask x) false = false ->
   g = 0%nat /\ forall g', (g' < max_boxes)%nat -> at2 (a_mask_pos x) g' a = 0).
Proof.
  intros Hmb Hr Hx Himg Ha g.
  pose proof (assign_mask_length _ _ _ _ Hr Hx) as Hlen.
  destruct (assign_positive_mask _ _ _ _ _ _ _ _ _ _ Hmb Hr Hx)
    as (img' & cs & am & idx & Himg' & _ & _ & _ & H01 & _).
  rewrite Himg in Himg'. injection Himg' as <-.
  destruct (H01 a Ha) as [Hsum Hent].
  destruct (assign_inv _ _ _ _ _ _ _ _ _ _ Hr Hx)
    as (img' & cs' & am' & idx' & mp & Himg' & _ & _ & _ & _ & Ht & _).
  rewrite Himg in Himg'. injection Himg' as <-.
  pose proof (targets_boxes _ _ _ _ Ht) as Hb.
  destruct (targets_inv _ _ _ _ _ _ _ Ht) as (Emp & Eidx & Efg & _).
  set (col := column (a_mask_pos x) a) in *.
  assert (Lcol : length col = max_boxes) by (unfold col; rewrite column_length; exact Hlen).
  assert (Eg : g = argmax col).
  { unfold g, col. rewrite Eidx, Emp.
    apply (nth_map_seq (fun a => argmax (column mp a)) na a 0%nat Ha). }
  assert (Hnn : Forall (fun u => 0 <= u) col).
  { apply Forall_forall. intros u Hu. apply In_nth with (d := 0) in Hu.
    destruct Hu as (k & Hk & <-). rewrite Lcol in Hk. unfold col. rewrite column_nth.
    destruct (Hent k Hk) as [E|E]; rewrite E; lra. }
  destruct (argmax_spec col) as [Hg Hmax]; [lia|]. rewrite <- Eg, Lcol in Hg.
  assert (Ei : nth_error (a_target_gt_idx x) a = Some g).
  { apply nth_error_nth'. rewrite Eidx, length_map, length_seq. exact Ha. }
  assert (Efa : nth a (a_fg_mask x) false = negb (Reqb (Rsum col) 0)).
  { rewrite Efg, <- Emp.
    rewrite (nth_indep _ false (negb (Reqb 0 0)))
      by (rewrite length_map, fg_mask_of_length; exact Ha).
    rewrite (map_nth (fun f => negb (Reqb f 0))).
    rewrite (fg_mask_of_nth anc_points _ a Ha). reflexivity. }
  split; [exact Hg|]. split; [exact Ei|]. split; [|split].
  - destruct (mapM_nth_error _ _ _ Hb a g Ei) as (b & Hb1 & Hb2).
    rewrite Hb1. f_equal. unfold gt_box. symmetry. apply (nth_error_nth _ _ _ Hb2).
  - rewrite Efa. intros Hfg. apply negb_true_iff in Hfg.
    assert (Hne : Rsum col <> 0).
    { intros E. rewrite (Reqb_true _ _ E) in Hfg. discriminate. }
    destruct (Hent g Hg) as [E0|E1]; [|exact E1]. exfalso.
    apply Hne. apply Rsum_zeros. apply Forall_forall. intros u Hu.
    apply In_nth with (d := 0) in Hu. destruct Hu as (k & Hk & <-).
    rewrite Lcol in Hk. specialize (Hmax k ltac:(rewrite Lcol; exact Hk)).
    rewrite <- Eg in Hmax. unfold col in Hmax. rewrite !column_nth in Hmax.
    rewrite E0 in Hmax. unfold col. rewrite column_nth.
    destruct (Hent k Hk) as [E|E]; [exact E | rewrite E in Hmax; lra].
  - rewrite Efa. intros Hfg. apply negb_false_iff in Hfg. apply Reqb_spec in Hfg.
    pose proof (Rsum_zero_entries col Hnn Hfg) as Hz. split.
    + rewrite Eg. apply argmax_zeros. exact Hz.
    + intros g' Hg'. rewrite <- column_nth. fold col.
      rewrite Forall_forall in Hz. apply Hz. apply nth_In. rewrite Lcol. exact Hg'.
Qed.

End AssignerBoxes.

(** X3. With at least one ground truth, the tensors [forward] returns hold
    for every anchor an index of a ground truth of its image
    ([target_gt_idx], below [max_boxes]) and the box of that ground truth
    ([target_bboxes]).  An anchor outside the foreground gets index 0 and
    the box of ground truth 0, not a box of zeros. *)
Theorem forward_target_of_every_anchor
    (top_k num_classes : nat) (alpha beta : R) (anc_points : list (R * R))
    (max_boxes : nat) (batch : list image) (t : list value) :
  (1 <= max_boxes)%nat ->
  forward top_k num_classes alpha beta anc_points max_boxes batch = Some t ->
  exists target_bboxes target_scores fg_mask target_gt_idx,
    t = [VReal3 target_bboxes; VReal3 target_scores; VBool2 fg_mask;
         VLong2 target_gt_idx] /\
    length target_bboxes = length batch /\
    length target_gt_idx = length batch /\
    forall i img boxes fg idx a,
      nth_error batch i = Some img ->
      nth_error target_bboxes i = Some boxes ->
      nth_error fg_mask i = Some fg ->
      nth_error target_gt_idx i = Some idx ->
      (a < n_anchors anc_points)%nat ->
      exists g,
        nth_error idx a = Some g /\
        (g < max_boxes)%nat /\
        nth_error boxes a = Some (box_row (gt_box img g)) /\
        (nth a fg false = false -> g = 0%nat).
Proof.
  intros Hmb Hf.
  destruct (forward_inv _ _ _ _ _ _ _ _ Hmb Hf) as (r & Hr & ->).
  eexists _, _, _, _. split; [reflexivity|].
  pose proof (assign_length _ _ _ _ _ _ _ _ Hr) as Hlen.
  rewrite !length_map. repeat (split; [exact Hlen|]).
  intros i img boxes fg idx a Himg Hb Hfg Hidx Ha.
  rewrite nth_error_map in Hb, Hfg, Hidx.
  destruct (nth_error r i) as [x|] eqn:Hx; [|discriminate].
  cbn [option_map] in Hb, Hfg, Hidx.
  injection Hb as <-. injection Hfg as <-. injection Hidx as <-.
  destruct (assign_anchor _ _ _ _ _ _ _ _ _ _ _ _ Hmb Hr Hx Himg Ha)
    as (Hg & Ei & Ebox & _ & Hbg).
  exists (nth a (a_target_gt_idx x) 0%nat).
  split; [exact Ei|]. split; [exact Hg|]. split.
  - rewrite nth_error_map, Ebox. reflexivity.
  - intros Hfalse. apply (Hbg Hfalse).
Qed.

Lemma forward_target_of_every_anchor_witness :
  exists target_bboxes target_scores fg_mask target_gt_idx,
    ex_forward = [VReal3 target_bboxes; VReal3 target_scores; VBool2 fg_mask;
                  VLong2 target_gt_idx] /\
    length target_bboxes = length [ex_image] /\
    length target_gt_idx = length [ex_image] /\
    forall i img boxes fg idx a,
      nth_error [ex_image] i = Some img ->
      nth_error target_bboxes i = Some boxes ->
      nth_error fg_mask i = Some fg ->
      nth_error target_gt_idx i = Some idx ->
      (a < n_anchors ex_anchors)%nat ->
      exists g,
        nth_error idx a = Some g /\
        (g < 2)%nat /\
        nth_error boxes a = Some (box_row (gt_box img g)) /\
        (nth a fg false = false -> g = 0%nat).
Proof.
  apply (forward_target_of_every_anchor 1 1 1 6 ex_anchors 2 [ex_image] ex_forward).
  - lia.
  - exact ex_forward_run.
Defined.

(** ** [Assigner.forward]: the size of the target scores *)

Lemma fold_left_Rmax_In (l : list R) (x : R) :
  fold_left Rmax l x = x \/ In (fold_left Rmax l x) l.
Proof.
  revert x. induction l as [|y l IH]; intros x; simpl; [left; reflexivity|].
  destruct (IH (Rmax x y)) as [E|Hin]; [|right; right; exact Hin].
  rewrite E. unfold Rmax. destruct (Rle_dec x y); [right; left; reflexivity | left; reflexivity].
Qed.

Lemma amax_In (l : list R) (m : R) : amax l = Some m -> In m l.
Proof.
  destruct l as [|x l]; [discriminate|]. simpl. intros H. injection H as <-.
  destruct (fold_left_Rmax_In l x) as [E|Hin]; [left; symmetry; exact E | right; exact Hin].
Qed.

(** For corner-form boxes the overlap value lies in [0, 1). *)
Lemma overlaps_below_one (anc_points : list (R * R)) (max_boxes : nat)
    (img : image) (g a : nat) :
  Forall corner_form (gt_bboxes img) -> Forall corner_form (pd_bboxes img) ->
  0 <= at2 (overlaps anc_points max_boxes img) g a < 1.
Proof.
  intros Hgt Hpd. split; [apply overlaps_nonneg|].
  destruct (Nat.lt_ge_cases g max_boxes) as [Hg|Hg];
    [destruct (Nat.lt_ge_cases a (n_anchors anc_points)) as [Ha|Ha]|].
  - unfold overlaps. rewrite at2_tabulate2 by assumption.
    destruct (true_mask anc_points img g a); [|lra].
    assert (C0 : corner_form (Box 0 0 0 0)) by (unfold corner_form; simpl; lra).
    assert (Cg : corner_form (gt_box img g)).
    { unfold gt_box. destruct (nth_in_or_default g (gt_bboxes img) (Box 0 0 0 0)) as [H| ->];
        [|exact C0]. rewrite Forall_forall in Hgt. apply Hgt. exact H. }
    assert (Cp : corner_form (pd_box img a)).
    { unfold pd_box. destruct (nth_in_or_default a (pd_bboxes img) (Box 0 0 0 0)) as [H| ->];
        [|exact C0]. rewrite Forall_forall in Hpd. apply Hpd. exact H. }
    pose proof (compute_iou_le_plain _ _ Cg Cp) as H1.
    pose proof (iou_plain_range _ _ Cg Cp) as H2.
    unfold clamp0, Rmax. destruct (Rle_dec 0 _); lra.
  - unfold at2. rewrite (nth_overflow (nth g _ [])); [lra|].
    unfold overlaps, tabulate2.
    rewrite (nth_map_seq (fun g => map _ (seq 0 (n_anchors anc_points))) max_boxes g [] Hg).
    rewrite length_map, length_seq. exact Ha.
  - unfold at2. rewrite (nth_overflow (overlaps _ _ _)).
    + destruct a; simpl; lra.
    + unfold overlaps. rewrite tabulate2_length. exact Hg.
Qed.

Section AssignerScoreBound.

Variables (top_k num_classes : nat) (alpha beta : R).
Variable anc_points : list (R * R).
Variable max_boxes : nat.

Local Abbreviation na := (n_anchors anc_points).

(** A row maximum of a table is one of the entries of its row and bounds
    them. *)
Lemma row_amax_spec (f : nat -> nat -> R) (ms : list R) (g : nat) :
  mapM amax (tabulate2 max_boxes na f) = Some ms ->
  (g < max_boxes)%nat ->
  (exists a, (a < na)%nat /\ nth g ms 0 = f g a) /\
  (forall a, (a < na)%nat -> f g a <= nth g ms 0).
Proof.
  intros Hms Hg.
  assert (Eg : nth_error (tabulate2 max_boxes na f) g
               = Some (map (fun a => f g a) (seq 0 na))).
  { unfold tabulate2. rewrite nth_error_map.
    rewrite nth_error_nth' with (d := 0%nat) by (rewrite length_seq; exact Hg).
    rewrite seq_nth by exact Hg. reflexivity. }
  destruct (mapM_nth_error _ _ _ Hms g _ Eg) as (m & Hm & Ham).
  rewrite (nth_error_nth _ _ 0 Hm). split.
  - apply amax_In in Ham. apply in_map_iff in Ham.
    destruct Ham as (a & <- & Ha). apply in_seq in Ha. exists a. split; [lia | reflexivity].
  - intros a Ha. apply (amax_upper _ _ _ Ham).
    apply in_map_iff. exists a. split; [reflexivity | apply in_seq; lia].
Qed.

(** With class scores that are not negative and boxes in corner form,
    every target score is below 1. *)
Lemma assign_target_scores_below_one (batch : list image) (r : list assignment)
    (i : nat) (x : assignment) (img : image) :
  (1 <= max_boxes)%nat ->
  assign top_k num_classes alpha beta anc_points max_boxes batch = Some r ->
  nth_error r i = Some x ->
  nth_error batch i = Some img ->
  Forall (Forall (fun s => 0 <= s)) (pd_scores img) ->
  Forall corner_form (gt_bboxes img) ->
  Forall corner_form (pd_bboxes img) ->
  Forall (Forall (fun v => v < 1)) (a_target_scores x).
Proof.
  intros Hmb Hr Hx Himg Hpd Hgt Hpb.
  destruct (assign_positive_mask _ _ _ _ _ _ _ _ _ _ Hmb Hr Hx)
    as (img0 & cs0 & am0 & idx0 & _ & _ & _ & _ & H01 & _).
  destruct (assign_inv _ _ _ _ _ _ _ _ _ _ Hr Hx)
    as (img' & cs & am & idx & mp & Himg' & _ & Hcs & Ham & _ & Ht & _).
  rewrite Himg in Himg'. injection Himg' as <-.
  destruct (targets_inv _ _ _ _ _ _ _ Ht)
    as (Emp & _ & Efg & hot & pa & po & scale & Hhot & _ & Hpa & Hpo & Hsc & Ets).
  rewrite Emp in H01.
  assert (Hmp : forall g a, (g < max_boxes)%nat -> (a < na)%nat ->
                            at2 mp g a = 0 \/ at2 mp g a = 1).
  { intros g a Hg Ha. destruct (H01 a Ha) as [_ H]. apply (H g Hg). }
  assert (Ham0 : forall g a, (g < max_boxes)%nat -> (a < na)%nat -> 0 <= at2 am g a)
    by (intros g a Hg Ha;
        apply (align_metric_nonneg alpha beta anc_points max_boxes img cs am g a
                 Hpd Hcs Ham Hg Ha)).
  assert (Hx0 : forall g a, (g < max_boxes)%nat -> (a < na)%nat ->
                            0 <= at2 am g a * at2 mp g a).
  { intros g a Hg Ha. specialize (Ham0 g a Hg Ha).
    destruct (Hmp g a Hg Ha) as [E|E]; rewrite E; lra. }
  assert (Hscale : Forall (fun s => 0 <= s < 1) scale).
  { eapply Forall_impl; [|apply (mapM_out _ _ _ Hsc)].
    intros s (a & Ha & Hs). apply in_seq in Ha.
    assert (Hent : Forall (fun v => 0 <= v < 1)
                     (column (tabulate2 max_boxes na
                                (fun g a =>
                                   at2 (tabulate2 max_boxes na
                                          (fun g a => at2 am g a * at2 mp g a)) g a
                                   * nth g po 0 / (nth g pa 0 + eps9))) a)).
    { rewrite column_tabulate2 by lia.
      apply Forall_forall. intros v Hv. apply in_map_iff in Hv.
      destruct Hv as (g & <- & Hg). apply in_seq in Hg.
      rewrite at2_tabulate2 by lia.
      destruct (row_amax_spec _ pa g Hpa ltac:(lia)) as [_ Hup].
      destruct (row_amax_spec _ po g Hpo ltac:(lia)) as [(a' & Ha' & Epo) _].
      specialize (Hup a ltac:(lia)). cbv beta in Hup, Epo.
      pose proof (Hx0 g a ltac:(lia) ltac:(lia)) as HX.
      pose proof (overlaps_below_one anc_points max_boxes img g a' Hgt Hpb) as Hov.
      assert (HP : 0 <= nth g po 0 < 1).
      { rewrite Epo. destruct (Hmp g a' ltac:(lia) Ha') as [E|E]; rewrite E; lra. }
      set (X := at2 am g a * at2 mp g a) in *.
      set (P := nth g po 0) in *. set (A := nth g pa 0) in *.
      assert (HD : 0 < A + eps9) by (unfold eps9; lra).
      assert (HQ : 0 <= X / (A + eps9) < 1).
      { split.
        - apply Rmult_le_pos; [lra | left; apply Rinv_0_lt_compat; exact HD].
        - apply Rmult_lt_reg_r with (A + eps9); [exact HD|].
          unfold Rdiv. rewrite Rmult_assoc, Rinv_l by lra. unfold eps9 in *. lra. }
      replace (X * P / (A + eps9)) with (P * (X / (A + eps9))) by (field; lra).
      split; [apply Rmult_le_pos; lra|]. nra. }
    pose proof (amax_In _ _ Hs) as Hin.
    rewrite Forall_forall in Hent. apply Hent. exact Hin. }
  rewrite Ets. apply Forall_zipWith. intros row s Hrow Hs.
  rewrite Forall_forall in Hscale. specialize (Hscale s Hs).
  apply Forall_forall. intros v Hv. apply in_map_iff in Hv.
  destruct Hv as (w & <- & Hw).
  assert (Hw01 : w = 0 \/ w = 1).
  { clear -Hrow Hw Hhot. revert Hrow.
    generalize (fg_mask_of anc_points mp) as fg. intros fg. revert hot Hhot.
    induction fg as [|f fg IH]; intros [|h hot] Hhot; simpl; try tauto.
    inversion Hhot as [|? ? Hh Hrest]; subst.
    intros [<-|Hin]; [|apply (IH hot Hrest Hin)].
    apply in_map_iff in Hw. destruct Hw as (v & <- & Hv).
    destruct (Rltb 0 f); [|left; reflexivity].
    rewrite Forall_forall in Hh. apply (Hh v Hv). }
  destruct Hw01 as [-> | ->]; lra.
Qed.

End AssignerScoreBound.

Lemma pos_in_gts : in_gts pos_anchors pos_image 0 0 = true.
Proof.
  unfold in_gts, gt_box, pos_anchors, pos_image, neg_box, eps9.
  cbn [nth gt_bboxes fst snd bx1 by1 bx2 by2]. eval_cmp. auto.
Qed.

Lemma pos_overlaps : overlaps pos_anchors 1 pos_image = [[16 / (16 + 9 * eps7)]].
Proof.
  pose proof pos_in_gts as I0. destruct neg_iou as [E [Q0 Q1]].
  unfold overlaps, tabulate2, true_mask, valid_gt, gt_box, pd_box, n_anchors.
  cbn [pos_anchors length seq map]. rewrite I0.
  cbn [pos_image mask_gt gt_bboxes pd_bboxes nth andb].
  rewrite E. unfold clamp0. rewrite Rmax_right by lra. reflexivity.
Qed.

Lemma pos_align_metric :
  align_metric 1 6 pos_anchors 1 pos_image [[1 / 2]]
  = Some [[1 / 2 * Rpower (16 / (16 + 9 * eps7)) 6]].
Proof.
  pose proof pos_in_gts as I0. destruct neg_iou as [_ [Q0 Q1]].
  assert (F : torch_pow (1 / 2) 1 = Some (1 / 2)).
  { unfold torch_pow. rewrite Rltb_true by lra. rewrite Rpower_1 by lra. reflexivity. }
  assert (P : torch_pow (16 / (16 + 9 * eps7)) 6 = Some (Rpower (16 / (16 + 9 * eps7)) 6)).
  { unfold torch_pow. rewrite Rltb_true by lra. reflexivity. }
  unfold align_metric. rewrite pos_overlaps.
  unfold bbox_scores, tabulate2, true_mask, valid_gt, n_anchors.
  cbn [pos_anchors length seq map mapM]. rewrite I0.
  unfold at2. cbn [pos_image mask_gt nth andb]. rewrite F, P.
  reflexivity.
Qed.

Lemma pos_mask_pos : mask_pos pos_anchors 1 pos_image [[0%nat]] = [[1]].
Proof.
  pose proof pos_in_gts as I0.
  unfold mask_pos, tabulate2, n_anchors. cbn [pos_anchors length seq map].
  rewrite I0. unfold mask_top_k, tabulate2, n_anchors, at2.
  cbn [pos_anchors length seq map nth]. unfold valid_gt.
  cbn. rewrite !Rmult_1_r. reflexivity.
Qed.

Lemma pos_fg_mask : fg_mask_of pos_anchors [[1]] = [1].
Proof.
  unfold fg_mask_of, n_anchors, column, Rsum. cbn [pos_anchors length seq map nth fold_right].
  f_equal. ring.
Qed.

Lemma pos_targets (p q : R) :
  0 < p -> 0 < q ->
  overlaps pos_anchors 1 pos_image = [[q]] ->
  exists u,
    targets 1 pos_anchors 1 pos_image [[1 / 2 * p]] [[1]]
    = Some (Assignment [[1]] [neg_box] [[u]] [true] [0%nat]) /\ 0 < u.
Proof.
  intros Hp Hq Eov. unfold targets. rewrite Eov, pos_fg_mask.
  assert (E0 : argmax (column [[1]] 0) = 0%nat) by reflexivity.
  unfold n_anchors. cbn [pos_anchors length seq map]. rewrite E0.
  unfold tabulate2, at2, column.
  cbn [mapM bind nth_error gt_labels gt_bboxes pos_image one_hot Nat.ltb Nat.leb
       seq map Nat.eqb amax fold_left nth zipWith existsb].
  rewrite (Reqb_false (1 / 2 * p * 1 + eps9) 0) by (unfold eps9; lra).
  rewrite (Rltb_true 0 1) by lra. rewrite (Reqb_false 1 0) by lra.
  cbn [orb negb].
  assert (Hd : 0 < 1 / 2 * p * 1 + eps9) by (unfold eps9; lra).
  exists (1 * (1 / 2 * p * 1 * (q * 1) / (1 / 2 * p * 1 + eps9))). split.
  - reflexivity.
  - rewrite Rmult_1_l. apply Rdiv_lt_0_compat; [|exact Hd]. nra.
Qed.

Lemma pos_assign :
  exists u,
    assign 1 1 1 6 pos_anchors 1 [pos_image]
    = Some [Assignment [[1]] [neg_box] [[u]] [true] [0%nat]] /\ 0 < u.
Proof.
  destruct neg_iou as [_ [Q0 Q1]].
  set (q := 16 / (16 + 9 * eps7)) in *.
  assert (Hp : 0 < Rpower q 6) by (unfold Rpower; apply exp_pos).
  destruct (pos_targets (Rpower q 6) q Hp Q0 pos_overlaps) as (u & Hu & Hu0).
  exists u. split; [|exact Hu0].
  unfold assign.
  change (forallb (well_shaped pos_anchors 1) [pos_image]) with true.
  cbn [negb mapM bind combine fst snd].
  change (class_scores pos_image) with (Some [[1 / 2]]).
  cbn [bind combine mapM fst snd]. rewrite pos_align_metric. fold q.
  cbn [bind combine mapM fst snd].
  change (top_k_indices 1 1 pos_image [[1 / 2 * Rpower q 6]]) with (Some [[0%nat]]).
  cbn [bind zipWith map]. rewrite pos_mask_pos, pos_fg_mask.
  cbn [concat app amax fold_left bind].
  rewrite Rltb_false by lra.
  cbn [combine mapM fst snd]. rewrite Hu. reflexivity.
Qed.

(** A run with a score that is not zero: the single anchor gets a
    positive target score. *)
Lemma forward_pos_run :
  exists u,
    forward 1 1 1 6 pos_anchors 1 [pos_image]
    = Some [ VReal3 [[box_row neg_box]]; VReal3 [[[u]]]; VBool2 [[true]];
             VLong2 [[0%nat]] ] /\ 0 < u.
Proof.
  destruct pos_assign as (u & Hu & Hu0). exists u. split; [|exact Hu0].
  unfold forward. cbn [Nat.eqb]. rewrite Hu. reflexivity.
Qed.

(** X4. With at least one ground truth, predicted class scores that are
    not negative and ground-truth and predicted boxes in corner form,
    every target score [forward] returns lies between 0 and 1: the
    one-hot row is scaled by a normalised alignment metric that is at
    most the largest overlap of the ground truth, and overlaps do not
    exceed 1. *)
Theorem forward_target_scores_in_unit_interval
    (top_k num_classes : nat) (alpha beta : R) (anc_points : list (R * R))
    (max_boxes : nat) (batch : list image) (t : list value) :
  (1 <= max_boxes)%nat ->
  Forall (fun img => Forall (Forall (fun s => 0 <= s)) (pd_scores img) /\
                     Forall corner_form (gt_bboxes img) /\
                     Forall corner_form (pd_bboxes img)) batch ->
  forward top_k num_classes alpha beta anc_points max_boxes batch = Some t ->
  exists target_bboxes target_scores fg_mask target_gt_idx,
    t = [VReal3 target_bboxes; VReal3 target_scores; VBool2 fg_mask;
         VLong2 target_gt_idx] /\
    length target_scores = length batch /\
    Forall (Forall (Forall (fun v => 0 <= v <= 1))) target_scores.
Proof.
  intros Hmb Hin Hf.
  destruct (forward_inv _ _ _ _ _ _ _ _ Hmb Hf) as (r & Hr & ->).
  eexists _, _, _, _. split; [reflexivity|].
  pose proof (assign_length _ _ _ _ _ _ _ _ Hr) as Hlen.
  rewrite length_map. split; [exact Hlen|].
  apply Forall_forall. intros scores Hs.
  apply in_map_iff in Hs. destruct Hs as (x & <- & Hx).
  apply In_nth_error in Hx. destruct Hx as [i Hx].
  destruct (assign_inv _ _ _ _ _ _ _ _ _ _ Hr Hx)
    as (img & _ & _ & _ & _ & Himg & _).
  pose proof Hin as Hall. rewrite Forall_forall in Hall.
  destruct (Hall img (nth_error_In _ _ Himg)) as (Hpd & Hgt & Hpb).
  destruct (assign_target_scores _ _ _ _ _ _ _ _ _ _ Hmb Hr Hx) as [Hnn _].
  assert (Hpd' : Forall (fun img => Forall (Forall (fun s => 0 <= s)) (pd_scores img)) batch).
  { eapply Forall_impl; [|exact Hin]. intros im (H & _). exact H. }
  specialize (Hnn Hpd').
  pose proof (assign_target_scores_below_one _ _ _ _ _ _ _ _ _ _ _
                Hmb Hr Hx Himg Hpd Hgt Hpb) as Hlt.
  rewrite Forall_forall in Hnn, Hlt. apply Forall_forall. intros row Hrow.
  specialize (Hnn row Hrow). specialize (Hlt row Hrow).
  rewrite Forall_forall in Hnn, Hlt. apply Forall_forall. intros v Hv.
  split; [apply Hnn | left; apply Hlt]; exact Hv.
Qed.

Lemma forward_target_scores_in_unit_interval_witness :
  exists t u target_bboxes target_scores fg_mask target_gt_idx,
    forward 1 1 1 6 pos_anchors 1 [pos_image] = Some t /\
    0 < u /\
    t = [VReal3 [[box_row neg_box]]; VReal3 [[[u]]]; VBool2 [[true]]; VLong2 [[0%nat]]] /\
    t = [VReal3 target_bboxes; VReal3 target_scores; VBool2 fg_mask;
         VLong2 target_gt_idx] /\
    length target_scores = length [pos_image] /\
    Forall (Forall (Forall (fun v => 0 <= v <= 1))) target_scores.
Proof.
  destruct forward_pos_run as (u & Hrun & Hu).
  assert (Hc : corner_form neg_box) by (unfold corner_form, neg_box; simpl; lra).
  destruct (forward_target_scores_in_unit_interval 1 1 1 6 pos_anchors 1 [pos_image] _
              ltac:(lia)
              ltac:(repeat constructor; try exact Hc; simpl; lra)
              Hrun)
    as (tb & ts & fg & gi & Et & Hl & Hr).
  exists [VReal3 [[box_row neg_box]]; VReal3 [[[u]]]; VBool2 [[true]]; VLong2 [[0%nat]]],
         u, tb, ts, fg, gi.
  split; [exact Hrun|]. split; [exact Hu|]. split; [reflexivity|].
  split; [exact Et|]. split; [exact Hl | exact Hr].
Defined.

(** ** [make_anchors] *)

Lemma nth_error_concat_at {A : Type} (ls : list (list A)) (i k : nat) (l : list A) :
  nth_error ls i = Some l -> (k < length l)%nat ->
  nth_error (concat ls) (length (concat (firstn i ls)) + k) = nth_error l k.
Proof.
  revert i. induction ls as [|l0 ls IH]; intros [|i]; simpl; try discriminate.
  - intros H Hk. injection H as ->. apply nth_error_app1. exact Hk.
  - intros H Hk. rewrite length_app, <- Nat.add_assoc.
    rewrite nth_error_app2 by lia.
    replace (length l0 + (length (concat (firstn i ls)) + k) - length l0)%nat
      with (length (concat (firstn i ls)) + k)%nat by lia.
    apply IH; assumption.
Qed.

Lemma length_concat_rows {A : Type} (ls : list (list A)) (w : nat) :
  Forall (fun l => length l = w) ls -> length (concat ls) = (length ls * w)%nat.
Proof.
  induction 1 as [|l ls Hl Hls IH]; simpl; [reflexivity|].
  rewrite length_app, IH, Hl. reflexivity.
Qed.

Lemma level_anchors_length (offset : R) (h w : nat) :
  length (level_anchors offset h w) = (h * w)%nat.
Proof.
  unfold level_anchors. rewrite (length_concat_rows _ w).
  - rewrite length_map, length_seq. reflexivity.
  - apply Forall_forall. intros l Hl. apply in_map_iff in Hl.
    destruct Hl as (i & <- & _). rewrite length_map, length_seq. reflexivity.
Qed.

(** The anchor of the cell in row [r] and column [c]. *)
Lemma level_anchors_nth (offset : R) (h w r c : nat) :
  (r < h)%nat -> (c < w)%nat ->
  nth_error (level_anchors offset h w) (r * w + c)
  = Some (INR c + offset, INR r + offset).
Proof.
  intros Hr Hc. unfold level_anchors.
  set (rows := map (fun i => map (fun j => (INR j + offset, INR i + offset)) (seq 0 w))
                   (seq 0 h)).
  assert (Hrow : nth_error rows r
                 = Some (map (fun j => (INR j + offset, INR r + offset)) (seq 0 w))).
  { unfold rows. rewrite nth_error_map.
    rewrite nth_error_nth' with (d := 0%nat) by (rewrite length_seq; exact Hr).
    rewrite seq_nth by exact Hr. reflexivity. }
  assert (Hlen : length (concat (firstn r rows)) = (r * w)%nat).
  { rewrite (length_concat_rows _ w).
    - rewrite length_firstn. unfold rows. rewrite length_map, length_seq.
      rewrite Nat.min_l by lia. reflexivity.
    - apply Forall_firstn. apply Forall_forall. intros l Hl. apply in_map_iff in Hl.
      destruct Hl as (i & <- & _). rewrite length_map, length_seq. reflexivity. }
  rewrite <- Hlen.
  rewrite (nth_error_concat_at rows r c _ Hrow) by (rewrite length_map, length_seq; exact Hc).
  rewrite nth_error_map.
  rewrite nth_error_nth' with (d := 0%nat) by (rewrite length_seq; exact Hc).
  rewrite seq_nth by exact Hc. reflexivity.
Qed.

Section MakeAnchors.

Variable offset : R.

Let level (hw : nat * nat) (stride : R) : list (R * R) * list R :=
  (level_anchors offset (fst hw) (snd hw), repeat stride (fst hw * snd hw)).

(** The loop builds one pair of tensors for each stride, from the map at
    the index of the stride. *)
Lemma make_anchors_levels (x : list (nat * nat)) (strides : list R) (k : nat) :
  (k + length strides <= length x)%nat ->
  mapM (fun istride =>
          hw <- nth_error x (fst istride) ;;
          Some (level_anchors offset (fst hw) (snd hw),
                repeat (snd istride) (fst hw * snd hw)))
       (combine (seq k (length strides)) strides)
  = Some (zipWith level (skipn k x) strides).
Proof.
  revert k. induction strides as [|s strides IH]; intros k Hk; simpl.
  - destruct (skipn k x); reflexivity.
  - simpl in Hk.
    destruct (nth_error x k) as [hw|] eqn:E;
      [|apply nth_error_None in E; lia].
    cbn [bind]. rewrite (IH (S k)) by lia. cbn [bind].
    assert (Es : skipn k x = hw :: skipn (S k) x).
    { clear -E. revert k E. induction x as [|y x IHx]; intros [|k] E; simpl in *;
        try discriminate.
      - injection E as ->. reflexivity.
      - apply IHx. exact E. }
    rewrite Es. reflexivity.
Qed.

Lemma cells_before_levels (x : list (nat * nat)) (strides : list R) (i : nat) :
  (i <= length strides)%nat -> (length strides <= length x)%nat ->
  length (concat (firstn i (map fst (zipWith level x strides)))) = cells_before x i /\
  length (concat (firstn i (map snd (zipWith level x strides)))) = cells_before x i.
Proof.
  unfold cells_before. revert strides i.
  induction x as [|hw x IH]; intros [|s strides] [|i] Hi Hx; simpl in *;
    try (split; reflexivity); try lia.
  destruct (IH strides i ltac:(lia) ltac:(lia)) as [H1 H2].
  rewrite !length_app, H1, H2, level_anchors_length, repeat_length. split; reflexivity.
Qed.

Lemma make_anchors_spec (x : list (nat * nat)) (strides : list R) :
  (1 <= length strides <= length x)%nat ->
  exists anchors stride_tensor,
    make_anchors x strides offset = Some (anchors, stride_tensor) /\
    length anchors = cells_before x (length strides) /\
    length stride_tensor = cells_before x (length strides) /\
    forall i stride h w r c,
      nth_error strides i = Some stride ->
      nth_error x i = Some (h, w) ->
      (r < h)%nat -> (c < w)%nat ->
      nth_error anchors (cells_before x i + (r * w + c))
      = Some (INR c + offset, INR r + offset) /\
      nth_error stride_tensor (cells_before x i + (r * w + c)) = Some stride.
Proof.
  intros [H1 H2]. unfold make_anchors.
  rewrite (make_anchors_levels x strides 0) by (simpl; lia).
  cbn [bind skipn]. fold level.
  destruct (zipWith level x strides) as [|l0 ls] eqn:E.
  { destruct x, strides; simpl in *; try lia; discriminate. }
  rewrite <- E. clear E l0 ls.
  eexists _, _. split; [reflexivity|].
  destruct (cells_before_levels x strides (length strides) (le_n _) H2) as [L1 L2].
  assert (Lz : length (zipWith level x strides) = length strides).
  { clear -H2. revert strides H2. induction x as [|hw x IH]; intros [|s strides] H;
      simpl in *; try reflexivity; try lia. rewrite IH by lia. reflexivity. }
  rewrite firstn_all2 in L1, L2 by (rewrite length_map, Lz; lia).
  split; [exact L1|]. split; [exact L2|].
  intros i stride h w r c Hs Hx Hr Hc.
  assert (Hi : (i <= length strides)%nat).
  { apply Nat.lt_le_incl. apply nth_error_Some. rewrite Hs. discriminate. }
  destruct (cells_before_levels x strides i Hi H2) as [C1 C2].
  pose proof (nth_error_zipWith_fwd level x strides i _ _ Hx Hs) as Hl.
  assert (Hrc : (r * w + c < h * w)%nat) by nia.
  split.
  - rewrite <- C1.
    rewrite (nth_error_concat_at _ i (r * w + c) (level_anchors offset h w)).
    + apply level_anchors_nth; assumption.
    + rewrite nth_error_map, Hl. reflexivity.
    + rewrite level_anchors_length. exact Hrc.
  - rewrite <- C2.
    rewrite (nth_error_concat_at _ i (r * w + c) (repeat stride (h * w))).
    + rewrite nth_error_repeat by exact Hrc. reflexivity.
    + rewrite nth_error_map, Hl. reflexivity.
    + rewrite repeat_length. exact Hrc.
Qed.

End MakeAnchors.

Lemma nth_error_combine_fwd {A B : Type} (l1 : list A) (l2 : list B) (i : nat)
    (a : A) (b : B) :
  nth_error l1 i = Some a -> nth_error l2 i = Some b ->
  nth_error (combine l1 l2) i = Some (a, b).
Proof.
  revert l2 i. induction l1 as [|x l1 IH]; intros [|y l2] [|i]; simpl; try discriminate.
  - intros H1 H2. injection H1 as ->. injection H2 as ->. reflexivity.
  - apply IH.
Qed.

(** X5. [make_anchors] is refused when there is no stride or fewer feature
    maps than strides.  Otherwise it returns one anchor point and one
    stride entry for every cell of the maps that have a stride, map after
    map and row by row: the cell in row [r] and column [c] of map [i] sits
    at index (cells of the maps before [i]) + [r * w + c], its anchor is
    [(c + offset, r + offset)] and its stride entry is the stride of map
    [i]. *)
Theorem make_anchors_layout (x : list (nat * nat)) (strides : list R) (offset : R) :
  (length strides = 0%nat \/ (length x < length strides)%nat ->
   make_anchors x strides offset = None) /\
  ((1 <= length strides <= length x)%nat ->
   exists anchors stride_tensor,
     make_anchors x strides offset = Some (anchors, stride_tensor) /\
     length anchors = cells_before x (length strides) /\
     length stride_tensor = cells_before x (length strides) /\
     forall i stride h w r c,
       nth_error strides i = Some stride ->
       nth_error x i = Some (h, w) ->
       (r < h)%nat -> (c < w)%nat ->
       nth_error anchors (cells_before x i + (r * w + c))
       = Some (INR c + offset, INR r + offset) /\
       nth_error stride_tensor (cells_before x i + (r * w + c)) = Some stride).
Proof.
  split; [|apply make_anchors_spec].
  intros [H0|Hlt]; unfold make_anchors.
  - destruct strides; [reflexivity | discriminate].
  - match goal with |- context [mapM ?F ?L] => destruct (mapM F L) as [levels|] eqn:E end;
      cbn [bind]; [|reflexivity].
    exfalso.
    destruct (nth_error strides (length x)) as [s|] eqn:Es;
      [|apply nth_error_None in Es; lia].
    assert (Hc : nth_error (combine (seq 0 (length strides)) strides) (length x)
                 = Some (length x, s)).
    { apply nth_error_combine_fwd; [|exact Es].
      rewrite nth_error_nth' with (d := 0%nat) by (rewrite length_seq; exact Hlt).
      rewrite seq_nth by exact Hlt. reflexivity. }
    destruct (mapM_nth_error _ _ _ E _ _ Hc) as (b & _ & Hb). cbn [fst] in Hb.
    assert (En : nth_error x (length x) = None) by (apply nth_error_None; lia).
    rewrite En in Hb. discriminate.
Qed.

Lemma make_anchors_layout_witness :
  exists anchors stride_tensor,
    make_anchors [(1, 2); (1, 1)]%nat [8; 16] (1 / 2) = Some (anchors, stride_tensor) /\
    length anchors = cells_before [(1, 2); (1, 1)]%nat (length [8; 16]) /\
    length stride_tensor = cells_before [(1, 2); (1, 1)]%nat (length [8; 16]) /\
    forall i stride h w r c,
      nth_error [8; 16] i = Some stride ->
      nth_error [(1, 2); (1, 1)]%nat i = Some (h, w) ->
      (r < h)%nat -> (c < w)%nat ->
      nth_error anchors (cells_before [(1, 2); (1, 1)]%nat i + (r * w + c))
      = Some (INR c + 1 / 2, INR r + 1 / 2) /\
      nth_error stride_tensor (cells_before [(1, 2); (1, 1)]%nat i + (r * w + c))
      = Some stride.
Proof.
  apply (proj2 (make_anchors_layout [(1, 2); (1, 1)]%nat [8; 16] (1 / 2))).
  simpl. lia.
Defined.

(** ** [ComputeLoss.box_decode] *)

Lemma Rsum_map_scale (f : R -> R) (k : R) (l : list R) :
  Rsum (map (fun v => f v * k) l) = Rsum (map f l) * k.
Proof.
  induction l as [|x l IH]; simpl; [ring|]. rewrite IH. ring.
Qed.

Lemma Rsum_exp_pos (l : list R) : (1 <= length l)%nat -> 0 < Rsum (map exp l).
Proof.
  destruct l as [|x l]; simpl; [lia|]. intros _.
  assert (0 <= Rsum (map exp l)).
  { induction l as [|y l IH]; simpl; [lra|]. pose proof (exp_pos y). lra. }
  pose proof (exp_pos x). lra.
Qed.

Lemma softmax_length (l : list R) : length (softmax l) = length l.
Proof. unfold softmax. apply length_map. Qed.

(** The weights of a softmax are positive and add up to 1. *)
Lemma softmax_weights (l : list R) :
  (1 <= length l)%nat ->
  Forall (fun w => 0 < w) (softmax l) /\ Rsum (softmax l) = 1.
Proof.
  intros Hl. pose proof (Rsum_exp_pos l Hl) as Hz. unfold softmax. split.
  - apply Forall_forall. intros w Hw. apply in_map_iff in Hw.
    destruct Hw as (v & <- & _). apply Rdiv_lt_0_compat; [apply exp_pos | exact Hz].
  - unfold Rdiv. rewrite (Rsum_map_scale exp). field. lra.
Qed.

(** A weighted sum with weights that are not negative lies between the
    bounds of the values, scaled by the total weight. *)
Lemma weighted_sum_bounds (lo hi : R) (w p : list R) :
  length w = length p ->
  Forall (fun u => 0 <= u) w ->
  Forall (fun v => lo <= v <= hi) p ->
  lo * Rsum w <= Rsum (zipWith Rmult w p) <= hi * Rsum w.
Proof.
  revert p. induction w as [|u w IH]; intros [|v p] Hlen Hw Hp; simpl in *;
    try discriminate; [lra|].
  inversion Hw as [|? ? Hu Hw']; subst. inversion Hp as [|? ? Hv Hp']; subst.
  specialize (IH p ltac:(lia) Hw' Hp'). nra.
Qed.

Lemma arange_bounds (n : nat) :
  Forall (fun v => 0 <= v <= INR n - 1) (arange n).
Proof.
  unfold arange. apply Forall_forall. intros v Hv. apply in_map_iff in Hv.
  destruct Hv as (k & <- & Hk). apply in_seq in Hk. split; [apply pos_INR|].
  assert (H : INR (S k) <= INR n) by (apply le_INR; lia).
  rewrite S_INR in H. lra.
Qed.

(** The expected bin of one edge. *)
Lemma matvec_softmax_arange (row : list R) (n : nat) :
  (1 <= n)%nat -> length row = n ->
  exists d, matvec (softmax row) (arange n) = Some d /\ 0 <= d <= INR n - 1.
Proof.
  intros Hn Hrow. unfold matvec.
  assert (La : length (arange n) = n) by (unfold arange; rewrite length_map, length_seq; reflexivity).
  rewrite softmax_length, La, Hrow, Nat.eqb_refl.
  eexists. split; [reflexivity|].
  destruct (softmax_weights row ltac:(lia)) as [Hpos Hsum].
  pose proof (weighted_sum_bounds 0 (INR n - 1) (softmax row) (arange n)) as Hb.
  rewrite Hsum in Hb. rewrite !Rmult_1_r in Hb.
  assert (H0 : 0 * 1 = 0) by ring.
  destruct Hb as [Hb1 Hb2].
  - rewrite softmax_length, La. exact Hrow.
  - eapply Forall_impl; [|exact Hpos]. intros u Hu. lra.
  - apply arange_bounds.
  - lra.
Qed.

(** X6. For logits of four edges with [n >= 1] bins each and the
    projection [arange(n)], [box_decode] returns a box in corner form that
    contains the anchor point, each edge at a distance between 0 and
    [n - 1] from it; for logits whose number is not a multiple of 4 (the
    [view]) or not four times the length of the projection (the [matmul])
    it is refused. *)
Theorem box_decode_contains_anchor (anchor_point : R * R) (pred_dist : list R)
    (n : nat) :
  (1 <= n)%nat ->
  (length pred_dist = 4 * n)%nat ->
  (exists b,
     box_decode anchor_point pred_dist (arange n) = Some b /\
     0 <= fst anchor_point - bx1 b <= INR n - 1 /\
     0 <= snd anchor_point - by1 b <= INR n - 1 /\
     0 <= bx2 b - fst anchor_point <= INR n - 1 /\
     0 <= by2 b - snd anchor_point <= INR n - 1 /\
     corner_form b) /\
  (forall p project,
     (length p <> 4 * length project)%nat ->
     box_decode anchor_point p project = None).
Proof.
  intros Hn Hlen. split.
  - unfold box_decode. rewrite Hlen.
    replace (4 * n / 4)%nat with n by (rewrite Nat.mul_comm, Nat.div_mul; lia).
    rewrite Nat.eqb_refl. cbn [negb repeat view_rows mapM].
    set (r0 := firstn n pred_dist).
    set (r1 := firstn n (skipn n pred_dist)).
    set (r2 := firstn n (skipn n (skipn n pred_dist))).
    set (r3 := firstn n (skipn n (skipn n (skipn n pred_dist)))).
    assert (L0 : length r0 = n) by (unfold r0; rewrite length_firstn; lia).
    assert (L1 : length r1 = n)
      by (unfold r1; rewrite length_firstn, length_skipn; lia).
    assert (L2 : length r2 = n)
      by (unfold r2; rewrite length_firstn, !length_skipn; lia).
    assert (L3 : length r3 = n)
      by (unfold r3; rewrite length_firstn, !length_skipn; lia).
    destruct (matvec_softmax_arange r0 n Hn L0) as (d0 & -> & H0).
    destruct (matvec_softmax_arange r1 n Hn L1) as (d1 & -> & H1).
    destruct (matvec_softmax_arange r2 n Hn L2) as (d2 & -> & H2).
    destruct (matvec_softmax_arange r3 n Hn L3) as (d3 & -> & H3).
    cbn [bind]. eexists. split; [reflexivity|].
    unfold corner_form. cbn [bx1 by1 bx2 by2]. repeat split; lra.
  - intros p project Hp. unfold box_decode.
    destruct (4 * (length p / 4) =? length p)%nat eqn:E; [|reflexivity].
    apply Nat.eqb_eq in E. cbn [negb repeat view_rows mapM].
    set (m := (length p / 4)%nat) in *.
    assert (L0 : length (firstn m p) = m) by (rewrite length_firstn; lia).
    unfold matvec at 1. rewrite softmax_length, L0.
    destruct (Nat.eqb_spec m (length project)) as [Em|_]; [lia | reflexivity].
Qed.

Lemma box_decode_contains_anchor_witness :
  (exists b,
     box_decode (1 / 2, 1 / 2) [0; 0; 0; 0; 0; 0; 0; 0] (arange 2) = Some b /\
     0 <= fst (1 / 2, 1 / 2) - bx1 b <= INR 2 - 1 /\
     0 <= snd (1 / 2, 1 / 2) - by1 b <= INR 2 - 1 /\
     0 <= bx2 b - fst (1 / 2, 1 / 2) <= INR 2 - 1 /\
     0 <= by2 b - snd (1 / 2, 1 / 2) <= INR 2 - 1 /\
     corner_form b) /\
  (forall p project,
     (length p <> 4 * length project)%nat ->
     box_decode (1 / 2, 1 / 2) p project = None).
Proof.
  apply (box_decode_contains_anchor (1 / 2, 1 / 2) [0; 0; 0; 0; 0; 0; 0; 0] 2).
  - lia.
  - reflexivity.
Defined.

(** ** [BoxLoss.forward] *)

(** [df_loss] for targets in the bin range of their logits. *)
Lemma df_loss_in_bins (pred_dist : list (list R)) (target : tensor) :
  Forall2 in_bins pred_dist (concat target) ->
  df_loss pred_dist target
  = Some (map mean (zip2d dfl_edge (view_rows (shape_of target) pred_dist) target)).
Proof.
  intros Hb. unfold df_loss. cbv zeta.
  rewrite !concat_map2d.
  rewrite (cross_entropy_batch_in_range long pred_dist (concat target) (in_bins_left _ _ Hb)).
  cbn [bind]. rewrite map_map.
  rewrite (cross_entropy_batch_in_range (fun t => (long t + 1)%Z) pred_dist (concat target)
             (in_bins_right _ _ Hb)).
  cbn [bind]. rewrite !shape_of_map2d.
  assert (Hl : (length (concat target) <= length pred_dist)%nat)
    by (rewrite (Forall2_length Hb); lia).
  rewrite !view_rows_zipWith by exact Hl.
  rewrite (dfl_rows _ target (in_bins_nonneg _ _ Hb)). reflexivity.
Qed.

Lemma clamp_range (lo hi x : R) : lo <= hi -> lo <= clamp lo hi x <= hi.
Proof.
  intros H. unfold clamp, Rmin, Rmax.
  destruct (Rle_dec x lo); destruct (Rle_dec _ hi); lra.
Qed.

(** A target between 0 and [n - 0.01] has both bins among [n + 1]
    logits. *)
Lemma clamped_in_bins (n : nat) (logits : list R) (t : R) :
  length logits = (n + 1)%nat -> 0 <= t <= INR n - 1 / 100 -> in_bins logits t.
Proof.
  intros Hl [H0 H1]. split; [exact H0|]. rewrite Hl.
  assert (Hf : (Zfloor t < Z.of_nat n)%Z).
  { apply lt_IZR. rewrite <- INR_IZR_INZ.
    pose proof (Zfloor_bound t) as [Hb _]. lra. }
  lia.
Qed.

Lemma view_rows_repeat (k m : nat) (flat : list R) :
  length flat = (m * k)%nat ->
  length (view_rows (repeat k m) flat) = m /\
  Forall (fun r => length r = k) (view_rows (repeat k m) flat).
Proof.
  revert flat. induction m as [|m IH]; intros flat H; simpl.
  - split; constructor.
  - destruct (IH (skipn k flat)) as [L F]; [rewrite length_skipn; lia|].
    split; [rewrite L; reflexivity|].
    constructor; [rewrite length_firstn; lia | exact F].
Qed.

Lemma Forall2_of_Forall {A B : Type} (P : A -> Prop) (Q : B -> Prop) (R0 : A -> B -> Prop)
    (l1 : list A) (l2 : list B) :
  (forall a b, P a -> Q b -> R0 a b) ->
  length l1 = length l2 -> Forall P l1 -> Forall Q l2 -> Forall2 R0 l1 l2.
Proof.
  intros H. revert l2. induction l1 as [|a l1 IH]; intros [|b l2] Hl H1 H2;
    simpl in *; try discriminate; constructor.
  - inversion H1; inversion H2; subst. apply H; assumption.
  - inversion H1; inversion H2; subst. apply IH; [lia | assumption | assumption].
Qed.

Section BoxLoss.

Variable dfl_ch : nat.
Variable anchors : list anchor_data.
Variable target_scores_sum : R.

Let fg := filter ad_fg anchors.
Let weight := map (fun d => Rsum (ad_target_scores d)) fg.
Let target := map (fun d => map (clamp 0 (INR dfl_ch - 1 / 100)) (edge_distances d)) fg.

Hypothesis Hch : (1 <= dfl_ch)%nat.
Hypothesis Hfg : (1 <= length fg)%nat.
Hypothesis Hdist : Forall (fun d => length (ad_pred_dist d) = (4 * (dfl_ch + 1))%nat) fg.

Lemma box_loss_targets_clamped :
  Forall (fun t => 0 <= t <= INR dfl_ch - 1 / 100) (concat target) /\
  length (concat target) = (length fg * 4)%nat.
Proof.
  assert (H1 : 1 <= INR dfl_ch) by (change 1 with (INR 1); apply le_INR; exact Hch).
  split.
  - apply Forall_concat. apply Forall_forall. intros row Hrow.
    unfold target in Hrow. apply in_map_iff in Hrow. destruct Hrow as (d & <- & _).
    apply Forall_forall. intros t Ht. apply in_map_iff in Ht. destruct Ht as (v & <- & _).
    apply clamp_range. lra.
  - rewrite (length_concat_rows target 4).
    + unfold target. rewrite length_map. reflexivity.
    + apply Forall_forall. intros row Hrow. unfold target in Hrow.
      apply in_map_iff in Hrow. destruct Hrow as (d & <- & _). reflexivity.
Qed.

(** The logits of the foreground anchors, cut into rows of [dfl_ch + 1]
    bins: one row for each clamped target, which has both its bins in the
    row. *)
Lemma box_loss_bins :
  exists pred_dist,
    chunk_rows (dfl_ch + 1) (concat (map ad_pred_dist fg)) = Some pred_dist /\
    Forall (fun r => length r = (dfl_ch + 1)%nat) pred_dist /\
    Forall2 in_bins pred_dist (concat target).
Proof.
  set (k := (dfl_ch + 1)%nat).
  set (flat := concat (map ad_pred_dist fg)).
  assert (Lf : length flat = (length fg * 4 * k)%nat).
  { unfold flat. rewrite (length_concat_rows _ (4 * k)).
    - rewrite length_map. lia.
    - apply Forall_map. exact Hdist. }
  destruct (view_rows_repeat k (length fg * 4) flat Lf) as [Lr Fr].
  exists (view_rows (repeat k (length fg * 4)) flat).
  destruct box_loss_targets_clamped as [Hc Lc].
  split; [|split].
  - unfold chunk_rows. rewrite Lf.
    destruct (Nat.eqb_spec k 0) as [E|_]; [unfold k in E; lia|].
    rewrite Nat.Div0.mod_mul, Nat.eqb_refl, Nat.div_mul by (unfold k; lia).
    reflexivity.
  - exact Fr.
  - apply (Forall2_of_Forall (fun r => length r = k)
             (fun t => 0 <= t <= INR dfl_ch - 1 / 100)).
    + intros r t Hr Ht. apply (clamped_in_bins dfl_ch r t Hr Ht).
    + rewrite Lr, Lc. reflexivity.
    + exact Fr.
    + exact Hc.
Qed.

(** What [forward] returns for a batch with a foreground anchor. *)
Lemma box_loss_forward_value :
  target_scores_sum <> 0 ->
  exists pred_dist,
    chunk_rows (dfl_ch + 1) (concat (map ad_pred_dist fg)) = Some pred_dist /\
    Forall (fun r => length r = (dfl_ch + 1)%nat) pred_dist /\
    Forall2 in_bins pred_dist (concat target) /\
    box_loss_forward dfl_ch anchors target_scores_sum
    = Some (Rsum (zipWith (fun i w => (1 - i) * w)
                    (map (fun d => compute_iou (ad_pred_bbox d) (ad_target_bbox d)) fg)
                    weight) / target_scores_sum,
            Rsum (zipWith Rmult
                    (map mean (zip2d dfl_edge (view_rows (shape_of target) pred_dist) target))
                    weight) / target_scores_sum).
Proof.
  intros Hs. destruct box_loss_bins as (pred & Hp & Hl & Hb).
  exists pred. split; [exact Hp|]. split; [exact Hl|]. split; [exact Hb|].
  unfold box_loss_forward. cbv zeta. fold fg. fold target. fold weight.
  rewrite (Reqb_false _ _ Hs), Hp. cbn [bind].
  rewrite (df_loss_in_bins pred target Hb). reflexivity.
Qed.

End BoxLoss.

Lemma ce_nonneg (logits : list R) (k : Z) :
  (0 <= k < Z.of_nat (length logits))%Z -> 0 <= ce logits k.
Proof.
  intros Hk. unfold ce, logsumexp.
  set (v := nth (Z.to_nat k) logits 0).
  assert (Hin : In v logits) by (apply nth_In; lia).
  assert (Hge : exp v <= Rsum (map exp logits)).
  { apply Rsum_ge_entry.
    - apply Forall_forall. intros u Hu. apply in_map_iff in Hu.
      destruct Hu as (w & <- & _). left. apply exp_pos.
    - apply in_map. exact Hin. }
  pose proof (exp_pos v) as Hp.
  assert (Hl : ln (exp v) <= ln (Rsum (map exp logits))).
  { destruct Hge as [Hlt|Heq]; [left; apply ln_increasing; assumption | rewrite Heq; lra]. }
  rewrite ln_exp in Hl. lra.
Qed.

Lemma dfl_edge_nonneg (logits : list R) (t : R) :
  in_bins logits t -> 0 <= dfl_edge logits t.
Proof.
  intros [H0 H1]. unfold dfl_edge.
  pose proof (Zfloor_bound t) as [Hb1 Hb2].
  pose proof (Zfloor_nonneg t H0) as Hf.
  pose proof (ce_nonneg logits (Zfloor t) ltac:(lia)) as C1.
  pose proof (ce_nonneg logits (Zfloor t + 1) ltac:(lia)) as C2.
  apply Rplus_le_le_0_compat; apply Rmult_le_pos; lra.
Qed.

Lemma Rsum_nonneg (l : list R) : Forall (fun u => 0 <= u) l -> 0 <= Rsum l.
Proof. induction 1 as [|u l Hu Hl IH]; simpl; lra. Qed.

Lemma mean_nonneg (l : list R) : Forall (fun u => 0 <= u) l -> 0 <= mean l.
Proof.
  intros H. unfold mean. pose proof (Rsum_nonneg l H) as Hs.
  destruct l as [|x l].
  - simpl. unfold Rdiv. rewrite Rmult_0_l. lra.
  - apply Rmult_le_pos; [exact Hs|]. left. apply Rinv_0_lt_compat.
    apply lt_0_INR. simpl. lia.
Qed.

(** Cutting the rows of logits as the targets are cut pairs every target
    with its row. *)
Lemma view_rows_Forall2 {A B : Type} (P : A -> B -> Prop) (x : list A) (T : list (list B)) :
  Forall2 P x (concat T) ->
  Forall2 (Forall2 P) (view_rows (shape_of T) x) T.
Proof.
  revert x. induction T as [|r T IH]; intros x H; simpl; [constructor|].
  simpl in H. apply Forall2_app_inv_r in H. destruct H as (l1 & l2 & H1 & H2 & ->).
  pose proof (Forall2_length H1) as L.
  rewrite <- L, firstn_app, Nat.sub_diag, firstn_all, firstn_O, app_nil_r.
  rewrite skipn_app, Nat.sub_diag, skipn_all, skipn_O. simpl.
  constructor; [exact H1 | apply IH; exact H2].
Qed.

Lemma zipWith_Forall2 {A B C : Type} (P : A -> B -> Prop) (Q : C -> Prop)
    (f : A -> B -> C) (l1 : list A) (l2 : list B) :
  (forall a b, P a b -> Q (f a b)) -> Forall2 P l1 l2 -> Forall Q (zipWith f l1 l2).
Proof.
  intros H. induction 1 as [|a b l1 l2 Hab Hl IH]; simpl; constructor; auto.
Qed.

Lemma dfl_means_nonneg (pred_dist : list (list R)) (target : tensor) :
  Forall2 in_bins pred_dist (concat target) ->
  Forall (fun v => 0 <= v)
    (map mean (zip2d dfl_edge (view_rows (shape_of target) pred_dist) target)).
Proof.
  intros Hb. apply Forall_map. unfold zip2d.
  apply (zipWith_Forall2 (Forall2 in_bins) (fun row => 0 <= mean row)).
  - intros rows ts H. apply mean_nonneg.
    apply (zipWith_Forall2 in_bins (fun v => 0 <= v)); [|exact H].
    intros p t. apply dfl_edge_nonneg.
  - apply view_rows_Forall2. exact Hb.
Qed.

Lemma weighted_nonneg (f : R -> R -> R) (l w : list R) :
  (forall a b, 0 <= a -> 0 <= b -> 0 <= f a b) ->
  Forall (fun v => 0 <= v) l -> Forall (fun v => 0 <= v) w ->
  0 <= Rsum (zipWith f l w).
Proof.
  intros Hf Hl. revert w. induction Hl as [|a l Ha Hl IH]; intros [|b w] Hw; simpl;
    try lra.
  inversion Hw; subst. specialize (IH w ltac:(assumption)).
  pose proof (Hf a b Ha ltac:(assumption)). lra.
Qed.

(** X7. [BoxLoss.forward] never asks [df_loss] for a bin that does not
    exist: with [dfl_ch >= 1], at least one foreground anchor, [4 *
    (dfl_ch + 1)] logits for each foreground anchor and a sum of target
    scores that is not zero, the clamp to [0, dfl_ch - 0.01] puts both
    bins of every edge distance among the [dfl_ch + 1] logits of its row,
    whatever the target boxes and anchor points are, and both losses are
    returned.  Without a foreground anchor the sums are empty and both
    losses are 0. *)
Theorem box_loss_forward_bins_in_range (dfl_ch : nat) (anchors : list anchor_data)
    (target_scores_sum : R) :
  (1 <= dfl_ch)%nat ->
  (1 <= length (filter ad_fg anchors))%nat ->
  Forall (fun d => length (ad_pred_dist d) = (4 * (dfl_ch + 1))%nat)
         (filter ad_fg anchors) ->
  target_scores_sum <> 0 ->
  (exists pred_dist loss_iou loss_dfl,
     chunk_rows (dfl_ch + 1) (concat (map ad_pred_dist (filter ad_fg anchors)))
     = Some pred_dist /\
     Forall2 in_bins pred_dist
       (concat (map (fun d => map (clamp 0 (INR dfl_ch - 1 / 100)) (edge_distances d))
                    (filter ad_fg anchors))) /\
     box_loss_forward dfl_ch anchors target_scores_sum = Some (loss_iou, loss_dfl)) /\
  (forall others,
     filter ad_fg others = [] ->
     box_loss_forward dfl_ch others target_scores_sum = Some (0, 0)).
Proof.
  intros Hch Hfg Hdist Hs. split.
  - destruct (box_loss_forward_value dfl_ch anchors target_scores_sum Hch Hfg Hdist Hs)
      as (pred & Hp & _ & Hb & Hv).
    exists pred. eexists _, _. split; [exact Hp|]. split; [exact Hb | exact Hv].
  - intros others Hnone. unfold box_loss_forward. cbv zeta. rewrite Hnone.
    rewrite (Reqb_false _ _ Hs).
    unfold chunk_rows. replace (dfl_ch + 1 =? 0)%nat with false
      by (symmetry; apply Nat.eqb_neq; lia).
    cbn [map concat length Nat.eqb zipWith Rsum fold_right].
    rewrite Nat.Div0.mod_0_l, Nat.Div0.div_0_l.
    cbn [Nat.eqb repeat view_rows bind].
    unfold df_loss, map2d, zip2d, shape_of.
    cbn [map concat cross_entropy_batch bind view_rows zipWith Rsum fold_right].
    f_equal. f_equal; unfold Rdiv; ring.
Qed.

Lemma box_loss_forward_bins_in_range_witness :
  (exists pred_dist loss_iou loss_dfl,
     chunk_rows (1 + 1) (concat (map ad_pred_dist (filter ad_fg loss_example)))
     = Some pred_dist /\
     Forall2 in_bins pred_dist
       (concat (map (fun d => map (clamp 0 (INR 1 - 1 / 100)) (edge_distances d))
                    (filter ad_fg loss_example))) /\
     box_loss_forward 1 loss_example 1 = Some (loss_iou, loss_dfl)) /\
  (forall others,
     filter ad_fg others = [] -> box_loss_forward 1 others 1 = Some (0, 0)).
Proof.
  apply (box_loss_forward_bins_in_range 1 loss_example 1).
  - lia.
  - simpl. lia.
  - repeat constructor.
  - lra.
Defined.

(** X8. Under the conditions of X7, with target scores that are not
    negative, a positive sum of target scores and predicted and target
    boxes in corner form, neither loss is negative: each foreground anchor
    contributes [1 - CIoU > 0] and a mean of cross-entropies, weighted by
    its target scores. *)
Theorem box_loss_forward_nonnegative (dfl_ch : nat) (anchors : list anchor_data)
    (target_scores_sum : R) :
  (1 <= dfl_ch)%nat ->
  (1 <= length (filter ad_fg anchors))%nat ->
  Forall (fun d => length (ad_pred_dist d) = (4 * (dfl_ch + 1))%nat /\
                   Forall (fun s => 0 <= s) (ad_target_scores d) /\
                   corner_form (ad_pred_bbox d) /\ corner_form (ad_target_bbox d))
         (filter ad_fg anchors) ->
  0 < target_scores_sum ->
  exists loss_iou loss_dfl,
    box_loss_forward dfl_ch anchors target_scores_sum = Some (loss_iou, loss_dfl) /\
    0 <= loss_iou /\ 0 <= loss_dfl.
Proof.
  intros Hch Hfg Hall Hs.
  assert (Hdist : Forall (fun d => length (ad_pred_dist d) = (4 * (dfl_ch + 1))%nat)
                         (filter ad_fg anchors)).
  { eapply Forall_impl; [|exact Hall]. intros d (H & _). exact H. }
  destruct (box_loss_forward_value dfl_ch anchors target_scores_sum Hch Hfg Hdist
              ltac:(lra)) as (pred & _ & _ & Hb & Hv).
  eexists _, _. split; [exact Hv|].
  assert (Hw : Forall (fun v => 0 <= v)
                 (map (fun d => Rsum (ad_target_scores d)) (filter ad_fg anchors))).
  { apply Forall_map. eapply Forall_impl; [|exact Hall].
    intros d (_ & H & _). apply Rsum_nonneg. exact H. }
  assert (Hinv : 0 < / target_scores_sum) by (apply Rinv_0_lt_compat; exact Hs).
  split.
  - apply Rmult_le_pos; [|lra].
    set (fg := filter ad_fg anchors) in *.
    clear -Hall. induction fg as [|d fg IH]; simpl; [lra|].
    inversion Hall as [|? ? (_ & Hsc & Cp & Ct) Hrest]; subst.
    specialize (IH Hrest).
    pose proof (compute_iou_le_plain _ _ Cp Ct) as H1.
    pose proof (iou_plain_range _ _ Cp Ct) as H2.
    pose proof (Rsum_nonneg _ Hsc) as H3.
    assert (0 <= (1 - compute_iou (ad_pred_bbox d) (ad_target_bbox d))
                 * Rsum (ad_target_scores d)) by (apply Rmult_le_pos; lra).
    lra.
  - apply Rmult_le_pos; [|lra].
    apply weighted_nonneg; [intros a b; apply Rmult_le_pos | | exact Hw].
    apply dfl_means_nonneg. exact Hb.
Qed.

Lemma box_loss_forward_nonnegative_witness :
  exists loss_iou loss_dfl,
    box_loss_forward 1 loss_example 1 = Some (loss_iou, loss_dfl) /\
    0 <= loss_iou /\ 0 <= loss_dfl.
Proof.
  apply (box_loss_forward_nonnegative 1 loss_example 1).
  - lia.
  - simpl. lia.
  - simpl. constructor; [|constructor]. cbn [ad_pred_dist ad_target_scores ad_pred_bbox
                                              ad_target_bbox].
    split; [reflexivity|]. split; [constructor; [lra | constructor]|].
    unfold corner_form. simpl. lra.
  - lra.
Defined.

(** ** [PointLoss.forward] *)

Lemma Rsum_app (l1 l2 : list R) : Rsum (l1 ++ l2) = Rsum l1 + Rsum l2.
Proof. induction l1 as [|x l1 IH]; simpl; [ring|]. rewrite IH. ring. Qed.

Lemma count_true_false (mask : list bool) :
  Rsum (map b2r mask) + Rsum (map (fun m => b2r (negb m)) mask) = INR (length mask).
Proof.
  induction mask as [|m mask IH]; [simpl; ring|].
  change (length (m :: mask)) with (S (length mask)). rewrite S_INR, <- IH.
  destruct m; simpl; ring.
Qed.

Lemma kpt_error_nonneg (area sigma : R) (p t : R * R) :
  0 <= area -> sigma <> 0 -> 0 <= kpt_error area sigma p t.
Proof.
  intros Ha Hs. unfold kpt_error.
  assert (H1 : 0 < (2 * sigma) ^ 2).
  { simpl. destruct (Rtotal_order sigma 0) as [H|[H|H]]; [nra | contradiction | nra]. }
  assert (H2 : 0 < area + eps9) by (unfold eps9; lra).
  assert (H3 : 0 <= (fst p - fst t) ^ 2 + (snd p - snd t) ^ 2)
    by (apply Rplus_le_le_0_compat; apply pow2_ge_0).
  repeat apply Rmult_le_pos; try lra; left; apply Rinv_0_lt_compat; assumption.
Qed.

Lemma one_minus_exp_range (e : R) : 0 <= e -> 0 <= 1 - exp (- e) < 1.
Proof.
  intros He. pose proof (exp_pos (- e)) as Hp. split; [|lra].
  destruct He as [Hlt|<-].
  - assert (exp (- e) < exp 0) by (apply exp_increasing; lra). rewrite exp_0 in *. lra.
  - rewrite Ropp_0, exp_0. lra.
Qed.

Section PointLoss.

Variable sigmas : list R.
Hypothesis Hsigma : Forall (fun s => s <> 0) sigmas.

(** The terms of one instance: each lies between 0 and its mask entry, so
    their sum is at most the number of visible keypoints. *)
Lemma point_loss_terms_sum (i : kpt_instance) :
  0 <= ki_area i ->
  0 <= Rsum (point_loss_terms sigmas i) <= Rsum (map b2r (ki_mask i)).
Proof.
  intros Ha. unfold point_loss_terms.
  generalize (ki_pred i) as ps, (ki_true i) as ts, (ki_mask i) as ms.
  intros ps ts ms. revert ps ts ms.
  induction sigmas as [|s ss IH]; intros ps ts ms.
  - rewrite combine_nil. simpl.
    split; [lra | apply Rsum_nonneg; apply Forall_map; apply Forall_forall;
                  intros m _; destruct m; simpl; lra].
  - inversion Hsigma as [|? ? Hs Hss]; subst.
    destruct ps as [|p ps]; [simpl; split; [lra | apply Rsum_nonneg; apply Forall_map;
      apply Forall_forall; intros m _; destruct m; simpl; lra]|].
    destruct ts as [|t ts]; [simpl; split; [lra | apply Rsum_nonneg; apply Forall_map;
      apply Forall_forall; intros m _; destruct m; simpl; lra]|].
    destruct ms as [|m ms]; [simpl; lra|].
    specialize (IH Hss ps ts ms). cbn [combine map Rsum fold_right] in *.
    pose proof (one_minus_exp_range _ (kpt_error_nonneg (ki_area i) s p t Ha Hs)) as He.
    unfold Rsum in IH. destruct m; simpl; lra.
Qed.

End PointLoss.

Section PointLossValue.

Variable sigmas : list R.
Hypothesis Hsigma : Forall (fun s => s <> 0) sigmas.

Local Abbreviation mask_of insts := (concat (map ki_mask insts)).
Local Abbreviation terms_of insts := (concat (map (point_loss_terms sigmas) insts)).

Lemma kpt_shaped_lengths (i : kpt_instance) :
  kpt_shaped sigmas i = true ->
  length (point_loss_terms sigmas i) = length sigmas /\
  length (ki_mask i) = length sigmas.
Proof.
  unfold kpt_shaped. intros H.
  apply andb_prop in H. destruct H as [H H3]. apply andb_prop in H. destruct H as [H1 H2].
  apply Nat.eqb_eq in H1, H2, H3. split; [|exact H3].
  unfold point_loss_terms. rewrite length_map, !length_combine. lia.
Qed.

Lemma point_loss_lengths (insts : list kpt_instance) :
  Forall (fun i => kpt_shaped sigmas i = true /\ 0 <= ki_area i) insts ->
  length (terms_of insts) = (length insts * length sigmas)%nat /\
  length (mask_of insts) = length (terms_of insts).
Proof.
  induction 1 as [|i l [Hi _] Hl IH]; simpl; [split; reflexivity|].
  destruct (kpt_shaped_lengths i Hi) as [L1 L2]. destruct IH as [IH1 IH2].
  rewrite !length_app, L1, L2, IH1, IH2. split; [lia|]. rewrite IH1. reflexivity.
Qed.

Lemma point_loss_sum (insts : list kpt_instance) :
  Forall (fun i => kpt_shaped sigmas i = true /\ 0 <= ki_area i) insts ->
  0 <= Rsum (terms_of insts) <= Rsum (map b2r (mask_of insts)).
Proof.
  induction 1 as [|i l [_ Ha] Hl IH]; simpl; [lra|].
  rewrite map_app, !Rsum_app.
  pose proof (point_loss_terms_sum sigmas Hsigma i Ha). lra.
Qed.

(** The factor undoes the mean: the loss is the sum of the terms over the
    number of visible keypoints (plus 1e-9). *)
Lemma point_loss_forward_value (insts : list kpt_instance) :
  Forall (fun i => kpt_shaped sigmas i = true /\ 0 <= ki_area i) insts ->
  (1 <= length sigmas)%nat -> (1 <= length insts)%nat ->
  point_loss_forward sigmas insts
  = Some (Rsum (terms_of insts) / (Rsum (map b2r (mask_of insts)) + eps9)).
Proof.
  intros Hinst Hk Hn. unfold point_loss_forward.
  assert (E1 : forallb (kpt_shaped sigmas) insts = true).
  { apply forallb_forall. intros i Hi. rewrite Forall_forall in Hinst.
    apply (Hinst i Hi). }
  assert (E2 : existsb (fun s => Reqb s 0) sigmas = false).
  { apply not_true_is_false. intros H. apply existsb_exists in H.
    destruct H as (s & Hs & Hz). apply Reqb_spec in Hz.
    rewrite Forall_forall in Hsigma. apply (Hsigma s Hs Hz). }
  assert (E3 : existsb (fun i => Reqb (ki_area i + eps9) 0) insts = false).
  { apply not_true_is_false. intros H. apply existsb_exists in H.
    destruct H as (i & Hi & Hz). apply Reqb_spec in Hz.
    rewrite Forall_forall in Hinst. destruct (Hinst i Hi) as [_ Ha].
    unfold eps9 in Hz. lra. }
  rewrite E1, E2, E3. cbn [negb orb]. cbv zeta.
  destruct (point_loss_lengths insts Hinst) as [L1 L2].
  pose proof (point_loss_sum insts Hinst) as [_ Hs].
  set (terms := terms_of insts) in *. set (kpt_mask := mask_of insts) in *.
  destruct terms as [|x rest] eqn:Et; [simpl in L1; nia|]. rewrite <- Et in *.
  f_equal. rewrite count_true_false, L2. unfold mean.
  assert (Hnz : 0 <= Rsum (map b2r kpt_mask)).
  { apply Rsum_nonneg. apply Forall_map. apply Forall_forall.
    intros m _. destruct m; simpl; lra. }
  assert (HN : 0 < INR (length terms)) by (apply lt_0_INR; rewrite Et; simpl; lia).
  field. unfold eps9. split; lra.
Qed.

End PointLossValue.

(** An instance whose visible keypoints are predicted exactly contributes
    nothing. *)
Lemma point_loss_terms_exact (sigmas : list R) (i : kpt_instance) :
  Forall (fun x => snd x = true -> fst (fst x) = snd (fst x))
         (combine (combine (ki_pred i) (ki_true i)) (ki_mask i)) ->
  Forall (fun v => v = 0) (point_loss_terms sigmas i).
Proof.
  unfold point_loss_terms.
  generalize (combine (combine (ki_pred i) (ki_true i)) (ki_mask i)) as l.
  intros l H. revert sigmas. induction H as [|[[p t] m] l Hx Hl IH]; intros [|s ss];
    simpl; constructor; [|apply IH].
  destruct m; [|simpl; ring]. simpl in Hx. rewrite (Hx eq_refl).
  unfold kpt_error.
  replace (((fst t - fst t) ^ 2 + (snd t - snd t) ^ 2) / (2 * s) ^ 2
           / (ki_area i + eps9) / 2) with 0 by (unfold Rdiv; ring).
  rewrite Ropp_0, exp_0. simpl. ring.
Qed.

(** X9. For [n >= 1] instances of [K >= 1] keypoints, sigmas that are not
    zero and box areas that are not negative, [PointLoss.forward] returns
    the sum of the terms [(1 - exp(-e)) * mask] divided by the number of
    visible keypoints plus 1e-9 (the factor undoes the mean), a value
    between 0 and 1; it is 0 when every visible keypoint is predicted
    exactly, and in particular when no keypoint is visible. *)
Theorem point_loss_forward_bounded (sigmas : list R) (insts : list kpt_instance) :
  (1 <= length sigmas)%nat -> (1 <= length insts)%nat ->
  Forall (fun s => s <> 0) sigmas ->
  Forall (fun i => kpt_shaped sigmas i = true /\ 0 <= ki_area i) insts ->
  exists loss,
    point_loss_forward sigmas insts = Some loss /\
    loss = Rsum (concat (map (point_loss_terms sigmas) insts))
           / (Rsum (map b2r (concat (map ki_mask insts))) + eps9) /\
    0 <= loss <= 1 /\
    (Forall (fun i =>
               Forall (fun x => snd x = true -> fst (fst x) = snd (fst x))
                      (combine (combine (ki_pred i) (ki_true i)) (ki_mask i))) insts ->
     loss = 0).
Proof.
  intros Hk Hn Hs Hi.
  eexists. split; [apply (point_loss_forward_value sigmas Hs insts Hi Hk Hn)|].
  split; [reflexivity|].
  pose proof (point_loss_sum sigmas Hs insts Hi) as [H0 H1].
  set (S := Rsum (concat (map (point_loss_terms sigmas) insts))) in *.
  set (V := Rsum (map b2r (concat (map ki_mask insts)))) in *.
  assert (HD : 0 < V + eps9) by (unfold eps9; lra).
  split; [split|].
  - apply Rmult_le_pos; [exact H0 | left; apply Rinv_0_lt_compat; exact HD].
  - apply Rmult_le_reg_r with (V + eps9); [exact HD|].
    unfold Rdiv. rewrite Rmult_assoc, Rinv_l by lra. unfold eps9 in *. lra.
  - intros Hex. assert (E : S = 0).
    { unfold S. apply Rsum_zeros. apply Forall_concat. apply Forall_map.
      eapply Forall_impl; [|exact Hex]. intros i. apply point_loss_terms_exact. }
    rewrite E. unfold Rdiv. ring.
Qed.

Lemma point_loss_forward_bounded_witness :
  exists loss,
    point_loss_forward [1 / 2; 1 / 2] kpt_example = Some loss /\
    loss = Rsum (concat (map (point_loss_terms [1 / 2; 1 / 2]) kpt_example))
           / (Rsum (map b2r (concat (map ki_mask kpt_example))) + eps9) /\
    0 <= loss <= 1 /\
    (Forall (fun i =>
               Forall (fun x => snd x = true -> fst (fst x) = snd (fst x))
                      (combine (combine (ki_pred i) (ki_true i)) (ki_mask i)))
            kpt_example ->
     loss = 0).
Proof.
  apply (point_loss_forward_bounded [1 / 2; 1 / 2] kpt_example).
  - simpl. lia.
  - simpl. lia.
  - repeat constructor; lra.
  - constructor; [|constructor]. split; [reflexivity | simpl; lra].
Defined.

(** ** [AverageMeter] *)

Lemma meter_updates_from (calls : list (number * R)) (m : meter) :
  Forall (fun c => 0 < snd c) calls ->
  0 <= m_num m ->
  (m_num m = 0 \/ m_avg m = m_sum m / m_num m) ->
  exists m',
    meter_updates m calls = Some m' /\
    m_num m' = m_num m + Rsum (counted calls) /\
    m_sum m' = m_sum m + Rsum (weighted calls) /\
    (counted calls = [] -> m' = m) /\
    (m_num m' = 0 \/ m_avg m' = m_sum m' / m_num m').
Proof.
  intros Hc. revert m. induction Hc as [|[v n] calls Hn Hcalls IH]; intros m H0 Hinv.
  - exists m. simpl. repeat split; try ring; auto.
  - simpl in Hn. cbn [meter_updates]. destruct v as [|v]; cbn [meter_update bind].
    + destruct (IH m H0 Hinv) as (m' & Hr & E1 & E2 & E3 & E4).
      exists m'. unfold counted, weighted in *. simpl. repeat split; assumption.
    + cbv zeta. rewrite Reqb_false by lra.
      destruct (IH (Meter (m_num m + n) (m_sum m + v * n)
                          ((m_sum m + v * n) / (m_num m + n))))
        as (m' & Hr & E1 & E2 & _ & E4); cbn [m_num m_sum m_avg].
      * lra.
      * right. reflexivity.
      * cbn [m_num m_sum m_avg] in *.
        exists m'. unfold counted, weighted in *. simpl.
        split; [exact Hr|]. split; [rewrite E1; ring|]. split; [rewrite E2; ring|].
        split; [discriminate | exact E4].
Qed.

(** X10. Starting from a new [AverageMeter], after any sequence of
    [update(v, n)] calls with positive counts [n], [num] is the sum of
    the counts and [sum] the sum of [v * n] over the calls whose value is
    not nan, and [avg] is [sum / num], the weighted mean of those values;
    calls with a nan leave the meter as it was, so a meter that has only
    seen nan still reads 0.  A first call with [n = 0] and a value that is
    not nan raises (division by zero). *)
Theorem average_meter_weighted_mean (calls : list (number * R)) :
  Forall (fun c => 0 < snd c) calls ->
  (exists m,
     meter_updates meter_init calls = Some m /\
     m_num m = Rsum (counted calls) /\
     m_sum m = Rsum (weighted calls) /\
     (counted calls = [] -> m = meter_init) /\
     (counted calls <> [] -> 0 < m_num m /\ m_avg m = m_sum m / m_num m)) /\
  (forall v, meter_update meter_init (Num v) 0 = None).
Proof.
  intros Hc. split.
  - destruct (meter_updates_from calls meter_init Hc) as (m & Hr & E1 & E2 & E3 & E4);
      cbn [meter_init m_num m_sum m_avg]; [lra | left; reflexivity |].
    cbn [meter_init m_num m_sum m_avg] in *.
    exists m. split; [exact Hr|]. split; [rewrite E1; ring|]. split; [rewrite E2; ring|].
    split; [exact E3|]. intros Hne.
    assert (Hpos : 0 < Rsum (counted calls)).
    { clear -Hc Hne. induction Hc as [|[v n] calls Hn Hcalls IH]; [contradiction|].
      unfold counted in *. simpl in *. destruct v as [|v]; simpl in *.
      - apply IH. exact Hne.
      - assert (0 <= Rsum (concat (map (fun c => match fst c with
                                                 | NaN => []
                                                 | Num _ => [snd c]
                                                 end) calls))).
        { clear -Hcalls. induction Hcalls as [|[w k] l Hk Hl IH]; simpl; [lra|].
          destruct w; simpl in *; lra. }
        lra. }
    split; [rewrite E1; lra|]. destruct E4 as [E|E]; [rewrite E1 in E; lra | exact E].
  - intros v. unfold meter_update, meter_init. cbn [m_num m_sum].
    rewrite Reqb_true by ring. reflexivity.
Qed.

Lemma average_meter_weighted_mean_witness :
  (exists m,
     meter_updates meter_init [(Num 2, 1); (NaN, 5); (Num 4, 3)] = Some m /\
     m_num m = Rsum (counted [(Num 2, 1); (NaN, 5); (Num 4, 3)]) /\
     m_sum m = Rsum (weighted [(Num 2, 1); (NaN, 5); (Num 4, 3)]) /\
     (counted [(Num 2, 1); (NaN, 5); (Num 4, 3)] = [] -> m = meter_init) /\
     (counted [(Num 2, 1); (NaN, 5); (Num 4, 3)] <> [] ->
      0 < m_num m /\ m_avg m = m_sum m / m_num m)) /\
  (forall v, meter_update meter_init (Num v) 0 = None).
Proof.
  apply (average_meter_weighted_mean [(Num 2, 1); (NaN, 5); (Num 4, 3)]).
  repeat constructor; simpl; lra.
Defined.

(** ** [EMA] *)

Lemma decay_range (decay tau : R) (x : Z) :
  0 < tau -> 0 <= decay <= 1 -> (0 <= x)%Z ->
  0 <= decay * (1 - exp (- IZR x / tau)) < 1.
Proof.
  intros Ht Hd Hx.
  assert (Hq : 0 <= IZR x / tau).
  { apply Rmult_le_pos; [apply IZR_le in Hx; exact Hx|].
    left. apply Rinv_0_lt_compat. exact Ht. }
  assert (He : 0 < exp (- IZR x / tau) <= 1).
  { split; [apply exp_pos|].
    replace (- IZR x / tau) with (- (IZR x / tau)) by (unfold Rdiv; ring).
    destruct Hq as [Hq|Hq].
    - left. rewrite <- exp_0. apply exp_increasing. lra.
    - rewrite <- Hq, Ropp_0, exp_0. lra. }
  split; [apply Rmult_le_pos; lra|]. nra.
Qed.

Lemma convex_between (d x y : R) :
  0 <= d <= 1 -> Rmin x y <= d * x + (1 - d) * y <= Rmax x y.
Proof.
  intros Hd. unfold Rmin, Rmax. destruct (Rle_dec x y); nra.
Qed.

Lemma nth_zipWith {A B C : Type} (f : A -> B -> C) (l1 : list A) (l2 : list B)
    (a : A) (b : B) (c : C) (i : nat) :
  (i < length l1)%nat -> length l2 = length l1 ->
  nth i (zipWith f l1 l2) c = f (nth i l1 a) (nth i l2 b).
Proof.
  revert l2 i. induction l1 as [|x l1 IH]; intros [|y l2] i Hi Hl; simpl in *; try lia.
  destruct i as [|i]; [reflexivity|]. apply IH; lia.
Qed.

Lemma ema_entry_averaged (d : R) (msd : state_dict) (kv : String.string * entry) :
  0 <= d <= 1 -> covered msd kv ->
  exists kv', ema_entry d msd kv = Some kv' /\ averaged d msd kv kv'.
Proof.
  intros Hd Hc. unfold covered in Hc. unfold ema_entry, averaged.
  destruct kv as [k [v|z]]; cbn [fst snd] in *.
  - destruct Hc as (m & Hm & Hl). rewrite Hm. cbn [bind]. cbv zeta.
    rewrite Hl, Nat.eqb_refl. eexists. split; [reflexivity|].
    cbn [fst snd]. split; [reflexivity|].
    exists m, (zipWith (fun x y => x * d + (1 - d) * y) v (to_float m)).
    split; [reflexivity|]. split; [reflexivity|].
    split; [apply zipWith_length; symmetry; exact Hl|].
    intros i Hi. rewrite (nth_zipWith _ v (to_float m) 0 0 0 i Hi Hl).
    split; [ring|].
    replace (nth i v 0 * d + (1 - d) * nth i (to_float m) 0)
      with (d * nth i v 0 + (1 - d) * nth i (to_float m) 0) by ring.
    apply convex_between. exact Hd.
  - eexists. split; [reflexivity|]. split; reflexivity.
Qed.

Lemma ema_entries_averaged (d : R) (msd st : state_dict) :
  0 <= d <= 1 -> Forall (covered msd) st ->
  exists st', mapM (ema_entry d msd) st = Some st' /\ Forall2 (averaged d msd) st st'.
Proof.
  intros Hd Hc. induction Hc as [|kv st Hkv Hst IH].
  - exists []. split; [reflexivity | constructor].
  - destruct (ema_entry_averaged d msd kv Hd Hkv) as (kv' & E & Ha).
    destruct IH as (st' & E' & Hf).
    exists (kv' :: st'). split; [|constructor; assumption].
    cbn [mapM]. rewrite E. cbn [bind]. rewrite E'. reflexivity.
Qed.

Lemma ema_entries_missing (d : R) (msd st : state_dict) (k : String.string) (v : list R) :
  In (k, Floating v) st -> state_get k msd = None ->
  mapM (ema_entry d msd) st = None.
Proof.
  intros Hin Hk. induction st as [|kv st IH]; [contradiction|].
  cbn [mapM]. destruct Hin as [->|Hin].
  - unfold ema_entry. cbn [fst snd]. rewrite Hk. reflexivity.
  - destruct (ema_entry d msd kv); [|reflexivity]. cbn [bind].
    rewrite (IH Hin). reflexivity.
Qed.

(** X11. [EMA.update], for [tau > 0], a decay in [0, 1] and a counter
    that is not negative.  When the model's state dict has an entry of
    the same name and size for every floating-point entry of the average,
    the update returns; the counter is one more, and with
    [d = decay * (1 - exp (- updates / tau))] at the new counter, which
    lies in [0, 1), every floating-point value becomes
    [d * old + (1 - d) * model], a value between the old one and the
    model's; the names, their order and the integer entries are as they
    were.  When a floating-point entry has no entry of its name in the
    model's state dict, the update raises, and so does any update with
    [tau = 0]. *)
Theorem ema_update_moves_towards_model (e : ema) (msd : state_dict) :
  0 < ema_tau e -> 0 <= ema_decay e <= 1 -> (0 <= ema_updates e)%Z ->
  (Forall (covered msd) (ema_state e) ->
   exists e' d,
     ema_update e msd = Some e' /\
     ema_updates e' = (ema_updates e + 1)%Z /\
     ema_decay e' = ema_decay e /\ ema_tau e' = ema_tau e /\
     d = ema_decay e * (1 - exp (- IZR (ema_updates e + 1) / ema_tau e)) /\
     0 <= d < 1 /\
     Forall2 (averaged d msd) (ema_state e) (ema_state e')) /\
  (forall k v, In (k, Floating v) (ema_state e) -> state_get k msd = None ->
     ema_update e msd = None) /\
  (forall st u decay, ema_update (EMA st u decay 0) msd = None).
Proof.
  intros Ht Hd Hu.
  assert (Hr := decay_range (ema_decay e) (ema_tau e) (ema_updates e + 1) Ht Hd
                  ltac:(lia)).
  split; [|split].
  - intros Hc.
    destruct (ema_entries_averaged
                (ema_decay e * (1 - exp (- IZR (ema_updates e + 1) / ema_tau e)))
                msd (ema_state e)) as (st' & E & Hf); [lra | exact Hc |].
    exists (EMA st' (ema_updates e + 1) (ema_decay e) (ema_tau e)). eexists.
    unfold ema_update, decay_at. rewrite Reqb_false by lra. cbn [bind].
    rewrite E. cbn [bind ema_state ema_updates ema_decay ema_tau].
    repeat split; try reflexivity; try apply Hr. exact Hf.
  - intros k v Hin Hk. unfold ema_update, decay_at. rewrite Reqb_false by lra.
    cbn [bind]. rewrite (ema_entries_missing _ msd _ k v Hin Hk). reflexivity.
  - intros st u decay. unfold ema_update, decay_at. cbn [ema_tau].
    rewrite Reqb_true by reflexivity. reflexivity.
Qed.

Lemma ema_update_moves_towards_model_witness :
  (Forall (covered msd_example) (ema_state ema_example) ->
   exists e' d,
     ema_update ema_example msd_example = Some e' /\
     ema_updates e' = (ema_updates ema_example + 1)%Z /\
     ema_decay e' = ema_decay ema_example /\ ema_tau e' = ema_tau ema_example /\
     d = ema_decay ema_example
         * (1 - exp (- IZR (ema_updates ema_example + 1) / ema_tau ema_example)) /\
     0 <= d < 1 /\
     Forall2 (averaged d msd_example) (ema_state ema_example) (ema_state e')) /\
  (forall k v, In (k, Floating v) (ema_state ema_example) ->
     state_get k msd_example = None -> ema_update ema_example msd_example = None) /\
  (forall st u decay, ema_update (EMA st u decay 0) msd_example = None).
Proof.
  apply (ema_update_moves_towards_model ema_example msd_example).
  - simpl. lra.
  - simpl. lra.
  - simpl. lia.
Defined.

Lemma ema_example_covered : Forall (covered msd_example) (ema_state ema_example).
Proof.
  repeat constructor. exists (Floating [2; 1]). split; reflexivity.
Qed.

(** ** [smooth] *)

Lemma py_round_nonneg (x : R) : 0 <= x -> (0 <= py_round x)%Z.
Proof.
  intros Hx. pose proof (Zfloor_nonneg x Hx) as Hf. unfold py_round.
  destruct (Rltb _ _); [exact Hf|].
  destruct (Rltb _ _); [lia|]. destruct (Z.even _); lia.
Qed.

Lemma py_round_small (x : R) :
  0 <= x < 3 / 2 -> py_round x = 0%Z \/ py_round x = 1%Z.
Proof.
  intros [H0 H1]. pose proof (Zfloor_nonneg x H0) as Hf.
  pose proof (Zfloor_bound x) as [Hb1 Hb2].
  assert (Hlt : (Zfloor x < 2)%Z).
  { apply lt_IZR. lra. }
  assert (Hc : Zfloor x = 0%Z \/ Zfloor x = 1%Z) by lia.
  unfold py_round. destruct Hc as [E|E]; rewrite E in *; simpl in Hb1, Hb2.
  - destruct (Rltb _ _); [left; reflexivity|].
    destruct (Rltb _ _); [right; reflexivity|]. left. reflexivity.
  - rewrite Rltb_true by (simpl; lra). right. reflexivity.
Qed.

Lemma filter_size_positive (x : R) : 0 <= x -> (1 <= filter_size x)%Z.
Proof.
  intros Hx. unfold filter_size.
  pose proof (py_round_nonneg x Hx) as H.
  pose proof (Z.div_pos _ 2 H ltac:(lia)). lia.
Qed.

Lemma windows_length (a v : list R) :
  length (windows a v) = (length a - length v + 1)%nat.
Proof. unfold windows. rewrite length_map, length_seq. reflexivity. Qed.

Lemma Forall_skipn_of {A : Type} (P : A -> Prop) (n : nat) (l : list A) :
  Forall P l -> Forall P (skipn n l).
Proof.
  revert l. induction n as [|n IH]; intros l H; [exact H|].
  destruct H as [|a l Ha Hl]; [constructor|]. simpl. apply IH. exact Hl.
Qed.

Lemma Rsum_const_weights (c : R) (a w : list R) :
  length a = length w -> Forall (fun x => x = c) w ->
  Rsum (zipWith Rmult a w) = c * Rsum a.
Proof.
  revert w. induction a as [|x a IH]; intros [|y w] Hl Hw; simpl in *; try discriminate.
  - ring.
  - inversion Hw as [|? ? Hy Hw']; subst. rewrite (IH w); [ring | lia | exact Hw'].
Qed.

Lemma Rsum_bounds (lo hi : R) (a : list R) :
  Forall (fun v => lo <= v <= hi) a ->
  INR (length a) * lo <= Rsum a <= INR (length a) * hi.
Proof.
  induction 1 as [|x a Hx Ha IH].
  - simpl. lra.
  - change (length (x :: a)) with (S (length a)). rewrite S_INR. simpl. lra.
Qed.

Lemma windows_bounds (lo hi : R) (a : list R) (m : nat) (c : R) :
  (1 <= m <= length a)%nat -> c * INR m = 1 ->
  Forall (fun v => lo <= v <= hi) a ->
  Forall (fun v => lo <= v <= hi) (windows a (repeat c m)).
Proof.
  intros Hm Hc Ha. unfold windows. rewrite repeat_length.
  apply Forall_forall. intros v Hv. apply in_map_iff in Hv.
  destruct Hv as (i & <- & Hi). apply in_seq in Hi.
  assert (Hlen : length (firstn m (skipn i a)) = m).
  { rewrite length_firstn, length_skipn. lia. }
  rewrite (Rsum_const_weights c).
  - assert (Hw : Forall (fun v => lo <= v <= hi) (firstn m (skipn i a))).
    { apply Forall_firstn. apply Forall_skipn_of. exact Ha. }
    pose proof (Rsum_bounds lo hi _ Hw) as Hb. rewrite Hlen in Hb.
    assert (Hpos : 0 < c).
    { assert (0 < INR m) by (apply lt_0_INR; lia).
      destruct (Rle_or_lt c 0) as [Hle|Hlt]; [nra | exact Hlt]. }
    split.
    + apply Rmult_le_reg_r with (INR m); [apply lt_0_INR; lia|].
      replace (lo * INR m) with (c * INR m * (INR m * lo)) by (rewrite Hc; ring).
      replace (c * Rsum (firstn m (skipn i a)) * INR m)
        with (c * INR m * Rsum (firstn m (skipn i a))) by ring.
      rewrite Hc. lra.
    + apply Rmult_le_reg_r with (INR m); [apply lt_0_INR; lia|].
      replace (hi * INR m) with (c * INR m * (INR m * hi)) by (rewrite Hc; ring).
      replace (c * Rsum (firstn m (skipn i a)) * INR m)
        with (c * INR m * Rsum (firstn m (skipn i a))) by ring.
      rewrite Hc. lra.
  - rewrite Hlen, length_rev, repeat_length. reflexivity.
  - apply Forall_forall. intros x Hx. apply in_rev in Hx.
    apply repeat_spec in Hx. exact Hx.
Qed.

Lemma windows_unit (a : list R) : a <> [] -> windows a [1] = a.
Proof.
  intros Ha. unfold windows. cbn [length rev app].
  replace (length a - 1 + 1)%nat with (length a)
    by (destruct a; [contradiction | simpl; lia]).
  clear Ha. induction a as [|x a IH]; [reflexivity|].
  cbn [length seq map]. f_equal.
  - cbn. ring.
  - rewrite <- seq_shift, map_map. exact IH.
Qed.

Lemma smooth_padded (lo hi y0 yl : R) (y : list R) (k : nat) :
  lo <= y0 <= hi -> lo <= yl <= hi -> Forall (fun v => lo <= v <= hi) y ->
  Forall (fun v => lo <= v <= hi)
         (map (fun o => o * y0) (repeat 1 k) ++ y ++ map (fun o => o * yl) (repeat 1 k)).
Proof.
  intros H0 Hl Hy.
  assert (Hp : forall z, lo <= z <= hi ->
                 Forall (fun v => lo <= v <= hi) (map (fun o => o * z) (repeat 1 k))).
  { intros z Hz. apply Forall_forall. intros v Hv. apply in_map_iff in Hv.
    destruct Hv as (o & <- & Ho). apply repeat_spec in Ho. subst o. lra. }
  apply Forall_app. split; [apply Hp; exact H0|].
  apply Forall_app. split; [exact Hy | apply Hp; exact Hl].
Qed.

Lemma last_in_list {A : Type} (l : list A) (d : A) : l <> [] -> In (last l d) l.
Proof.
  intros Hne. destruct (exists_last Hne) as (l' & a & ->).
  rewrite last_last. apply in_or_app. right. left. reflexivity.
Qed.

Lemma Zfloor_2 : Zfloor 2 = 2%Z.
Proof. apply Zfloor_eq. simpl. lra. Qed.

Lemma smooth_even_filter (fmul : R -> R -> R) :
  fmul (fmul (INR 2) (1 / 2)) 2 = 2 ->
  smooth fmul [0; 1] (1 / 2) = Some [0; 1 / 2; 1].
Proof.
  intros Hx.
  assert (E : filter_size 2 = 2%Z).
  { unfold filter_size, py_round.
    rewrite Zfloor_2. rewrite Rltb_true by (simpl; lra). reflexivity. }
  unfold smooth. cbn [length]. rewrite Hx, E.
  change (2 / 2)%Z with 1%Z. change (Z.to_nat 1) with 1%nat.
  change (Z.to_nat 2) with 2%nat. cbn.
  apply f_equal.
  apply f_equal2; [field | apply f_equal2; [field | apply f_equal2; [field | reflexivity]]].
Qed.

(** X12. [smooth(y, f)] for a non-empty [y] and [f >= 0], where the
    product [len(y) * f * 2] is the one Python computes in doubles (a
    rounded product of numbers that are not negative is not negative).
    The number of filter elements [nf = round(len(y) * f * 2) // 2 + 1]
    is at least 1, and the call returns.  The result has as many entries
    as [y] when [nf] is odd and one more when [nf] is even (which the
    rounding does not exclude: [y = [0, 1]], [f = 0.5] give the product 2,
    [nf = 2] and three entries).  Every entry lies between the bounds of
    the entries of [y], and the result is [y] itself when the computed
    product is below 1.5.  An empty [y] is refused. *)
Theorem smooth_box_filter (fmul : R -> R -> R) (y : list R) (f lo hi : R) :
  (forall a b, 0 <= a -> 0 <= b -> 0 <= fmul a b) ->
  y <> [] -> 0 <= f -> Forall (fun v => lo <= v <= hi) y ->
  (exists out,
     smooth fmul y f = Some out /\
     (1 <= filter_size (fmul (fmul (INR (length y)) f) 2%R))%Z /\
     length out = (if Z.odd (filter_size (fmul (fmul (INR (length y)) f) 2))
                   then length y else S (length y)) /\
     Forall (fun v => lo <= v <= hi) out /\
     (fmul (fmul (INR (length y)) f) 2 < 3 / 2 -> out = y)) /\
  (fmul (fmul (INR 2) (1 / 2)) 2 = 2 ->
   smooth fmul [0; 1] (1 / 2) = Some [0; 1 / 2; 1]) /\
  smooth fmul [] f = None.
Proof.
  intros Hmul Hne Hf Hy. split; [|split; [apply smooth_even_filter|]].
  2:{ unfold smooth. destruct (_ <? _)%Z; reflexivity. }
  assert (Hx : 0 <= fmul (fmul (INR (length y)) f) 2).
  { apply Hmul; [apply Hmul; [apply pos_INR | exact Hf] | lra]. }
  pose proof (filter_size_positive _ Hx) as Hnf.
  destruct y as [|y0 y']; [contradiction|]. set (y := y0 :: y') in *.
  set (x := fmul (fmul (INR (length y)) f) 2) in *.
  set (nf := filter_size x) in *.
  set (k := Z.to_nat (nf / 2)).
  set (yp := map (fun o => o * y0) (repeat 1 k) ++ y
             ++ map (fun o => o * last y 0) (repeat 1 k)).
  assert (Hyp : length yp = (2 * k + length y)%nat).
  { unfold yp. rewrite !length_app, !length_map, !repeat_length. lia. }
  assert (Hly : (1 <= length y)%nat) by (unfold y; simpl; lia).
  assert (Hk : (2 * k <= Z.to_nat nf <= 2 * k + 1)%nat /\
               Z.to_nat nf = (if Z.odd nf then 2 * k + 1 else 2 * k)%nat).
  { unfold k. pose proof (Zmod_odd nf) as Ho.
    pose proof (Z.div_mod nf 2 ltac:(lia)) as Hd.
    destruct (Z.odd nf); split; lia. }
  assert (Hs : smooth fmul y f = Some (windows yp (repeat (1 / IZR nf) (Z.to_nat nf)))).
  { unfold smooth. fold x. fold nf.
    assert (E : (nf / 2 <? 0)%Z = false).
    { apply Z.ltb_ge. apply Z.div_pos; lia. }
    rewrite E. unfold y at 1. cbv zeta. fold y. fold k. fold yp.
    unfold convolve_valid.
    assert (Ey : exists a yp', yp = a :: yp').
    { destruct yp as [|a yp']; [simpl in Hyp; lia | eauto]. }
    destruct Ey as (a & yp' & Ey).
    assert (Er : exists c r', repeat (1 / IZR nf) (Z.to_nat nf) = c :: r').
    { destruct (Z.to_nat nf) as [|m] eqn:Em; [lia | simpl; eauto]. }
    destruct Er as (c & r' & Er).
    rewrite Ey at 1. rewrite Er at 1. rewrite repeat_length.
    assert (El : (length yp <? Z.to_nat nf)%nat = false).
    { apply Nat.ltb_ge. lia. }
    rewrite El. reflexivity. }
  exists (windows yp (repeat (1 / IZR nf) (Z.to_nat nf))).
  split; [exact Hs|]. split; [exact Hnf|].
  assert (Hc : 1 / IZR nf * INR (Z.to_nat nf) = 1).
  { rewrite INR_IZR_INZ, Z2Nat.id by lia.
    assert (0 < IZR nf) by (apply IZR_lt; lia). field. lra. }
  split; [|split].
  - rewrite windows_length, repeat_length, Hyp.
    destruct Hk as [_ Hk]. destruct (Z.odd nf); lia.
  - apply windows_bounds; [lia | exact Hc |].
    unfold yp. apply smooth_padded; [| |exact Hy].
    + inversion Hy; assumption.
    + rewrite Forall_forall in Hy. apply Hy.
      apply last_in_list. exact Hne.
  - intros Hsmall.
    assert (Hr : py_round x = 0%Z \/ py_round x = 1%Z).
    { apply py_round_small. split; [exact Hx | exact Hsmall]. }
    assert (E1 : nf = 1%Z).
    { unfold nf, filter_size. destruct Hr as [-> | ->]; reflexivity. }
    assert (Ek : k = 0%nat) by (unfold k; rewrite E1; reflexivity).
    unfold yp. rewrite Ek, E1. cbn [repeat map app Z.to_nat Pos.to_nat Pos.iter_op].
    rewrite app_nil_r.
    replace (1 / 1) with 1 by field. apply windows_unit. discriminate.
Qed.

Lemma smooth_box_filter_witness :
  (exists out,
     smooth Rmult [0; 1] (1 / 2) = Some out /\
     (1 <= filter_size (INR (length [0; 1]) * (1 / 2) * 2)%R)%Z /\
     length out = (if Z.odd (filter_size (INR (length [0; 1]) * (1 / 2) * 2))
                   then length [0; 1] else S (length [0; 1])) /\
     Forall (fun v => 0 <= v <= 1) out /\
     (INR (length [0; 1]) * (1 / 2) * 2 < 3 / 2 -> out = [0; 1])) /\
  (INR 2 * (1 / 2) * 2 = 2 ->
   smooth Rmult [0; 1] (1 / 2) = Some [0; 1 / 2; 1]) /\
  smooth Rmult [] (1 / 2) = None.
Proof.
  apply (smooth_box_filter Rmult [0; 1] (1 / 2) 0 1).
  - intros a b Ha Hb. apply Rmult_le_pos; assumption.
  - discriminate.
  - lra.
  - repeat constructor; lra.
Defined.

(** ** [compute_ap]: the range of the average precision *)

Lemma scan_bracket (key : R) (arr : list R) (i : nat) :
  (scan key arr i <= i + length arr)%nat /\
  ((scan key arr i - i < length arr)%nat -> key < nth (scan key arr i - i) arr 0) /\
  (forall m, (m < scan key arr i - i)%nat -> nth m arr 0 <= key).
Proof.
  revert i. induction arr as [|a arr IH]; intros i; cbn [scan length].
  - split; [lia|]. split; intros; lia.
  - destruct (Rleb a key) eqn:E.
    + destruct (IH (S i)) as (H1 & H2 & H3). pose proof (scan_ge key arr (S i)) as G.
      split; [lia|]. split.
      * intros Hlt.
        replace (scan key arr (S i) - i)%nat with (S (scan key arr (S i) - S i)) by lia.
        cbn [nth]. apply H2. lia.
      * intros m Hm. destruct m as [|m]; cbn [nth].
        -- apply Rleb_spec. exact E.
        -- apply H3. lia.
    + split; [lia|]. split.
      * intros _. replace (i - i)%nat with 0%nat by lia. cbn [nth].
        destruct (Rle_or_lt a key) as [Hle|Hlt]; [|exact Hlt].
        rewrite (Rleb_true a key Hle) in E. discriminate.
      * intros m Hm. lia.
Qed.

Lemma unit_range_nth (l : list R) (k : nat) :
  Forall unit_range l -> unit_range (nth k l 0).
Proof.
  intros H. destruct (Nat.lt_ge_cases k (length l)) as [Hk|Hk].
  - rewrite Forall_forall in H. apply H. apply nth_In. exact Hk.
  - rewrite nth_overflow by exact Hk. unfold unit_range. lra.
Qed.

Lemma unit_range_last (l : list R) : Forall unit_range l -> unit_range (last l 0).
Proof.
  intros H. destruct l as [|a l]; [unfold unit_range; simpl; lra|].
  rewrite Forall_forall in H. apply H. apply last_in_list. discriminate.
Qed.

Lemma interp1_unit_range (left x : R) (xp fp : list R) :
  unit_range left -> Forall unit_range fp -> unit_range (interp1 left xp fp x).
Proof.
  intros Hleft Hfp. unfold interp1, binary_search.
  destruct xp as [|a0 rest]; [exact Hleft|].
  destruct (Rltb (last (a0 :: rest) 0) x).
  { cbv zeta. destruct (Z.eqb_spec (Z.of_nat (length (a0 :: rest))) (-1)); [exact Hleft|].
    rewrite Z.eqb_refl. apply unit_range_last. exact Hfp. }
  destruct (Rltb x a0) eqn:E0; [exact Hleft|].
  destruct (scan_bracket x rest 1) as (S1 & S2 & S3).
  pose proof (scan_ge x rest 1) as G.
  set (s := scan x rest 1) in *. cbv zeta. cbn [length].
  destruct (Z.eqb_spec (Z.of_nat s - 1) (-1)); [lia|].
  destruct (Z.eqb_spec (Z.of_nat s - 1) (Z.of_nat (S (length rest)))); [lia|].
  replace (Z.to_nat (Z.of_nat s - 1)) with (s - 1)%nat by lia.
  destruct (Z.eqb_spec (Z.of_nat s - 1) (Z.of_nat (S (length rest)) - 1));
    [apply unit_range_nth; exact Hfp|].
  destruct (Reqb (nth (s - 1) (a0 :: rest) 0) x) eqn:Eq;
    [apply unit_range_nth; exact Hfp|].
  assert (Hhi : x < nth (S (s - 1)) (a0 :: rest) 0).
  { cbn [nth]. apply S2. lia. }
  assert (Hlo : nth (s - 1) (a0 :: rest) 0 <= x).
  { destruct (s - 1)%nat as [|k] eqn:Ek; cbn [nth].
    - destruct (Rle_or_lt a0 x) as [Hle|Hlt]; [exact Hle|].
      rewrite (Rltb_true x a0 Hlt) in E0. discriminate.
    - apply S3. lia. }
  pose proof (unit_range_nth fp (s - 1) Hfp) as Hp.
  pose proof (unit_range_nth fp (S (s - 1)) Hfp) as Hq.
  set (a := nth (s - 1) (a0 :: rest) 0) in *.
  set (b := nth (S (s - 1)) (a0 :: rest) 0) in *.
  set (p := nth (s - 1) fp 0) in *. set (q := nth (S (s - 1)) fp 0) in *.
  unfold unit_range in *.
  assert (Ht : 0 <= (x - a) / (b - a) <= 1).
  { split.
    - apply Rmult_le_pos; [lra|]. left. apply Rinv_0_lt_compat. lra.
    - apply Rmult_le_reg_r with (b - a); [lra|].
      unfold Rdiv. rewrite Rmult_assoc, Rinv_l by lra. lra. }
  replace ((q - p) / (b - a) * (x - a) + p)
    with (p + (x - a) / (b - a) * (q - p)) by (field; lra).
  nra.
Qed.

Lemma maximum_accumulate_from_range (m : R) (l : list R) :
  unit_range m -> Forall unit_range l -> Forall unit_range (maximum_accumulate_from m l).
Proof.
  intros Hm Hl. revert m Hm. induction Hl as [|x l Hx Hl IH]; intros m Hm; simpl.
  - constructor.
  - assert (Hmax : unit_range (Rmax m x)).
    { unfold unit_range in *. unfold Rmax. destruct (Rle_dec m x); lra. }
    constructor; [exact Hmax | apply IH; exact Hmax].
Qed.

Lemma maximum_accumulate_from_length (m : R) (l : list R) :
  length (maximum_accumulate_from m l) = length l.
Proof.
  revert m. induction l as [|x l IH]; intros m; simpl; [reflexivity|].
  rewrite IH. reflexivity.
Qed.

(** The precision envelope: values in the unit interval, one for each
    recall point, and then the closing 0. *)
Lemma envelope_shape (precision : list R) :
  Forall unit_range precision ->
  exists env,
    rev (maximum_accumulate (rev ([1] ++ precision ++ [0]))) = env ++ [0] /\
    length env = S (length precision) /\ Forall unit_range env.
Proof.
  intros Hp.
  exists (rev (maximum_accumulate_from 0 (rev precision ++ [1]))).
  split; [|split].
  - cbn [app]. cbn [rev]. rewrite rev_app_distr. cbn [rev app maximum_accumulate].
    reflexivity.
  - rewrite length_rev, maximum_accumulate_from_length, length_app, length_rev.
    simpl. lia.
  - apply Forall_rev. apply maximum_accumulate_from_range.
    + unfold unit_range. lra.
    + apply Forall_app. split; [apply Forall_rev; exact Hp|].
      constructor; [unfold unit_range; lra | constructor].
Qed.

Lemma trapz_grid_range (c : R) (m s : nat) (ys : list R) :
  0 < c -> length ys = S m -> Forall unit_range ys ->
  0 <= trapz ys (map (fun k => INR k / c) (seq s (S m))) <= INR m / c.
Proof.
  intros Hc. revert s ys. induction m as [|m IH]; intros s ys Hl Hy.
  - destruct ys as [|y0 [|y1 ys]]; simpl in Hl; try lia. simpl. lra.
  - destruct ys as [|y0 [|y1 ys]]; simpl in Hl; try lia.
    change (trapz (y0 :: y1 :: ys) (map (fun k => INR k / c) (seq s (S (S m)))))
      with ((INR (S s) / c - INR s / c) * (y1 + y0) / 2
            + trapz (y1 :: ys) (map (fun k => INR k / c) (seq (S s) (S m)))).
    inversion Hy as [|? ? H0 Hy']; subst. inversion Hy' as [|? ? H1 _]; subst.
    specialize (IH (S s) (y1 :: ys) ltac:(simpl; lia) Hy').
    rewrite !S_INR.
    assert (Hi : 0 < / c) by (apply Rinv_0_lt_compat; exact Hc).
    unfold unit_range in *. unfold Rdiv in *.
    replace ((INR s + 1) * / c - INR s * / c) with (/ c) by ring.
    split; [nra|]. replace ((INR m + 1) * / c) with (/ c + INR m * / c) by ring.
    destruct IH as [_ IH]. nra.
Qed.

Lemma last_map_seq {B : Type} (g : nat -> B) (s n : nat) (d : B) :
  last (map g (seq s (S n))) d = g (s + n)%nat.
Proof.
  rewrite seq_S, map_app. cbn [map]. apply last_last.
Qed.

(** The area under the envelope by the 101-point rule, for a recall curve
    that does not exceed 1: the interpolated curve ends in the closing 0,
    so the area is at most 0.995. *)
Lemma average_precision_range (recall precision : list R) :
  length recall = length precision ->
  Forall (fun r => r <= 1) recall -> Forall unit_range precision ->
  0 <= average_precision recall precision <= 199 / 200.
Proof.
  intros Hl Hr Hp. unfold average_precision. cbv zeta.
  destruct (envelope_shape precision Hp) as (env & -> & Hlen & Henv).
  assert (Henv0 : Forall unit_range (env ++ [0])).
  { apply Forall_app. split; [exact Henv|].
    constructor; [unfold unit_range; lra | constructor]. }
  set (g := interp1 (nth 0 (env ++ [0]) 0) ([0] ++ recall ++ [1]) (env ++ [0])).
  assert (Hg : forall x, unit_range (g x)).
  { intros x. unfold g. apply interp1_unit_range; [|exact Henv0].
    apply unit_range_nth. exact Henv0. }
  assert (Hg1 : g (INR 100 / INR 100) = 0).
  { unfold g. replace (INR 100 / INR 100) with 1 by (rewrite INR_100; field).
    change ([0] ++ recall ++ [1]) with (0 :: (recall ++ [1])).
    rewrite interp1_last.
    - rewrite length_app. cbn [length].
      rewrite app_nth2 by lia.
      replace (length recall + 1 - length env)%nat with 0%nat by lia. reflexivity.
    - rewrite app_comm_cons, last_last. lra.
    - lra.
    - apply Forall_app. split; [exact Hr|]. constructor; [lra | constructor]. }
  unfold interp, linspace01. fold g.
  rewrite (seq_S 100 0), !map_app. cbn [map Nat.add].
  rewrite trapz_snoc;
    [| rewrite !length_map; reflexivity | rewrite !length_map, length_seq; lia].
  rewrite Hg1.
  pose proof (trapz_grid_range (INR 100) 99 0
                (map g (map (fun k => INR k / INR 100) (seq 0 100))))
    as Ht.
  rewrite INR_100 in *. 
  specialize (Ht ltac:(lra) ltac:(rewrite !length_map, length_seq; reflexivity)).
  assert (Hy : Forall unit_range (map g (map (fun k => INR k / 100) (seq 0 100)))).
  { apply Forall_forall. intros v Hv. apply in_map_iff in Hv.
    destruct Hv as (x & <- & _). apply Hg. }
  specialize (Ht Hy).
  pose proof (unit_range_last _ Hy) as Hlast.
  rewrite (last_map_seq (fun k => INR k / 100) 0 99 0).
  cbn [Nat.add]. rewrite INR_99 in *. unfold unit_range in Hlast.
  lra.
Qed.

Lemma cumsum_from_length (a : R) (l : list R) : length (cumsum_from a l) = length l.
Proof.
  revert a. induction l as [|x l IH]; intros a; simpl; [reflexivity|].
  rewrite IH. reflexivity.
Qed.

Lemma cumsum_from_bounds (a : R) (l : list R) :
  Forall unit_range l ->
  Forall (fun t => a <= t <= a + Rsum l) (cumsum_from a l).
Proof.
  intros H. revert a. induction H as [|x l Hx Hl IH]; intros a; simpl.
  - constructor.
  - assert (H0 : 0 <= Rsum l).
    { clear -Hl. induction Hl as [|y l Hy _ IH]; simpl; [lra|].
      unfold unit_range in Hy. lra. }
    unfold unit_range in Hx. constructor; [lra|].
    eapply Forall_impl; [|apply (IH (a + x))]. simpl. intros t Ht. lra.
Qed.

Lemma precision_range (a b : R) (col : list R) :
  0 <= a -> 0 <= b -> Forall unit_range col ->
  Forall unit_range
    (zipWith (fun t f => t / (t + f)) (cumsum_from a col)
             (cumsum_from b (map (fun t => 1 - t) col))).
Proof.
  intros Ha Hb H. revert a b Ha Hb.
  induction H as [|x col Hx Hcol IH]; intros a b Ha Hb; simpl.
  - constructor.
  - unfold unit_range in Hx. constructor.
    + unfold unit_range. split.
      * apply Rmult_le_pos; [lra|]. left. apply Rinv_0_lt_compat. lra.
      * apply Rmult_le_reg_r with (a + x + (b + (1 - x))); [lra|].
        unfold Rdiv. rewrite Rmult_assoc, Rinv_l by lra. lra.
    + apply IH; lra.
Qed.

Lemma tp_column_counts (j : nat) (rows : list (list bool)) (col : list R) :
  tp_column j rows = Some col ->
  length col = length rows /\ Forall unit_range col /\
  Rsum col = INR (length (filter (fun r => nth j r false) rows)).
Proof.
  unfold tp_column. revert col. induction rows as [|r rows IH]; intros col H.
  - injection H as <-. simpl. split; [reflexivity|]. split; [constructor | reflexivity].
  - cbn [mapM] in H. destruct (nth_error r j) as [b|] eqn:E; [|discriminate].
    cbn [option_map bind] in H.
    destruct (mapM _ rows) as [col'|]; [|discriminate]. cbn [bind] in H.
    injection H as <-. destruct (IH col' eq_refl) as (H1 & H2 & H3).
    cbn [filter]. rewrite (nth_error_nth _ _ false E).
    split; [simpl; lia|]. split.
    + constructor; [|exact H2]. unfold unit_range. destruct b; simpl; lra.
    + cbn [Rsum fold_right]. fold (Rsum col'). rewrite H3.
      destruct b; cbn [b2r length]; [rewrite S_INR|]; ring.
Qed.

Lemma unit_row_mean (hi : R) (l : list R) :
  l <> [] -> Forall (fun v => 0 <= v <= hi) l -> 0 <= mean l <= hi.
Proof.
  intros Hne Hl. unfold mean. pose proof (Rsum_bounds 0 hi l Hl) as Hb.
  assert (Hn : 0 < INR (length l)).
  { apply lt_0_INR. destruct l; [contradiction | simpl; lia]. }
  split.
  - apply Rmult_le_pos; [lra|]. left. apply Rinv_0_lt_compat. exact Hn.
  - apply Rmult_le_reg_r with (INR (length l)); [exact Hn|].
    unfold Rdiv. rewrite Rmult_assoc, Rinv_l by lra. lra.
Qed.

Lemma unique_counts_in (c : Z) (n : nat) (l : list Z) :
  In (c, n) (unique_counts l) -> n = count_of c l.
Proof.
  intros Hin. rewrite <- lookup_unique_counts.
  pose proof (unique_counts_sorted l) as Hs.
  induction Hs as [|[d k] L HL IH Hd]; [contradiction|].
  cbn [lookup]. destruct Hin as [E|Hin].
  - injection E as -> ->. rewrite Z.eqb_refl. reflexivity.
  - destruct (Z.eqb_spec d c) as [->|Hne]; [|apply IH; exact Hin].
    rewrite Forall_forall in Hd. specialize (Hd _ Hin).
    unfold key_lt in Hd. simpl in Hd. lia.
Qed.

Lemma unique_counts_nonempty (l : list Z) : l <> [] -> unique_counts l <> [].
Proof.
  destruct l as [|a l]; [contradiction|]. intros _.
  cbn [unique_counts fold_right]. destruct (fold_right count_into [] l) as [|[d n] L].
  - discriminate.
  - simpl. destruct (a <? d)%Z; [discriminate|]. destruct (a =? d)%Z; discriminate.
Qed.

(** One class: every entry of its row of [ap] is in range when the true
    positives of each column are no more than the labels. *)
Lemma ap_of_class_range (niou : nat) (dets : list detection) (c : Z) (nl : nat)
    (row : list R) :
  (forall j, (length (filter (fun r => nth j r false)
                             (map det_tp (filter (fun d => (det_cls d =? c)%Z) dets)))
              <= nl)%nat) ->
  ap_of_class niou dets c nl = Some row ->
  Forall (fun v => 0 <= v <= 199 / 200) row.
Proof.
  intros Htp. unfold ap_of_class. cbv zeta.
  set (rows := map det_tp (filter (fun d => (det_cls d =? c)%Z) dets)) in *.
  destruct ((length rows =? 0)%nat || (nl =? 0)%nat).
  - intros H. injection H as <-. apply Forall_forall. intros v Hv.
    apply repeat_spec in Hv. subst v. lra.
  - intros H. eapply Forall_impl; [|apply (mapM_out _ _ _ H)].
    intros v (j & _ & Hv). cbv beta in Hv.
    destruct (tp_column j rows) as [col|] eqn:Ecol; [|discriminate].
    cbn [bind] in Hv. injection Hv as <-.
    destruct (tp_column_counts j rows col Ecol) as (Hlen & H01 & Hsum).
    apply average_precision_range.
    + rewrite length_map. unfold cumsum.
      rewrite zipWith_length; rewrite !cumsum_from_length; [reflexivity|].
      rewrite length_map. reflexivity.
    + apply Forall_forall. intros r Hr. apply in_map_iff in Hr.
      destruct Hr as (t & <- & Ht).
      pose proof (cumsum_from_bounds 0 col H01) as Hb.
      rewrite Forall_forall in Hb. specialize (Hb t Ht). cbv beta in Hb.
      rewrite Hsum in Hb.
      assert (Hle : INR (length (filter (fun r => nth j r false) rows)) <= INR nl)
        by (apply le_INR; apply Htp).
      pose proof eps16_pos. pose proof (pos_INR nl).
      apply Rmult_le_reg_r with (INR nl + eps16); [lra|].
      unfold Rdiv. rewrite Rmult_assoc, Rinv_l by lra. lra.
    + unfold cumsum. apply precision_range; [lra | lra | exact H01].
Qed.

(** X13. [compute_ap] on arrays of matching lengths, with at least one
    threshold column and one label, where for every class and threshold
    the true positives among the detections of the class are no more than
    its labels (so that the recall points are in increasing order, as
    the interpolation expects).  The call returns; [ap] has one row for
    each distinct label class and one entry for each threshold; every
    entry lies between 0 and 0.995, and so do [map50] and [mean_ap].  The
    closing point of the precision envelope is 0, so the last of the 101
    interpolation points always contributes a half interval at most. *)
Theorem compute_ap_at_most_0995 (niou : nat) (tp : list (list bool)) (conf : list R)
    (pred_cls target_cls : list Z) :
  length conf = length tp -> length pred_cls = length tp ->
  Forall (fun r => length r = niou) tp ->
  (1 <= niou)%nat -> target_cls <> [] ->
  (forall c j, (true_positives tp conf pred_cls c j <= count_of c target_cls)%nat) ->
  exists ap map50 mean_ap,
    compute_ap niou tp conf pred_cls target_cls = Some (ap, map50, mean_ap) /\
    length ap = length (unique_counts target_cls) /\
    Forall (fun row => length row = niou /\
                       Forall (fun v => 0 <= v <= 199 / 200) row) ap /\
    0 <= map50 <= 199 / 200 /\
    0 <= mean_ap <= 199 / 200.
Proof.
  intros Hconf Hcls Hrows Hniou Hne Htp.
  destruct (sorted_dets tp conf pred_cls Hconf Hcls)
    as (tp' & conf' & cls' & E1 & E2 & E3 & E4).
  set (dets := map (det_at tp conf pred_cls) (argsort (map Ropp conf))) in *.
  destruct (mapM_all (fun cn => ap_of_class niou dets (fst cn) (snd cn))
                     (unique_counts target_cls)) as [ap Hap].
  { intros [c' n'] _. simpl.
    destruct (ap_of_class_total niou tp conf pred_cls Hconf Hcls Hrows c' n')
      as (row & Hrow & _).
    exists row. exact Hrow. }
  assert (Hwide : Forall (fun row => length row = niou /\
                                     Forall (fun v => 0 <= v <= 199 / 200) row) ap).
  { eapply Forall_impl; [|apply (mapM_out _ _ _ Hap)].
    intros r ([c' n'] & Hin & Hr). simpl in Hr. split.
    - destruct (ap_of_class_total niou tp conf pred_cls Hconf Hcls Hrows c' n')
        as (row & Hrow & Hlen).
      unfold dets in Hr. rewrite Hrow in Hr. injection Hr as <-. exact Hlen.
    - apply (ap_of_class_range niou dets c' n' r); [|exact Hr].
      intros j. rewrite (unique_counts_in c' n' target_cls Hin).
      apply (Htp c' j). }
  destruct (mapM_total (fun r : list R => nth_error r 0) (fun r => length r = niou))
    with (l := ap) as [ap50 Hap50].
  { intros r Hr. destruct r as [|x r]; simpl in *; [lia | eauto]. }
  { eapply Forall_impl; [|exact Hwide]. intros r [Hr _]. exact Hr. }
  assert (Hlen : length ap = length (unique_counts target_cls))
    by apply (mapM_length _ _ _ Hap).
  assert (Hap_ne : ap <> []).
  { intros ->. apply (unique_counts_nonempty target_cls Hne).
    destruct (unique_counts target_cls); [reflexivity | discriminate]. }
  exists ap, (mean ap50), (mean (map mean ap)).
  split; [|split; [exact Hlen|split; [exact Hwide|split]]].
  - unfold compute_ap. cbv zeta. rewrite E1, E2, E3. cbn [bind].
    rewrite E4. fold dets. rewrite Hap. cbn [bind]. rewrite Hap50. reflexivity.
  - apply unit_row_mean.
    + intros ->. apply mapM_length in Hap50. destruct ap; [contradiction | discriminate].
    + eapply Forall_impl; [|apply (mapM_out _ _ _ Hap50)].
      intros v (r & Hr & Hv). cbv beta in Hv.
      rewrite Forall_forall in Hwide. destruct (Hwide r Hr) as [_ Hrow].
      rewrite Forall_forall in Hrow. apply Hrow.
      apply (nth_error_In r 0). exact Hv.
  - apply unit_row_mean.
    + destruct ap; [contradiction | discriminate].
    + apply Forall_forall. intros v Hv. apply in_map_iff in Hv.
      destruct Hv as (r & <- & Hr).
      rewrite Forall_forall in Hwide. destruct (Hwide r Hr) as [Hl Hrow].
      apply unit_row_mean; [|exact Hrow].
      destruct r; [simpl in Hl; lia | discriminate].
Qed.

Lemma compute_ap_at_most_0995_witness :
  exists ap map50 mean_ap,
    compute_ap 1 [[true]] [9 / 10] [0%Z] [0%Z] = Some (ap, map50, mean_ap) /\
    length ap = length (unique_counts [0%Z]) /\
    Forall (fun row => length row = 1%nat /\
                       Forall (fun v => 0 <= v <= 199 / 200) row) ap /\
    0 <= map50 <= 199 / 200 /\
    0 <= mean_ap <= 199 / 200.
Proof.
  apply (compute_ap_at_most_0995 1 [[true]] [9 / 10] [0%Z] [0%Z]).
  - reflexivity.
  - reflexivity.
  - repeat constructor.
  - lia.
  - discriminate.
  - intros c j. unfold true_positives, class_rows, count_of. simpl.
    unfold det_cls, det_at. simpl.
    destruct c; simpl; try lia. destruct j as [|[|j]]; simpl; lia.
Defined.

(** ** [compute_metric]: the true positives of one threshold *)

Lemma get_col_long (k : nat) (t : tensor) :
  Forall (fun r => (k < length r)%nat) t -> get_col k t = Some (col_of k t).
Proof.
  intros Hw. unfold get_col, col_of.
  induction Hw as [|r t Hr Hw IH]; simpl; [reflexivity|].
  destruct (nth_error r k) as [x|] eqn:E.
  - simpl. rewrite IH. simpl. rewrite (nth_error_nth _ _ _ E). reflexivity.
  - apply nth_error_None in E. lia.
Qed.

Lemma row_box_long (k : nat) (r : row) :
  (k + 3 < length r)%nat ->
  row_box k r = Some (Box (nth k r 0) (nth (k + 1) r 0) (nth (k + 2) r 0) (nth (k + 3) r 0)).
Proof.
  intros Hk. unfold row_box.
  assert (H : forall j, (j < length r)%nat -> nth_error r j = Some (nth j r 0)).
  { intros j Hj. apply nth_error_nth'. exact Hj. }
  rewrite !H by lia. reflexivity.
Qed.

Lemma keypoints_fit_inv (output target : tensor)
    (pred_kpt true_kpt : list (list keypoint)) :
  keypoints_fit output target pred_kpt true_kpt = true ->
  length true_kpt = length target /\ length pred_kpt = length output /\
  Forall (fun k => length k = length KPT_SIGMA) true_kpt /\
  Forall (fun k => length k = length KPT_SIGMA) pred_kpt.
Proof.
  unfold keypoints_fit. intros H.
  apply andb_true_iff in H. destruct H as [H H4].
  apply andb_true_iff in H. destruct H as [H H3].
  apply andb_true_iff in H. destruct H as [H1 H2].
  apply Nat.eqb_eq in H1, H2. rewrite forallb_forall in H3, H4.
  repeat split; try assumption; apply Forall_forall; intros k Hk; apply Nat.eqb_eq; auto.
Qed.

Lemma oks_value (a : box) (true_kpt pred_kpt : list keypoint) :
  length true_kpt = length KPT_SIGMA -> length pred_kpt = length KPT_SIGMA ->
  exists v, oks a true_kpt pred_kpt = Some v.
Proof.
  intros Ht Hp. unfold oks. rewrite Ht, Hp, Nat.eqb_refl. cbn [andb]. eauto.
Qed.

Lemma similarity_total (output target : tensor)
    (kpt : option (list (list keypoint) * list (list keypoint))) :
  Forall (fun r => length r = 5%nat) target ->
  Forall (fun r => (6 <= length r)%nat) output ->
  regular_keypoints output target kpt ->
  exists iou, similarity output target kpt = Some iou.
Proof.
  intros Ht Ho Hk. unfold similarity. destruct kpt as [[pred_kpt true_kpt]|].
  - cbn [regular_keypoints] in Hk. rewrite Hk.
    destruct (keypoints_fit_inv _ _ _ _ Hk) as (_ & _ & Ft & Fp).
    apply mapM_all. intros [t tk] Hin.
    pose proof (in_combine_l _ _ _ _ Hin) as Hint.
    pose proof (in_combine_r _ _ _ _ Hin) as Hintk.
    rewrite Forall_forall in Ht. specialize (Ht t Hint). cbn [fst snd].
    rewrite (row_box_long 1 t) by lia. cbn [bind].
    apply mapM_all. intros pk Hpk.
    rewrite Forall_forall in Ft, Fp.
    apply oks_value; [apply Ft; exact Hintk | apply Fp; exact Hpk].
  - apply (mapM_total _ (fun r => length r = 5%nat)); [|exact Ht].
    intros t Hl. rewrite (row_box_long 1 t) by lia. cbn [bind].
    apply (mapM_total _ (fun r => (6 <= length r)%nat)); [|exact Ho].
    intros o Hlo. rewrite (row_box_long 0 o) by lia. cbn [bind]. eauto.
Qed.

(** What a candidate pair of one threshold is. *)
Lemma candidates_in (iou : list (list R)) (target_cls output_cls : list R) (thr : R)
    (m : match_row) :
  In m (candidates iou target_cls output_cls thr) ->
  (m_label m < length target_cls)%nat /\ (m_detect m < length output_cls)%nat /\
  m_iou m = nth (m_detect m) (nth (m_label m) iou []) 0 /\
  thr <= m_iou m /\
  nth (m_label m) target_cls 0 = nth (m_detect m) output_cls 0.
Proof.
  unfold candidates. intros H.
  apply in_concat in H. destruct H as (ms & Hms & Hm).
  apply in_map_iff in Hms. destruct Hms as (l & <- & Hl). apply in_seq in Hl.
  apply in_concat in Hm. destruct Hm as (ms' & Hms' & Hm).
  apply in_map_iff in Hms'. destruct Hms' as (d & <- & Hd). apply in_seq in Hd.
  cbv zeta in Hm.
  destruct (Rleb thr (nth d (nth l iou []) 0)) eqn:E1; [|destruct Hm].
  destruct (Reqb (nth l target_cls 0) (nth d output_cls 0)) eqn:E2; [|destruct Hm].
  cbn [andb] in Hm. destruct Hm as [<-|[]]. cbn [m_label m_detect m_iou].
  apply Rleb_spec in E1. apply Reqb_spec in E2.
  repeat split; try lia; assumption.
Qed.

Lemma accepted_in_candidates (cands : list match_row) (m : match_row) :
  In m (accepted_matches cands) -> In m cands.
Proof.
  intros H. destruct (accepted_matches_spec cands) as (_ & _ & H3 & _).
  apply (per_detection_best cands m). apply H3. exact H.
Qed.

Lemma NoDup_map_filter {A B : Type} (key : A -> B) (keep : A -> bool) (rows : list A) :
  NoDup (map key rows) -> NoDup (map key (filter keep rows)).
Proof.
  induction rows as [|a rows IH]; simpl; intros H; [constructor|].
  inversion H as [|? ? Ha Hrows]; subst.
  destruct (keep a); simpl; [|apply IH; exact Hrows].
  constructor; [|apply IH; exact Hrows].
  intros Hin. apply Ha. apply in_map_iff in Hin. destruct Hin as (x & Hx & Hin).
  apply filter_In in Hin. apply in_map_iff. exists x. tauto.
Qed.

(** The counting argument: the accepted matches pair the marked
    detections of a class with distinct labels of that class. *)
Lemma accepted_per_class (iou : list (list R)) (target_cls output_cls : list R)
    (thr c : R) (n : nat) :
  let ms := accepted_matches (candidates iou target_cls output_cls thr) in
  (length
     (filter (fun d => existsb (fun m => (m_detect m =? d)%nat) ms
                       && Reqb (nth d output_cls 0%R) c)
             (seq 0 n))
   <= length (labels_of_class target_cls c))%nat.
Proof.
  intros ms.
  set (ms_c := filter (fun m => Reqb (nth (m_detect m) output_cls 0) c) ms).
  destruct (accepted_matches_spec (candidates iou target_cls output_cls thr))
    as (Nl & Nd & _ & _). fold ms in Nl, Nd.
  apply Nat.le_trans with (length (map m_detect ms_c)).
  - apply NoDup_incl_length.
    + apply NoDup_filter. apply seq_NoDup.
    + intros d Hd. apply filter_In in Hd. destruct Hd as [_ Hd].
      apply andb_true_iff in Hd. destruct Hd as [He Hc].
      apply existsb_exists in He. destruct He as (m & Hm & Ed).
      apply Nat.eqb_eq in Ed. subst d.
      apply in_map. unfold ms_c. apply filter_In. split; assumption.
  - rewrite length_map, <- (length_map m_label ms_c).
    apply NoDup_incl_length.
    + unfold ms_c. apply NoDup_map_filter. exact Nl.
    + intros l Hl. apply in_map_iff in Hl. destruct Hl as (m & <- & Hm).
      unfold ms_c in Hm. apply filter_In in Hm. destruct Hm as [Hm Hc].
      apply accepted_in_candidates in Hm.
      destruct (candidates_in _ _ _ _ m Hm) as (H1 & _ & _ & _ & H5).
      unfold labels_of_class. apply filter_In. split.
      * apply in_seq. lia.
      * rewrite H5. exact Hc.
Qed.

(** What [compute_metric] returns, cell by cell. *)
Lemma compute_metric_cells (output target : tensor) (iou_v : list R)
    (kpt : option (list (list keypoint) * list (list keypoint))) :
  Forall (fun r => length r = 5%nat) target ->
  Forall (fun r => (6 <= length r)%nat) output ->
  regular_keypoints output target kpt ->
  exists correct iou,
    compute_metric output target iou_v kpt = Some correct /\
    similarity output target kpt = Some iou /\
    length correct = length output /\
    Forall (fun r => length r = length iou_v) correct /\
    (forall i c, (i < length iou_v)%nat ->
       (length (correct_of_class correct (col_of 5 output) c i)
        <= length (labels_of_class (col_of 0 target) c))%nat) /\
    (forall i d, (i < length iou_v)%nat ->
       nth i (nth d correct []) false = true ->
       exists l, (l < length target)%nat /\ (d < length output)%nat /\
                 nth l (col_of 0 target) 0 = nth d (col_of 5 output) 0 /\
                 nth i iou_v 0 <= nth d (nth l iou []) 0).
Proof.
  intros Ht Ho Hk.
  destruct (similarity_total output target kpt Ht Ho Hk) as [iou Hiou].
  assert (Et : get_col 0 target = Some (col_of 0 target)).
  { apply get_col_long. eapply Forall_impl; [|exact Ht]. intros r Hr. cbv beta in *. lia. }
  assert (Eo : get_col 5 output = Some (col_of 5 output)).
  { apply get_col_long. eapply Forall_impl; [|exact Ho]. intros r Hr. cbv beta in *. lia. }
  set (tc := col_of 0 target) in *. set (oc := col_of 5 output) in *.
  set (accepted := map (fun thr => accepted_matches (candidates iou tc oc thr)) iou_v).
  set (correct := map (fun d => map (fun ms => existsb (fun m => (m_detect m =? d)%nat) ms)
                                    accepted)
                      (seq 0 (length output))).
  assert (Hrow : forall d, (d < length output)%nat ->
            nth d correct [] =
            map (fun ms => existsb (fun m => (m_detect m =? d)%nat) ms) accepted).
  { intros d Hd. unfold correct.
    rewrite (nth_indep _ [] (map (fun ms => existsb (fun m => (m_detect m =? 0)%nat) ms)
                                 accepted))
      by (rewrite length_map, length_seq; exact Hd).
    rewrite (map_nth (fun d => map (fun ms => existsb (fun m => (m_detect m =? d)%nat) ms)
                                   accepted) (seq 0 (length output)) 0%nat d).
    rewrite seq_nth by exact Hd. reflexivity. }
  assert (Hcell : forall i d, (i < length iou_v)%nat -> (d < length output)%nat ->
            nth i (nth d correct []) false =
            existsb (fun m => (m_detect m =? d)%nat)
                    (accepted_matches (candidates iou tc oc (nth i iou_v 0)))).
  { intros i d Hi Hd. rewrite (Hrow d Hd).
    rewrite (nth_indep _ false (existsb (fun m => (m_detect m =? d)%nat) []))
      by (unfold accepted; rewrite !length_map; exact Hi).
    rewrite (map_nth (fun ms => existsb (fun m => (m_detect m =? d)%nat) ms) accepted [] i).
    f_equal. unfold accepted.
    rewrite (nth_indep _ [] (accepted_matches (candidates iou tc oc 0)))
      by (rewrite length_map; exact Hi).
    apply (map_nth (fun thr => accepted_matches (candidates iou tc oc thr)) iou_v 0 i). }
  assert (Hlen : length correct = length output)
    by (unfold correct; rewrite length_map, length_seq; reflexivity).
  exists correct, iou.
  split; [|split; [exact Hiou|split; [exact Hlen|split; [|split]]]].
  - unfold compute_metric. rewrite Hiou. cbn [bind]. rewrite Et. cbn [bind].
    rewrite Eo. cbn [bind]. reflexivity.
  - apply Forall_forall. intros r Hr. unfold correct in Hr.
    apply in_map_iff in Hr. destruct Hr as (d & <- & _).
    unfold accepted. rewrite !length_map. reflexivity.
  - intros i c Hi. unfold correct_of_class. rewrite Hlen.
    rewrite (filter_ext_in
               (fun d => nth i (nth d correct []) false && Reqb (nth d oc 0) c)
               (fun d => existsb (fun m => (m_detect m =? d)%nat)
                                 (accepted_matches (candidates iou tc oc (nth i iou_v 0)))
                         && Reqb (nth d oc 0) c)).
    + apply accepted_per_class.
    + intros d Hd. apply in_seq in Hd. rewrite Hcell by lia. reflexivity.
  - intros i d Hi Hc.
    assert (Hd : (d < length output)%nat).
    { destruct (Nat.lt_ge_cases d (length output)) as [H|H]; [exact H|].
      rewrite (nth_overflow correct) in Hc by (rewrite Hlen; exact H).
      destruct i; discriminate. }
    rewrite Hcell in Hc by assumption.
    apply existsb_exists in Hc. destruct Hc as (m & Hm & Ed).
    apply Nat.eqb_eq in Ed. apply accepted_in_candidates in Hm.
    destruct (candidates_in _ _ _ _ m Hm) as (H1 & H2 & H3 & H4 & H5).
    subst d. exists (m_label m).
    split; [unfold tc, col_of in H1; rewrite length_map in H1; exact H1|].
    split; [exact Hd|]. split; [exact H5|]. rewrite <- H3. exact H4.
Qed.

(** X14. [compute_metric] on label rows [cls, x1, y1, x2, y2] and
    detection rows of at least six columns, in the box branch and, for
    keypoints of the shapes of the caller (one set of 17 keypoints for
    each label and each detection), in the keypoint branch.  The call
    returns a matrix [correct] of one row for each detection and one
    column for each threshold.  In every threshold column and for every
    class, the detections of the class that are marked correct are no more
    than the labels of the class, and a marked detection has a label of
    its own class whose similarity to it reaches the threshold. *)
Theorem compute_metric_true_positives (output target : tensor) (iou_v : list R)
    (kpt : option (list (list keypoint) * list (list keypoint))) :
  Forall (fun r => length r = 5%nat) target ->
  Forall (fun r => (6 <= length r)%nat) output ->
  regular_keypoints output target kpt ->
  exists correct iou,
    compute_metric output target iou_v kpt = Some correct /\
    similarity output target kpt = Some iou /\
    length correct = length output /\
    Forall (fun r => length r = length iou_v) correct /\
    (forall i c, (i < length iou_v)%nat ->
       (length (correct_of_class correct (col_of 5 output) c i)
        <= length (labels_of_class (col_of 0 target) c))%nat) /\
    (forall i d, (i < length iou_v)%nat ->
       nth i (nth d correct []) false = true ->
       exists l, (l < length target)%nat /\ (d < length output)%nat /\
                 nth l (col_of 0 target) 0 = nth d (col_of 5 output) 0 /\
                 nth i iou_v 0 <= nth d (nth l iou []) 0).
Proof. apply compute_metric_cells. Qed.

Lemma compute_metric_true_positives_witness :
  exists correct iou,
    compute_metric metric_output metric_target [1 / 2] metric_keypoints = Some correct /\
    similarity metric_output metric_target metric_keypoints = Some iou /\
    length correct = length metric_output /\
    Forall (fun r => length r = length [1 / 2]) correct /\
    (forall i c, (i < length [1 / 2])%nat ->
       (length (correct_of_class correct (col_of 5 metric_output) c i)
        <= length (labels_of_class (col_of 0 metric_target) c))%nat) /\
    (forall i d, (i < length [1 / 2])%nat ->
       nth i (nth d correct []) false = true ->
       exists l, (l < length metric_target)%nat /\ (d < length metric_output)%nat /\
                 nth l (col_of 0 metric_target) 0 = nth d (col_of 5 metric_output) 0 /\
                 nth i [1 / 2] 0 <= nth d (nth l iou []) 0).
Proof.
  apply (compute_metric_true_positives metric_output metric_target [1 / 2]
           metric_keypoints).
  - repeat constructor.
  - repeat constructor.
  - reflexivity.
Defined.

(** ** [compute_metric]: the range of the similarity *)

Lemma clamp0_below (z w : R) : 0 <= w -> z <= w -> 0 <= clamp0 z <= w.
Proof.
  intros Hw Hz. split; [apply clamp0_nonneg|].
  unfold clamp0. apply Rmax_lub; assumption.
Qed.

Lemma ratio_unit_range (s u : R) : 0 <= s <= u -> unit_range (s / (u + eps7)).
Proof.
  intros [H0 H1]. pose proof eps7_pos as He. unfold unit_range. split.
  - apply Rmult_le_pos; [exact H0|]. left. apply Rinv_0_lt_compat. lra.
  - apply Rmult_le_reg_r with (u + eps7); [lra|].
    unfold Rdiv. rewrite Rmult_assoc, Rinv_l by lra. lra.
Qed.

Lemma box_iou_unit_range (a b : box) :
  corner_form a -> corner_form b -> unit_range (box_iou a b).
Proof.
  intros [Ha1 Ha2] [Hb1 Hb2]. unfold box_iou. cbv zeta.
  set (iw := clamp0 (Rmin (bx2 a) (bx2 b) - Rmax (bx1 a) (bx1 b))).
  set (ih := clamp0 (Rmin (by2 a) (by2 b) - Rmax (by1 a) (by1 b))).
  assert (Hwa : 0 <= iw <= bx2 a - bx1 a).
  { apply clamp0_below; [lra|].
    pose proof (Rmin_l (bx2 a) (bx2 b)). pose proof (Rmax_l (bx1 a) (bx1 b)). lra. }
  assert (Hwb : 0 <= iw <= bx2 b - bx1 b).
  { apply clamp0_below; [lra|].
    pose proof (Rmin_r (bx2 a) (bx2 b)). pose proof (Rmax_r (bx1 a) (bx1 b)). lra. }
  assert (Hha : 0 <= ih <= by2 a - by1 a).
  { apply clamp0_below; [lra|].
    pose proof (Rmin_l (by2 a) (by2 b)). pose proof (Rmax_l (by1 a) (by1 b)). lra. }
  assert (Hhb : 0 <= ih <= by2 b - by1 b).
  { apply clamp0_below; [lra|].
    pose proof (Rmin_r (by2 a) (by2 b)). pose proof (Rmax_r (by1 a) (by1 b)). lra. }
  assert (Hia : iw * ih <= (bx2 a - bx1 a) * (by2 a - by1 a))
    by (apply Rmult_le_compat; lra).
  assert (Hib : iw * ih <= (bx2 b - bx1 b) * (by2 b - by1 b))
    by (apply Rmult_le_compat; lra).
  apply ratio_unit_range. split; [apply Rmult_le_pos; lra | lra].
Qed.

Lemma KPT_SIGMA_positive : Forall (fun s => 0 < s) KPT_SIGMA.
Proof. unfold KPT_SIGMA. cbn [map]. repeat constructor; lra. Qed.

Lemma zipWith3_Forall {A B C D : Type} (P : D -> Prop) (Q : C -> Prop)
    (f : A -> B -> C -> D) (l1 : list A) (l2 : list B) (l3 : list C) :
  (forall a b c, Q c -> P (f a b c)) -> Forall Q l3 -> Forall P (zipWith3 f l1 l2 l3).
Proof.
  intros Hf H3. revert l1 l2.
  induction H3 as [|c l3 Hc Hl3 IH]; intros [|a l1] [|b l2]; simpl; constructor; auto.
Qed.

Lemma masked_sum_range (e mask : list R) :
  Forall (fun ek => 0 <= ek) e -> Forall (fun m => 0 <= m) mask ->
  0 <= Rsum (zipWith (fun ek m => exp (- ek) * m) e mask) <= Rsum mask.
Proof.
  intros He. revert mask. induction He as [|ek e Hek He IH]; intros mask Hm.
  - simpl. pose proof (Rsum_nonneg mask Hm). destruct mask; simpl in *; lra.
  - destruct Hm as [|m mask Hm0 Hm]; [simpl; lra|].
    change (zipWith (fun ek m => exp (- ek) * m) (ek :: e) (m :: mask))
      with (exp (- ek) * m :: zipWith (fun ek m => exp (- ek) * m) e mask).
    cbn [Rsum fold_right]. fold (Rsum mask).
    fold (Rsum (zipWith (fun ek m => exp (- ek) * m) e mask)).
    specialize (IH mask Hm). pose proof (one_minus_exp_range ek Hek) as Hx.
    pose proof (exp_pos (- ek)). nra.
Qed.

Lemma oks_unit_range (a : box) (true_kpt pred_kpt : list keypoint) (v : R) :
  corner_form a -> oks a true_kpt pred_kpt = Some v -> unit_range v.
Proof.
  intros [Ha1 Ha2]. unfold oks.
  destruct (_ && _); [|discriminate]. cbv zeta. intros H. injection H as <-.
  apply ratio_unit_range. apply masked_sum_range.
  - apply (zipWith3_Forall _ (fun s => 0 < s)); [|apply KPT_SIGMA_positive].
    intros t p sigma Hs. pose proof eps7_pos as He.
    assert (Harea : 0 < (bx2 a - bx1 a) * (by2 a - by1 a) * (53 / 100) + eps7).
    { assert (0 <= (bx2 a - bx1 a) * (by2 a - by1 a)) by (apply Rmult_le_pos; lra). lra. }
    assert (Hs2 : 0 < (2 * sigma) ^ 2) by (simpl; nra).
    assert (Hd : 0 <= (kx t - kx p) ^ 2 + (ky t - ky p) ^ 2).
    { pose proof (pow2_ge_0 (kx t - kx p)). pose proof (pow2_ge_0 (ky t - ky p)). lra. }
    unfold Rdiv. repeat apply Rmult_le_pos; try lra;
      left; apply Rinv_0_lt_compat; assumption.
  - apply Forall_forall. intros m Hm. apply in_map_iff in Hm.
    destruct Hm as (p & <- & _). destruct (Reqb (kv p) 0); lra.
Qed.

Lemma row_box_corner_form (k : nat) (r : row) (b : box) :
  row_corner_form k r -> row_box k r = Some b -> corner_form b.
Proof.
  intros [H1 H2] Hb. unfold row_box in Hb.
  destruct (nth_error r k) as [x1|] eqn:E1; [|discriminate].
  destruct (nth_error r (k + 1)) as [y1|] eqn:E2; [|discriminate].
  destruct (nth_error r (k + 2)) as [x2|] eqn:E3; [|discriminate].
  destruct (nth_error r (k + 3)) as [y2|] eqn:E4; [|discriminate].
  cbn [bind] in Hb. injection Hb as <-.
  rewrite (nth_error_nth _ _ 0 E1), (nth_error_nth _ _ 0 E3) in H1.
  rewrite (nth_error_nth _ _ 0 E2), (nth_error_nth _ _ 0 E4) in H2.
  split; assumption.
Qed.

Lemma similarity_unit_range (output target : tensor)
    (kpt : option (list (list keypoint) * list (list keypoint))) (iou : list (list R)) :
  Forall (row_corner_form 1) target -> Forall (row_corner_form 0) output ->
  similarity output target kpt = Some iou ->
  Forall (Forall unit_range) iou.
Proof.
  intros Ht Ho. unfold similarity. destruct kpt as [[pred_kpt true_kpt]|]; intros H.
  - destruct (keypoints_fit _ _ _ _); [|discriminate].
    eapply Forall_impl; [|apply (mapM_out _ _ _ H)].
    intros row ([t tk] & Hin & Hrow). cbn [fst snd] in Hrow.
    destruct (row_box 1 t) as [a|] eqn:Ea; [|discriminate]. cbn [bind] in Hrow.
    apply in_combine_l in Hin.
    rewrite Forall_forall in Ht.
    pose proof (row_box_corner_form 1 t a (Ht t Hin) Ea) as Hca.
    eapply Forall_impl; [|apply (mapM_out _ _ _ Hrow)].
    intros v (pk & _ & Hv). apply (oks_unit_range a tk pk v Hca Hv).
  - eapply Forall_impl; [|apply (mapM_out _ _ _ H)].
    intros row (t & Hin & Hrow). cbv beta in Hrow.
    destruct (row_box 1 t) as [a|] eqn:Ea; [|discriminate]. cbn [bind] in Hrow.
    rewrite Forall_forall in Ht.
    pose proof (row_box_corner_form 1 t a (Ht t Hin) Ea) as Hca.
    eapply Forall_impl; [|apply (mapM_out _ _ _ Hrow)].
    intros v (o & Hino & Hv). cbv beta in Hv.
    destruct (row_box 0 o) as [b|] eqn:Eb; [|discriminate]. cbn [bind] in Hv.
    injection Hv as <-. rewrite Forall_forall in Ho.
    apply box_iou_unit_range; [exact Hca|].
    apply (row_box_corner_form 0 o b (Ho o Hino) Eb).
Qed.

Lemma unit_range_entry (iou : list (list R)) (l d : nat) :
  Forall (Forall unit_range) iou -> unit_range (nth d (nth l iou []) 0).
Proof.
  intros H. apply unit_range_nth.
  destruct (Nat.lt_ge_cases l (length iou)) as [Hl|Hl].
  - rewrite Forall_forall in H. apply H. apply nth_In. exact Hl.
  - rewrite nth_overflow by exact Hl. constructor.
Qed.

(** X15. [compute_metric] on label rows [cls, x1, y1, x2, y2] and
    detection rows [x1, y1, x2, y2, conf, cls, ...] whose boxes are in
    corner form, with keypoints (if any) of the shapes of the caller.  In
    both branches every similarity lies between 0 and 1: the intersection
    is no larger than either box, and each keypoint term no larger than
    its mask entry.  So no detection is marked correct in the column of a
    threshold above 1. *)
Theorem compute_metric_similarity_range (output target : tensor) (iou_v : list R)
    (kpt : option (list (list keypoint) * list (list keypoint))) :
  Forall (fun r => length r = 5%nat /\ row_corner_form 1 r) target ->
  Forall (fun r => (6 <= length r)%nat /\ row_corner_form 0 r) output ->
  regular_keypoints output target kpt ->
  exists correct iou,
    compute_metric output target iou_v kpt = Some correct /\
    similarity output target kpt = Some iou /\
    Forall (Forall unit_range) iou /\
    (forall i d, (i < length iou_v)%nat -> 1 < nth i iou_v 0 ->
       nth i (nth d correct []) false = false).
Proof.
  intros Ht Ho Hk.
  assert (Ht1 : Forall (fun r => length r = 5%nat) target)
    by (eapply Forall_impl; [|exact Ht]; intros r [H _]; exact H).
  assert (Ht2 : Forall (row_corner_form 1) target)
    by (eapply Forall_impl; [|exact Ht]; intros r [_ H]; exact H).
  assert (Ho1 : Forall (fun r => (6 <= length r)%nat) output)
    by (eapply Forall_impl; [|exact Ho]; intros r [H _]; exact H).
  assert (Ho2 : Forall (row_corner_form 0) output)
    by (eapply Forall_impl; [|exact Ho]; intros r [_ H]; exact H).
  destruct (compute_metric_cells output target iou_v kpt Ht1 Ho1 Hk)
    as (correct & iou & Hc & Hiou & _ & _ & _ & Hmark).
  pose proof (similarity_unit_range output target kpt iou Ht2 Ho2 Hiou) as Hr.
  exists correct, iou. split; [exact Hc|]. split; [exact Hiou|]. split; [exact Hr|].
  intros i d Hi Hthr.
  destruct (nth i (nth d correct []) false) eqn:E; [|reflexivity].
  destruct (Hmark i d Hi E) as (l & _ & _ & _ & Hge).
  pose proof (unit_range_entry iou l d Hr) as Hb. unfold unit_range in Hb. lra.
Qed.

Lemma compute_metric_similarity_range_witness :
  exists correct iou,
    compute_metric metric_output metric_target [1 / 2; 2] metric_keypoints
    = Some correct /\
    similarity metric_output metric_target metric_keypoints = Some iou /\
    Forall (Forall unit_range) iou /\
    (forall i d, (i < length [1 / 2; 2])%nat -> 1 < nth i [1 / 2; 2] 0 ->
       nth i (nth d correct []) false = false).
Proof.
  apply (compute_metric_similarity_range metric_output metric_target [1 / 2; 2]
           metric_keypoints).
  - repeat constructor; unfold row_corner_form; simpl; lra.
  - repeat constructor; unfold row_corner_form; simpl; lra.
  - reflexivity.
Defined.

(** ** [ComputeLoss.__call__]: the ground truths of the batch *)

Lemma max_of_counts (f : R -> nat) (l : list R) (x : R) :
  In x l -> (f x <= fold_right Nat.max 0 (map f l))%nat.
Proof.
  induction l as [|a l IH]; [contradiction|].
  cbn [map fold_right]. intros [->|Hx]; [lia|]. specialize (IH Hx). lia.
Qed.

Lemma count_le_max_count (v : R) (idx : list R) :
  (count_of_index v idx <= max_count idx)%nat.
Proof.
  destruct (Nat.eq_dec (count_of_index v idx) 0) as [E|Hpos]; [lia|].
  assert (Hin : exists x, In x idx /\ x = v).
  { unfold count_of_index in Hpos.
    destruct (filter (fun x => Reqb x v) idx) as [|x l] eqn:Ef; [contradiction|].
    assert (Hx : In x (filter (fun x => Reqb x v) idx)) by (rewrite Ef; left; reflexivity).
    apply filter_In in Hx. destruct Hx as [Hx Hv]. apply Reqb_spec in Hv. eauto. }
  destruct Hin as (x & Hx & ->).
  unfold max_count. apply (max_of_counts (fun v => count_of_index v idx)). exact Hx.
Qed.

Lemma own_targets_count (targets : list target) (j : nat) :
  length (filter (fun t => Reqb (t_idx t) (INR j)) targets)
  = count_of_index (INR j) (map t_idx targets).
Proof.
  unfold count_of_index. induction targets as [|t targets IH]; [reflexivity|].
  cbn [filter map]. destruct (Reqb (t_idx t) (INR j)); cbn [length]; rewrite IH; reflexivity.
Qed.

Lemma gt_of_batch_image (batch_size : nat) (W H : R) (targets : list target) (j : nat) :
  (j < batch_size)%nat ->
  nth j (gt_of_batch batch_size W H targets) []
  = map (gt_scale W H) (gt_raw (max_count (map t_idx targets)) targets j).
Proof.
  intros Hj. unfold gt_of_batch. destruct targets as [|t targets].
  - rewrite nth_repeat. reflexivity.
  - cbv zeta.
    rewrite (nth_indep _ [] (map (gt_scale W H)
                                 (gt_raw (max_count (map t_idx (t :: targets)))
                                         (t :: targets) 0)))
      by (rewrite length_map, length_seq; exact Hj).
    rewrite (map_nth (fun j => map (gt_scale W H)
                                   (gt_raw (max_count (map t_idx (t :: targets)))
                                           (t :: targets) j))
                     (seq 0 batch_size) 0%nat j).
    rewrite seq_nth by exact Hj. reflexivity.
Qed.

Lemma mask_of_gt_entry (gt : list (list row)) (j k : nat) :
  (k < length (nth j gt []))%nat ->
  nth k (nth j (mask_of_gt gt) []) false
  = Rltb 0 (Rsum (skipn 1 (nth k (nth j gt []) []))).
Proof.
  intros Hk. unfold mask_of_gt.
  assert (Hj : (j < length gt)%nat).
  { destruct (Nat.lt_ge_cases j (length gt)) as [H|H]; [exact H|].
    rewrite nth_overflow in Hk by exact H. simpl in Hk. lia. }
  rewrite (nth_indep _ [] (map (fun r => Rltb 0 (Rsum (skipn 1 r))) []))
    by (rewrite length_map; exact Hj).
  rewrite (map_nth (map (fun r => Rltb 0 (Rsum (skipn 1 r)))) gt [] j).
  rewrite (nth_indep _ false (Rltb 0 (Rsum (skipn 1 []))))
    by (rewrite length_map; exact Hk).
  apply (map_nth (fun r => Rltb 0 (Rsum (skipn 1 r))) (nth j gt []) [] k).
Qed.

(** X16. The ground truths that [ComputeLoss.__call__] hands to the
    assigner, for an image [j] of the batch.  Every image gets the same
    number of rows, the largest number of targets that share an image
    index.  The first rows of image [j] are its targets in their order:
    the class, and the corners of the box scaled to the image size, which
    are those [wh2xy] gives; such a row is valid in [mask_gt] exactly when
    [cx * W + cy * H > 0], whatever its width and height.  The rows after
    them are zeros and are not valid. *)
Theorem gt_padding_is_masked (batch_size : nat) (W H : R) (targets : list target)
    (j : nat) :
  (j < batch_size)%nat ->
  let own := filter (fun t => Reqb (t_idx t) (INR j)) targets in
  let gt := gt_of_batch batch_size W H targets in
  let m := max_count (map t_idx targets) in
  length gt = batch_size /\
  length (nth j gt []) = m /\ (length own <= m)%nat /\
  (forall k t, nth_error own k = Some t ->
     nth k (nth j gt []) []
     = [t_cls t; t_cx t * W - t_w t * W / 2; t_cy t * H - t_h t * H / 2;
        t_cx t * W + t_w t * W / 2; t_cy t * H + t_h t * H / 2] /\
     wh2xy_row [t_cx t * W; t_cy t * H; t_w t * W; t_h t * H]
     = Some (skipn 1 (nth k (nth j gt []) [])) /\
     (nth k (nth j (mask_of_gt gt) []) false = true <->
      0 < t_cx t * W + t_cy t * H)) /\
  (forall k, (length own <= k < m)%nat ->
     nth k (nth j gt []) [] = [0; 0; 0; 0; 0] /\
     nth k (nth j (mask_of_gt gt) []) false = false).
Proof.
  intros Hj own gt m.
  assert (Hown : (length own <= m)%nat).
  { unfold own, m. rewrite own_targets_count. apply count_le_max_count. }
  assert (Egt : nth j gt [] = map (gt_scale W H) (gt_raw m targets j))
    by (apply gt_of_batch_image; exact Hj).
  assert (Eraw : gt_raw m targets j
                 = map (fun t => [t_cls t; t_cx t; t_cy t; t_w t; t_h t]) own
                   ++ repeat [0; 0; 0; 0; 0] (m - length own)).
  { unfold gt_raw. cbv zeta. fold own. rewrite length_map. reflexivity. }
  assert (Hlen : length (nth j gt []) = m).
  { rewrite Egt, Eraw, length_map, length_app, length_map, repeat_length. lia. }
  split; [|split; [exact Hlen|split; [exact Hown|split]]].
  - unfold gt, gt_of_batch. destruct targets.
    + apply repeat_length.
    + cbv zeta. rewrite length_map, length_seq. reflexivity.
  - intros k t Hk.
    assert (Hklen : (k < length own)%nat).
    { apply nth_error_Some. rewrite Hk. discriminate. }
    assert (Erow : nth k (nth j gt []) []
                   = [t_cls t; t_cx t * W - t_w t * W / 2; t_cy t * H - t_h t * H / 2;
                      t_cx t * W + t_w t * W / 2; t_cy t * H + t_h t * H / 2]).
    { rewrite Egt, Eraw.
      rewrite (nth_indep _ [] (gt_scale W H []))
        by (rewrite length_map, length_app, length_map; lia).
      rewrite (map_nth (gt_scale W H)).
      rewrite app_nth1 by (rewrite length_map; exact Hklen).
      rewrite (nth_indep _ [] ((fun t => [t_cls t; t_cx t; t_cy t; t_w t; t_h t]) t))
        by (rewrite length_map; exact Hklen).
      rewrite (map_nth (fun t => [t_cls t; t_cx t; t_cy t; t_w t; t_h t]) own t k).
      rewrite (nth_error_nth _ _ t Hk). reflexivity. }
    split; [exact Erow|]. split.
    + rewrite Erow. reflexivity.
    + rewrite mask_of_gt_entry by (rewrite Hlen; lia).
      rewrite Erow. cbn [skipn Rsum fold_right]. rewrite Rltb_spec. split; intros; lra.
  - intros k Hk.
    assert (Erow : nth k (nth j gt []) [] = [0; 0; 0; 0; 0]).
    { rewrite Egt, Eraw.
      rewrite (nth_indep _ [] (gt_scale W H []))
        by (rewrite length_map, length_app, length_map, repeat_length; lia).
      rewrite (map_nth (gt_scale W H)).
      rewrite app_nth2 by (rewrite length_map; lia).
      rewrite nth_repeat_lt by (rewrite length_map; lia).
      cbn [gt_scale]. repeat f_equal; field. }
    split; [exact Erow|].
    rewrite mask_of_gt_entry by (rewrite Hlen; lia).
    rewrite Erow. cbn [skipn Rsum fold_right]. apply Rltb_false. lra.
Qed.

Lemma gt_padding_is_masked_witness :
  let own := filter (fun t => Reqb (t_idx t) (INR 0)) targets_example in
  let gt := gt_of_batch 2 640 640 targets_example in
  let m := max_count (map t_idx targets_example) in
  length gt = 2%nat /\
  length (nth 0 gt []) = m /\ (length own <= m)%nat /\
  (forall k t, nth_error own k = Some t ->
     nth k (nth 0 gt []) []
     = [t_cls t; t_cx t * 640 - t_w t * 640 / 2; t_cy t * 640 - t_h t * 640 / 2;
        t_cx t * 640 + t_w t * 640 / 2; t_cy t * 640 + t_h t * 640 / 2] /\
     wh2xy_row [t_cx t * 640; t_cy t * 640; t_w t * 640; t_h t * 640]
     = Some (skipn 1 (nth k (nth 0 gt []) [])) /\
     (nth k (nth 0 (mask_of_gt gt) []) false = true <->
      0 < t_cx t * 640 + t_cy t * 640)) /\
  (forall k, (length own <= k < m)%nat ->
     nth k (nth 0 gt []) [] = [0; 0; 0; 0; 0] /\
     nth k (nth 0 (mask_of_gt gt) []) false = false).
Proof.
  apply (gt_padding_is_masked 2 640 640 targets_example 0). lia.
Defined.
